(** * Content acquisition and extraction engine: a shallow embedding

    The development embeds, function by function, the parts of the
    repository that retrieve a page and turn it into an article record:

    - [services/content-processor/src/processors/text_extractor.py]
      (URL normalisation, the three transports, [fetch_html], the four
      extraction methods and the [extract] chain),
    - [services/content-processor/src/processors/metadata_extractor.py]
      ([extract_keywords]),
    - [services/news-fetcher/src/fetchers/rss_fetcher.py] and
      [services/news-fetcher/src/utils/state_store.py]
      ([RSSFetcher.fetch_feed] and [FeedHTTPState]).

    Conventions.
    - Python [str] is [string]; a character is a code point below 256.
      The character classes ([str.lower], [str.isspace], [str.isalnum])
      are the ones CPython uses on that range.
    - Python [int] is [Z]; a [float] duration is an exact rational [Q].
    - Exceptions are values: a computation returns [Ok a] or [Raise e].
    - Effects (network, clock, randomness, third-party parsers) are read
      from an explicit environment and recorded in a trace of events.
    - [urllib.parse] is modelled after CPython 3.11, the interpreter line
      the repository's tests require at least ([sys.version_info >= (3, 10)]).
*)

From Stdlib Require Import ZArith QArith Lia Lqa.
From Stdlib Require Import Ascii.
From stdpp Require Import base option list gmap strings.

Close Scope Q_scope.
Open Scope Z_scope.

(** ** Python values *)

Module Py.

(** The exception classes whose difference the control flow observes. *)
Inductive exn : Type :=
  | ValueError               (* urlsplit on a malformed authority, sleep(<0) *)
  | IndexError               (* random.choice on an empty sequence *)
  | Timeout                  (* requests.exceptions.Timeout *)
  | RequestException         (* any other requests.exceptions.RequestException *)
  | OtherError.              (* any other subclass of Exception *)

Inductive result (A : Type) : Type :=
  | Ok (a : A)
  | Raise (e : exn).
Arguments Ok {A} a.
Arguments Raise {A} e.

Definition is_requests_exception (e : exn) : bool :=
  match e with Timeout | RequestException => true | _ => false end.

(** *** Characters *)

Definition code (c : ascii) : N := N_of_ascii c.

Definition in_range (lo hi : N) (c : ascii) : bool :=
  ((lo <=? code c) && (code c <=? hi))%N.

Definition is_ascii_upper (c : ascii) : bool := in_range 65 90 c.
Definition is_ascii_lower (c : ascii) : bool := in_range 97 122 c.
Definition is_ascii_alpha (c : ascii) : bool := is_ascii_upper c || is_ascii_lower c.
Definition is_ascii_digit (c : ascii) : bool := in_range 48 57 c.

(** [str.lower] on one code point: A-Z and the Latin-1 capitals
    (0xC0-0xDE except the multiplication sign 0xD7) move up by 32. *)
Definition lower_char (c : ascii) : ascii :=
  if is_ascii_upper c || (in_range 192 222 c && negb (code c =? 215)%N)
  then ascii_of_N (code c + 32) else c.

(** [str.isspace] *)
Definition isspace (c : ascii) : bool :=
  in_range 9 13 c || in_range 28 32 c || (code c =? 133)%N || (code c =? 160)%N.

(** [str.isalnum] *)
Definition isalnum (c : ascii) : bool :=
  is_ascii_digit c || is_ascii_alpha c
  || (code c =? 170)%N || in_range 178 179 c || (code c =? 181)%N
  || in_range 185 186 c || in_range 188 190 c
  || in_range 192 214 c || in_range 216 246 c || in_range 248 255 c.

(** *** Strings *)

Definition len (s : string) : Z := Z.of_nat (String.length s).

(** Truthiness of a [str]. *)
Definition nonempty (s : string) : bool :=
  match s with EmptyString => false | String _ _ => true end.

Fixpoint lower (s : string) : string :=
  match s with
  | EmptyString => EmptyString
  | String c s' => String (lower_char c) (lower s')
  end.

(** [s[:n]] and [s[n:]] for a non-negative literal [n]. *)
Fixpoint take (n : nat) (s : string) : string :=
  match n, s with
  | S n', String c s' => String c (take n' s')
  | _, _ => EmptyString
  end.

Fixpoint drop (n : nat) (s : string) : string :=
  match n, s with
  | S n', String _ s' => drop n' s'
  | _, _ => s
  end.

Fixpoint startswith (p s : string) : bool :=
  match p, s with
  | EmptyString, _ => true
  | String a p', String b s' => if decide (a = b) then startswith p' s' else false
  | String _ _, EmptyString => false
  end.

(** [sub in s] *)
Fixpoint contains (sub s : string) : bool :=
  startswith sub s ||
  match s with
  | EmptyString => false
  | String _ s' => contains sub s'
  end.

(** [c in s] for a single character. *)
Fixpoint has_char (c : ascii) (s : string) : bool :=
  match s with
  | EmptyString => false
  | String a s' => if decide (a = c) then true else has_char c s'
  end.

Fixpoint forall_chars (p : ascii -> bool) (s : string) : bool :=
  match s with
  | EmptyString => true
  | String a s' => p a && forall_chars p s'
  end.

(** [s.partition(c)] when [c] occurs, i.e. [s[:i], s[i+1:]] for
    [i = s.find(c)]; [None] when [s.find(c) = -1]. *)
Fixpoint partition (c : ascii) (s : string) : option (string * string) :=
  match s with
  | EmptyString => None
  | String a s' =>
      if decide (a = c) then Some (EmptyString, s')
      else match partition c s' with
           | Some (l, r) => Some (String a l, r)
           | None => None
           end
  end.

(** The longest prefix without a character satisfying [p], and the rest. *)
Fixpoint break (p : ascii -> bool) (s : string) : string * string :=
  match s with
  | EmptyString => (EmptyString, EmptyString)
  | String a s' =>
      if p a then (EmptyString, s)
      else let '(l, r) := break p s' in (String a l, r)
  end.

(** [s.lstrip(chars)] with [chars] given as a predicate. *)
Fixpoint lstrip_by (p : ascii -> bool) (s : string) : string :=
  match s with
  | EmptyString => EmptyString
  | String a s' => if p a then lstrip_by p s' else s
  end.

Definition rstrip_by (p : ascii -> bool) (s : string) : string :=
  String.rev (lstrip_by p (String.rev s)).

(** [s.strip()] *)
Definition strip (s : string) : string := rstrip_by isspace (lstrip_by isspace s).

(** Deleting every character satisfying [p]
    (a chain of [s.replace(c, "")]). *)
Fixpoint delete_chars (p : ascii -> bool) (s : string) : string :=
  match s with
  | EmptyString => EmptyString
  | String a s' => if p a then delete_chars p s' else String a (delete_chars p s')
  end.

(** [s.split(sep)] for a one-character separator. *)
Fixpoint split_on (sep : ascii) (s : string) : list string :=
  match s with
  | EmptyString => [EmptyString]
  | String a s' =>
      if decide (a = sep) then EmptyString :: split_on sep s'
      else match split_on sep s' with
           | w :: ws => String a w :: ws
           | [] => [String a EmptyString]
           end
  end.

(** [sep.join(parts)] *)
Fixpoint join (sep : string) (parts : list string) : string :=
  match parts with
  | [] => EmptyString
  | [w] => w
  | w :: ws => w +:+ sep +:+ join sep ws
  end.

(** Slicing a list, [l[:k]], for any integer [k]: a negative bound counts
    from the end. *)
Definition slice_to {A : Type} (k : Z) (l : list A) : list A :=
  if 0 <=? k then firstn (Z.to_nat k) l
  else firstn (Z.to_nat (Z.of_nat (length l) + k)) l.

End Py.

(** ** [urllib.parse] (CPython 3.11) *)

Module Urllib.
Import Py.

(** The two authority checks of [urlsplit] that defer to other standard
    modules are taken as given: [_check_bracketed_netloc] validates the
    bracketed host with [ipaddress], and [_checknetloc] compares a
    non-ASCII authority with its NFKC form ([unicodedata]).  Each returns
    [true] when the check passes (no [ValueError]). *)
Record validators : Type := {
  check_bracketed_netloc : string -> bool;
  nfkc_check : string -> bool
}.

(** Validators that accept everything; enough for authorities without
    brackets and within ASCII, where neither check is consulted. *)
Definition permissive : validators :=
  {| check_bracketed_netloc := fun _ => true; nfkc_check := fun _ => true |}.

Record SplitResult : Type := {
  scheme : string;
  netloc : string;
  path : string;
  query : string;
  fragment : string
}.

(** [_WHATWG_C0_CONTROL_OR_SPACE]: code points 0x00-0x20. *)
Definition is_c0_or_space (c : ascii) : bool := (code c <=? 32)%N.

(** [_UNSAFE_URL_BYTES_TO_REMOVE = ['\t', '\r', '\n']] *)
Definition is_unsafe (c : ascii) : bool :=
  (code c =? 9)%N || (code c =? 13)%N || (code c =? 10)%N.

(** [scheme_chars]: letters, digits and [+-.] *)
Definition is_scheme_char (c : ascii) : bool :=
  is_ascii_alpha c || is_ascii_digit c
  || (code c =? 43)%N || (code c =? 45)%N || (code c =? 46)%N.

Definition uses_netloc : list string :=
  [""; "ftp"; "http"; "gopher"; "nntp"; "telnet";
   "imap"; "wais"; "file"; "mms"; "https"; "shttp";
   "snews"; "prospero"; "rtsp"; "rtspu"; "rsync";
   "svn"; "svn+ssh"; "sftp"; "nfs"; "git"; "git+ssh";
   "ws"; "wss"].

Definition in_uses_netloc (s : string) : bool := bool_decide (s ∈ uses_netloc).

(** [netloc.isascii()] *)
Definition isascii (s : string) : bool := forall_chars (fun c => (code c <? 128)%N) s.

(** [_checknetloc] *)
Definition checknetloc (v : validators) (netloc : string) : bool :=
  if negb (nonempty netloc) || isascii netloc then true else nfkc_check v netloc.

(** The scheme test of [urlsplit]:
    [i = url.find(':')], [i > 0], [url[0]] an ASCII letter and every
    character of [url[:i]] in [scheme_chars]; gives [url[:i]] and
    [url[i+1:]]. *)
Definition split_scheme (url : string) : option (string * string) :=
  match partition ":" url with
  | Some (String c0 pre, rest) =>
      if is_ascii_alpha c0 && forall_chars is_scheme_char (String c0 pre)
      then Some (String c0 pre, rest)
      else None
  | _ => None
  end.

Definition is_delim (c : ascii) : bool :=
  bool_decide (c = "/"%char) || bool_decide (c = "?"%char) || bool_decide (c = "#"%char).

(** [_splitnetloc(url, 2)] on a [url] that starts with [//]: the text up
    to the earliest of [/?#] after the two slashes, and the rest. *)
Definition splitnetloc2 (url : string) : string * string :=
  break is_delim (drop 2 url).

Definition split_once (c : ascii) (url : string) : string * string :=
  match partition c url with
  | Some (l, r) => (l, r)
  | None => (url, EmptyString)
  end.

(** [urlsplit] from [if url[:2] == '//'] on, with the scheme found. *)
Definition split_hier (v : validators) (sch url : string) : result SplitResult :=
  let '(nl, url) :=
    if startswith "//" url then splitnetloc2 url else (EmptyString, url) in
  let lb := has_char "[" nl in
  let rb := has_char "]" nl in
  if (lb && negb rb) || (rb && negb lb) then Raise ValueError
  else if lb && rb && negb (check_bracketed_netloc v nl) then Raise ValueError
  else
    let '(url, frag) := split_once "#" url in
    let '(url, qry) := split_once "?" url in
    if checknetloc v nl
    then Ok {| scheme := sch; netloc := nl; path := url; query := qry; fragment := frag |}
    else Raise ValueError.

Definition urlsplit (v : validators) (url0 : string) : result SplitResult :=
  let url := lstrip_by is_c0_or_space url0 in
  let url := delete_chars is_unsafe url in
  match split_scheme url with
  | Some (s, rest) => split_hier v (lower s) rest
  | None => split_hier v EmptyString url
  end.

(** [urlunsplit((scheme, netloc, url, query, fragment))] *)
Definition urlunsplit (sch nl url qry frag : string) : string :=
  let url :=
    if nonempty nl
       || (nonempty sch && in_uses_netloc sch && negb (startswith "//" url))
    then "//" +:+ nl +:+
         (if nonempty url && negb (startswith "/" url) then "/" +:+ url else url)
    else url in
  let url := if nonempty sch then sch +:+ ":" +:+ url else url in
  let url := if nonempty qry then url +:+ "?" +:+ qry else url in
  let url := if nonempty frag then url +:+ "#" +:+ frag else url in
  url.

End Urllib.

(** ** Effects: environment, world and the exception-state monad *)

Module Fx.
Import Py.

Inductive transport : Type := Requests | Httpx | Cloudscraper.
Inductive verb : Type := HEAD | GET.

Record Request : Type := {
  rq_transport : transport;
  rq_verb : verb;
  rq_url : string;
  rq_headers : gmap string string
}.

(** A response as the three client libraries expose it.  Header names are
    case-insensitive in all of them; the map is keyed by the lower-cased
    name. *)
Record Response : Type := {
  status_code : Z;
  headers : gmap string string;
  text : string
}.

(** [resp.headers.get(name)] *)
Definition header (name : string) (r : Response) : option string :=
  headers r !! lower name.

(** [requests.Response.ok]: [raise_for_status] raises for 400 <= status < 600.
    [requests.Response.__bool__] returns [ok]. *)
Definition ok (r : Response) : bool :=
  negb ((400 <=? status_code r) && (status_code r <? 600)).

(** Where a [time.sleep] is called from. *)
Inductive sleep_site : Type :=
  | HumanDelay (t : transport)     (* the randomised delay inside a transport *)
  | Backoff (attempt : Z).         (* the retry backoff at the end of an attempt *)

(** The extraction methods, in the order of [TextExtractor.extract]. *)
Inductive method : Type := Trafilatura | Newspaper3k | Readability | Beautifulsoup.

Inductive event : Type :=
  | EvRequest (rq : Request)
  | EvSleep (site : sleep_site) (seconds : Q)
  | EvCall (m : method).

(** One value of [random.random()]: the rational [num / (num + gap + 1)],
    so every draw lies in [0, 1) and every rational of [0, 1) is a draw. *)
Record draw : Type := { num : nat; gap : nat }.

Definition draw_value (d : draw) : Q :=
  Z.of_nat (num d) # Pos.of_succ_nat (num d + gap d).

(** *** What the third-party extraction libraries return *)

(** A field of the JSON document [trafilatura.extract] produces, as
    [data.get] sees it: key absent, [null], or a string. *)
Inductive jval : Type := JAbsent | JNull | JStr (s : string).

Record TrafDoc : Type := {
  j_title : jval;
  j_text : jval;
  j_author : jval;
  j_date : jval;
  j_description : jval;
  j_image : jval
}.

(** The attributes of a parsed [newspaper.Article] the code reads;
    [a_publish_date] is the value of [publish_date.isoformat()]. *)
Record Article : Type := {
  a_text : option string;
  a_title : string;
  a_authors : option (list string);
  a_publish_date : option string;
  a_meta_description : option string;
  a_top_image : option string;
  a_keywords : option (list string)
}.

(** What [extract_with_readability] reads off [readability.Document]:
    the text of the summary once the unwanted tags are removed, and
    [doc.title()]. *)
Record Readable : Type := {
  r_text : string;
  r_title : option string
}.

(** What [extract_with_beautifulsoup] reads off the parsed soup once the
    unwanted tags are removed: the stripped text of the first [h1] and of
    [title] (when the node exists), the text of the first [article]/[main]
    node, of the first content-like [div], and of every [p]. *)
Record Soup : Type := {
  h1_text : option string;
  title_text : option string;
  main_text : option string;
  content_div_text : option string;
  paragraph_texts : list string
}.

(** What the outside world answers.  The network and the random
    generator are indexed by the clock, the number of consultations made
    so far; the validators of [urllib] and the parsers are functions of
    their arguments.  A parser answers [Raise e] when the library call
    (or the decoding of its output) raises. *)
Record Env : Type := {
  url_validators : Urllib.validators;
  net : nat -> Request -> result Response;
  random : nat -> draw;
  choice_index : nat -> nat;
  httpx_installed : bool;
  cloudscraper_installed : bool;
  trafilatura_installed : bool;
  newspaper_installed : bool;
  readability_installed : bool;
  bs4_installed : bool;
  (* trafilatura.extract(html, ..., url=url, favor_precision=b), then json.loads;
     None when extract returns a falsy value *)
  trafilatura_extract : bool -> string -> string -> result (option TrafDoc);
  (* NewspaperArticle(url); set_html(html); parse() *)
  newspaper_parse : string -> string -> result Article;
  (* Document(html); BeautifulSoup(doc.summary()); decompose; get_text; doc.title() *)
  readability_parse : string -> result Readable;
  (* BeautifulSoup(html, "lxml"); decompose; find/find_all; get_text *)
  soup_parse : string -> result Soup
}.

Section Monad.
Context {S : Type}.

Definition M (A : Type) : Type := S -> result A * S.

Definition ret {A} (a : A) : M A := fun w => (Ok a, w).

Definition raise {A} (e : exn) : M A := fun w => (Raise e, w).

Definition bind {A B} (m : M A) (f : A -> M B) : M B :=
  fun w => match m w with
           | (Ok a, w') => f a w'
           | (Raise e, w') => (Raise e, w')
           end.

(** [try: m except <classes>: h]; [catches e] says whether a clause
    matches [e]. *)
Definition try_except {A} (m : M A) (catches : exn -> bool) (h : exn -> M A) : M A :=
  fun w => match m w with
           | (Ok a, w') => (Ok a, w')
           | (Raise e, w') => if catches e then h e w' else (Raise e, w')
           end.

Definition lift {A} (r : result A) : M A := fun w => (r, w).

Definition get : M S := fun w => (Ok w, w).
Definition modify (f : S -> S) : M unit := fun w => (Ok tt, f w).
End Monad.

Arguments M : clear implicits.

Notation "'let*' x ':=' m 'in' k" := (bind m (fun x => k))
  (at level 10, x pattern, m at level 100, k at level 200).

(** [except Exception] *)
Definition any_exception (e : exn) : bool := true.

End Fx.

(** ** [text_extractor.py] *)

Module TextExtractor.
Import Py Urllib Fx.

Definition DEFAULT_UAS : list string :=
  [ "Mozilla/5.0 (Windows NT 10.0; Win64; x64) AppleWebKit/537.36 (KHTML, like Gecko) Chrome/126.0.0.0 Safari/537.36";
    "Mozilla/5.0 (Macintosh; Intel Mac OS X 13_5) AppleWebKit/605.1.15 (KHTML, like Gecko) Version/17.0 Safari/605.1.15";
    "Mozilla/5.0 (X11; Linux x86_64) AppleWebKit/537.36 (KHTML, like Gecko) Chrome/126.0.0.0 Safari/537.36";
    "Mozilla/5.0 (Windows NT 10.0; Win64; x64; rv:127.0) Gecko/20100101 Firefox/127.0" ].

(** The fields of a [TextExtractor] that the fetch loop reads or writes.
    [timeout], [proxies], [respect_robots] and the pooled [session] only
    parametrise the client libraries, whose answers come from [net]. *)
Record Self : Type := {
  max_retries : Z;
  backoff_factor : Q;
  user_agents_pool : list string;
  user_agent : string;
  base_headers : gmap string string
}.

Record World : Type := {
  clock : nat;
  trace : list event;
  self : Self
}.

Definition dq : string := String (ascii_of_N 34) EmptyString.

(** The dictionary literal of [__init__]. *)
Definition initial_headers (ua : string) : gmap string string :=
  list_to_map
    [ ("User-Agent", ua);
      ("Accept", "text/html,application/xhtml+xml,application/xml;q=0.9,image/avif,image/webp,image/apng,*/*;q=0.8");
      ("Accept-Language", "en-US,en;q=0.9");
      ("Accept-Encoding", "gzip, deflate, br");
      ("Cache-Control", "no-cache");
      ("Pragma", "no-cache");
      ("DNT", "1");
      ("Upgrade-Insecure-Requests", "1");
      ("sec-ch-ua",
        dq +:+ "Chromium" +:+ dq +:+ ";v=" +:+ dq +:+ "126" +:+ dq +:+ ", "
        +:+ dq +:+ "Not(A:Brand" +:+ dq +:+ ";v=" +:+ dq +:+ "24" +:+ dq +:+ ", "
        +:+ dq +:+ "Google Chrome" +:+ dq +:+ ";v=" +:+ dq +:+ "126" +:+ dq);
      ("sec-ch-ua-mobile", "?0");
      ("sec-ch-ua-platform", dq +:+ "Windows" +:+ dq);
      ("Sec-Fetch-Dest", "document");
      ("Sec-Fetch-Mode", "navigate");
      ("Sec-Fetch-Site", "none");
      ("Sec-Fetch-User", "?1") ].

(** [random.choice(seq)] given the index the generator produces. *)
Definition pick (k : nat) (seq : list string) : result string :=
  match seq with
  | [] => Raise IndexError
  | d :: _ => Ok (nth (k mod length seq)%nat seq d)
  end.

(** [jitter]'s default [spread]. *)
Definition spread : Q := 6 # 10.

(** [random.uniform(a, b)] is [a + (b - a) * random()]. *)
Definition uniform (a b r : Q) : Q := (a + (b - a) * r)%Q.

(** [max(0, x)] *)
Definition max0 (x : Q) : Q := if Qle_bool x 0 then 0%Q else x.

(** [jitter(base, spread)] given the value [r] of [random()]. *)
Definition jitter_with (base spread r : Q) : Q :=
  let lo := max0 (base - spread)%Q in
  let hi := (base + spread)%Q in
  uniform lo hi r.

(** [merge_headers(base, extra)]: entries of [extra] whose value is [None]
    are skipped. *)
Definition merge_headers (base : gmap string string)
    (extra : list (string * option string)) : gmap string string :=
  foldl (fun out kv => match kv.2 with
                       | Some v => <[kv.1 := v]> out
                       | None => out
                       end) base extra.

(** [looks_like_cloudflare(resp)].  [not resp] is true for [None] and,
    through [Response.__bool__], for every response that is not [ok]. *)
Definition looks_like_cloudflare (resp : option Response) : bool :=
  match resp with
  | None => false
  | Some r =>
      if negb (ok r) then false
      else
        let server := lower (default "" (header "Server" r)) in
        if contains "cloudflare" server then true
        else
          let snippet := lower (take 2000 (text r)) in
          if contains "attention required" snippet
             || contains "cloudflare" snippet
             || contains "just a moment" snippet
          then true else false
  end.

(** The content-type check shared by the three transports:
    [true] when the response is rejected as not HTML. *)
Definition not_html (r : Response) : bool :=
  let ctype := lower (default "" (header "Content-Type" r)) in
  if negb (contains "text/html" ctype) && negb (contains "application/xhtml+xml" ctype)
  then negb (contains "<html" (lower (take 2000 (text r))))
  else false.

(** Truthiness of an [Optional[str]] and of an [Optional[int]]. *)
Definition truthy_text (t : option string) : bool :=
  match t with Some s => nonempty s | None => false end.

Definition truthy_status (s : option Z) : bool :=
  match s with Some z => negb (z =? 0) | None => false end.

(** [text and status and status < 400] *)
Definition usable (t : option string) (s : option Z) : bool :=
  truthy_text t && truthy_status s &&
  match s with Some z => z <? 400 | None => false end.

(** The dictionary an extraction method returns. *)
Record Candidate : Type := {
  title : string;
  content : string;
  author : option string;
  date : option string;
  description : option string;
  image_url : option string;
  keywords : list string;
  method_used : string
}.

Definition newline_char : ascii := ascii_of_N 10.
Definition newline : string := String newline_char EmptyString.

Section WithEnv.
Variable env : Env.

(** [__init__(user_agent, max_retries, backoff_factor, user_agents_pool)],
    started when the clock shows [clock0]. *)
Definition __init__ (user_agent : option string) (max_retries : Z)
    (backoff_factor : Q) (user_agents_pool : option (list string))
    (clock0 : nat) : result World :=
  let pool := match user_agents_pool with
              | Some (u :: us) => u :: us
              | _ => DEFAULT_UAS
              end in
  match user_agent with
  | Some (String c ua) =>
      Ok {| clock := clock0; trace := [];
            self := {| max_retries := max_retries; backoff_factor := backoff_factor;
                       user_agents_pool := pool; user_agent := String c ua;
                       base_headers := initial_headers (String c ua) |} |}
  | _ =>
      match pick (choice_index env clock0) pool with
      | Ok ua =>
          Ok {| clock := S clock0; trace := [];
                self := {| max_retries := max_retries; backoff_factor := backoff_factor;
                           user_agents_pool := pool; user_agent := ua;
                           base_headers := initial_headers ua |} |}
      | Raise e => Raise e
      end
  end.

(** *** Primitive effects *)

Definition emit (ev : event) : M World unit :=
  modify (fun w => {| clock := clock w; trace := trace w ++ [ev]; self := self w |}).

Definition tick : M World nat :=
  fun w => (Ok (clock w), {| clock := S (clock w); trace := trace w; self := self w |}).

Definition get_self : M World Self := fun w => (Ok (self w), w).

Definition random_choice (seq : list string) : M World string :=
  let* k := tick in lift (pick (choice_index env k) seq).

Definition jitter (base : Q) : M World Q :=
  let* k := tick in ret (jitter_with base spread (draw_value (random env k))).

(** [time.sleep(seconds)] raises [ValueError] on a negative argument. *)
Definition time_sleep (site : sleep_site) (seconds : Q) : M World unit :=
  if Qle_bool 0 seconds then emit (EvSleep site seconds) else raise ValueError.

(** A request through one of the clients: logged, then answered. *)
Definition send (t : transport) (v : verb) (url : string)
    (hdrs : gmap string string) : M World Response :=
  let rq := {| rq_transport := t; rq_verb := v; rq_url := url; rq_headers := hdrs |} in
  let* k := tick in
  let* _ := emit (EvRequest rq) in
  lift (net env k rq).

(** *** HTTP plumbing *)

Definition _normalized_url (url : string) : result string :=
  match urlsplit (url_validators env) url with
  | Ok parts =>
      Ok (urlunsplit (if nonempty (scheme parts) then scheme parts else "https")
                     (netloc parts) (path parts) (query parts) "")
  | Raise e => Raise e
  end.

(** [f"{parts.scheme}://{parts.netloc}/"] *)
Definition root_of (parts : SplitResult) : string :=
  scheme parts +:+ "://" +:+ netloc parts +:+ "/".

(** [_build_headers(url)] (both optional arguments left at [None]) *)
Definition _build_headers (url : string) : M World (gmap string string) :=
  let* parts := lift (urlsplit (url_validators env) url) in
  let default_ref := if nonempty (netloc parts) then Some (root_of parts) else None in
  let* s := get_self in
  let* ua := random_choice (user_agents_pool s) in
  ret (merge_headers (base_headers s)
         [ ("User-Agent", Some ua);
           ("Referer", default_ref);
           ("Origin", if nonempty (netloc parts)
                      then Some (scheme parts +:+ "://" +:+ netloc parts)
                      else None) ]).

Definition _warm_up (url : string) (hdrs : gmap string string) : M World unit :=
  try_except
    (let* head := send Requests HEAD url hdrs in
     if status_code head =? 405 then
       let* parts := lift (urlsplit (url_validators env) url) in
       let* _ := send Requests GET (root_of parts) hdrs in
       ret tt
     else ret tt)
    any_exception
    (fun _ => ret tt).

Definition _requests_fetch (url : string) (attempt : Z)
    : M World (option string * option Z * option Response) :=
  let* hdrs := _build_headers url in
  let* _ := _warm_up url hdrs in
  let* d := jitter (7 # 10) in
  let* _ := time_sleep (HumanDelay Requests) d in
  let* resp := send Requests GET url hdrs in
  if not_html resp then ret (None, Some (status_code resp), Some resp)
  else
    let text := if ok resp && (100 <=? len (text resp))
                then Some (text resp) else None in
    ret (text, Some (status_code resp), Some resp).

(** [httpx.Response] defines no truth value of its own, so [r] is
    always truthy. *)
Definition _httpx_fetch (url : string) (attempt : Z)
    : M World (option string * option Z) :=
  if negb (httpx_installed env) then ret (None, None)
  else
    let* hdrs := _build_headers url in
    let* d := jitter (9 # 10) in
    let* _ := time_sleep (HumanDelay Httpx) d in
    let* r := send Httpx GET url hdrs in
    if not_html r then ret (None, Some (status_code r))
    else
      let text := if 100 <=? len (text r) then Some (text r) else None in
      ret (text, Some (status_code r)).

(** [cloudscraper] answers with a [requests.Response]. *)
Definition _cloudscraper_fetch (url : string) (attempt : Z)
    : M World (option string * option Z) :=
  if negb (cloudscraper_installed env) then ret (None, None)
  else
    let* hdrs := _build_headers url in
    let* d := jitter (12 # 10) in
    let* _ := time_sleep (HumanDelay Cloudscraper) d in
    let* r := send Cloudscraper GET url hdrs in
    if not_html r then ret (None, Some (status_code r))
    else
      let text := if ok r && (100 <=? len (text r)) then Some (text r) else None in
      ret (text, Some (status_code r)).

(** [self.user_agent = ua; self.base_headers["User-Agent"] = ua] *)
Definition rotate_user_agent (ua : string) : M World unit :=
  modify (fun w =>
    {| clock := clock w; trace := trace w;
       self := {| max_retries := max_retries (self w);
                  backoff_factor := backoff_factor (self w);
                  user_agents_pool := user_agents_pool (self w);
                  user_agent := ua;
                  base_headers := <["User-Agent" := ua]> (base_headers (self w)) |} |}).

(** The three [try] blocks of the loop body.  Each yields [Some text]
    when the loop returns [text] from inside it. *)
Definition try_requests (normalized : string) (attempt : Z) : M World (option string) :=
  try_except
    (let* (ts, resp) := _requests_fetch normalized attempt in
     let (text, status) := ts in
     if usable text status then ret text
     else if bool_decide (status = Some 403) && looks_like_cloudflare resp then
       let* (text2, status2) := _cloudscraper_fetch normalized attempt in
       if usable text2 status2 then ret text2 else ret None
     else ret None)
    is_requests_exception
    (fun _ => ret None).

Definition try_httpx (normalized : string) (attempt : Z) : M World (option string) :=
  try_except
    (let* (text_h2, status_h2) := _httpx_fetch normalized attempt in
     if usable text_h2 status_h2 then ret text_h2 else ret None)
    any_exception
    (fun _ => ret None).

Definition try_cloudscraper (normalized : string) (attempt : Z) : M World (option string) :=
  try_except
    (let* (text_cs, status_cs) := _cloudscraper_fetch normalized attempt in
     if usable text_cs status_cs then ret text_cs else ret None)
    any_exception
    (fun _ => ret None).

Definition backoff (attempt : Z) : M World unit :=
  let* s := get_self in
  let* sleep_s := jitter (backoff_factor s * inject_Z attempt)%Q in
  time_sleep (Backoff attempt) sleep_s.

(** One iteration of [for attempt in range(1, self.max_retries + 1)]. *)
Definition attempt_once (normalized : string) (attempt : Z) : M World (option string) :=
  let* s := get_self in
  let* ua := random_choice (user_agents_pool s) in
  let* _ := rotate_user_agent ua in
  let* r1 := try_requests normalized attempt in
  match r1 with
  | Some t => ret (Some t)
  | None =>
      let* r2 := try_httpx normalized attempt in
      match r2 with
      | Some t => ret (Some t)
      | None =>
          let* r3 := try_cloudscraper normalized attempt in
          match r3 with
          | Some t => ret (Some t)
          | None => let* _ := backoff attempt in ret None
          end
      end
  end.

(** The loop, with [n] iterations left and [attempt] the next index. *)
Fixpoint attempts (n : nat) (attempt : Z) (normalized : string) : M World (option string) :=
  match n with
  | O => ret None
  | S n' =>
      let* r := attempt_once normalized attempt in
      match r with
      | Some t => ret (Some t)
      | None => attempts n' (attempt + 1) normalized
      end
  end.

Definition fetch_html (url : string) : M World (option string) :=
  let* normalized := lift (_normalized_url url) in
  let* s := get_self in
  attempts (Z.to_nat (max_retries s)) 1 normalized.

(** *** Extraction methods *)

(** [data.get(key)] and [data.get(key, "")] *)
Definition jget (v : jval) : option string :=
  match v with JStr s => Some s | _ => None end.

Definition jget_or_empty (v : jval) : option string :=
  match v with JAbsent => Some "" | JNull => None | JStr s => Some s end.

(** [content and len(content) > 100] *)
Definition long_enough (content : string) : bool :=
  nonempty content && (100 <? len content).

Definition _run_trafilatura (url html : string) (favor_precision : bool)
    : option Candidate :=
  match trafilatura_extract env favor_precision html url with
  | Raise _ => None
  | Ok None => None
  | Ok (Some data) =>
      let title := default "" (jget (j_title data)) in
      let content := strip (default "" (jget (j_text data))) in
      if long_enough content then
        Some {| title := title;
                content := content;
                author := jget (j_author data);
                date := jget (j_date data);
                description := jget_or_empty (j_description data);
                image_url := jget (j_image data);
                keywords := [];
                method_used := "trafilatura" |}
      else None
  end.

Definition extract_with_trafilatura (url html : string) : option Candidate :=
  if negb (trafilatura_installed env) then None
  else
    match _run_trafilatura url html true with
    | Some result => Some result
    | None => _run_trafilatura url html false
    end.

Definition extract_with_newspaper (url html : string) : option Candidate :=
  if negb (newspaper_installed env) then None
  else
    match newspaper_parse env url html with
    | Raise _ => None
    | Ok article =>
        let text := strip (default "" (a_text article)) in
        if long_enough text then
          Some {| title := a_title article;
                  content := text;
                  author := match a_authors article with
                            | Some (a :: more) => Some (join ", " (a :: more))
                            | _ => None
                            end;
                  date := a_publish_date article;
                  description := a_meta_description article;
                  image_url := a_top_image article;
                  keywords := match a_keywords article with
                              | Some (k :: more) => slice_to 10 (k :: more)
                              | _ => []
                              end;
                  method_used := "newspaper3k" |}
        else None
    end.

Definition extract_with_readability (html : string) : option Candidate :=
  if negb (readability_installed env) || negb (bs4_installed env) then None
  else
    match readability_parse env html with
    | Raise _ => None
    | Ok doc =>
        let text := r_text doc in
        let title := strip (default "" (r_title doc)) in
        if long_enough text then
          Some {| title := title; content := text;
                  author := None; date := None; description := None;
                  image_url := None; keywords := [];
                  method_used := "readability" |}
        else None
    end.

(** [t if node and node.get_text(strip=True)] *)
Definition node_text (t : option string) : option string :=
  match t with
  | Some s => if nonempty s then Some s else None
  | None => None
  end.

(** ["\n".join(line.strip() for line in content.split("\n") if line.strip())] *)
Definition clean_lines (content : string) : string :=
  join newline
    (map strip (filter (fun line => nonempty (strip line) = true)
                       (split_on newline_char content))).

(** The text [extract_with_beautifulsoup] takes for the body: the
    [article]/[main] node, else a content-like [div], else the non-empty
    paragraphs joined by newlines. *)
Definition soup_content (soup : Soup) : string :=
  match main_text soup with
  | Some t => t
  | None =>
      match content_div_text soup with
      | Some t => t
      | None => join newline (filter (fun p => nonempty p = true) (paragraph_texts soup))
      end
  end.

Definition extract_with_beautifulsoup (html : string) : option Candidate :=
  if negb (bs4_installed env) then None
  else
    match soup_parse env html with
    | Raise _ => None
    | Ok soup =>
        let title :=
          match node_text (h1_text soup) with
          | Some t => t
          | None => default "" (node_text (title_text soup))
          end in
        let content := clean_lines (soup_content soup) in
        if long_enough content then
          Some {| title := title; content := content;
                  author := None; date := None; description := None;
                  image_url := None; keywords := [];
                  method_used := "beautifulsoup" |}
        else None
    end.

(** *** Public API *)

(** The [methods] list of [extract]: names and thunks. *)
Definition methods (url html : string) : list (method * (unit -> option Candidate)) :=
  [ (Trafilatura, fun _ => extract_with_trafilatura url html);
    (Newspaper3k, fun _ => extract_with_newspaper url html);
    (Readability, fun _ => extract_with_readability html);
    (Beautifulsoup, fun _ => extract_with_beautifulsoup html) ].

(** [result and result.get("content")] *)
Definition has_content (result : option Candidate) : bool :=
  match result with
  | Some c => nonempty (content c)
  | None => false
  end.

(** [for name, fn in methods: ...]; calling [fn] is recorded as
    [EvCall name]. *)
Fixpoint run_methods (ms : list (method * (unit -> option Candidate)))
    : M World (option Candidate) :=
  match ms with
  | [] => ret None
  | (name, fn) :: rest =>
      let* r :=
        try_except
          (let* _ := emit (EvCall name) in
           let result := fn tt in
           if has_content result then ret result else ret None)
          any_exception
          (fun _ => ret None) in
      match r with
      | Some c => ret (Some c)
      | None => run_methods rest
      end
  end.

Definition extract (url : string) : M World (option Candidate) :=
  let* html := fetch_html url in
  if negb (truthy_text html) then ret None
  else run_methods (methods url (default "" html)).

End WithEnv.
End TextExtractor.

(** ** [metadata_extractor.py] *)

Module MetadataExtractor.
Import Py.

Definition stop_words : list string :=
  [ "the"; "a"; "an"; "and"; "or"; "but"; "in"; "on"; "at";
    "to"; "for"; "of"; "with"; "by"; "from"; "as"; "is"; "was";
    "are"; "were"; "been"; "be"; "have"; "has"; "had"; "do";
    "does"; "did"; "will"; "would"; "could"; "should"; "may";
    "might"; "can"; "this"; "that"; "these"; "those"; "i"; "you";
    "he"; "she"; "it"; "we"; "they"; "what"; "which"; "who";
    "when"; "where"; "why"; "how"; "said"; "says"; "more"; "new";
    "about"; "into"; "through"; "during"; "before"; "after" ].

(** [s.split()]: the maximal runs of non-whitespace characters;
    [cur] is the run being read. *)
Fixpoint split_ws (s cur : string) : list string :=
  match s with
  | EmptyString => if nonempty cur then [cur] else []
  | String a s' =>
      if isspace a
      then (if nonempty cur then [cur] else []) ++ split_ws s' EmptyString
      else split_ws s' (cur +:+ String a EmptyString)
  end.

(** [''.join(c for c in word if c.isalnum())] *)
Definition keep_alnum (word : string) : string :=
  delete_chars (fun c => negb (isalnum c)) word.

(** [word_freq[word] = word_freq.get(word, 0) + 1] on a dictionary kept
    in insertion order. *)
Fixpoint count_word (word : string) (word_freq : list (string * Z)) : list (string * Z) :=
  match word_freq with
  | [] => [(word, 1)]
  | (w, n) :: rest =>
      if decide (w = word) then (w, n + 1) :: rest
      else (w, n) :: count_word word rest
  end.

(** One step of the stable sort by decreasing frequency: the new item
    goes behind every item that is at least as frequent. *)
Fixpoint insert_by_freq (x : string * Z) (sorted : list (string * Z)) : list (string * Z) :=
  match sorted with
  | [] => [x]
  | y :: rest =>
      if y.2 <? x.2 then x :: y :: rest
      else y :: insert_by_freq x rest
  end.

(** [sorted(items, key=lambda x: x[1], reverse=True)] *)
Definition sorted_by_freq (items : list (string * Z)) : list (string * Z) :=
  fold_left (fun acc x => insert_by_freq x acc) items [].

Definition default_max_keywords : Z := 10.

Definition extract_keywords (txt : string) (max_keywords : Z) : list string :=
  let words := split_ws (lower txt) EmptyString in
  let word_freq :=
    fold_left
      (fun word_freq word =>
         let word := keep_alnum word in
         if (3 <? len word) && negb (bool_decide (word ∈ stop_words))
         then count_word word word_freq
         else word_freq)
      words [] in
  let sorted_words := sorted_by_freq word_freq in
  map fst (slice_to max_keywords sorted_words).

End MetadataExtractor.

(** ** [rss_fetcher.py] and [state_store.py] *)

Module RSSFetcher.
Import Py Fx.

(** An [aiohttp] response: header names are case-insensitive (keys are
    lower-cased here); [body] is the outcome of [await response.text()]. *)
Record FeedResponse : Type := {
  status : Z;
  response_headers : gmap string string;
  body : result string
}.

(** What [feedparser.parse] returns, as far as [fetch_feed] reads it. *)
Record Feed : Type := {
  feed_title : option string;
  entries : list (gmap string string)
}.

Inductive message : Type :=
  | NotModified (url : string)                       (* log.info *)
  | HttpStatus (code : Z) (url : string)             (* log.warning *)
  | NonRssContentType (url ctype : string)           (* log.warning *)
  | NoEntries (url : string)                         (* log.warning *)
  | Processing (n : nat) (feed_title : string)       (* log.info *)
  | TimeoutFetching (url : string)                   (* log.warning *)
  | FetchFailed (url : string).                      (* log.warning *)

Inductive level : Type := INFO | WARNING.

Definition level_of (m : message) : level :=
  match m with
  | NotModified _ | Processing _ _ => INFO
  | _ => WARNING
  end.

Inductive event : Type :=
  | EvGet (url : string) (hdrs : gmap string string)
  | EvLog (m : message).

Record Env : Type := {
  http_get : nat -> string -> gmap string string -> result FeedResponse;
  now_isoformat : nat -> string;       (* datetime.now().isoformat() *)
  save : nat -> result unit;           (* FeedHTTPState.save: writing the file *)
  feedparser_parse : string -> Feed
}.

(** [FeedHTTPState.state] and the fetcher's trace. *)
Record World : Type := {
  clock : nat;
  trace : list event;
  state : gmap string (gmap string string)
}.

Definition get_last_modified (st : gmap string (gmap string string)) (url : string) : string :=
  default "" (default ∅ (st !! url) !! "last_modified").

Section WithEnv.
Variable env : Env.

Definition emit (ev : event) : M World unit :=
  modify (fun w => {| clock := clock w; trace := trace w ++ [ev]; state := state w |}).

Definition tick : M World nat :=
  fun w => (Ok (clock w), {| clock := S (clock w); trace := trace w; state := state w |}).

Definition log (m : message) : M World unit := emit (EvLog m).

Definition set_last_modified (url last_modified : string) : M World unit :=
  let* k := tick in
  let* _ := modify (fun w =>
    let entry := default ∅ (state w !! url) in
    {| clock := clock w; trace := trace w;
       state := <[url := <["last_fetch" := now_isoformat env k]>
                            (<["last_modified" := last_modified]> entry)]> (state w) |}) in
  let* k' := tick in
  lift (save env k').

Definition request_headers (last_modified : string) : gmap string string :=
  let hdrs : gmap string string :=
    {[ "User-Agent" := "Mozilla/5.0 (compatible; NewsFetcher/1.0)";
       "Accept" := "application/rss+xml, application/xml, text/xml, */*" ]} in
  if nonempty last_modified then <["If-Modified-Since" := last_modified]> hdrs else hdrs.

Definition fetch_feed (url : string) : M World (string * list (gmap string string)) :=
  try_except
    (let* w := get in
     let last_modified := get_last_modified (state w) url in
     let hdrs := request_headers last_modified in
     let* k := tick in
     let* _ := emit (EvGet url hdrs) in
     let* response := lift (http_get env k url hdrs) in
     if status response =? 304 then
       let* _ := log (NotModified url) in ret ("", [])
     else if negb (status response =? 200) then
       let* _ := log (HttpStatus (status response) url) in ret ("", [])
     else
       let content_type := lower (default "" (response_headers response !! "content-type")) in
       if negb (contains "xml" content_type) && negb (contains "rss" content_type) then
         let* _ := log (NonRssContentType url content_type) in ret ("", [])
       else
         let last_modified := default "" (response_headers response !! "last-modified") in
         let* _ := if nonempty last_modified
                   then set_last_modified url last_modified else ret tt in
         let* content := lift (body response) in
         let feed := feedparser_parse env content in
         match entries feed with
         | [] => let* _ := log (NoEntries url) in ret ("", [])
         | _ :: _ =>
             let title := default "Unknown Feed" (feed_title feed) in
             let* _ := log (Processing (length (entries feed)) title) in
             ret (title, entries feed)
         end)
    any_exception
    (fun e => let* _ := log (match e with
                             | Timeout => TimeoutFetching url
                             | _ => FetchFailed url
                             end) in
              ret ("", [])).

End WithEnv.
End RSSFetcher.

(** * Vocabulary of the statements *)

Import Py Urllib Fx TextExtractor.

(** ** Observations on a trace *)

Definition same_transport (a b : transport) : bool :=
  match a, b with
  | Requests, Requests | Httpx, Httpx | Cloudscraper, Cloudscraper => true
  | _, _ => false
  end.

Definition same_verb (a b : verb) : bool :=
  match a, b with
  | HEAD, HEAD | GET, GET => true
  | _, _ => false
  end.

Definition backoff_of (ev : event) : option Z :=
  match ev with EvSleep (Backoff k) _ => Some k | _ => None end.

(** The attempt indices of the backoff sleeps, in order. *)
Definition backoffs (evs : list event) : list Z := omap backoff_of evs.

Definition is_request (t : transport) (vb : verb) (ev : event) : bool :=
  match ev with
  | EvRequest rq => same_transport (rq_transport rq) t && same_verb (rq_verb rq) vb
  | _ => false
  end.

(** How many requests went through transport [t] with verb [vb]. *)
Definition sent (t : transport) (vb : verb) (evs : list event) : nat :=
  length (List.filter (is_request t vb) evs).

Definition request_of (ev : event) : option Request :=
  match ev with EvRequest rq => Some rq | _ => None end.

(** The requests of a trace, in order. *)
Definition requests (evs : list event) : list Request := omap request_of evs.

(** The methods called, in order. *)
Definition calls (evs : list event) : list method :=
  omap (fun ev => match ev with EvCall m => Some m | _ => None end) evs.

(** The world after some more events. *)
Definition log_events (w : World) (evs : list event) : World :=
  {| clock := clock w; trace := trace w ++ evs; self := self w |}.

(** ** Specifications of effectful code *)

(** [triple J m Q]: from a world whose extractor satisfies the invariant
    [J], [m] appends some events [evs] to the trace, its outcome [r]
    satisfies [Q r evs], and the extractor still satisfies [J]. *)
Definition triple {A} (J : Self -> Prop) (m : M World A)
    (Q : result A -> list event -> Prop) : Prop :=
  forall w, J (self w) ->
    exists evs, trace (m w).2 = trace w ++ evs /\ Q (m w).1 evs /\ J (self (m w).2).

Definition no_ims (h : gmap string string) : Prop := h !! "If-Modified-Since" = None.

(** The invariant of the fetch loop: the backoff factor and the pool
    stay what they are, and the base headers gain no [If-Modified-Since]
    ([clean] says whether they had none to begin with). *)
Definition J (bf : Q) (pool : list string) (clean : Prop) (s : Self) : Prop :=
  backoff_factor s = bf /\ user_agents_pool s = pool /\
  (clean -> no_ims (base_headers s)).

(** A request of a fetch of the normalised URL [n]: it goes to [n], or
    it is a GET of the [requests] session to the root of [n]; and it
    carries no [If-Modified-Since] header. *)
Definition request_ok (env : Env) (n : string) (clean : Prop) (rq : Request) : Prop :=
  (rq_url rq = n \/
   (rq_transport rq = Requests /\ rq_verb rq = GET /\
    exists parts, urlsplit (url_validators env) n = Ok parts /\ rq_url rq = root_of parts))
  /\ (clean -> no_ims (rq_headers rq)).

(** An event of a fetch: a request as above, or a backoff of an attempt
    in [lo, hi) within the spread around [bf * attempt]. *)
Definition event_ok (env : Env) (n : string) (bf : Q) (clean : Prop)
    (lo hi : Z) (ev : event) : Prop :=
  match ev with
  | EvRequest rq => request_ok env n clean rq
  | EvSleep (Backoff k) d =>
      lo <= k < hi /\
      ((0 <= bf)%Q ->
       (bf * inject_Z k - spread <= d /\ d <= bf * inject_Z k + spread)%Q)
  | _ => True
  end.

(** ** Failing requests *)

(** An ordinary network failure of one request: an HTTP error status,
    or an exception the surrounding [try] catches (a [requests]
    exception for the [requests] session; anything for the other two
    clients). *)
Definition ordinary_failure (t : transport) (o : result Response) : Prop :=
  match o with
  | Ok r => 400 <= status_code r
  | Raise e =>
      match t with
      | Requests => is_requests_exception e = true
      | _ => True
      end
  end.

(** Summary of a stretch of trace: the backoffs slept, at least [rg]
    GETs through [requests], and the GETs through the other clients. *)
Record Tally : Type := { bk : list Z; rg : nat; hx : nat; cs : nat }.

Definition tzero : Tally := {| bk := []; rg := 0; hx := 0; cs := 0 |}.

Definition tplus (a b : Tally) : Tally :=
  {| bk := bk a ++ bk b; rg := rg a + rg b; hx := hx a + hx b; cs := cs a + cs b |}.

Definition tallies (evs : list event) (t : Tally) : Prop :=
  backoffs evs = bk t /\ (rg t <= sent Requests GET evs)%nat
  /\ sent Httpx GET evs = hx t /\ sent Cloudscraper GET evs = cs t.

Definition weaker (t' t : Tally) : Prop :=
  bk t' = bk t /\ (rg t' <= rg t)%nat /\ hx t' = hx t /\ cs t' = cs t.

(** A postcondition on the result together with the tally of the events. *)
Definition T {A} (R : result A -> Prop) (t : Tally) : result A -> list event -> Prop :=
  fun r evs => R r /\ tallies evs t.

(** What one failed attempt leaves in the trace, and what [k] of them
    starting at index [attempt] leave. *)
Definition attempt_tally (env : Env) (attempt : Z) : Tally :=
  {| bk := [attempt]; rg := 1;
     hx := if httpx_installed env then 1 else 0;
     cs := if cloudscraper_installed env then 1 else 0 |}.

Definition attempts_tally (env : Env) (k : nat) (attempt : Z) : Tally :=
  {| bk := map (fun i => attempt + Z.of_nat i) (seq 0 k); rg := k;
     hx := if httpx_installed env then k else 0;
     cs := if cloudscraper_installed env then k else 0 |}.

(** ** Responses that are not HTML *)

(** The lower-cased [Content-Type] of a response. *)
Definition content_type (r : Response) : string :=
  lower (default "" (header "Content-Type" r)).

(** The content type names HTML or XHTML. *)
Definition html_like (r : Response) : bool :=
  contains "text/html" (content_type r) || contains "application/xhtml+xml" (content_type r).

(** The first 2000 characters of the body contain [<html], in any case. *)
Definition has_html_marker (r : Response) : bool :=
  contains "<html" (lower (take 2000 (text r))).

(** A response no transport takes a page from: it is rejected as not
    HTML, or its body is shorter than 100 characters. *)
Definition no_page (r : Response) : bool :=
  not_html r || (len (text r) <? 100).

(** The outcome is a value, not an exception. *)
Definition succeeds {A} (r : result A) : Prop := exists a, r = Ok a.

(** No text comes out. *)
Definition textless {A} (text_of : A -> option string) (r : result A) : Prop :=
  match r with Ok a => text_of a = None | Raise _ => True end.

(** ** The extraction chain *)

(** The first result the loop of [extract] accepts. *)
Fixpoint first_accepted (ms : list (method * (unit -> option Candidate)))
    : option Candidate :=
  match ms with
  | [] => None
  | (_, fn) :: rest => if has_content (fn tt) then fn tt else first_accepted rest
  end.

(** The methods the loop calls: all up to and including the first whose
    result is accepted. *)
Fixpoint called (ms : list (method * (unit -> option Candidate))) : list method :=
  match ms with
  | [] => []
  | (name, fn) :: rest => name :: (if has_content (fn tt) then [] else called rest)
  end.

(** A candidate passes the floor: its content is non-empty and longer
    than 100 characters. *)
Definition acceptable (c : Candidate) : Prop :=
  nonempty (content c) = true /\ 100 < len (content c).

(** Whatever the four libraries extract from [html] is 100 characters
    or fewer (for trafilatura, in the precise and in the recall pass). *)
Definition short_everywhere (env : Env) (url html : string) : Prop :=
  (forall b d, trafilatura_extract env b html url = Ok (Some d) ->
     len (strip (default "" (jget (j_text d)))) <= 100)
  /\ (forall a, newspaper_parse env url html = Ok a ->
        len (strip (default "" (a_text a))) <= 100)
  /\ (forall d, readability_parse env html = Ok d -> len (r_text d) <= 100)
  /\ (forall s, soup_parse env html = Ok s -> len (clean_lines (soup_content s)) <= 100).

(** ** URLs *)

Definition no_unsafe (s : string) : Prop :=
  forall_chars (fun c => negb (is_unsafe c)) s = true.

(** A scheme as [urlsplit] produces it, or the default [https]. *)
Definition valid_scheme (s : string) : Prop :=
  nonempty s = true /\
  match s with String c _ => is_ascii_alpha c = true | EmptyString => False end /\
  forall_chars is_scheme_char s = true /\ lower s = s.

(** What [split_hier] guarantees about the pieces it returns. *)
Record well_split (v : Urllib.validators) (p : SplitResult) : Prop := {
  ws_netloc : forall_chars (fun c => negb (is_delim c)) (netloc p) = true;
  ws_path_hash : has_char "#" (path p) = false;
  ws_path_qmark : has_char "?" (path p) = false;
  ws_query_hash : has_char "#" (query p) = false;
  ws_path_abs : nonempty (netloc p) = true ->
                match path p with EmptyString => True | String c _ => c = "/"%char end;
  ws_brackets : (has_char "[" (netloc p) && negb (has_char "]" (netloc p)))
                || (has_char "]" (netloc p) && negb (has_char "[" (netloc p))) = false;
  ws_bracketed : has_char "[" (netloc p) && has_char "]" (netloc p)
                 && negb (check_bracketed_netloc v (netloc p)) = false;
  ws_checknetloc : checknetloc v (netloc p) = true
}.

(** The query suffix [urlunsplit] appends. *)
Definition query_suffix (qry : string) : string :=
  if nonempty qry then String "?" qry else "".

(** The hierarchical part [urlunsplit] writes after [scheme:]. *)
Definition hier_part (sch nl pth : string) : string :=
  if nonempty nl || (nonempty sch && in_uses_netloc sch && negb (startswith "//" pth))
  then "//" +:+ nl +:+ (if nonempty pth && negb (startswith "/" pth) then "/" +:+ pth else pth)
  else pth.

(** [parts.scheme or "https"] *)
Definition scheme_or_https (p : SplitResult) : string :=
  if nonempty (scheme p) then scheme p else "https".

(** A URL with an authority, or whose path does not begin with two
    slashes. *)
Definition proper (p : SplitResult) : Prop :=
  nonempty (netloc p) = true \/ startswith "//" (path p) = false.

(** [self._normalized_url(self._normalized_url(url))] *)
Definition normalized_twice (env : Env) (url : string) : result string :=
  match _normalized_url env url with
  | Ok n => _normalized_url env n
  | Raise e => Raise e
  end.

(** Where a request of a fetch of [n] may go: to [n] itself, or, for a
    GET of the [requests] session, to the root of [n]. *)
Definition goes_to (env : Env) (n : string) (rq : Request) : Prop :=
  rq_url rq = n \/
  (rq_transport rq = Requests /\ rq_verb rq = GET /\
   exists parts, urlsplit (url_validators env) n = Ok parts /\ rq_url rq = root_of parts).

(** ** The feed fetcher *)

Definition if_modified_since (hdrs : gmap string string) : option string :=
  hdrs !! "If-Modified-Since".

(** * Sample environments *)

(** A paragraph of 128 characters. *)
Definition paragraph : string :=
  "Markets rallied on Tuesday after the central bank held rates steady, and analysts expect the calm to last through the quarter...".

Definition sample_html : string :=
  "<html><body><article>" +:+ paragraph +:+ "</article></body></html>".

Definition response (st : Z) (hdrs : list (string * string)) (body : string) : Response :=
  {| status_code := st; headers := list_to_map hdrs; text := body |}.

(** A page served with a [Last-Modified] header. *)
Definition page : Response :=
  response 200 [("content-type", "text/html; charset=utf-8");
                ("last-modified", "Tue, 01 Jan 2024 00:00:00 GMT")] sample_html.

(** The interstitial of scenario C. *)
Definition challenge : Response :=
  response 403 [("content-type", "text/html"); ("server", "cloudflare")]
    ("<html><head><title>Just a moment...</title></head><body>" +:+ paragraph +:+ "</body></html>").

Definition pdf : Response :=
  response 200 [("content-type", "application/pdf")] ("%PDF-1.7 " +:+ paragraph).

Definition not_modified : Response := response 304 [] "".

(** What trafilatura makes of [sample_html]. *)
Definition sample_doc : TrafDoc :=
  {| j_title := JStr "Markets rally"; j_text := JStr ("  " +:+ paragraph +:+ " ");
     j_author := JNull; j_date := JStr "2024-01-01T10:00:00Z";
     j_description := JAbsent; j_image := JNull |}.

(** What newspaper makes of it: twelve keywords. *)
Definition sample_article : Article :=
  {| a_text := Some paragraph; a_title := "Markets rally";
     a_authors := Some ["A. Writer"; "B. Editor"];
     a_publish_date := Some "2024-01-01T10:00:00";
     a_meta_description := None; a_top_image := None;
     a_keywords := Some ["k1"; "k2"; "k3"; "k4"; "k5"; "k6"; "k7"; "k8"; "k9"; "k10"; "k11"; "k12"] |}.

(** A page of forty characters, as every library reads it. *)
Definition forty : string := "Forty characters of text, not one more.!".

Definition short_doc : TrafDoc :=
  {| j_title := JStr ""; j_text := JStr forty; j_author := JAbsent; j_date := JAbsent;
     j_description := JAbsent; j_image := JAbsent |}.

Definition short_soup : Soup :=
  {| h1_text := None; title_text := Some "Loading"; main_text := None;
     content_div_text := None; paragraph_texts := [forty] |}.

(** An environment with every optional library installed, a fixed
    random draw of one half, and the given network and parsers. *)
Definition sample_env (net : nat -> Request -> result Response)
    (traf : result (option TrafDoc)) (news : result Article)
    (soup : result Soup) : Env :=
  {| url_validators := permissive;
     net := net;
     random := fun _ => {| num := 1; gap := 0 |};
     choice_index := fun k => k;
     httpx_installed := true;
     cloudscraper_installed := true;
     trafilatura_installed := true;
     newspaper_installed := true;
     readability_installed := true;
     bs4_installed := true;
     trafilatura_extract := fun _ _ _ => traf;
     newspaper_parse := fun _ _ => news;
     readability_parse := fun _ => Raise OtherError;
     soup_parse := fun _ => soup |}.

(** Every request is answered with [r]. *)
Definition always (r : Response) : nat -> Request -> result Response :=
  fun _ _ => Ok r.

(** The site is down: [requests] times out, [httpx] fails to connect,
    [cloudscraper] gets a 503. *)
Definition net_down : nat -> Request -> result Response :=
  fun _ rq =>
    match rq_transport rq with
    | Requests => Raise Timeout
    | Httpx => Raise OtherError
    | Cloudscraper => Ok (response 503 [] "")
    end.

(** Scenario C: [requests] meets the interstitial, [httpx] cannot
    connect, [cloudscraper] gets the page. *)
Definition net_blocked : nat -> Request -> result Response :=
  fun _ rq =>
    match rq_transport rq, rq_verb rq with
    | Requests, HEAD => Ok (response 403 [("server", "cloudflare")] "")
    | Requests, GET => Ok challenge
    | Httpx, _ => Raise OtherError
    | Cloudscraper, _ => Ok page
    end.

(** A server that honours conditional requests: 304 to a request that
    carries [If-Modified-Since], the page otherwise. *)
Definition net_conditional : nat -> Request -> result Response :=
  fun _ rq =>
    match rq_headers rq !! "If-Modified-Since" with
    | Some _ => Ok not_modified
    | None => Ok page
    end.

(** A server that refuses HEAD. *)
Definition net_no_head : nat -> Request -> result Response :=
  fun _ rq =>
    match rq_verb rq with
    | HEAD => Ok (response 405 [] "")
    | GET => Ok page
    end.

Definition env_page : Env := sample_env (always page) (Ok (Some sample_doc)) (Ok sample_article) (Raise OtherError).
Definition env_news : Env := sample_env (always page) (Ok None) (Ok sample_article) (Raise OtherError).
Definition env_short : Env := sample_env (always page) (Ok (Some short_doc)) (Raise OtherError) (Ok short_soup).
Definition env_down : Env := sample_env net_down (Ok None) (Raise OtherError) (Raise OtherError).
Definition env_blocked : Env := sample_env net_blocked (Ok None) (Raise OtherError) (Raise OtherError).
Definition env_no_head : Env := sample_env net_no_head (Ok None) (Raise OtherError) (Raise OtherError).
Definition env_pdf : Env := sample_env (always pdf) (Ok None) (Raise OtherError) (Raise OtherError).
Definition env_conditional : Env := sample_env net_conditional (Ok None) (Raise OtherError) (Raise OtherError).
Definition env_304 : Env := sample_env (always not_modified) (Ok None) (Raise OtherError) (Raise OtherError).

(** The extractor the content-processing service builds:
    [TextExtractor(user_agent=settings.user_agent, timeout=...)]. *)
Definition service_user_agent : string := "Mozilla/5.0 (compatible; NewsBot/1.0)".

Definition service_world : World :=
  {| clock := 0; trace := [];
     self := {| max_retries := 3; backoff_factor := 1;
                user_agents_pool := DEFAULT_UAS;
                user_agent := service_user_agent;
                base_headers := initial_headers service_user_agent |} |}.

Definition article_url : string := "http://news.example.com/markets/rally?id=7#comments".

(** A feed server that answers 200 with a [Last-Modified] header the
    first time and 304 from then on. *)
Definition feed_200 : RSSFetcher.FeedResponse :=
  {| RSSFetcher.status := 200;
     RSSFetcher.response_headers :=
       list_to_map [("content-type", "application/rss+xml");
                    ("last-modified", "Tue, 01 Jan 2024 00:00:00 GMT")];
     RSSFetcher.body := Ok "<rss/>" |}.

Definition feed_304 : RSSFetcher.FeedResponse :=
  {| RSSFetcher.status := 304; RSSFetcher.response_headers := ∅;
     RSSFetcher.body := Ok "" |}.

Definition feed_env : RSSFetcher.Env :=
  {| RSSFetcher.http_get := fun k _ _ => match k with O => Ok feed_200 | _ => Ok feed_304 end;
     RSSFetcher.now_isoformat := fun _ => "2024-01-02T08:00:00";
     RSSFetcher.save := fun _ => Ok tt;
     RSSFetcher.feedparser_parse :=
       fun _ => {| RSSFetcher.feed_title := Some "Example feed";
                   RSSFetcher.entries := [{["title" := "Markets rally"]}] |} |}.

Definition feed_world : RSSFetcher.World :=
  {| RSSFetcher.clock := 0; RSSFetcher.trace := []; RSSFetcher.state := ∅ |}.

Definition feed_url : string := "https://news.example.com/rss".

From Stdlib Require Import Sorting.Sorted.

(** * Further vocabulary *)

(** ** Keyword extraction *)

(** The words [extract_keywords] counts: the whitespace-separated words
    of the lower-cased text, reduced to their alphanumeric characters,
    that are longer than 3 characters and no stop words. *)
Definition counted_words (txt : string) : list string :=
  filter (fun word => (3 <? len word)
                      && negb (bool_decide (word ∈ MetadataExtractor.stop_words)) = true)
         (map MetadataExtractor.keep_alnum (MetadataExtractor.split_ws (lower txt) "")).

(** How often [w] occurs in [ws]. *)
Definition occurrences (w : string) (ws : list string) : Z :=
  Z.of_nat (length (filter (fun x => x = w) ws)).

(** The count a frequency dictionary holds for a word, 0 when it has
    no entry. *)
Fixpoint count_of (w : string) (word_freq : list (string * Z)) : Z :=
  match word_freq with
  | [] => 0
  | (v, n) :: rest => if decide (v = w) then n else count_of w rest
  end.

(** The order of [sorted(..., key=lambda x: x[1], reverse=True)]. *)
Definition by_count (a b : string * Z) : Prop := b.2 <= a.2.

(** A sample sentence. *)
Definition sample_sentence : string :=
  "Rates, rates and RATES: the bank held rates; markets cheered the bank.".

(** ** The requests and delays of the fetch engine *)

(** [f"{parts.scheme}://{parts.netloc}"] *)
Definition origin_of (parts : SplitResult) : string :=
  scheme parts +:+ "://" +:+ netloc parts.

(** Headers as [_build_headers] makes them for the URL [n] from base
    headers that agree with [base0] outside [User-Agent]: a user agent
    of the pool; [Referer] and [Origin] derived from [n] when it has an
    authority, inherited otherwise; every other header inherited. *)
Definition built_headers (env : Env) (n : string) (pool : list string)
    (base0 h : gmap string string) : Prop :=
  exists ua parts,
    ua ∈ pool /\ urlsplit (url_validators env) n = Ok parts /\
    h !! "User-Agent" = Some ua /\
    h !! "Referer" = (if nonempty (netloc parts) then Some (root_of parts)
                      else base0 !! "Referer") /\
    h !! "Origin" = (if nonempty (netloc parts) then Some (origin_of parts)
                     else base0 !! "Origin") /\
    forall k, k <> "User-Agent" -> k <> "Referer" -> k <> "Origin" -> h !! k = base0 !! k.

(** The base of the randomised delay inside each transport. *)
Definition human_delay (t : transport) : Q :=
  match t with
  | Requests => 7 # 10
  | Httpx => 9 # 10
  | Cloudscraper => 12 # 10
  end.

(** An event of a fetch of [n], described by what produces it. *)
Definition engine_event (env : Env) (n : string) (pool : list string)
    (base0 : gmap string string) (ev : event) : Prop :=
  match ev with
  | EvRequest rq => goes_to env n rq /\ built_headers env n pool base0 (rq_headers rq)
  | EvSleep (HumanDelay t) d =>
      (human_delay t - spread <= d /\ d <= human_delay t + spread)%Q
  | EvSleep (Backoff _) _ => True
  | EvCall _ => False
  end.

(** What the fetch loop keeps of the extractor: its configuration, and
    its base headers outside [User-Agent]. *)
Definition kept (mr : Z) (bf : Q) (pool : list string) (base0 : gmap string string)
    (s : Self) : Prop :=
  max_retries s = mr /\ backoff_factor s = bf /\ user_agents_pool s = pool /\
  forall k, k <> "User-Agent" -> base_headers s !! k = base0 !! k.

(** A postcondition in three parts: the outcome satisfies [R], every
    event satisfies [P], and at most [c] requests were sent. *)
Definition post {A} (R : result A -> Prop) (P : event -> Prop) (c : nat)
    : result A -> list event -> Prop :=
  fun r evs => R r /\ Forall P evs /\ (length (requests evs) <= c)%nat.

(** The status and the response [_requests_fetch] returns belong
    together. *)
Definition coherent (r : result (option string * option Z * option Response)) : Prop :=
  forall text status resp,
    r = Ok (text, status, resp) ->
    exists r', resp = Some r' /\ status = Some (status_code r').

(** The conditions under which a fetch of [n] cannot raise: a
    non-negative backoff factor, a non-empty pool, a normalised URL
    that parses, and a [requests] session that raises nothing but
    [requests] exceptions. *)
Definition calm (env : Env) (n : string) (bf : Q) (pool : list string) : Prop :=
  (0 <= bf)%Q /\ pool <> [] /\
  (exists parts, urlsplit (url_validators env) n = Ok parts) /\
  (forall k rq e, rq_transport rq = Requests -> net env k rq = Raise e ->
                  is_requests_exception e = true).

(** The outcome is a value whenever [C] holds. *)
Definition safely {A} (C : Prop) (r : result A) : Prop := C -> succeeds r.

(** Whenever [C] holds, an exception that comes out is one the
    predicate [caught] accepts. *)
Definition raises_only {A} (C : Prop) (caught : exn -> bool) (r : result A) : Prop :=
  match r with
  | Ok _ => True
  | Raise e => C -> caught e = true
  end.

(** A response the loop of [fetch_html] accepts: a status that is
    truthy and below 400, not rejected as non-HTML, and a body of at
    least 100 characters. *)
Definition page_response (r : Response) : Prop :=
  status_code r <> 0 /\ status_code r < 400 /\ not_html r = false /\ 100 <= len (text r).

(** ** The extraction chain *)

(** The label under which [extract] tries a method, which is also the
    ["method"] entry of the dictionary the method returns. *)
Definition method_name (m : method) : string :=
  match m with
  | Trafilatura => "trafilatura"
  | Newspaper3k => "newspaper3k"
  | Readability => "readability"
  | Beautifulsoup => "beautifulsoup"
  end.

(** * [services/content-processor/src/main.py] *)

Module ContentProcessingService.
Import Py Fx TextExtractor.

(** The dictionary [process_article] returns. *)
Record CleanedArticle : Type := {
  article_id : string;
  url : string;
  c_title : string;
  c_content : string;
  source : string;
  publish_time : string;
  fetched_at : string;
  processed_at : string;
  word_count : Z;
  extraction_method : string
}.

(** The [UPDATE articles SET clean_text, raw_html WHERE id] the service
    attempts: content, raw HTML and article id. *)
Inductive event : Type :=
  | EvDbUpdate (clean_text raw_html id : string).

Record Env : Type := {
  fx : Fx.Env;
  md5_hexdigest : string -> string;         (* hashlib.md5(url.encode()).hexdigest() *)
  utcnow_isoformat : nat -> string;         (* datetime.utcnow().isoformat() *)
  db_update : nat -> string -> string -> string -> result unit
                                            (* connect, execute, commit, close *)
}.

(** [self.text_extractor], [self.seen_urls] and the updates attempted. *)
Record World : Type := {
  text_extractor : TextExtractor.World;
  seen_urls : gset string;
  db_log : list event
}.

(** A method of [self.text_extractor] run inside the service. *)
Definition on_extractor {A} (m : M TextExtractor.World A) : M World A :=
  fun w => let '(r, x) := m (text_extractor w) in
           (r, {| text_extractor := x; seen_urls := seen_urls w; db_log := db_log w |}).

Section WithEnv.
Variable env : Env.

(** The [try] block around the database update: any exception is
    logged and swallowed. *)
Definition update_db (id clean_text raw_html : string) : M World unit :=
  try_except
    (let* k := on_extractor tick in
     let* _ := modify (fun w => {| text_extractor := text_extractor w;
                                   seen_urls := seen_urls w;
                                   db_log := db_log w ++ [EvDbUpdate clean_text raw_html id] |}) in
     lift (db_update env k clean_text raw_html id))
    any_exception
    (fun _ => ret tt).

Definition process_article (raw_article : gmap string string)
    : M World (option CleanedArticle) :=
  try_except
    (let article_id := default "" (raw_article !! "article_id") in
     let url := default "" (raw_article !! "url") in
     let title := default "" (raw_article !! "title") in
     if negb (nonempty url) then ret None
     else
       let url_hash := md5_hexdigest env url in
       let* w := get in
       if bool_decide (url_hash ∈ seen_urls w) then ret None
       else
         let* _ := modify (fun w => {| text_extractor := text_extractor w;
                                       seen_urls := {[ url_hash ]} ∪ seen_urls w;
                                       db_log := db_log w |}) in
         let* extracted := on_extractor (extract (fx env) url) in
         match extracted with
         | None => ret None
         | Some ex =>
             if negb (nonempty (TextExtractor.content ex)) then ret None
             else
               let final_title :=
                 if nonempty (TextExtractor.title ex) then TextExtractor.title ex
                 else if nonempty title then title else "No Title" in
               let content := TextExtractor.content ex in
               let* k := on_extractor tick in
               let cleaned_article :=
                 {| article_id := article_id;
                    url := url;
                    c_title := final_title;
                    c_content := content;
                    source := default "Unknown" (raw_article !! "source");
                    publish_time := default "" (raw_article !! "publish_time");
                    fetched_at := default "" (raw_article !! "fetched_at");
                    processed_at := utcnow_isoformat env k;
                    word_count :=
                      Z.of_nat (length (MetadataExtractor.split_ws content EmptyString));
                    extraction_method := method_used ex |} in
               let* _ := update_db article_id content EmptyString in
               ret (Some cleaned_article)
         end)
    any_exception
    (fun _ => ret None).

End WithEnv.

(** The same service with another database. *)
Definition with_db (env : Env) (db : nat -> string -> string -> string -> result unit) : Env :=
  {| fx := fx env; md5_hexdigest := md5_hexdigest env;
     utcnow_isoformat := utcnow_isoformat env; db_update := db |}.

(** ** [run]: the loop over the messages consumed *)

Inductive run_event : Type :=
  | EvPublish (article : CleanedArticle)       (* self.kafka.publish_message *)
  | EvStats (processed failed : nat)           (* logger.info("processing_stats") *)
  | EvError                                    (* logger.error("message_processing_error") *)
  | EvStop.                                    (* self.kafka.stop() *)

(** The service, the two counters of [run] and what [run] did. *)
Record RunWorld : Type := {
  service : World;
  processed_count : nat;
  failed_count : nat;
  run_log : list run_event
}.

Section WithKafka.
Variable env : Env.
(** The outcome of [publish_message], by the clock of the call. *)
Variable publish_message : nat -> CleanedArticle -> result unit.

(** A method of the service run inside [run]. *)
Definition on_service {A} (m : M World A) : M RunWorld A :=
  fun w => let '(r, s) := m (service w) in
           (r, {| service := s; processed_count := processed_count w;
                  failed_count := failed_count w; run_log := run_log w |}).

Definition run_emit (ev : run_event) : M RunWorld unit :=
  modify (fun w => {| service := service w; processed_count := processed_count w;
                      failed_count := failed_count w; run_log := run_log w ++ [ev] |}).

Definition count_processed : M RunWorld unit :=
  modify (fun w => {| service := service w; processed_count := S (processed_count w);
                      failed_count := failed_count w; run_log := run_log w |}).

Definition count_failed : M RunWorld unit :=
  modify (fun w => {| service := service w; processed_count := processed_count w;
                      failed_count := S (failed_count w); run_log := run_log w |}).

(** The body of [async for raw_article in ...], with its [try]. *)
Definition handle_message (raw_article : gmap string string) : M RunWorld unit :=
  try_except
    (let* cleaned_article := on_service (process_article env raw_article) in
     let* _ :=
       match cleaned_article with
       | Some c =>
           let* k := on_service (on_extractor tick) in
           let* _ := run_emit (EvPublish c) in
           let* _ := lift (publish_message k c) in
           count_processed
       | None => count_failed
       end in
     let* w := get in
     if ((processed_count w + failed_count w) mod 10 =? 0)%nat
     then run_emit (EvStats (processed_count w) (failed_count w))
     else ret tt)
    any_exception
    (fun _ => let* _ := run_emit EvError in count_failed).

Fixpoint run_loop (messages : list (gmap string string)) : M RunWorld unit :=
  match messages with
  | [] => ret tt
  | raw_article :: rest =>
      let* _ := handle_message raw_article in
      run_loop rest
  end.

(** [run] on the messages the consumer delivers before it ends:
    the counters start at 0, and [finally] stops the handler. *)
Definition run (messages : list (gmap string string)) : M RunWorld unit :=
  let* _ := modify (fun w => {| service := service w; processed_count := 0;
                                failed_count := 0; run_log := run_log w |}) in
  let* _ := run_loop messages in
  run_emit EvStop.

End WithKafka.

End ContentProcessingService.

(** A service over the sample page whose database is down. *)
Definition sample_service : ContentProcessingService.Env :=
  {| ContentProcessingService.fx := env_page;
     ContentProcessingService.md5_hexdigest := fun u => "md5:" +:+ u;
     ContentProcessingService.utcnow_isoformat := fun _ => "2024-01-02T08:00:00";
     ContentProcessingService.db_update := fun _ _ _ _ => Raise OtherError |}.

Definition sample_service_world : ContentProcessingService.World :=
  {| ContentProcessingService.text_extractor := service_world;
     ContentProcessingService.seen_urls := ∅;
     ContentProcessingService.db_log := [] |}.

Definition sample_raw_article : gmap string string :=
  {[ "article_id" := "a1"; "url" := article_url; "title" := "Feed title";
     "source" := "Example feed" ]}.

(** * The feed fetcher and its stores *)

(** The URLs [fetch_feed] has asked for, in order. *)
Definition gets (evs : list RSSFetcher.event) : list string :=
  omap (fun ev => match ev with RSSFetcher.EvGet u _ => Some u | _ => None end) evs.

(** A feed server whose state file cannot be written. *)
Definition readonly_feed_env : RSSFetcher.Env :=
  {| RSSFetcher.http_get := fun _ _ _ => Ok feed_200;
     RSSFetcher.now_isoformat := fun _ => "2024-01-02T08:00:00";
     RSSFetcher.save := fun _ => Raise OtherError;
     RSSFetcher.feedparser_parse :=
       fun _ => {| RSSFetcher.feed_title := Some "Example feed";
                   RSSFetcher.entries := [{["title" := "Markets rally"]}] |} |}.

(** * [services/news-fetcher/src/utils/state_store.py]: the dedupe stores *)

Module StateStore.
Import Py Fx.

(** What [stream_entries] and [run_once] ask of a dedupe store: a
    method [seen].  The [nat] is the clock at the call, which indexes
    the outcomes of the file system or of the server. *)
Class DedupeStoreLike (D : Type) : Type := {
  seen : string -> nat -> D -> result bool * D
}.

(** ** [DedupeStore] *)

(** [self.seen_ids], and the sets [save] has written to the file. *)
Record DedupeStore : Type := {
  seen_ids : gset string;
  written : list (gset string)
}.

Section File.
(** The outcome of [save]: [os.makedirs], [open] and [json.dump]. *)
Variable write_file : nat -> result unit.

Definition DedupeStore_save (k : nat) (d : DedupeStore) : result unit * DedupeStore :=
  match write_file k with
  | Ok _ => (Ok tt, {| seen_ids := seen_ids d; written := written d ++ [seen_ids d] |})
  | Raise e => (Raise e, d)
  end.

Definition DedupeStore_seen (item_id : string) (k : nat) (d : DedupeStore)
    : result bool * DedupeStore :=
  if bool_decide (item_id ∈ seen_ids d) then (Ok true, d)
  else
    let d := {| seen_ids := {[ item_id ]} ∪ seen_ids d; written := written d |} in
    match DedupeStore_save k d with
    | (Ok _, d) => (Ok false, d)
    | (Raise e, d) => (Raise e, d)
    end.

End File.

(** ** [RedisDedupeStore] *)

Section Redis.
(** Whether the server can be reached at a given time, and
    [datetime.now().isoformat()]. *)
Variable reachable : nat -> result unit.
Variable now_isoformat : nat -> string.

(** [SETNX key value] on the keys of the database: 1 when the key was
    set, 0 when it existed. *)
Definition setnx (key value : string) (db : gmap string string) : bool * gmap string string :=
  match db !! key with
  | Some _ => (false, db)
  | None => (true, <[key := value]> db)
  end.

Definition RedisDedupeStore_seen (item_id : string) (k : nat) (db : gmap string string)
    : result bool * gmap string string :=
  match reachable k with
  | Raise e => (Raise e, db)
  | Ok _ =>
      let '(is_new, db) := setnx ("seen:" +:+ item_id) (now_isoformat k) db in
      (Ok (negb is_new), db)
  end.

End Redis.

(** The ids a store knows. *)
Definition file_known (d : DedupeStore) (x : string) : Prop := x ∈ seen_ids d.

Definition redis_known (db : gmap string string) (x : string) : Prop :=
  is_Some (db !! ("seen:" +:+ x)).

(** The contract both stores keep: [seen] answers whether the id was
    known, and afterwards exactly the ids known before and the one
    asked for are known; when it raises, no other id becomes known. *)
Definition dedupe_contract {D} (known : D -> string -> Prop)
    (seen : string -> nat -> D -> result bool * D) : Prop :=
  forall x k d,
    match seen x k d with
    | (Ok b, d') =>
        (b = true <-> known d x) /\ (forall y, known d' y <-> known d y \/ y = x)
    | (Raise _, d') =>
        (forall y, known d y -> known d' y) /\ (forall y, known d' y -> known d y \/ y = x)
    end.

(** The answers of [seen] to a list of ids asked one after the other,
    as long as none raises. *)
Fixpoint seen_all {D} (seen : string -> nat -> D -> result bool * D)
    (xs : list string) (k : nat) (d : D) : result (list bool) * D :=
  match xs with
  | [] => (Ok [], d)
  | x :: rest =>
      match seen x k d with
      | (Ok b, d') =>
          match seen_all seen rest (S k) d' with
          | (Ok bs, d'') => (Ok (b :: bs), d'')
          | (Raise e, d'') => (Raise e, d'')
          end
      | (Raise e, d') => (Raise e, d')
      end
  end.

(** Whether an id of a list occurred earlier in it, for each position. *)
Fixpoint repeats (earlier xs : list string) : list bool :=
  match xs with
  | [] => []
  | x :: rest => bool_decide (x ∈ earlier) :: repeats (x :: earlier) rest
  end.

End StateStore.

(** * [rss_fetcher.py], [stream_entries], and [news-fetcher/src/main.py] *)

Module NewsFetcher.
Import Py Fx StateStore.

(** The dictionary [stream_entries] yields with the feed's title.
    Entries are the string-valued maps of the model of [fetch_feed]:
    [authors] is the value under that key, or absent for the default
    [[]]; the comprehension over [tags] yields nothing for an absent or
    empty value and raises for any other string, as it does in Python. *)
Record EntryData : Type := {
  ed_id : string;
  ed_title : string;
  ed_link : string;
  ed_summary : string;
  ed_published : string;
  ed_updated : string;
  ed_authors : option string;
  ed_tags : list string;
  ed_feed_title : string;
  ed_feed_url : string;
  ed_fetched_at : string;
  ed_raw_entry : gmap string string
}.

(** The message [run_once] sends to Kafka and inserts into the
    database. *)
Record Output : Type := {
  o_article_id : string;
  o_title : string;
  o_url : string;
  o_source : string;
  o_publish_time : string;
  o_fetched_at : string
}.

Inductive message : Type :=
  | Fetching (i n : nat) (url : string)                (* log.info *)
  | Rule60                                             (* log.error("=" * 60) *)
  | SummaryHeader                                      (* log.error *)
  | FailedUrl (i : nat) (url : string)                 (* log.error *)
  | FailedError (error : string)                       (* log.error *)
  | Rule40                                             (* log.error("-" * 40) *)
  | TotalFailed (n : nat)                              (* log.error *)
  | InsertFailed (article_id : string)                 (* log.error *)
  | Completed (feeds cnt_in cnt_out : nat).            (* log.info *)

Inductive event : Type :=
  | EvLog (m : message)
  | EvSleep (seconds : Q)                              (* asyncio.sleep *)
  | EvYield (feed_title : string) (entry : EntryData)  (* the generator hands over an entry *)
  | EvInserted (o : Output)                            (* the INSERT was committed *)
  | EvSend (key : string) (value : Output).            (* producer.send *)

Record Env : Type := {
  feed : RSSFetcher.Env;
  md5_hexdigest : string -> string;
  db_insert : nat -> Output -> result unit;            (* connect, execute, commit, close *)
  kafka_send : nat -> string -> Output -> result unit
}.

(** The fetcher with its HTTP state, [self.failed_feeds], the dedupe
    store, the trace, and the two counters of [run_once]. *)
Record World (D : Type) : Type := {
  rss : RSSFetcher.World;
  failed_feeds : list (string * string);
  store : D;
  trace : list event;
  cnt_in : nat;
  cnt_out : nat
}.
Arguments rss {D} _.
Arguments failed_feeds {D} _.
Arguments store {D} _.
Arguments trace {D} _.
Arguments cnt_in {D} _.
Arguments cnt_out {D} _.

Definition truthy (v : option string) : option string :=
  match v with
  | Some s => if nonempty s then Some s else None
  | None => None
  end.

(** [s.replace(a, b)] for single characters. *)
Fixpoint replace_char (a b : ascii) (s : string) : string :=
  match s with
  | EmptyString => EmptyString
  | String c s' => String (if decide (c = a) then b else c) (replace_char a b s')
  end.

(** The id under which an entry is deduplicated. *)
Definition entry_id_of (entry : gmap string string) : string :=
  let entry_id :=
    match truthy (entry !! "id") with
    | Some s => s
    | None =>
        match truthy (entry !! "guid") with
        | Some s => s
        | None => default "" (entry !! "link")
        end
    end in
  if nonempty entry_id then entry_id
  else
    let title := default "" (entry !! "title") in
    let link := default "" (entry !! "link") in
    take 100 (replace_char " " "_" (title +:+ "_" +:+ link)).

(** [[tag.get('term', '') for tag in entry.get('tags', [])]] *)
Definition tags_of (entry : gmap string string) : result (list string) :=
  match entry !! "tags" with
  | None => Ok []
  | Some EmptyString => Ok []
  | Some (String _ _) => Raise OtherError
  end.

Section WithStore.
Context {D : Type} `{DedupeStoreLike D}.
Variable env : Env.
Variable rate_limit_delay : Q.

Definition set_rss (x : RSSFetcher.World) (w : World D) : World D :=
  {| rss := x; failed_feeds := failed_feeds w; store := store w; trace := trace w;
     cnt_in := cnt_in w; cnt_out := cnt_out w |}.

Definition set_failed (f : list (string * string)) (w : World D) : World D :=
  {| rss := rss w; failed_feeds := f; store := store w; trace := trace w;
     cnt_in := cnt_in w; cnt_out := cnt_out w |}.

Definition set_store (d : D) (w : World D) : World D :=
  {| rss := rss w; failed_feeds := failed_feeds w; store := d; trace := trace w;
     cnt_in := cnt_in w; cnt_out := cnt_out w |}.

Definition set_counts (i o : nat) (w : World D) : World D :=
  {| rss := rss w; failed_feeds := failed_feeds w; store := store w; trace := trace w;
     cnt_in := i; cnt_out := o |}.

Definition emit (ev : event) : M (World D) unit :=
  modify (fun w => {| rss := rss w; failed_feeds := failed_feeds w; store := store w;
                      trace := trace w ++ [ev]; cnt_in := cnt_in w; cnt_out := cnt_out w |}).

Definition log (m : message) : M (World D) unit := emit (EvLog m).

(** A method of the fetcher run inside the service. *)
Definition on_rss {A} (m : M RSSFetcher.World A) : M (World D) A :=
  fun w => let '(r, x) := m (rss w) in (r, set_rss x w).

Definition tick : M (World D) nat := on_rss RSSFetcher.tick.

(** [dedupe_store.seen(item_id)] *)
Definition dedupe_seen (item_id : string) : M (World D) bool :=
  let* k := tick in
  fun w => let '(r, d) := seen item_id k (store w) in (r, set_store d w).

(** An entry that was not seen before: [entry_data] is built and
    yielded; [body] is what the consumer of the generator does with the
    pair it is handed. *)
Definition yield_entry (feed_title url : string) (entry : gmap string string)
    (body : string -> EntryData -> M (World D) unit) : M (World D) unit :=
  let* tags := lift (tags_of entry) in
  let* k := tick in
  let entry_data :=
    {| ed_id := entry_id_of entry;
       ed_title := default "" (entry !! "title");
       ed_link := default "" (entry !! "link");
       ed_summary := default "" (entry !! "summary");
       ed_published := default "" (entry !! "published");
       ed_updated := default "" (entry !! "updated");
       ed_authors := entry !! "authors";
       ed_tags := tags;
       ed_feed_title := feed_title;
       ed_feed_url := url;
       ed_fetched_at := RSSFetcher.now_isoformat (feed env) k;
       ed_raw_entry := entry |} in
  let* _ := emit (EvYield feed_title entry_data) in
  body feed_title entry_data.

(** The inner loop, [for entry in entries]. *)
Fixpoint entries_loop (feed_title url : string) (entries : list (gmap string string))
    (body : string -> EntryData -> M (World D) unit) : M (World D) unit :=
  match entries with
  | [] => ret tt
  | entry :: rest =>
      let* was_seen := dedupe_seen (entry_id_of entry) in
      if was_seen then entries_loop feed_title url rest body
      else
        let* _ := yield_entry feed_title url entry body in
        entries_loop feed_title url rest body
  end.

(** The outer loop, [for i, url in enumerate(urls, 1)], from index
    [i] on; [n] is [len(urls)]. *)
Fixpoint feeds_loop (i n : nat) (urls : list string)
    (body : string -> EntryData -> M (World D) unit) : M (World D) unit :=
  match urls with
  | [] => ret tt
  | url :: rest =>
      let* _ := log (Fetching i n url) in
      let* (feed_title, entries) := on_rss (RSSFetcher.fetch_feed (feed env) url) in
      match entries with
      | [] =>
          let* _ := modify (fun w => set_failed
                                       (failed_feeds w ++ [(url, "No entries found in feed")]) w) in
          feeds_loop (S i) n rest body
      | _ :: _ =>
          let* _ := entries_loop feed_title url entries body in
          let* _ := if (i <? n)%nat then emit (EvSleep rate_limit_delay) else ret tt in
          feeds_loop (S i) n rest body
      end
  end.

(** The lines of the summary for the failed feeds, from index [i] on. *)
Fixpoint summary_lines (i : nat) (failed : list (string * string)) : list message :=
  match failed with
  | [] => []
  | (url, error) :: rest =>
      FailedUrl i url :: FailedError error :: Rule40 :: summary_lines (S i) rest
  end.

Fixpoint log_all (ms : list message) : M (World D) unit :=
  match ms with
  | [] => ret tt
  | m :: rest => let* _ := log m in log_all rest
  end.

Definition stream_entries (urls : list string)
    (body : string -> EntryData -> M (World D) unit) : M (World D) unit :=
  let* _ := modify (set_failed []) in
  let* _ := feeds_loop 1 (length urls) urls body in
  let* w := get in
  match failed_feeds w with
  | [] => ret tt
  | _ :: _ =>
      log_all ([Rule60; SummaryHeader; Rule60]
               ++ summary_lines 1 (failed_feeds w)
               ++ [TotalFailed (length (failed_feeds w)); Rule60])
  end.

(** What [run_once] does with each entry: the body of its
    [async for]. *)
Definition run_once_body (feed_title : string) (entry : EntryData) : M (World D) unit :=
  let* _ := modify (fun w => set_counts (S (cnt_in w)) (cnt_out w) w) in
  let article_id := md5_hexdigest env (ed_link entry) in
  let* was_seen := dedupe_seen article_id in
  if was_seen then ret tt
  else
    let* k := tick in
    let output :=
      {| o_article_id := article_id;
         o_title := ed_title entry;
         o_url := ed_link entry;
         o_source := feed_title;
         o_publish_time := ed_published entry;
         o_fetched_at := RSSFetcher.now_isoformat (feed env) k |} in
    let* inserted :=
      try_except
        (let* k := tick in
         let* _ := lift (db_insert env k output) in
         let* _ := emit (EvInserted output) in
         ret true)
        any_exception
        (fun _ => let* _ := log (InsertFailed article_id) in ret false) in
    if negb inserted then ret tt
    else
      let* k := tick in
      let* _ := emit (EvSend article_id output) in
      let* _ := lift (kafka_send env k article_id output) in
      modify (fun w => set_counts (cnt_in w) (S (cnt_out w)) w).

Definition run_once (feeds : list string) : M (World D) unit :=
  let* _ := modify (set_counts 0 0) in
  let* _ := stream_entries feeds run_once_body in
  let* w := get in
  log (Completed (length feeds) (cnt_in w) (cnt_out w)).

End WithStore.

(** ** [wait_for_kafka] *)

Inductive probe_event : Type :=
  | EvProbe (attempt : nat)       (* a producer is started and stopped *)
  | EvWait (seconds : Q).         (* asyncio.sleep(retry_delay) *)

(** [for attempt in range(max_retries)] from [attempt] on, with [n]
    iterations left; [probe k] is the outcome of starting and stopping
    a producer in attempt [k]. *)
Fixpoint wait_loop (probe : nat -> result unit) (max_retries : Z) (retry_delay : Q)
    (n attempt : nat) : bool * list probe_event :=
  match n with
  | O => (false, [])
  | S n' =>
      match probe attempt with
      | Ok _ => (true, [EvProbe attempt])
      | Raise _ =>
          if Z.of_nat attempt <? max_retries - 1 then
            let '(r, evs) := wait_loop probe max_retries retry_delay n' (S attempt) in
            (r, EvProbe attempt :: EvWait retry_delay :: evs)
          else (false, [EvProbe attempt])
      end
  end.

Definition wait_for_kafka (probe : nat -> result unit) (max_retries : Z) (retry_delay : Q)
    : bool * list probe_event :=
  wait_loop probe max_retries retry_delay (Z.to_nat max_retries) 0.

End NewsFetcher.

(** The events of [k + 1] probes from attempt [a] on, with a wait
    between two probes and none after the last. *)
Fixpoint probe_run (retry_delay : Q) (a k : nat) : list NewsFetcher.probe_event :=
  match k with
  | O => [NewsFetcher.EvProbe a]
  | S k' => NewsFetcher.EvProbe a :: NewsFetcher.EvWait retry_delay
            :: probe_run retry_delay (S a) k'
  end.

Definition fails {A} (r : result A) : Prop := exists e, r = Raise e.

(** ** Observations on the trace of the news fetcher *)

Definition yields {A} (evs : list NewsFetcher.event) (f : NewsFetcher.EntryData -> A) : list A :=
  omap (fun ev => match ev with NewsFetcher.EvYield _ e => Some (f e) | _ => None end) evs.

Definition sleeps (evs : list NewsFetcher.event) : list Q :=
  omap (fun ev => match ev with NewsFetcher.EvSleep d => Some d | _ => None end) evs.

Definition sends (evs : list NewsFetcher.event) : list (string * NewsFetcher.Output) :=
  omap (fun ev => match ev with NewsFetcher.EvSend k v => Some (k, v) | _ => None end) evs.

Definition inserted (evs : list NewsFetcher.event) : list NewsFetcher.Output :=
  omap (fun ev => match ev with NewsFetcher.EvInserted o => Some o | _ => None end) evs.

(** The ids a run asks the dedupe store about and then goes on with:
    the id of each entry yielded and the key of each message sent. *)
Definition marked (evs : list NewsFetcher.event) : list string :=
  omap (fun ev => match ev with
                  | NewsFetcher.EvYield _ e => Some (NewsFetcher.ed_id e)
                  | NewsFetcher.EvSend k _ => Some k
                  | _ => None
                  end) evs.

(** From [w] to [w']: the trace grew, the ids marked on the way are
    pairwise distinct, none of them was known and all of them are now,
    and nothing known was forgotten. *)
Definition fresh_run {D} (known : D -> string -> Prop)
    (w w' : NewsFetcher.World D) : Prop :=
  exists evs,
    NewsFetcher.trace w' = NewsFetcher.trace w ++ evs
    /\ NoDup (marked evs)
    /\ (forall x, x ∈ marked evs ->
          ~ known (NewsFetcher.store w) x /\ known (NewsFetcher.store w') x)
    /\ (forall x, known (NewsFetcher.store w) x -> known (NewsFetcher.store w') x).

(** From [w] to [w'] the feeds were left alone: no request was made,
    the list of failed feeds is the same and nothing slept. *)
Definition leaves_feeds_alone {D} (w w' : NewsFetcher.World D) : Prop :=
  RSSFetcher.trace (NewsFetcher.rss w') = RSSFetcher.trace (NewsFetcher.rss w)
  /\ NewsFetcher.failed_feeds w' = NewsFetcher.failed_feeds w
  /\ exists evs, NewsFetcher.trace w' = NewsFetcher.trace w ++ evs /\ sleeps evs = [].

(** A message whose key is the article id of its value, the MD5 of
    the value's URL. *)
Definition keyed_by_link (md5 : string -> string) (kv : string * NewsFetcher.Output) : Prop :=
  kv.1 = NewsFetcher.o_article_id kv.2 /\ kv.1 = md5 (NewsFetcher.o_url kv.2).

(** From [w] to [w']: the values handed to the producer are the
    outputs whose insert went through, in the same order, each keyed
    by its link; [cnt_in] counted the entries yielded and [cnt_out] at
    most the messages handed over. *)
Definition ledger {D} (md5 : string -> string) (w w' : NewsFetcher.World D) : Prop :=
  exists evs,
    NewsFetcher.trace w' = NewsFetcher.trace w ++ evs
    /\ inserted evs = map snd (sends evs)
    /\ Forall (keyed_by_link md5) (sends evs)
    /\ NewsFetcher.cnt_in w' = (NewsFetcher.cnt_in w + length (yields evs id))%nat
    /\ (NewsFetcher.cnt_out w' <= NewsFetcher.cnt_out w + length (sends evs))%nat.

(** Every run of [m] takes a state to one related to it by [G],
    whether it returns or raises. *)
Definition keeps {S A} (G : S -> S -> Prop) (m : M S A) : Prop :=
  forall w, G w (m w).2.

(** A feed whose server never answers 200: it is unchanged (304),
    answers with an error status, or the request raises. *)
Definition never_ok (env : RSSFetcher.Env) (u : string) : Prop :=
  forall k hdrs,
    match RSSFetcher.http_get env k u hdrs with
    | Ok resp => RSSFetcher.status resp <> 200
    | Raise _ => True
    end.

(** ** A sample cycle: one feed with an entry, one unchanged *)

Definition unchanged_url : string := "https://unchanged.example.com/rss".

Definition sample_feeds : RSSFetcher.Env :=
  {| RSSFetcher.http_get :=
       fun _ url _ => if decide (url = unchanged_url) then Ok feed_304 else Ok feed_200;
     RSSFetcher.now_isoformat := fun _ => "2024-01-02T08:00:00";
     RSSFetcher.save := fun _ => Ok tt;
     RSSFetcher.feedparser_parse :=
       fun _ => {| RSSFetcher.feed_title := Some "Example feed";
                   RSSFetcher.entries :=
                     [{["id" := "e1"; "title" := "Markets rally";
                        "link" := "https://news.example.com/a1"]}] |} |}.

Definition sample_fetcher : NewsFetcher.Env :=
  {| NewsFetcher.feed := sample_feeds;
     NewsFetcher.md5_hexdigest := fun u => "md5:" +:+ u;
     NewsFetcher.db_insert := fun _ _ => Ok tt;
     NewsFetcher.kafka_send := fun _ _ _ => Ok tt |}.

(** The Redis store with a server that answers. *)
Definition redis_up : StateStore.DedupeStoreLike (gmap string string) :=
  {| StateStore.seen :=
       StateStore.RedisDedupeStore_seen (fun _ => Ok tt) (fun _ => "2024-01-02T08:00:00") |}.

Definition sample_fetcher_world : NewsFetcher.World (gmap string string) :=
  {| NewsFetcher.rss := feed_world; NewsFetcher.failed_feeds := [];
     NewsFetcher.store := ∅; NewsFetcher.trace := [];
     NewsFetcher.cnt_in := 0; NewsFetcher.cnt_out := 0 |}.

Definition sample_urls : list string := [feed_url; unchanged_url].

(** The stream read by a consumer that does nothing, and one cycle. *)
Definition sample_stream : result unit * NewsFetcher.World (gmap string string) :=
  NewsFetcher.stream_entries (H := redis_up) sample_fetcher 1 sample_urls
    (fun _ _ => ret tt) sample_fetcher_world.

Definition sample_cycle : result unit * NewsFetcher.World (gmap string string) :=
  NewsFetcher.run_once (H := redis_up) sample_fetcher 1 sample_urls sample_fetcher_world.

(** ** Observations on a run of the content-processing service *)

(** The articles handed to [publish_message]. *)
Definition published (evs : list ContentProcessingService.run_event)
    : list ContentProcessingService.CleanedArticle :=
  omap (fun ev => match ev with
                  | ContentProcessingService.EvPublish c => Some c
                  | _ => None
                  end) evs.

(** The totals at which the statistics were logged. *)
Definition stats_totals (evs : list ContentProcessingService.run_event) : list nat :=
  omap (fun ev => match ev with
                  | ContentProcessingService.EvStats p f => Some (p + f)%nat
                  | _ => None
                  end) evs.

(** From [w] to [w'], over [n] messages: the URLs of the articles
    published on the way have pairwise distinct hashes, none of them
    seen at [w] and all of them seen at [w']; nothing seen was
    forgotten; the two counters went up by [n] together, and
    [processed_count] by no more than the articles handed over; the
    statistics were logged at positive multiples of 10 only. *)
Definition accounted_run (md5 : string -> string) (n : nat)
    (w w' : ContentProcessingService.RunWorld) : Prop :=
  exists evs,
    ContentProcessingService.run_log w' = ContentProcessingService.run_log w ++ evs
    /\ NoDup (map (fun c => md5 (ContentProcessingService.url c)) (published evs))
    /\ (forall c, c ∈ published evs ->
          (md5 (ContentProcessingService.url c)
             ∉ ContentProcessingService.seen_urls (ContentProcessingService.service w))
          /\ (md5 (ContentProcessingService.url c)
                ∈ ContentProcessingService.seen_urls (ContentProcessingService.service w')))
    /\ ContentProcessingService.seen_urls (ContentProcessingService.service w)
         ⊆ ContentProcessingService.seen_urls (ContentProcessingService.service w')
    /\ (ContentProcessingService.processed_count w' + ContentProcessingService.failed_count w'
        = ContentProcessingService.processed_count w
          + ContentProcessingService.failed_count w + n)%nat
    /\ (ContentProcessingService.processed_count w'
        <= ContentProcessingService.processed_count w + length (published evs))%nat
    /\ Forall (fun t => (0 < t)%nat /\ (t mod 10 = 0)%nat) (stats_totals evs).

(** * [services/content-processor/src/skip_domains.py] *)

Module SkipDomains.
Import Py.

(** The module-level list as the file defines it; the functions below
    take the current list and return the new one. *)
Definition SKIP_DOMAINS : list string :=
  ["https://www.ft.com"; "https://ndtv.in/videos"; "https://phys.org"].

(** [for skip_domain in SKIP_DOMAINS:
       if url_lower.startswith(skip_domain.lower()): return True] *)
Fixpoint any_prefix (url_lower : string) (skip : list string) : bool :=
  match skip with
  | [] => false
  | skip_domain :: rest =>
      if startswith (lower skip_domain) url_lower then true
      else any_prefix url_lower rest
  end.

Definition should_skip_url (skip : list string) (url : string) : bool :=
  if negb (nonempty url) then true
  else any_prefix (lower url) skip.

Definition add_skip_domain (domain : string) (skip : list string) : list string :=
  if nonempty domain && negb (bool_decide (domain ∈ skip))
  then skip ++ [domain] else skip.

(** [list.remove(x)]: the first occurrence goes. *)
Fixpoint list_remove (x : string) (l : list string) : list string :=
  match l with
  | [] => []
  | y :: rest => if decide (y = x) then rest else y :: list_remove x rest
  end.

Definition remove_skip_domain (domain : string) (skip : list string) : list string :=
  if bool_decide (domain ∈ skip) then list_remove domain skip else skip.

End SkipDomains.

(** * [metadata_extractor.py]: [extract_publish_date] *)

Module PublishDate.
Import Py.

(** The patterns of [date_tags]. *)
Inductive date_tag : Type :=
  | PropertyArticlePublishedTime       (* {'property': 'article:published_time'} *)
  | PropertyOgPublishedTime            (* {'property': 'og:published_time'} *)
  | NamePublicationDate                (* {'name': 'publication_date'} *)
  | NamePublishdate                    (* {'name': 'publishdate'} *)
  | NameDate                           (* {'name': 'date'} *)
  | ItempropDatePublished.             (* {'itemprop': 'datePublished'} *)

Definition date_tags : list date_tag :=
  [ PropertyArticlePublishedTime; PropertyOgPublishedTime; NamePublicationDate;
    NamePublishdate; NameDate; ItempropDatePublished ].

(** What the method reads of the parsed page: for each pattern the
    [content] of the first [meta] element that matches ([None] when no
    element matches, [Some None] when it has no [content]), and the
    [datetime] of the first [time] element in the same way. *)
Record Soup : Type := {
  find_meta : date_tag -> option (option string);
  find_time : option (option string)
}.

Record Env : Type := {
  date_parse : string -> result string;     (* date_parser.parse(s).isoformat() *)
  BeautifulSoup : string -> result Soup     (* BeautifulSoup(html, 'lxml') *)
}.

Section WithEnv.
Variable env : Env.

(** [for tag in date_tags: ...] *)
Fixpoint meta_date (soup : Soup) (tags : list date_tag) : option string :=
  match tags with
  | [] => None
  | tag :: rest =>
      match find_meta soup tag with
      | Some (Some content) =>
          if nonempty content then
            match date_parse env content with
            | Ok parsed => Some parsed
            | Raise _ => meta_date soup rest
            end
          else meta_date soup rest
      | _ => meta_date soup rest
      end
  end.

(** The second [try] block and the final [return None]. *)
Definition html_date (html : string) : option string :=
  match BeautifulSoup env html with
  | Raise _ => None
  | Ok soup =>
      match meta_date soup date_tags with
      | Some parsed => Some parsed
      | None =>
          match find_time soup with
          | Some (Some datetime_attr) =>
              if nonempty datetime_attr then
                match date_parse env datetime_attr with
                | Ok parsed => Some parsed
                | Raise _ => None
                end
              else None
          | _ => None
          end
      end
  end.

Definition extract_publish_date (html : string) (extracted_date : option string)
    : option string :=
  match extracted_date with
  | Some d =>
      if nonempty d then
        match date_parse env d with
        | Ok parsed => Some parsed
        | Raise _ => html_date html
        end
      else html_date html
  | None => html_date html
  end.

(** The places a date is looked for, in one list: the date of the
    extraction method, the [content] of the six [meta] elements, the
    [datetime] of the first [time] element. *)
Definition page_sources (html : string) : list string :=
  match BeautifulSoup env html with
  | Raise _ => []
  | Ok soup =>
      omap (fun tag => mjoin (find_meta soup tag)) date_tags
      ++ option_list (mjoin (find_time soup))
  end.

Definition date_sources (html : string) (extracted_date : option string) : list string :=
  option_list extracted_date ++ page_sources html.

(** The first string of a list that is not empty and parses. *)
Fixpoint first_date (sources : list string) : option string :=
  match sources with
  | [] => None
  | s :: rest =>
      if nonempty s then
        match date_parse env s with
        | Ok parsed => Some parsed
        | Raise _ => first_date rest
        end
      else first_date rest
  end.

End WithEnv.
End PublishDate.

(** A page with an unreadable [og:published_time] and a readable
    [date]; only dates of 2024 parse. *)
Definition sample_dates : PublishDate.Env :=
  {| PublishDate.date_parse :=
       fun s => if startswith "2024-" s then Ok (s +:+ "T00:00:00") else Raise ValueError;
     PublishDate.BeautifulSoup :=
       fun _ => Ok {| PublishDate.find_meta :=
                        fun tag => match tag with
                                   | PublishDate.PropertyOgPublishedTime => Some (Some "yesterday")
                                   | PublishDate.NamePublishdate => Some None
                                   | PublishDate.NameDate => Some (Some "2024-03-05")
                                   | _ => None
                                   end;
                      PublishDate.find_time := Some (Some "2024-03-06") |} |}.

(** * [processors/translator.py] *)

Module Translator.
Import Py Fx.

(** A call [translator.translate(text)] on a translator built with
    [GoogleTranslator(source=source_lang, target='en')]. *)
Inductive event : Type :=
  | EvTranslate (source_lang text : string).

Record Env : Type := {
  detect : string -> result string;               (* langdetect.detect *)
  is_lang_detect_exception : exn -> bool;         (* except LangDetectException *)
  new_translator : string -> result unit;         (* GoogleTranslator(source=..., target='en') *)
  translate : nat -> string -> string -> result string
                                                  (* the answer, by the clock of the call *)
}.

Record World : Type := {
  clock : nat;
  calls : list event
}.

Definition max_length : nat := 4500.

(** [range(0, n, step)] *)
Definition range_step (n step : nat) : list nat :=
  map (fun k => (k * step)%nat) (seq 0 ((n + step - 1) / step)).

(** [[text[i:i+max_length] for i in range(0, len(text), max_length)]] *)
Definition chunks (text : string) : list string :=
  map (fun i => take max_length (drop i text)) (range_step (String.length text) max_length).

Section WithEnv.
Variable env : Env.

Definition detect_language (text : string) : result string :=
  if 50 <? len text then
    match detect env text with
    | Ok lang => Ok lang
    | Raise e => if is_lang_detect_exception env e then Ok "en" else Raise e
    end
  else Ok "en".

Definition call_translate (source_lang text : string) : M World string :=
  fun w =>
    (translate env (clock w) source_lang text,
     {| clock := S (clock w); calls := calls w ++ [EvTranslate source_lang text] |}).

(** [for chunk in chunks: translated_chunks.append(translator.translate(chunk))] *)
Fixpoint translate_chunks (source_lang : string) (cs : list string) : M World (list string) :=
  match cs with
  | [] => ret []
  | chunk :: rest =>
      let* translated_chunk := call_translate source_lang chunk in
      let* translated_chunks := translate_chunks source_lang rest in
      ret (translated_chunk :: translated_chunks)
  end.

Definition translate_to_english (text : string) (source_lang : option string)
    : M World (option string) :=
  try_except
    (let* source_lang :=
       match source_lang with
       | Some s => if nonempty s then ret s else lift (detect_language text)
       | None => lift (detect_language text)
       end in
     if String.eqb source_lang "en" then ret None
     else
       let* _ := lift (new_translator env source_lang) in
       if (String.length text <=? max_length)%nat then
         let* translated := call_translate source_lang text in
         ret (Some translated)
       else
         let* translated_chunks := translate_chunks source_lang (chunks text) in
         ret (Some (join " " translated_chunks)))
    any_exception
    (fun _ => ret None).

End WithEnv.

(** The texts sent to the translator, and the languages they were
    sent as. *)
Definition sent_texts (evs : list event) : list string :=
  map (fun ev => match ev with EvTranslate _ t => t end) evs.

Definition sent_langs (evs : list event) : list string :=
  map (fun ev => match ev with EvTranslate l _ => l end) evs.

(** What is sent for a text: the text itself, or its chunks when it
    is longer than [max_length]. *)
Definition pieces (text : string) : list string :=
  if (String.length text <=? max_length)%nat then [text] else chunks text.

End Translator.

(** A translator that puts every text in brackets; every text is
    detected as Spanish. *)
Definition sample_translator : Translator.Env :=
  {| Translator.detect := fun _ => Ok "es";
     Translator.is_lang_detect_exception := fun _ => false;
     Translator.new_translator := fun _ => Ok tt;
     Translator.translate := fun _ _ t => Ok ("[" +:+ t +:+ "]") |}.

Definition sample_translator_world : Translator.World :=
  {| Translator.clock := 0; Translator.calls := [] |}.

(** * Proofs *)

#[local] Arguments String.append : simpl nomatch.

(** * Facts *)


(** ** Strings *)

Section StringFacts.

Lemma str_app_empty_r (s : string) : s +:+ "" = s.
Proof. induction s as [|a s IH]; simpl; [reflexivity | now rewrite IH]. Qed.

Lemma str_app_assoc (a b c : string) : (a +:+ b) +:+ c = a +:+ (b +:+ c).
Proof. induction a as [|x a IH]; simpl; [reflexivity | now rewrite IH]. Qed.

Lemma nonempty_false (s : string) : nonempty s = false -> s = "".
Proof. destruct s; simpl; congruence. Qed.

Lemma has_char_app c (a b : string) :
  has_char c (a +:+ b) = has_char c a || has_char c b.
Proof.
  induction a as [|x a IH]; simpl; [reflexivity|].
  destruct (decide (x = c)); [reflexivity | exact IH].
Qed.

Lemma forall_chars_app p (a b : string) :
  forall_chars p (a +:+ b) = forall_chars p a && forall_chars p b.
Proof.
  induction a as [|x a IH]; simpl; [reflexivity|].
  rewrite IH. now rewrite andb_assoc.
Qed.

Lemma forall_chars_impl (p q : ascii -> bool) (s : string) :
  (forall c, p c = true -> q c = true) ->
  forall_chars p s = true -> forall_chars q s = true.
Proof.
  intros Hpq. induction s as [|x s IH]; simpl; [reflexivity|].
  intros H. apply andb_true_iff in H as [H1 H2].
  rewrite (Hpq _ H1), (IH H2). reflexivity.
Qed.

Lemma forall_chars_no_char p c (s : string) :
  p c = false -> forall_chars p s = true -> has_char c s = false.
Proof.
  intros Hc. induction s as [|x s IH]; simpl; [reflexivity|].
  intros H. apply andb_true_iff in H as [H1 H2].
  destruct (decide (x = c)) as [->|]; [congruence | auto].
Qed.

Lemma forall_chars_lower p (s : string) :
  (forall c, p c = true -> p (lower_char c) = true) ->
  forall_chars p s = true -> forall_chars p (lower s) = true.
Proof.
  intros Hp. induction s as [|x s IH]; simpl; [reflexivity|].
  intros H. apply andb_true_iff in H as [H1 H2].
  rewrite (Hp _ H1), (IH H2). reflexivity.
Qed.

Lemma partition_spec c (s l r : string) :
  partition c s = Some (l, r) -> s = l +:+ String c r /\ has_char c l = false.
Proof.
  revert l r. induction s as [|x s IH]; simpl; intros l r H; [discriminate|].
  destruct (decide (x = c)) as [->|Hne].
  - injection H as <- <-. split; reflexivity.
  - destruct (partition c s) as [[l' r']|]; [|discriminate].
    injection H as <- <-. destruct (IH l' r' eq_refl) as [-> Hl].
    split; [reflexivity|]. simpl. destruct (decide (x = c)); [contradiction | exact Hl].
Qed.

Lemma partition_none c (s : string) :
  partition c s = None <-> has_char c s = false.
Proof.
  induction s as [|x s IH]; simpl; [tauto|].
  destruct (decide (x = c)); [split; discriminate|].
  destruct (partition c s) as [[l r]|]; split; intros H; try discriminate; try reflexivity.
  - apply IH in H. discriminate.
  - now apply IH.
Qed.

Lemma partition_app c (l r : string) :
  has_char c l = false -> partition c (l +:+ String c r) = Some (l, r).
Proof.
  induction l as [|x l IH]; simpl; intros H.
  - destruct (decide (c = c)); [reflexivity | contradiction].
  - destruct (decide (x = c)); [discriminate|]. now rewrite IH.
Qed.

Lemma break_spec p (s l r : string) :
  break p s = (l, r) ->
  s = l +:+ r /\ forall_chars (fun c => negb (p c)) l = true
  /\ match r with EmptyString => True | String c _ => p c = true end.
Proof.
  revert l r. induction s as [|x s IH]; simpl; intros l r H.
  - injection H as <- <-. auto.
  - destruct (p x) eqn:Hx.
    + injection H as <- <-. simpl. auto.
    + destruct (break p s) as [l' r']. injection H as <- <-.
      destruct (IH l' r' eq_refl) as (-> & Hl & Hr).
      simpl. rewrite Hx. simpl. auto.
Qed.

Lemma break_app p (l r : string) :
  forall_chars (fun c => negb (p c)) l = true ->
  match r with EmptyString => True | String c _ => p c = true end ->
  break p (l +:+ r) = (l, r).
Proof.
  induction l as [|x l IH]; simpl; intros Hl Hr.
  - destruct r as [|c r]; [reflexivity|]. simpl. now rewrite Hr.
  - apply andb_true_iff in Hl as [Hx Hl]. apply negb_true_iff in Hx.
    rewrite Hx, (IH Hl Hr). reflexivity.
Qed.

Lemma delete_chars_clean p (s : string) :
  forall_chars (fun c => negb (p c)) (delete_chars p s) = true.
Proof.
  induction s as [|x s IH]; simpl; [reflexivity|].
  destruct (p x) eqn:Hx; [exact IH|]. simpl. now rewrite Hx, IH.
Qed.

Lemma delete_chars_id p (s : string) :
  forall_chars (fun c => negb (p c)) s = true -> delete_chars p s = s.
Proof.
  induction s as [|x s IH]; simpl; [reflexivity|].
  intros H. apply andb_true_iff in H as [Hx Hs]. apply negb_true_iff in Hx.
  now rewrite Hx, (IH Hs).
Qed.

Lemma forall_chars_drop p n (s : string) :
  forall_chars p s = true -> forall_chars p (drop n s) = true.
Proof.
  revert s. induction n as [|n IH]; intros [|x s]; simpl; auto.
  intros H. apply andb_true_iff in H as [_ H]. auto.
Qed.

Lemma startswith_app (p s : string) : startswith p (p +:+ s) = true.
Proof.
  induction p as [|x p IH]; simpl; [reflexivity|].
  destruct (decide (x = x)); [exact IH | contradiction].
Qed.

Lemma startswith_spec (p s : string) :
  startswith p s = true -> exists r, s = p +:+ r.
Proof.
  revert s. induction p as [|x p IH]; intros s; simpl.
  - exists s. reflexivity.
  - destruct s as [|y s]; [discriminate|].
    destruct (decide (x = y)) as [->|]; [|discriminate].
    intros H. destruct (IH _ H) as [r ->]. now exists r.
Qed.

Lemma drop_app_length (p s : string) : drop (String.length p) (p +:+ s) = s.
Proof. induction p as [|x p IH]; simpl; [now destruct s | exact IH]. Qed.

Lemma lower_char_idem c : lower_char (lower_char c) = lower_char c.
Proof. destruct c as [[] [] [] [] [] [] [] []]; reflexivity. Qed.

Lemma lower_idem (s : string) : lower (lower s) = lower s.
Proof. induction s as [|x s IH]; simpl; [reflexivity|]. now rewrite lower_char_idem, IH. Qed.

End StringFacts.

(** ** [urlsplit] and [urlunsplit] *)

Section UrlFacts.
Variable v : Urllib.validators.

Lemma split_once_spec c (s l r : string) :
  split_once c s = (l, r) ->
  has_char c l = false /\
  (s = l /\ r = "" /\ has_char c s = false \/ s = l +:+ String c r).
Proof.
  unfold split_once. destruct (partition c s) as [[l' r']|] eqn:H.
  - intros [= <- <-]. apply partition_spec in H as [-> Hl]. auto.
  - intros [= <- <-]. apply partition_none in H. auto.
Qed.

Lemma split_once_app c (l r : string) :
  has_char c l = false -> nonempty r = true ->
  split_once c (l +:+ String c r) = (l, r).
Proof. intros Hl _. unfold split_once. now rewrite partition_app. Qed.

Lemma split_once_absent c (s : string) :
  has_char c s = false -> split_once c s = (s, "").
Proof. intros H. unfold split_once. apply partition_none in H. now rewrite H. Qed.

Lemma has_char_app_false c (a b : string) :
  has_char c (a +:+ b) = false <-> has_char c a = false /\ has_char c b = false.
Proof. rewrite has_char_app. apply orb_false_iff. Qed.

Lemma no_unsafe_app (a b : string) : no_unsafe (a +:+ b) <-> no_unsafe a /\ no_unsafe b.
Proof. unfold no_unsafe. rewrite forall_chars_app. apply andb_true_iff. Qed.

Lemma split_hier_inv sch url p :
  split_hier v sch url = Ok p ->
  scheme p = sch /\ well_split v p /\
  (no_unsafe url -> no_unsafe (netloc p) /\ no_unsafe (path p) /\ no_unsafe (query p)) /\
  (nonempty (netloc p) = false -> startswith "//" url = false ->
     startswith "//" (path p) = false).
Proof.
  unfold split_hier.
  destruct (if startswith "//" url then splitnetloc2 url else (EmptyString, url))
    as [nl u2] eqn:Hnl.
  destruct (_ || _) eqn:Hbr; [discriminate|].
  destruct (_ && negb (check_bracketed_netloc v nl)) eqn:Hck; [discriminate|].
  destruct (split_once "#" u2) as [u3 frag] eqn:Hf.
  destruct (split_once "?" u3) as [pth qry] eqn:Hq.
  destruct (checknetloc v nl) eqn:Hcn; [|discriminate].
  intros [= <-]. cbn [scheme netloc path query fragment].
  apply split_once_spec in Hf as [Hf1 Hf2].
  apply split_once_spec in Hq as [Hq1 Hq2].
  assert (Hu3 : has_char "#" pth = false /\ has_char "#" qry = false).
  { destruct Hq2 as [(-> & -> & _)| ->]; [auto|].
    apply has_char_app_false in Hf1 as [H1 H2]. simpl in H2.
    destruct (decide ("?"%char = "#"%char)); [discriminate | auto]. }
  destruct Hu3 as [Hp1 Hp2].
  assert (Hpre : exists t, u2 = pth +:+ t /\
            match t with EmptyString => True
                    | String c _ => c = "?"%char \/ c = "#"%char end).
  { destruct Hf2 as [(-> & -> & _)| ->]; destruct Hq2 as [(-> & -> & _)| ->].
    - exists "". now rewrite str_app_empty_r.
    - exists (String "?" qry). auto.
    - exists (String "#" frag). auto.
    - exists (String "?" qry +:+ String "#" frag). rewrite str_app_assoc. simpl. auto. }
  destruct Hpre as (t & Hu2 & Ht).
  split; [reflexivity|]. split; [|split].
  - destruct (startswith "//" url) eqn:Hs.
    + unfold splitnetloc2 in Hnl. apply break_spec in Hnl as (Hd & Hn & Hr).
      constructor; simpl; auto.
      intros _. subst u2. destruct pth as [|c pth]; [trivial|].
      simpl in Hr. unfold is_delim in Hr.
      simpl in Hp1, Hq1.
      destruct (decide (c = "#"%char)); [discriminate|].
      destruct (decide (c = "?"%char)); [discriminate|].
      rewrite (bool_decide_eq_false_2 _ n), (bool_decide_eq_false_2 _ n0) in Hr.
      rewrite !orb_false_r in Hr. now apply bool_decide_eq_true in Hr.
    + injection Hnl as <- <-. constructor; simpl; auto. discriminate.
  - intros Hu.
    assert (Hu2' : no_unsafe nl /\ no_unsafe u2).
    { destruct (startswith "//" url).
      - unfold splitnetloc2 in Hnl. apply break_spec in Hnl as (Hd & _ & _).
        apply no_unsafe_app. rewrite <- Hd. now apply forall_chars_drop.
      - injection Hnl as <- <-. split; [reflexivity | exact Hu]. }
    destruct Hu2' as [Hn Hu2'].
    split; [exact Hn|].
    assert (Hu3 : no_unsafe u3).
    { destruct Hf2 as [(-> & _)| ->]; [exact Hu2'|].
      now apply no_unsafe_app in Hu2' as [? _]. }
    destruct Hq2 as [(-> & -> & _)| ->]; [split; [exact Hu3 | reflexivity]|].
    apply no_unsafe_app in Hu3 as [H1 H2]. split; [exact H1|].
    unfold no_unsafe in H2. simpl in H2. exact H2.
  - intros Hne Hs. rewrite Hs in Hnl. injection Hnl as <- <-.
    subst url. destruct pth as [|a [|b pth]]; [reflexivity | |].
    + simpl. now destruct (decide ("/"%char = a)).
    + simpl in Hs |- *. exact Hs.
Qed.

Lemma scheme_char_facts c :
  is_scheme_char c = true ->
  is_scheme_char (lower_char c) = true
  /\ is_unsafe c = false /\ is_c0_or_space c = false
  /\ c <> ":"%char /\ c <> "?"%char /\ c <> "#"%char.
Proof. destruct c as [[] [] [] [] [] [] [] []]; cbv; intuition congruence. Qed.

Lemma alpha_lower c : is_ascii_alpha c = true -> is_ascii_alpha (lower_char c) = true.
Proof. destruct c as [[] [] [] [] [] [] [] []]; cbv; congruence. Qed.

Lemma valid_scheme_chars s :
  valid_scheme s ->
  has_char ":" s = false /\ has_char "?" s = false /\ has_char "#" s = false
  /\ no_unsafe s.
Proof.
  intros (_ & _ & Hs & _).
  repeat split.
  - apply (forall_chars_no_char is_scheme_char); [reflexivity | exact Hs].
  - apply (forall_chars_no_char is_scheme_char); [reflexivity | exact Hs].
  - apply (forall_chars_no_char is_scheme_char); [reflexivity | exact Hs].
  - revert Hs. apply forall_chars_impl. intros x Hx.
    destruct (scheme_char_facts x Hx) as (_ & -> & _). reflexivity.
Qed.

Lemma https_valid : valid_scheme "https".
Proof. repeat split. Qed.

Lemma split_scheme_inv url s rest :
  split_scheme url = Some (s, rest) ->
  url = s +:+ String ":" rest /\ valid_scheme (lower s).
Proof.
  unfold split_scheme. destruct (partition ":" url) as [[pre r]|] eqn:Hp; [|discriminate].
  destruct pre as [|c0 pre]; [discriminate|].
  destruct (is_ascii_alpha c0 && _) eqn:Hc; [|discriminate].
  intros [= <- <-]. apply partition_spec in Hp as [-> _].
  apply andb_true_iff in Hc as [Ha Hs].
  split; [reflexivity|]. repeat split.
  - simpl. now apply alpha_lower.
  - revert Hs. apply forall_chars_lower. intros x Hx. apply (scheme_char_facts x Hx).
  - apply lower_idem.
Qed.

Lemma urlsplit_inv url p :
  urlsplit v url = Ok p ->
  (scheme p = "" \/ valid_scheme (scheme p)) /\ well_split v p
  /\ no_unsafe (netloc p) /\ no_unsafe (path p) /\ no_unsafe (query p).
Proof.
  unfold urlsplit.
  set (u := delete_chars is_unsafe (lstrip_by is_c0_or_space url)).
  assert (Hu : no_unsafe u) by apply delete_chars_clean.
  destruct (split_scheme u) as [[s rest]|] eqn:Hs.
  - apply split_scheme_inv in Hs as [Hu' Hv]. intros H.
    apply split_hier_inv in H as (Hsch & Hws & Hun & _).
    rewrite Hsch. split; [right; exact Hv|]. split; [exact Hws|].
    apply Hun. rewrite Hu' in Hu. apply no_unsafe_app in Hu as [_ Hu].
    unfold no_unsafe in Hu. simpl in Hu. exact Hu.
  - intros H. apply split_hier_inv in H as (Hsch & Hws & Hun & _).
    rewrite Hsch. split; [left; reflexivity|]. split; [exact Hws|]. now apply Hun.
Qed.

(** Parsing a string that starts with a valid scheme and a colon. *)
Lemma urlsplit_scheme sch body :
  valid_scheme sch -> no_unsafe body ->
  urlsplit v (sch +:+ String ":" body) = split_hier v sch body.
Proof.
  intros Hv Hb. pose proof Hv as (Hne & Hhd & Hsc & Hlow).
  destruct (valid_scheme_chars sch Hv) as (Hcolon & _ & _ & Hun).
  unfold urlsplit.
  assert (H1 : lstrip_by is_c0_or_space (sch +:+ String ":" body) = sch +:+ String ":" body).
  { destruct sch as [|c sch]; [contradiction|]. simpl.
    simpl in Hsc. apply andb_true_iff in Hsc as [Hc _].
    destruct (scheme_char_facts c Hc) as (_ & _ & -> & _). reflexivity. }
  rewrite H1.
  rewrite delete_chars_id.
  2:{ apply no_unsafe_app. split; [exact Hun|]. unfold no_unsafe. simpl. exact Hb. }
  unfold split_scheme. rewrite partition_app by exact Hcolon.
  destruct sch as [|c sch]; [contradiction|].
  rewrite Hhd, Hsc. simpl andb. cbv iota. now rewrite Hlow.
Qed.

Lemma split_query pth qry :
  has_char "#" pth = false -> has_char "?" pth = false -> has_char "#" qry = false ->
  split_once "#" (pth +:+ query_suffix qry) = (pth +:+ query_suffix qry, "")
  /\ split_once "?" (pth +:+ query_suffix qry) = (pth, qry).
Proof.
  intros H1 H2 H3. unfold query_suffix. destruct (nonempty qry) eqn:Hq.
  - split.
    + apply split_once_absent. apply has_char_app_false. split; [exact H1|].
      simpl. exact H3.
    + now apply split_once_app.
  - apply nonempty_false in Hq. subst qry. rewrite str_app_empty_r.
    split; now apply split_once_absent.
Qed.

Lemma split_hier_authority sch nl pth qry :
  forall_chars (fun c => negb (is_delim c)) nl = true ->
  (has_char "[" nl && negb (has_char "]" nl)) || (has_char "]" nl && negb (has_char "[" nl)) = false ->
  has_char "[" nl && has_char "]" nl && negb (check_bracketed_netloc v nl) = false ->
  checknetloc v nl = true ->
  has_char "#" pth = false -> has_char "?" pth = false -> has_char "#" qry = false ->
  match pth with EmptyString => True | String c _ => c = "/"%char end ->
  split_hier v sch ("//" +:+ nl +:+ pth +:+ query_suffix qry)
  = Ok {| scheme := sch; netloc := nl; path := pth; query := qry; fragment := "" |}.
Proof.
  intros Hnl Hb1 Hb2 Hcn Hp1 Hp2 Hq Habs.
  unfold split_hier. rewrite startswith_app.
  unfold splitnetloc2. change 2%nat with (String.length "//"). rewrite drop_app_length.
  rewrite break_app; [| exact Hnl |].
  2:{ destruct pth as [|c pth].
      - simpl. unfold query_suffix. destruct (nonempty qry); simpl; auto.
      - simpl. subst c. reflexivity. }
  rewrite Hb1, Hb2.
  destruct (split_query pth qry Hp1 Hp2 Hq) as [-> ->].
  now rewrite Hcn.
Qed.

Lemma split_hier_rootless sch pth qry :
  has_char "#" pth = false -> has_char "?" pth = false -> has_char "#" qry = false ->
  startswith "//" pth = false ->
  split_hier v sch (pth +:+ query_suffix qry)
  = Ok {| scheme := sch; netloc := ""; path := pth; query := qry; fragment := "" |}.
Proof.
  intros Hp1 Hp2 Hq Hs.
  unfold split_hier.
  assert (Hs' : startswith "//" (pth +:+ query_suffix qry) = false).
  { unfold query_suffix. destruct pth as [|a [|b pth]].
    - destruct (nonempty qry); reflexivity.
    - destruct (nonempty qry); simpl; destruct (decide ("/"%char = a)); reflexivity.
    - simpl in Hs |- *. exact Hs. }
  rewrite Hs'. simpl has_char. simpl andb. simpl orb. cbv iota.
  destruct (split_query pth qry Hp1 Hp2 Hq) as [-> ->].
  reflexivity.
Qed.

End UrlFacts.

(** ** [_normalized_url] *)

Section NormFacts.
Variable env : Env.

Lemma urlunsplit_nofrag sch nl pth qry :
  nonempty sch = true ->
  urlunsplit sch nl pth qry ""
  = sch +:+ String ":" (hier_part sch nl pth +:+ query_suffix qry).
Proof.
  intros Hs. unfold urlunsplit, hier_part, query_suffix. rewrite Hs. simpl nonempty.
  cbv iota.
  destruct (nonempty qry).
  - rewrite !str_app_assoc. reflexivity.
  - rewrite str_app_empty_r. reflexivity.
Qed.

Lemma scheme_or_https_valid p :
  scheme p = "" \/ valid_scheme (scheme p) -> valid_scheme (scheme_or_https p).
Proof.
  unfold scheme_or_https. intros [->|H]; [apply https_valid|].
  destruct H as (Hne & H). rewrite Hne. now split.
Qed.

Lemma normalized_shape url p :
  urlsplit (url_validators env) url = Ok p ->
  _normalized_url env url
  = Ok (scheme_or_https p +:+
        String ":" (hier_part (scheme_or_https p) (netloc p) (path p)
                    +:+ query_suffix (query p))).
Proof.
  intros H. unfold _normalized_url. rewrite H.
  fold (scheme_or_https p). rewrite urlunsplit_nofrag; [reflexivity|].
  apply urlsplit_inv in H as (Hs & _). now apply scheme_or_https_valid in Hs as [? _].
Qed.

Lemma startswith_slash_head (s : string) :
  startswith "/" s = match s with String c _ => bool_decide (c = "/"%char) | _ => false end.
Proof.
  destruct s as [|c s]; [reflexivity|]. simpl.
  destruct (decide ("/"%char = c)) as [<-|Hn]; [reflexivity|].
  symmetry. apply bool_decide_eq_false_2. congruence.
Qed.

Lemma has_char_cons_ne a c (s : string) :
  a <> c -> has_char c (String a s) = has_char c s.
Proof. intros H. simpl. destruct (decide (a = c)); [contradiction | reflexivity]. Qed.

Lemma no_unsafe_hier sch nl pth qry :
  no_unsafe nl -> no_unsafe pth -> no_unsafe qry ->
  no_unsafe (hier_part sch nl pth +:+ query_suffix qry).
Proof.
  intros Hn Hp Hq. apply no_unsafe_app. split.
  - unfold hier_part. destruct (_ || _); [|exact Hp].
    apply no_unsafe_app. split; [reflexivity|].
    apply no_unsafe_app. split; [exact Hn|].
    destruct (_ && _); [|exact Hp]. apply no_unsafe_app. split; [reflexivity | exact Hp].
  - unfold query_suffix. destruct (nonempty qry); [|reflexivity].
    unfold no_unsafe. simpl. exact Hq.
Qed.

(** Re-parsing a normalised URL gives back the pieces it was built
    from, as long as the input had an authority or a path that does not
    begin with two slashes. *)
Lemma resplit_normalized url p n :
  urlsplit (url_validators env) url = Ok p ->
  proper p ->
  _normalized_url env url = Ok n ->
  exists pth',
    urlsplit (url_validators env) n
    = Ok {| scheme := scheme_or_https p; netloc := netloc p; path := pth';
            query := query p; fragment := "" |}
    /\ hier_part (scheme_or_https p) (netloc p) pth'
       = hier_part (scheme_or_https p) (netloc p) (path p).
Proof.
  intros Hsplit Hcase Hn. unfold proper in Hcase.
  rewrite (normalized_shape _ _ Hsplit) in Hn. injection Hn as <-.
  pose proof (urlsplit_inv _ _ _ Hsplit) as (Hsch & Hws & Hun & Hup & Huq).
  pose proof (scheme_or_https_valid _ Hsch) as Hv.
  destruct Hws as [W1 W2 W3 W4 W5 W6 W7 W8].
  rewrite urlsplit_scheme; [| exact Hv | now apply no_unsafe_hier].
  set (s := scheme_or_https p) in *.
  assert (Hsne : nonempty s = true) by apply Hv.
  unfold hier_part at 1. rewrite Hsne. cbn [andb].
  destruct (nonempty (netloc p)) eqn:Hnl.
  - (* an authority is present *)
    specialize (W5 eq_refl). cbn [orb]. cbv iota.
    assert (Hp' : (if nonempty (path p) && negb (startswith "/" (path p))
                   then "/" +:+ path p else path p) = path p).
    { destruct (path p) as [|c r]; [reflexivity|]. subst c. reflexivity. }
    rewrite Hp'. exists (path p). split; [|reflexivity].
    rewrite !str_app_assoc. now apply split_hier_authority.
  - destruct Hcase as [Hc|Hc]; [discriminate|]. rewrite Hc. cbn [negb]. rewrite andb_true_r.
    cbn [orb].
    destruct (in_uses_netloc s) eqn:Hu.
    + (* no authority, a scheme that takes one: [//] and an absolute path *)
      set (pth' := if nonempty (path p) && negb (startswith "/" (path p))
                   then "/" +:+ path p else path p).
      assert (Habs : match pth' with EmptyString => True | String c _ => c = "/"%char end).
      { subst pth'. destruct (path p) as [|c r]; [exact I|]. simpl.
        destruct (decide ("/"%char = c)) as [<-|]; reflexivity. }
      assert (Hh : has_char "#" pth' = false /\ has_char "?" pth' = false).
      { subst pth'.
        destruct (nonempty (path p) && negb (startswith "/" (path p))); [|auto].
        change ("/" +:+ path p) with (String "/" (path p)).
        rewrite !has_char_cons_ne by discriminate. auto. }
      exists pth'. split.
      * apply nonempty_false in Hnl. rewrite Hnl in *.
        rewrite !str_app_assoc. apply split_hier_authority; try reflexivity; tauto.
      * unfold hier_part. rewrite Hnl, Hsne, Hu, Hc. cbn [andb orb negb].
        assert (Hs2 : startswith "//" pth' = false).
        { subst pth'. destruct (path p) as [|a [|b r]]; [reflexivity | |].
          - simpl. destruct (decide ("/"%char = a)) as [<-|]; simpl.
            + reflexivity.
            + destruct (decide ("/"%char = a)); [contradiction | reflexivity].
          - simpl in Hc |- *. destruct (decide ("/"%char = a)) as [<-|]; simpl.
            + destruct (decide ("/"%char = "/"%char)); [exact Hc | contradiction].
            + destruct (decide ("/"%char = a)); [contradiction | reflexivity]. }
        rewrite Hs2. cbn [andb orb negb].
        assert (Hid : (if nonempty pth' && negb (startswith "/" pth')
                       then "/" +:+ pth' else pth') = pth').
        { destruct pth' as [|c r]; [reflexivity|]. subst c. reflexivity. }
        now rewrite Hid.
    + (* no authority, a scheme that takes none: the path as it is *)
      cbv iota. exists (path p). split; [|reflexivity].
      apply nonempty_false in Hnl. rewrite Hnl.
      now apply split_hier_rootless.
Qed.

Lemma normalized_idempotent url p n :
  urlsplit (url_validators env) url = Ok p ->
  proper p ->
  _normalized_url env url = Ok n ->
  _normalized_url env n = Ok n.
Proof.
  intros Hsplit Hcase Hn.
  destruct (resplit_normalized _ _ _ Hsplit Hcase Hn) as (pth' & Hre & Hh).
  pose proof (urlsplit_inv _ _ _ Hsplit) as (Hsch & _).
  destruct (scheme_or_https_valid _ Hsch) as (Hne & _).
  rewrite (normalized_shape _ _ Hre).
  rewrite (normalized_shape _ _ Hsplit) in Hn. injection Hn as <-.
  set (q := {| scheme := scheme_or_https p; netloc := netloc p; path := pth';
               query := query p; fragment := "" |}).
  assert (E : scheme_or_https q = scheme_or_https p).
  { unfold scheme_or_https at 1. subst q. cbn [scheme]. now rewrite Hne. }
  rewrite E. subst q. cbn [netloc path query]. now rewrite Hh.
Qed.


Lemma has_char_hier c sch nl pth :
  c <> "/"%char -> has_char c nl = false -> has_char c pth = false ->
  has_char c (hier_part sch nl pth) = false.
Proof.
  intros Hc Hn Hp. unfold hier_part. destruct (_ || _); [|exact Hp].
  rewrite !has_char_app, Hn.
  change (has_char c "//") with
    (if decide ("/"%char = c) then true else if decide ("/"%char = c) then true else false).
  destruct (decide ("/"%char = c)); [congruence|].
  destruct (nonempty pth && negb (startswith "/" pth)); [|now rewrite Hp].
  change ("/" +:+ pth) with (String "/" pth). rewrite has_char_cons_ne by congruence.
  now rewrite Hp.
Qed.

(** The normal form: the scheme (or [https]) and a colon in front, the
    query behind the first question mark, and no hash anywhere. *)
Lemma normalized_form url p n :
  urlsplit (url_validators env) url = Ok p ->
  _normalized_url env url = Ok n ->
  startswith (scheme_or_https p +:+ ":") n = true
  /\ (split_once "?" n).2 = query p
  /\ has_char "#" n = false.
Proof.
  intros Hsplit Hn.
  rewrite (normalized_shape _ _ Hsplit) in Hn. injection Hn as <-.
  pose proof (urlsplit_inv _ _ _ Hsplit) as (Hsch & Hws & _).
  pose proof (scheme_or_https_valid _ Hsch) as Hv.
  destruct (valid_scheme_chars _ Hv) as (_ & Hq & Hh & _).
  destruct Hws as [W1 W2 W3 W4 _ _ _ _].
  set (s := scheme_or_https p) in *.
  set (h := hier_part s (netloc p) (path p)).
  assert (Hhq : has_char "?" h = false).
  { apply has_char_hier; [discriminate | | exact W3].
    now apply (forall_chars_no_char (fun c => negb (is_delim c))). }
  assert (Hhh : has_char "#" h = false).
  { apply has_char_hier; [discriminate | | exact W2].
    now apply (forall_chars_no_char (fun c => negb (is_delim c))). }
  split; [|split].
  - change (String ":" (h +:+ query_suffix (query p)))
      with (":" +:+ (h +:+ query_suffix (query p))).
    rewrite <- str_app_assoc. apply startswith_app.
  - change (s +:+ String ":" (h +:+ query_suffix (query p)))
      with (s +:+ (":" +:+ (h +:+ query_suffix (query p)))).
    rewrite <- !str_app_assoc.
    assert (Hx : has_char "?" ((s +:+ ":") +:+ h) = false).
    { rewrite !has_char_app, Hq, Hhq. reflexivity. }
    unfold query_suffix. destruct (nonempty (query p)) eqn:Hne.
    + rewrite split_once_app by assumption. reflexivity.
    + rewrite str_app_empty_r, split_once_absent by exact Hx.
      apply nonempty_false in Hne. now rewrite Hne.
  - change (s +:+ String ":" (h +:+ query_suffix (query p)))
      with (s +:+ (":" +:+ (h +:+ query_suffix (query p)))).
    rewrite !has_char_app, Hh, Hhh. unfold query_suffix.
    destruct (nonempty (query p)); [|reflexivity].
    rewrite has_char_cons_ne by discriminate. exact W4.
Qed.

End NormFacts.

(** ** Rules for effectful code *)

Section Hoare.
Variable env : Env.

(** [J] is an invariant of the extractor object. *)
Variable J : Self -> Prop.
Hypothesis J_rotate : forall s ua,
  J s ->
  J {| max_retries := max_retries s; backoff_factor := backoff_factor s;
       user_agents_pool := user_agents_pool s; user_agent := ua;
       base_headers := <["User-Agent" := ua]> (base_headers s) |}.

#[local] Abbreviation spec := (triple J).


Lemma spec_conseq {A} (m : M World A) (Q Q' : result A -> list event -> Prop) :
  spec m Q -> (forall r evs, Q r evs -> Q' r evs) -> spec m Q'.
Proof.
  intros Hm HQ w Hw. destruct (Hm w Hw) as (evs & Ht & Hq & Hj).
  exists evs. auto.
Qed.

Lemma spec_ret {A} (a : A) : spec (ret a) (fun r evs => r = Ok a /\ evs = []).
Proof. intros w Hw. exists []. simpl. rewrite app_nil_r. auto. Qed.

Lemma spec_raise {A} (e : exn) : spec (@raise World A e) (fun r evs => r = Raise e /\ evs = []).
Proof. intros w Hw. exists []. simpl. rewrite app_nil_r. auto. Qed.

Lemma spec_lift {A} (x : result A) : spec (lift x) (fun r evs => r = x /\ evs = []).
Proof. intros w Hw. exists []. simpl. rewrite app_nil_r. auto. Qed.

Lemma spec_bind {A B} (m : M World A) (f : A -> M World B)
    (Q1 : result A -> list event -> Prop) (Q2 : result B -> list event -> Prop) :
  spec m Q1 ->
  (forall a evs1, Q1 (Ok a) evs1 -> spec (f a) (fun r evs2 => Q2 r (evs1 ++ evs2))) ->
  (forall e evs1, Q1 (Raise e) evs1 -> Q2 (Raise e) evs1) ->
  spec (bind m f) Q2.
Proof.
  intros Hm Hf He w Hw. unfold bind.
  destruct (Hm w Hw) as (evs1 & Ht1 & Hq1 & Hj1).
  destruct (m w) as [[a|e] w1]; simpl in *.
  - destruct (Hf a evs1 Hq1 w1 Hj1) as (evs2 & Ht2 & Hq2 & Hj2).
    exists (evs1 ++ evs2). rewrite Ht2, Ht1, app_assoc. auto.
  - exists evs1. auto.
Qed.

Lemma spec_try {A} (m : M World A) (catches : exn -> bool) (h : exn -> M World A)
    (Q1 Q2 : result A -> list event -> Prop) :
  spec m Q1 ->
  (forall a evs, Q1 (Ok a) evs -> Q2 (Ok a) evs) ->
  (forall e evs1, Q1 (Raise e) evs1 -> catches e = true ->
     spec (h e) (fun r evs2 => Q2 r (evs1 ++ evs2))) ->
  (forall e evs, Q1 (Raise e) evs -> catches e = false -> Q2 (Raise e) evs) ->
  spec (try_except m catches h) Q2.
Proof.
  intros Hm Hok Hh Hno w Hw. unfold try_except.
  destruct (Hm w Hw) as (evs1 & Ht1 & Hq1 & Hj1).
  destruct (m w) as [[a|e] w1]; simpl in *.
  - exists evs1. auto.
  - destruct (catches e) eqn:Hc.
    + destruct (Hh e evs1 Hq1 Hc w1 Hj1) as (evs2 & Ht2 & Hq2 & Hj2).
      exists (evs1 ++ evs2). rewrite Ht2, Ht1, app_assoc. auto.
    + exists evs1. simpl. auto.
Qed.

Lemma spec_tick : spec tick (fun r evs => (exists k, r = Ok k) /\ evs = []).
Proof. intros w Hw. exists []. simpl. rewrite app_nil_r. eauto. Qed.

Lemma spec_get_self : spec get_self (fun r evs => (exists s, r = Ok s /\ J s) /\ evs = []).
Proof. intros w Hw. exists []. simpl. rewrite app_nil_r. eauto 10. Qed.

Lemma spec_emit ev : spec (emit ev) (fun r evs => r = Ok tt /\ evs = [ev]).
Proof. intros w Hw. exists [ev]. simpl. auto. Qed.

Lemma spec_rotate ua : spec (rotate_user_agent ua) (fun r evs => r = Ok tt /\ evs = []).
Proof. intros w Hw. exists []. simpl. rewrite app_nil_r. auto. Qed.

Lemma spec_random_choice seq :
  spec (random_choice env seq)
       (fun r evs => evs = [] /\ (seq <> [] -> exists ua, r = Ok ua)).
Proof.
  intros w Hw. exists []. unfold random_choice, bind, tick, lift. simpl.
  rewrite app_nil_r. repeat split; [|exact Hw].
  intros Hne. destruct seq; [contradiction|]. simpl. eauto.
Qed.

Lemma spec_jitter base :
  spec (jitter env base)
       (fun r evs => evs = [] /\ exists d, r = Ok (jitter_with base spread (draw_value d))).
Proof.
  intros w Hw. exists []. unfold jitter, bind, tick, ret. simpl.
  rewrite app_nil_r. eauto.
Qed.

Lemma spec_time_sleep site d :
  spec (time_sleep site d)
       (fun r evs => (Qle_bool 0 d = true /\ r = Ok tt /\ evs = [EvSleep site d])
                     \/ (Qle_bool 0 d = false /\ r = Raise ValueError /\ evs = [])).
Proof.
  intros w Hw. unfold time_sleep. destruct (Qle_bool 0 d) eqn:Hd.
  - exists [EvSleep site d]. simpl. split; [reflexivity|]. split; [left; auto | exact Hw].
  - exists []. simpl. rewrite app_nil_r. split; [reflexivity|]. split; [right; auto | exact Hw].
Qed.

Lemma spec_send t vb url hdrs :
  spec (send env t vb url hdrs)
       (fun r evs =>
          evs = [EvRequest {| rq_transport := t; rq_verb := vb; rq_url := url;
                              rq_headers := hdrs |}]
          /\ exists k, r = net env k {| rq_transport := t; rq_verb := vb; rq_url := url;
                                        rq_headers := hdrs |}).
Proof.
  intros w Hw. eexists. unfold send, bind, tick, emit, modify, lift. simpl.
  split; [reflexivity|]. eauto.
Qed.

End Hoare.

(** ** Jitter *)

Section Numeric.

Lemma draw_value_range d : (0 <= draw_value d /\ draw_value d < 1)%Q.
Proof.
  unfold draw_value, Qle, Qlt. cbn [Qnum Qden].
  rewrite Zpos_P_of_succ_nat. split; lia.
Qed.

Lemma jitter_with_bounds base r :
  (0 <= base)%Q -> (0 <= r)%Q -> (r <= 1)%Q ->
  (base - spread <= jitter_with base spread r /\ jitter_with base spread r <= base + spread)%Q.
Proof.
  intros Hb H0 H1. unfold jitter_with, uniform, max0, spread.
  destruct (Qle_bool (base - (6 # 10)) 0) eqn:Hlo.
  - apply Qle_bool_iff in Hlo. split; nra.
  - assert (Hlo' : ~ (base - (6 # 10) <= 0)%Q).
    { intros H. apply Qle_bool_iff in H. congruence. }
    split; nra.
Qed.

Lemma jitter_with_nonneg base r :
  (0 <= base)%Q -> (0 <= r)%Q -> (r <= 1)%Q -> (0 <= jitter_with base spread r)%Q.
Proof.
  intros Hb H0 H1. unfold jitter_with, uniform, max0, spread.
  destruct (Qle_bool (base - (6 # 10)) 0) eqn:Hlo.
  - apply Qle_bool_iff in Hlo. nra.
  - assert (Hlo' : ~ (base - (6 # 10) <= 0)%Q).
    { intros H. apply Qle_bool_iff in H. congruence. }
    nra.
Qed.
End Numeric.

(** ** What a fetch leaves in the trace *)

Section TraceInvariant.
Variable env : Env.
Variable n : string.          (* the normalised URL handed to the transports *)
Variable bf : Q.              (* the extractor's backoff factor *)
Variable pool : list string.  (* the extractor's pool of user agents *)
Variable clean : Prop.        (* whether the base headers carry no If-Modified-Since *)

#[local] Abbreviation JJ := (J bf pool clean).
#[local] Abbreviation ev_ok := (event_ok env n bf clean).
#[local] Abbreviation rq_ok := (request_ok env n clean).

Lemma event_ok_weaken lo hi lo' hi' ev :
  lo' <= lo -> hi <= hi' -> ev_ok lo hi ev -> ev_ok lo' hi' ev.
Proof.
  intros Hlo Hhi. destruct ev as [rq|[t|k] d|m]; simpl; auto.
  intros [H1 H2]. split; [lia | exact H2].
Qed.

Lemma J_rotate s ua :
  JJ s ->
  JJ {| max_retries := max_retries s; backoff_factor := backoff_factor s;
       user_agents_pool := user_agents_pool s; user_agent := ua;
       base_headers := <["User-Agent" := ua]> (base_headers s) |}.
Proof.
  intros (H1 & H2 & H3). split; [exact H1|]. split; [exact H2|].
  intros Hc. unfold no_ims. simpl.
  rewrite lookup_insert_ne by discriminate. now apply H3.
Qed.

#[local] Abbreviation spec := (triple JJ).
#[local] Abbreviation emits lo hi := (fun _ evs => Forall (ev_ok lo hi) evs).

Lemma emits_bind {A B} lo hi (m : M World A) (f : A -> M World B) Q1 :
  spec m Q1 ->
  (forall r evs, Q1 r evs -> Forall (ev_ok lo hi) evs) ->
  (forall a evs1, Q1 (Ok a) evs1 -> spec (f a) (emits lo hi)) ->
  spec (bind m f) (emits lo hi).
Proof.
  intros Hm H1 Hf. eapply spec_bind; [exact Hm | |].
  - intros a evs1 Hq. eapply spec_conseq; [apply (Hf a evs1 Hq)|].
    intros r evs2 H2. simpl. apply Forall_app. split; eauto.
  - intros e evs1 Hq. eauto.
Qed.

Lemma emits_try {A} lo hi (m : M World A) catches (h : exn -> M World A) :
  spec m (emits lo hi) ->
  (forall e, spec (h e) (emits lo hi)) ->
  spec (try_except m catches h) (emits lo hi).
Proof.
  intros Hm Hh. eapply spec_try; [exact Hm | | |]; simpl; auto.
  intros e evs1 H1 _. eapply spec_conseq; [apply Hh|].
  intros r evs2 H2. simpl. apply Forall_app. auto.
Qed.

Lemma emits_ret {A} lo hi (a : A) : spec (ret a) (emits lo hi).
Proof. eapply spec_conseq; [apply spec_ret|]. intros r evs [_ ->]. constructor. Qed.

Lemma merge_headers_no_ims base ua ref origin :
  no_ims base ->
  no_ims (merge_headers base [("User-Agent", Some ua); ("Referer", ref); ("Origin", origin)]).
Proof.
  intros H. unfold merge_headers, no_ims. simpl.
  destruct origin, ref; rewrite ?lookup_insert_ne by discriminate; exact H.
Qed.

Lemma build_headers_spec url :
  spec (_build_headers env url)
       (fun r evs => evs = [] /\ forall h, r = Ok h -> clean -> no_ims h).
Proof.
  unfold _build_headers.
  eapply spec_bind; [apply spec_lift | |].
  2:{ intros e evs1 [_ ->]. split; [reflexivity | discriminate]. }
  intros parts evs1 [_ ->]. simpl.
  eapply spec_bind; [apply spec_get_self | |].
  2:{ intros e evs1 [_ ->]. split; [reflexivity | discriminate]. }
  intros s evs1 [(s' & [= <-] & Hj) ->]. simpl.
  eapply spec_bind; [apply spec_random_choice | |].
  2:{ intros e evs1 [-> _]. split; [reflexivity | discriminate]. }
  intros ua evs1 [-> _]. simpl.
  eapply spec_conseq; [apply spec_ret|].
  intros r evs [-> ->]. split; [reflexivity|].
  intros h [= <-] Hc. apply merge_headers_no_ims. now apply Hj.
Qed.

Lemma send_emits lo hi t vb url hdrs :
  rq_ok {| rq_transport := t; rq_verb := vb; rq_url := url; rq_headers := hdrs |} ->
  spec (send env t vb url hdrs) (emits lo hi).
Proof.
  intros Hok. eapply spec_conseq; [apply spec_send|].
  intros r evs [-> _]. constructor; [exact Hok | constructor].
Qed.

Lemma warm_up_emits lo hi hdrs :
  (clean -> no_ims hdrs) ->
  spec (_warm_up env n hdrs) (emits lo hi).
Proof.
  intros Hh. unfold _warm_up. apply emits_try; [|intros e; apply emits_ret].
  eapply emits_bind; [apply spec_send | |].
  - intros r evs [-> _]. constructor; [|constructor].
    split; [left; reflexivity | exact Hh].
  - intros head evs1 _. destruct (status_code head =? 405); [|apply emits_ret].
    eapply emits_bind; [apply spec_lift | |].
    + intros r evs [_ ->]. constructor.
    + intros parts evs2 [Hp _].
      eapply emits_bind; [apply (send_emits lo hi) | |].
      * split; [|exact Hh]. right. simpl. eauto.
      * intros r evs H. exact H.
      * intros _ _ _. apply emits_ret.
Qed.

Lemma sleep_delay_emits lo hi t d :
  spec (time_sleep (HumanDelay t) d) (emits lo hi).
Proof.
  eapply spec_conseq; [apply spec_time_sleep|].
  intros r evs [(_ & _ & ->)|(_ & _ & ->)]; [constructor; [exact I | constructor] | constructor].
Qed.

Lemma delay_emits lo hi t base :
  spec (let* d := jitter env base in time_sleep (HumanDelay t) d) (emits lo hi).
Proof.
  eapply emits_bind; [apply spec_jitter | |].
  - intros r evs [-> _]. constructor.
  - intros d evs1 _. apply sleep_delay_emits.
Qed.


Lemma emits_seq {A B} lo hi (m : M World A) (f : A -> M World B) :
  spec m (emits lo hi) ->
  (forall a, spec (f a) (emits lo hi)) ->
  spec (bind m f) (emits lo hi).
Proof. intros Hm Hf. eapply emits_bind; [exact Hm | auto | auto]. Qed.

Lemma requests_fetch_emits lo hi attempt :
  spec (_requests_fetch env n attempt) (emits lo hi).
Proof.
  unfold _requests_fetch.
  eapply emits_bind; [apply build_headers_spec | |].
  { intros r evs [-> _]. constructor. }
  intros hdrs evs1 [_ Hh]. specialize (Hh hdrs eq_refl).
  apply emits_seq; [now apply warm_up_emits|]. intros _.
  eapply emits_bind; [apply spec_jitter | |].
  { intros r evs [-> _]. constructor. }
  intros d evs2 _.
  apply emits_seq; [apply sleep_delay_emits|]. intros _.
  apply emits_seq.
  { apply send_emits. split; [left; reflexivity | exact Hh]. }
  intros resp. destruct (not_html resp); apply emits_ret.
Qed.

Lemma httpx_fetch_emits lo hi attempt :
  spec (_httpx_fetch env n attempt) (emits lo hi).
Proof.
  unfold _httpx_fetch. destruct (negb (httpx_installed env)); [apply emits_ret|].
  eapply emits_bind; [apply build_headers_spec | |].
  { intros r evs [-> _]. constructor. }
  intros hdrs evs1 [_ Hh]. specialize (Hh hdrs eq_refl).
  eapply emits_bind; [apply spec_jitter | |].
  { intros r evs [-> _]. constructor. }
  intros d evs2 _.
  apply emits_seq; [apply sleep_delay_emits|]. intros _.
  apply emits_seq.
  { apply send_emits. split; [left; reflexivity | exact Hh]. }
  intros resp. destruct (not_html resp); apply emits_ret.
Qed.

Lemma cloudscraper_fetch_emits lo hi attempt :
  spec (_cloudscraper_fetch env n attempt) (emits lo hi).
Proof.
  unfold _cloudscraper_fetch. destruct (negb (cloudscraper_installed env)); [apply emits_ret|].
  eapply emits_bind; [apply build_headers_spec | |].
  { intros r evs [-> _]. constructor. }
  intros hdrs evs1 [_ Hh]. specialize (Hh hdrs eq_refl).
  eapply emits_bind; [apply spec_jitter | |].
  { intros r evs [-> _]. constructor. }
  intros d evs2 _.
  apply emits_seq; [apply sleep_delay_emits|]. intros _.
  apply emits_seq.
  { apply send_emits. split; [left; reflexivity | exact Hh]. }
  intros resp. destruct (not_html resp); apply emits_ret.
Qed.

Lemma try_requests_emits lo hi attempt :
  spec (try_requests env n attempt) (emits lo hi).
Proof.
  unfold try_requests. apply emits_try; [|intros e; apply emits_ret].
  apply emits_seq; [apply requests_fetch_emits|].
  intros [[text status] resp].
  destruct (usable text status); [apply emits_ret|].
  destruct (_ && _); [|apply emits_ret].
  apply emits_seq; [apply cloudscraper_fetch_emits|].
  intros [text2 status2]. destruct (usable text2 status2); apply emits_ret.
Qed.

Lemma try_httpx_emits lo hi attempt :
  spec (try_httpx env n attempt) (emits lo hi).
Proof.
  unfold try_httpx. apply emits_try; [|intros e; apply emits_ret].
  apply emits_seq; [apply httpx_fetch_emits|].
  intros [t s]. destruct (usable t s); apply emits_ret.
Qed.

Lemma try_cloudscraper_emits lo hi attempt :
  spec (try_cloudscraper env n attempt) (emits lo hi).
Proof.
  unfold try_cloudscraper. apply emits_try; [|intros e; apply emits_ret].
  apply emits_seq; [apply cloudscraper_fetch_emits|].
  intros [t s]. destruct (usable t s); apply emits_ret.
Qed.

Lemma backoff_emits attempt :
  0 <= attempt ->
  spec (backoff env attempt) (emits attempt (attempt + 1)).
Proof.
  intros Ha. unfold backoff.
  eapply emits_bind; [apply spec_get_self | |].
  { intros r evs [_ ->]. constructor. }
  intros s evs1 [(s' & [= <-] & Hbf & _ & _) _].
  eapply emits_bind; [apply spec_jitter | |].
  { intros r evs [-> _]. constructor. }
  intros d evs2 [_ (dr & [= ->])].
  eapply spec_conseq; [apply spec_time_sleep|].
  intros r evs [(_ & _ & ->)|(_ & _ & ->)]; [|constructor].
  constructor; [|constructor]. simpl. split; [lia|].
  intros Hpos. rewrite Hbf.
  destruct (draw_value_range dr) as [H0 H1].
  apply jitter_with_bounds; [| exact H0 | now apply Qlt_le_weak].
  apply Qmult_le_0_compat; [exact Hpos|].
  change 0%Q with (inject_Z 0). now rewrite <- Zle_Qle.
Qed.

Lemma attempt_once_emits attempt :
  0 <= attempt ->
  spec (attempt_once env n attempt) (emits attempt (attempt + 1)).
Proof.
  intros Ha. unfold attempt_once.
  eapply emits_bind; [apply spec_get_self | |].
  { intros r evs [_ ->]. constructor. }
  intros s evs1 _.
  eapply emits_bind; [apply spec_random_choice | |].
  { intros r evs [-> _]. constructor. }
  intros ua evs2 _.
  eapply emits_bind; [apply spec_rotate; apply J_rotate | |].
  { intros r evs [_ ->]. constructor. }
  intros _ _ _.
  apply emits_seq; [apply try_requests_emits|]. intros [t|]; [apply emits_ret|].
  apply emits_seq; [apply try_httpx_emits|]. intros [t|]; [apply emits_ret|].
  apply emits_seq; [apply try_cloudscraper_emits|]. intros [t|]; [apply emits_ret|].
  apply emits_seq; [now apply backoff_emits|]. intros _. apply emits_ret.
Qed.

Lemma attempts_emits k attempt :
  0 <= attempt ->
  spec (attempts env k attempt n) (emits attempt (attempt + Z.of_nat k)).
Proof.
  revert attempt. induction k as [|k IH]; intros attempt Ha; simpl attempts.
  - apply emits_ret.
  - apply emits_seq.
    + eapply spec_conseq; [apply (attempt_once_emits attempt Ha)|].
      intros r evs H. eapply Forall_impl; [exact H|].
      intros ev. apply event_ok_weaken; lia.
    + intros [t|]; [apply emits_ret|].
      eapply spec_conseq; [apply (IH (attempt + 1)); lia|].
      intros r evs H. eapply Forall_impl; [exact H|].
      intros ev. apply event_ok_weaken; lia.
Qed.

End TraceInvariant.

Section FetchTrace.
Variable env : Env.

(** Everything [fetch_html] does on the network and every backoff it
    sleeps: the master statement behind the theorems on URLs, headers and
    backoff. *)
Lemma fetch_html_events url w :
  let R := fetch_html env url w in
  match _normalized_url env url with
  | Raise e => R = (Raise e, w)
  | Ok n =>
      exists evs,
        trace R.2 = trace w ++ evs /\
        Forall (event_ok env n (backoff_factor (self w))
                  (no_ims (base_headers (self w)))
                  1 (1 + Z.of_nat (Z.to_nat (max_retries (self w))))) evs /\
        (no_ims (base_headers (self w)) -> no_ims (base_headers (self R.2)))
  end.
Proof.
  unfold fetch_html, bind, lift. destruct (_normalized_url env url) as [n|e]; [|reflexivity].
  simpl.
  pose proof (attempts_emits env n (backoff_factor (self w)) (user_agents_pool (self w))
                (no_ims (base_headers (self w)))
                (Z.to_nat (max_retries (self w))) 1 ltac:(lia) w) as H.
  destruct H as (evs & Ht & Hf & HJ).
  - split; [reflexivity | auto].
  - exists evs. split; [exact Ht|]. split; [exact Hf|]. apply HJ.
Qed.

End FetchTrace.

(** ** The failing path *)

Section Observers.

Lemma backoffs_app a b : backoffs (a ++ b) = backoffs a ++ backoffs b.
Proof. apply omap_app. Qed.

Lemma sent_app t vb a b : sent t vb (a ++ b) = (sent t vb a + sent t vb b)%nat.
Proof. unfold sent. now rewrite List.filter_app, length_app. Qed.

End Observers.


Section Failing.

Lemma tallies_app e1 e2 t1 t2 :
  tallies e1 t1 -> tallies e2 t2 -> tallies (e1 ++ e2) (tplus t1 t2).
Proof.
  intros (A1 & A2 & A3 & A4) (B1 & B2 & B3 & B4). unfold tallies, tplus. simpl.
  rewrite backoffs_app, !sent_app, A1, A3, A4, B1, B3, B4.
  repeat split; lia.
Qed.

Lemma tallies_nil : tallies [] tzero.
Proof. unfold tallies, tzero, sent. simpl. repeat split; lia. Qed.

Lemma tallies_weaken evs t t' :
  tallies evs t -> bk t' = bk t -> (rg t' <= rg t)%nat -> hx t' = hx t -> cs t' = cs t ->
  tallies evs t'.
Proof.
  intros (A1 & A2 & A3 & A4) E1 E2 E3 E4. unfold tallies.
  rewrite E1, E3, E4. repeat split; auto; lia.
Qed.

Lemma tplus_zero_r t : tplus t tzero = t.
Proof.
  destruct t. unfold tplus, tzero. simpl. rewrite app_nil_r.
  f_equal; lia.
Qed.

Lemma looks_like_cloudflare_blocked resp :
  400 <= status_code resp < 600 -> looks_like_cloudflare (Some resp) = false.
Proof.
  intros H. unfold looks_like_cloudflare, ok.
  assert (E : (400 <=? status_code resp) && (status_code resp <? 600) = true).
  { apply andb_true_iff. split; [apply Z.leb_le | apply Z.ltb_lt]; lia. }
  now rewrite E.
Qed.

Lemma usable_error t st : 400 <= st -> usable t (Some st) = false.
Proof.
  intros H. unfold usable. simpl.
  assert (E : (st <? 400) = false) by (apply Z.ltb_ge; lia).
  rewrite E. now rewrite andb_false_r.
Qed.

Variable env : Env.
Variable n : string.
Variable bf : Q.
Variable pool : list string.
Hypothesis Hbf : (0 <= bf)%Q.
Hypothesis Hpool : pool <> [].
Hypothesis Hparse : exists parts, urlsplit (url_validators env) n = Ok parts.
Hypothesis Hnet : forall k rq, ordinary_failure (rq_transport rq) (net env k rq).

#[local] Abbreviation spec := (triple (J bf pool False)).

Lemma T_bind {A B} (m : M World A) (f : A -> M World B) R1 R2 t1 t2 :
  spec m (T R1 t1) ->
  (forall a, R1 (Ok a) -> spec (f a) (T R2 t2)) ->
  (forall e, R1 (Raise e) -> R2 (Raise e) /\ t2 = tzero) ->
  spec (bind m f) (T R2 (tplus t1 t2)).
Proof.
  intros Hm Hf He. eapply spec_bind; [exact Hm | |].
  - intros a evs1 [Ha Ht1]. eapply spec_conseq; [apply (Hf a Ha)|].
    intros r evs2 [Hr Ht2]. split; [exact Hr | now apply tallies_app].
  - intros e evs1 [H1 Ht1]. destruct (He e H1) as [H2 ->].
    split; [exact H2|]. now rewrite tplus_zero_r.
Qed.

Lemma T_pure {A} (a : A) (R : result A -> Prop) :
  R (Ok a) -> spec (ret a) (T R tzero).
Proof.
  intros H. eapply spec_conseq; [apply spec_ret|].
  intros r evs [-> ->]. split; [exact H | apply tallies_nil].
Qed.

Lemma T_conseq {A} (m : M World A) (R R' : result A -> Prop) t t' :
  spec m (T R t) -> (forall r, R r -> R' r) -> t = t' -> spec m (T R' t').
Proof.
  intros Hm HR <-. eapply spec_conseq; [exact Hm|]. intros r evs [H1 H2]. split; auto.
Qed.

Lemma build_headers_ok :
  spec (_build_headers env n) (T succeeds tzero).
Proof.
  destruct Hparse as [parts Hp]. unfold _build_headers. rewrite Hp.
  eapply spec_bind; [apply spec_lift | |].
  2:{ intros e evs [[=] _]. }
  intros p evs1 [[= <-] ->]. simpl.
  eapply spec_bind; [apply spec_get_self | |].
  2:{ intros e evs [(s & [=] & _) _]. }
  intros s evs1 [(s' & [= <-] & Hj) ->]. simpl.
  eapply spec_bind; [apply spec_random_choice | |].
  2:{ intros e evs [_ H]. destruct Hj as (_ & Hp' & _). rewrite Hp' in H.
      destruct (H Hpool) as [ua [=]]. }
  intros ua evs1 [-> _]. simpl.
  apply T_pure. eexists; reflexivity.
Qed.

Lemma send_tally t vb url hdrs :
  spec (send env t vb url hdrs)
       (T (fun r => ordinary_failure t r)
          {| bk := [];
             rg := if same_transport t Requests && same_verb vb GET then 1 else 0;
             hx := if same_transport t Httpx && same_verb vb GET then 1 else 0;
             cs := if same_transport t Cloudscraper && same_verb vb GET then 1 else 0 |}).
Proof.
  eapply spec_conseq; [apply spec_send|].
  intros r evs [-> (k & ->)]. split.
  - apply (Hnet k {| rq_transport := t; rq_verb := vb; rq_url := url; rq_headers := hdrs |}).
  - destruct t, vb; unfold tallies, sent; cbn; repeat split; lia.
Qed.


Lemma T_weaken {A} (m : M World A) (R R' : result A -> Prop) t t' :
  spec m (T R t) -> (forall r, R r -> R' r) -> weaker t' t -> spec m (T R' t').
Proof.
  intros Hm HR (E1 & E2 & E3 & E4). eapply spec_conseq; [exact Hm|].
  intros r evs [H1 H2]. split; [auto|]. now apply (tallies_weaken evs t).
Qed.

Lemma T_try {A} (m : M World A) catches (h : exn -> M World A) R1 R2 t :
  spec m (T R1 t) ->
  (forall a, R1 (Ok a) -> R2 (Ok a)) ->
  (forall e, R1 (Raise e) -> catches e = true /\ spec (h e) (T R2 tzero)) ->
  spec (try_except m catches h) (T R2 t).
Proof.
  intros Hm Hok Hh. eapply spec_try; [exact Hm | | |].
  - intros a evs [H1 H2]. split; auto.
  - intros e evs1 [H1 H2] _. destruct (Hh e H1) as [_ Hs].
    eapply spec_conseq; [exact Hs|]. intros r evs2 [H3 H4].
    split; [exact H3|]. rewrite <- (tplus_zero_r t). now apply tallies_app.
  - intros e evs [H1 _] Hc. destruct (Hh e H1) as [Hc' _]. congruence.
Qed.

Ltac tally := unfold weaker, tplus, tzero; cbn; repeat split; lia.

Lemma warm_up_ok hdrs :
  spec (_warm_up env n hdrs) (T (fun r => r = Ok tt) tzero).
Proof.
  destruct Hparse as [parts Hp]. unfold _warm_up.
  eapply T_try with (R1 := fun _ => True).
  - eapply T_weaken; [| intros r H; exact H |].
    + eapply T_bind; [apply (send_tally Requests HEAD) | |].
      * intros head _.
        destruct (status_code head =? 405).
        -- rewrite Hp.
           eapply T_weaken with (R := fun _ => True) (t := {| bk := []; rg := 1; hx := 0; cs := 0 |});
             [| auto | instantiate (1 := tzero); tally].
           eapply T_weaken; [| intros r H; exact H |].
           ++ eapply T_bind; [apply (T_pure parts (fun r => r = Ok parts)); reflexivity | |].
              ** intros a _.
                 eapply T_bind; [apply (send_tally Requests GET) | |].
                 --- intros r _. apply (T_pure tt (fun _ => True)). exact I.
                 --- intros e _. split; [exact I | reflexivity].
              ** intros e [=].
           ++ tally.
        -- apply (T_pure tt (fun _ => True)). exact I.
      * intros e _. split; [exact I | reflexivity].
    + tally.
  - intros [] _. reflexivity.
  - intros e _. split; [reflexivity|]. now apply T_pure.
Qed.

Lemma jitter_T base :
  spec (jitter env base)
       (T (fun r => exists d, r = Ok (jitter_with base spread (draw_value d))) tzero).
Proof.
  eapply spec_conseq; [apply spec_jitter|].
  intros r evs [-> H]. split; [exact H | apply tallies_nil].
Qed.

Lemma sleep_ok site d :
  (0 <= d)%Q ->
  spec (time_sleep site d)
       (T (fun r => r = Ok tt)
          {| bk := match site with Backoff k => [k] | _ => [] end;
             rg := 0; hx := 0; cs := 0 |}).
Proof.
  intros Hd. eapply spec_conseq; [apply spec_time_sleep|].
  intros r evs [(_ & -> & ->)|(H & _)].
  - split; [reflexivity|]. destruct site; unfold tallies, sent; cbn; repeat split; lia.
  - apply Qle_bool_iff in Hd. congruence.
Qed.

Lemma nonneg_delay base dr :
  (0 <= base)%Q -> (0 <= jitter_with base spread (draw_value dr))%Q.
Proof.
  intros Hb. destruct (draw_value_range dr).
  apply jitter_with_nonneg; auto using Qlt_le_weak.
Qed.

Lemma requests_fetch_fail attempt :
  spec (_requests_fetch env n attempt)
       (T (fun r => match r with
                    | Ok (_, st, resp) =>
                        exists r', resp = Some r' /\ st = Some (status_code r')
                                   /\ 400 <= status_code r'
                    | Raise e => is_requests_exception e = true
                    end)
          {| bk := []; rg := 1; hx := 0; cs := 0 |}).
Proof.
  unfold _requests_fetch.
  eapply T_weaken; [| intros r H; exact H |].
  - eapply T_bind; [apply build_headers_ok | |]; [|intros e [a [=]]].
    intros hdrs _.
    eapply T_bind; [apply warm_up_ok | |]; [|intros e [=]].
    intros _ _.
    eapply T_bind; [apply jitter_T | |]; [|intros e [dr [=]]].
    intros d (dr & [= ->]).
    eapply T_bind; [apply sleep_ok; now apply nonneg_delay | |]; [|intros e [=]].
    intros _ _.
    eapply T_bind; [apply (send_tally Requests GET) | |].
    + intros resp Hf. simpl in Hf.
      destruct (not_html resp); apply T_pure; eauto.
    + intros e Hf. split; [exact Hf | reflexivity].
  - tally.
Qed.

Lemma httpx_fetch_fail attempt :
  spec (_httpx_fetch env n attempt)
       (T (fun r => match r with
                    | Ok (_, st) => st = None \/ exists z, st = Some z /\ 400 <= z
                    | Raise _ => True
                    end)
          {| bk := []; rg := 0; hx := if httpx_installed env then 1 else 0; cs := 0 |}).
Proof.
  unfold _httpx_fetch. destruct (httpx_installed env); cbn [negb].
  2:{ apply T_pure. now left. }
  eapply T_weaken; [| intros r H; exact H |].
  - eapply T_bind; [apply build_headers_ok | |]; [|intros e [a [=]]].
    intros hdrs _.
    eapply T_bind; [apply jitter_T | |]; [|intros e [dr [=]]].
    intros d (dr & [= ->]).
    eapply T_bind; [apply sleep_ok; now apply nonneg_delay | |]; [|intros e [=]].
    intros _ _.
    eapply T_bind; [apply (send_tally Httpx GET) | |].
    + intros resp Hf. simpl in Hf.
      destruct (not_html resp); apply T_pure; eauto.
    + intros e Hf. split; [exact I | reflexivity].
  - tally.
Qed.

Lemma cloudscraper_fetch_fail attempt :
  spec (_cloudscraper_fetch env n attempt)
       (T (fun r => match r with
                    | Ok (_, st) => st = None \/ exists z, st = Some z /\ 400 <= z
                    | Raise _ => True
                    end)
          {| bk := []; rg := 0; hx := 0; cs := if cloudscraper_installed env then 1 else 0 |}).
Proof.
  unfold _cloudscraper_fetch. destruct (cloudscraper_installed env); cbn [negb].
  2:{ apply T_pure. now left. }
  eapply T_weaken; [| intros r H; exact H |].
  - eapply T_bind; [apply build_headers_ok | |]; [|intros e [a [=]]].
    intros hdrs _.
    eapply T_bind; [apply jitter_T | |]; [|intros e [dr [=]]].
    intros d (dr & [= ->]).
    eapply T_bind; [apply sleep_ok; now apply nonneg_delay | |]; [|intros e [=]].
    intros _ _.
    eapply T_bind; [apply (send_tally Cloudscraper GET) | |].
    + intros resp Hf. simpl in Hf.
      destruct (not_html resp); apply T_pure; eauto.
    + intros e Hf. split; [exact I | reflexivity].
  - tally.
Qed.

Lemma usable_refused t st :
  st = None \/ (exists z, st = Some z /\ 400 <= z) -> usable t st = false.
Proof.
  intros [->|(z & -> & Hz)]; [|now apply usable_error].
  unfold usable. simpl. now rewrite andb_false_r.
Qed.

Lemma try_requests_fail attempt :
  spec (try_requests env n attempt)
       (T (fun r => r = Ok None) {| bk := []; rg := 1; hx := 0; cs := 0 |}).
Proof.
  unfold try_requests.
  eapply T_try with
    (R1 := fun r => match r with
                    | Ok a => a = None
                    | Raise e => is_requests_exception e = true
                    end).
  - eapply T_weaken; [| intros r H; exact H |].
    + eapply T_bind; [apply requests_fetch_fail | |].
      * intros [[text st] resp] (r' & -> & -> & Hst).
        rewrite usable_error by exact Hst.
        destruct (bool_decide (Some (status_code r') = Some 403)) eqn:E.
        -- apply bool_decide_eq_true in E. injection E as E.
           rewrite looks_like_cloudflare_blocked by lia. simpl.
           apply (T_pure None (fun r => match r with Ok a => a = None
                                                | Raise e => is_requests_exception e = true end)).
           reflexivity.
        -- simpl.
           apply (T_pure None (fun r => match r with Ok a => a = None
                                                | Raise e => is_requests_exception e = true end)).
           reflexivity.
      * intros e He. split; [exact He | reflexivity].
    + tally.
  - intros a ->. reflexivity.
  - intros e He. split; [exact He|]. now apply T_pure.
Qed.

Lemma try_httpx_fail attempt :
  spec (try_httpx env n attempt)
       (T (fun r => r = Ok None)
          {| bk := []; rg := 0; hx := if httpx_installed env then 1 else 0; cs := 0 |}).
Proof.
  unfold try_httpx.
  eapply T_try with (R1 := fun r => match r with Ok a => a = None | Raise _ => True end).
  - eapply T_weaken; [| intros r H; exact H |].
    + eapply T_bind; [apply httpx_fetch_fail | |].
      * intros [text st] Hst. rewrite usable_refused by exact Hst.
        apply (T_pure None (fun r => match r with Ok a => a = None | Raise _ => True end)).
        reflexivity.
      * intros e _. split; [exact I | reflexivity].
    + tally.
  - intros a ->. reflexivity.
  - intros e _. split; [reflexivity|]. now apply T_pure.
Qed.

Lemma try_cloudscraper_fail attempt :
  spec (try_cloudscraper env n attempt)
       (T (fun r => r = Ok None)
          {| bk := []; rg := 0; hx := 0; cs := if cloudscraper_installed env then 1 else 0 |}).
Proof.
  unfold try_cloudscraper.
  eapply T_try with (R1 := fun r => match r with Ok a => a = None | Raise _ => True end).
  - eapply T_weaken; [| intros r H; exact H |].
    + eapply T_bind; [apply cloudscraper_fetch_fail | |].
      * intros [text st] Hst. rewrite usable_refused by exact Hst.
        apply (T_pure None (fun r => match r with Ok a => a = None | Raise _ => True end)).
        reflexivity.
      * intros e _. split; [exact I | reflexivity].
    + tally.
  - intros a ->. reflexivity.
  - intros e _. split; [reflexivity|]. now apply T_pure.
Qed.


Lemma backoff_ok attempt :
  0 <= attempt ->
  spec (backoff env attempt)
       (T (fun r => r = Ok tt) {| bk := [attempt]; rg := 0; hx := 0; cs := 0 |}).
Proof.
  intros Ha. unfold backoff.
  eapply spec_bind; [apply spec_get_self | |].
  2:{ intros e evs [(s & [=] & _) _]. }
  intros s evs1 [(s' & [= <-] & Hs & _) ->]. simpl.
  eapply T_weaken; [| intros r H; exact H |].
  - eapply T_bind; [apply jitter_T | |]; [|intros e [dr [=]]].
    intros d (dr & [= ->]). apply (sleep_ok (Backoff attempt)).
    apply nonneg_delay. rewrite Hs.
    apply Qmult_le_0_compat; [exact Hbf|].
    change 0%Q with (inject_Z 0). now rewrite <- Zle_Qle.
  - tally.
Qed.

Lemma attempt_once_fail attempt :
  0 <= attempt ->
  spec (attempt_once env n attempt) (T (fun r => r = Ok None) (attempt_tally env attempt)).
Proof.
  intros Ha. unfold attempt_once.
  eapply spec_bind; [apply spec_get_self | |].
  2:{ intros e evs [(s & [=] & _) _]. }
  intros s evs1 [(s' & [= <-] & Hj) ->]. simpl.
  eapply spec_bind; [apply spec_random_choice | |].
  2:{ intros e evs [_ H]. destruct Hj as (_ & Hp' & _). rewrite Hp' in H.
      destruct (H Hpool) as [ua [=]]. }
  intros ua evs1 [-> _]. simpl.
  eapply spec_bind; [apply spec_rotate; apply J_rotate | |].
  2:{ intros e evs [[=] _]. }
  intros _ evs1 [_ ->]. simpl.
  eapply T_weaken; [| intros r H; exact H |].
  - eapply T_bind; [apply try_requests_fail | |]; [|intros e [=]].
    intros r1 [= ->].
    eapply T_bind; [apply try_httpx_fail | |]; [|intros e [=]].
    intros r2 [= ->].
    eapply T_bind; [apply try_cloudscraper_fail | |]; [|intros e [=]].
    intros r3 [= ->].
    eapply T_bind; [now apply backoff_ok | |]; [|intros e [=]].
    intros _ _. now apply T_pure.
  - unfold attempt_tally. destruct (httpx_installed env), (cloudscraper_installed env); tally.
Qed.

Lemma attempts_fail k attempt :
  0 <= attempt ->
  spec (attempts env k attempt n) (T (fun r => r = Ok None) (attempts_tally env k attempt)).
Proof.
  revert attempt. induction k as [|k IH]; intros attempt Ha; simpl attempts.
  - apply T_weaken with (R := fun r => r = Ok None) (t := tzero);
      [now apply T_pure | auto |].
    unfold attempts_tally. destruct (httpx_installed env), (cloudscraper_installed env); tally.
  - eapply T_weaken; [| intros r H; exact H |].
    + eapply T_bind; [now apply attempt_once_fail | |]; [|intros e [=]].
      intros r [= ->]. apply IH. lia.
    + unfold attempts_tally, attempt_tally, weaker, tplus. cbn [bk rg hx cs].
      split; [|destruct (httpx_installed env), (cloudscraper_installed env); repeat split; lia].
      cbn [seq map]. rewrite Z.add_0_r. cbn [app]. f_equal.
      rewrite <- seq_shift, map_map. apply map_ext. intros i. lia.
Qed.

End Failing.

Section FetchFails.

(** [fetch_html] on a world where every request fails in an ordinary
    way: no exception, [None], one backoff per attempt, and every
    installed transport tried in every attempt. *)
Lemma fetch_html_exhausts env url w n parts :
  (0 <= backoff_factor (self w))%Q ->
  user_agents_pool (self w) <> [] ->
  _normalized_url env url = Ok n ->
  urlsplit (url_validators env) n = Ok parts ->
  (forall k rq, ordinary_failure (rq_transport rq) (net env k rq)) ->
  let N := Z.to_nat (max_retries (self w)) in
  exists evs,
    fetch_html env url w = (Ok None, (fetch_html env url w).2) /\
    trace (fetch_html env url w).2 = trace w ++ evs /\
    backoffs evs = map (fun i => 1 + Z.of_nat i) (seq 0 N) /\
    (N <= sent Requests GET evs)%nat /\
    sent Httpx GET evs = (if httpx_installed env then N else 0%nat) /\
    sent Cloudscraper GET evs = (if cloudscraper_installed env then N else 0%nat).
Proof.
  intros Hbf Hpool Hn Hp Hnet N.
  pose proof (attempts_fail env n (backoff_factor (self w)) (user_agents_pool (self w))
                Hbf Hpool (ex_intro _ parts Hp) Hnet N 1 ltac:(lia) w) as H.
  destruct H as (evs & Ht & [Hr Htal] & _).
  { split; [reflexivity|]. split; [reflexivity | intros []]. }
  unfold fetch_html, bind, lift. rewrite Hn. simpl. fold N.
  destruct (attempts env N 1 n w) as [r w'] eqn:E. simpl in *. subst r.
  exists evs. split; [reflexivity|]. split; [exact Ht|].
  destruct Htal as (B1 & B2 & B3 & B4). auto.
Qed.

End FetchFails.

(** ** Responses that are not HTML *)

Section NonHtml.

Lemma not_html_iff r :
  not_html r = true <-> html_like r = false /\ has_html_marker r = false.
Proof.
  unfold not_html, html_like, has_html_marker. fold (content_type r).
  destruct (contains "text/html" (content_type r)),
           (contains "application/xhtml+xml" (content_type r)),
           (contains "<html" (lower (take 2000 (text r)))); simpl; intuition congruence.
Qed.

Variable env : Env.
Variable n : string.
Variable bf : Q.
Variable pool : list string.
Hypothesis Hnet : forall k rq r, net env k rq = Ok r -> no_page r = true.

#[local] Abbreviation spec := (triple (J bf pool False)).

Lemma no_page_text r :
  no_page r = true -> not_html r = false ->
  (100 <=? len (text r)) = false.
Proof.
  unfold no_page. intros H E. rewrite E in H. simpl in H.
  apply Z.ltb_lt in H. apply Z.leb_gt. exact H.
Qed.

Lemma quiet {A} (m : M World A) lo hi :
  triple (J bf pool False) m (fun _ evs => Forall (event_ok env n bf False lo hi) evs) ->
  spec m (fun _ _ => True).
Proof. intros H. eapply spec_conseq; [exact H | auto]. Qed.

Lemma res_bind {A B} (m : M World A) (f : A -> M World B) (R1 : result A -> Prop)
    (R2 : result B -> Prop) :
  spec m (fun r _ => R1 r) ->
  (forall a, R1 (Ok a) -> spec (f a) (fun r _ => R2 r)) ->
  (forall e, R2 (Raise e)) ->
  spec (bind m f) (fun r _ => R2 r).
Proof.
  intros Hm Hf He. eapply spec_bind; [exact Hm | |]; simpl; auto.
Qed.

Lemma res_try {A} (m : M World A) catches (h : exn -> M World A) (R : result A -> Prop) :
  spec m (fun r _ => R r) ->
  (forall e, spec (h e) (fun r _ => R r)) ->
  spec (try_except m catches h) (fun r _ => R r).
Proof.
  intros Hm Hh. eapply spec_try; [exact Hm | | |]; simpl; auto.
Qed.

Lemma res_ret {A} (a : A) (R : result A -> Prop) : R (Ok a) -> spec (ret a) (fun r _ => R r).
Proof. intros H. eapply spec_conseq; [apply spec_ret|]. now intros r evs [-> _]. Qed.

Lemma send_nonhtml t vb url hdrs :
  spec (send env t vb url hdrs)
       (fun r _ => match r with Ok resp => no_page resp = true | Raise _ => True end).
Proof.
  eapply spec_conseq; [apply spec_send|].
  intros r evs [_ (k & ->)].
  destruct (net env k _) as [resp|e] eqn:E; [|exact I]. now apply Hnet in E.
Qed.

Lemma requests_fetch_textless attempt :
  spec (_requests_fetch env n attempt) (fun r _ => textless (fun a => a.1.1) r).
Proof.
  unfold _requests_fetch.
  eapply res_bind with (R1 := fun _ => True);
    [apply (quiet _ 0 0); eapply spec_conseq; [apply build_headers_spec|];
     intros r evs [-> _]; constructor | | exact (fun _ => I)].
  intros hdrs _.
  eapply res_bind with (R1 := fun _ => True);
    [apply (quiet _ 0 0); apply warm_up_emits; intros [] | | exact (fun _ => I)].
  intros _ _.
  eapply res_bind with (R1 := fun _ => True);
    [eapply spec_conseq; [apply spec_jitter | auto] | | exact (fun _ => I)].
  intros d _.
  eapply res_bind with (R1 := fun _ => True);
    [apply (quiet _ 0 0); apply sleep_delay_emits | | exact (fun _ => I)].
  intros _ _.
  eapply res_bind; [apply send_nonhtml | | exact (fun _ => I)].
  intros resp Hr. destruct (not_html resp) eqn:E; [now apply res_ret|].
  rewrite (no_page_text _ Hr E), ?andb_false_r. now apply res_ret.
Qed.

Lemma httpx_fetch_textless attempt :
  spec (_httpx_fetch env n attempt) (fun r _ => textless (fun a => a.1) r).
Proof.
  unfold _httpx_fetch. destruct (negb (httpx_installed env)); [now apply res_ret|].
  eapply res_bind with (R1 := fun _ => True);
    [apply (quiet _ 0 0); eapply spec_conseq; [apply build_headers_spec|];
     intros r evs [-> _]; constructor | | exact (fun _ => I)].
  intros hdrs _.
  eapply res_bind with (R1 := fun _ => True);
    [eapply spec_conseq; [apply spec_jitter | auto] | | exact (fun _ => I)].
  intros d _.
  eapply res_bind with (R1 := fun _ => True);
    [apply (quiet _ 0 0); apply sleep_delay_emits | | exact (fun _ => I)].
  intros _ _.
  eapply res_bind; [apply send_nonhtml | | exact (fun _ => I)].
  intros resp Hr. destruct (not_html resp) eqn:E; [now apply res_ret|].
  rewrite (no_page_text _ Hr E), ?andb_false_r. now apply res_ret.
Qed.

Lemma cloudscraper_fetch_textless attempt :
  spec (_cloudscraper_fetch env n attempt) (fun r _ => textless (fun a => a.1) r).
Proof.
  unfold _cloudscraper_fetch. destruct (negb (cloudscraper_installed env)); [now apply res_ret|].
  eapply res_bind with (R1 := fun _ => True);
    [apply (quiet _ 0 0); eapply spec_conseq; [apply build_headers_spec|];
     intros r evs [-> _]; constructor | | exact (fun _ => I)].
  intros hdrs _.
  eapply res_bind with (R1 := fun _ => True);
    [eapply spec_conseq; [apply spec_jitter | auto] | | exact (fun _ => I)].
  intros d _.
  eapply res_bind with (R1 := fun _ => True);
    [apply (quiet _ 0 0); apply sleep_delay_emits | | exact (fun _ => I)].
  intros _ _.
  eapply res_bind; [apply send_nonhtml | | exact (fun _ => I)].
  intros resp Hr. destruct (not_html resp) eqn:E; [now apply res_ret|].
  rewrite (no_page_text _ Hr E), ?andb_false_r. now apply res_ret.
Qed.

Lemma try_requests_textless attempt :
  spec (try_requests env n attempt) (fun r _ => textless (fun a => a) r).
Proof.
  unfold try_requests. apply res_try; [|intros e; now apply res_ret].
  eapply res_bind; [apply requests_fetch_textless | | exact (fun _ => I)].
  intros [[text st] resp] Ht. simpl in Ht. subst text.
  change (usable None st) with false. cbv iota.
  destruct (_ && _); [|now apply res_ret].
  eapply res_bind; [apply cloudscraper_fetch_textless | | exact (fun _ => I)].
  intros [text2 st2] Ht. simpl in Ht. subst text2.
  change (usable None st2) with false. now apply res_ret.
Qed.

Lemma try_httpx_textless attempt :
  spec (try_httpx env n attempt) (fun r _ => textless (fun a => a) r).
Proof.
  unfold try_httpx. apply res_try; [|intros e; now apply res_ret].
  eapply res_bind; [apply httpx_fetch_textless | | exact (fun _ => I)].
  intros [text st] Ht. simpl in Ht. subst text.
  change (usable None st) with false. now apply res_ret.
Qed.

Lemma try_cloudscraper_textless attempt :
  spec (try_cloudscraper env n attempt) (fun r _ => textless (fun a => a) r).
Proof.
  unfold try_cloudscraper. apply res_try; [|intros e; now apply res_ret].
  eapply res_bind; [apply cloudscraper_fetch_textless | | exact (fun _ => I)].
  intros [text st] Ht. simpl in Ht. subst text.
  change (usable None st) with false. now apply res_ret.
Qed.

Lemma attempt_once_textless attempt :
  spec (attempt_once env n attempt) (fun r _ => textless (fun a => a) r).
Proof.
  unfold attempt_once.
  eapply res_bind with (R1 := fun _ => True);
    [eapply spec_conseq; [apply spec_get_self | auto] | | exact (fun _ => I)].
  intros s _.
  eapply res_bind with (R1 := fun _ => True);
    [eapply spec_conseq; [apply spec_random_choice | auto] | | exact (fun _ => I)].
  intros ua _.
  eapply res_bind with (R1 := fun _ => True);
    [eapply spec_conseq; [apply spec_rotate; apply J_rotate | auto] | | exact (fun _ => I)].
  intros _ _.
  eapply res_bind; [apply try_requests_textless | | exact (fun _ => I)].
  intros r1 H1. simpl in H1. subst r1.
  eapply res_bind; [apply try_httpx_textless | | exact (fun _ => I)].
  intros r2 H2. simpl in H2. subst r2.
  eapply res_bind; [apply try_cloudscraper_textless | | exact (fun _ => I)].
  intros r3 H3. simpl in H3. subst r3.
  eapply res_bind with (R1 := fun _ => True); [| | exact (fun _ => I)].
  - unfold backoff.
    eapply res_bind with (R1 := fun _ => True);
      [eapply spec_conseq; [apply spec_get_self | auto] | | exact (fun _ => I)].
    intros s' _.
    eapply res_bind with (R1 := fun _ => True);
      [eapply spec_conseq; [apply spec_jitter | auto] | | exact (fun _ => I)].
    intros d _. eapply spec_conseq; [apply spec_time_sleep | auto].
  - intros _ _. now apply res_ret.
Qed.

Lemma attempts_textless k attempt :
  spec (attempts env k attempt n) (fun r _ => textless (fun a => a) r).
Proof.
  revert attempt. induction k as [|k IH]; intros attempt; simpl attempts.
  - now apply res_ret.
  - eapply res_bind; [apply attempt_once_textless | | exact (fun _ => I)].
    intros r H. simpl in H. subst r. apply IH.
Qed.

End NonHtml.

Section NonHtmlFetch.

Lemma fetch_html_textless env url w :
  (forall k rq r, net env k rq = Ok r -> no_page r = true) ->
  textless (fun a => a) (fetch_html env url w).1.
Proof.
  intros Hnet. unfold fetch_html, bind, lift.
  destruct (_normalized_url env url) as [n|e]; [|exact I]. simpl.
  destruct (attempts_textless env n (backoff_factor (self w)) (user_agents_pool (self w))
              Hnet (Z.to_nat (max_retries (self w))) 1 w) as (evs & _ & H & _).
  - split; [reflexivity|]. split; [reflexivity | intros []].
  - exact H.
Qed.

End NonHtmlFetch.

(** ** The extraction chain *)

Section Chain.
Variable env : Env.

Lemma log_events_nil w : log_events w [] = w.
Proof. destruct w. unfold log_events. simpl. now rewrite app_nil_r. Qed.

Lemma log_events_app w a b : log_events (log_events w a) b = log_events w (a ++ b).
Proof. unfold log_events. simpl. now rewrite app_assoc. Qed.

Lemma run_methods_run ms w :
  run_methods ms w
  = (Ok (first_accepted ms), log_events w (map EvCall (called ms))).
Proof.
  revert w. induction ms as [|[name fn] rest IH]; intros w.
  - simpl. now rewrite log_events_nil.
  - cbn [run_methods first_accepted called].
    unfold bind, try_except, emit, modify, ret. cbn [fst snd].
    destruct (has_content (fn tt)) eqn:Hc; cbn.
    + destruct (fn tt) as [c|]; [reflexivity | discriminate].
    + rewrite IH. unfold log_events. cbn. now rewrite <- app_assoc.
Qed.

Lemma first_accepted_in ms c :
  first_accepted ms = Some c ->
  exists name fn, In (name, fn) ms /\ fn tt = Some c /\ nonempty (content c) = true.
Proof.
  induction ms as [|[name fn] rest IH]; simpl; [discriminate|].
  destruct (has_content (fn tt)) eqn:Hc.
  - intros H. exists name, fn. split; [now left|]. split; [exact H|].
    rewrite H in Hc. exact Hc.
  - intros H. destruct (IH H) as (n' & f' & Hin & Hf). exists n', f'. split; [now right | exact Hf].
Qed.

Lemma first_accepted_none ms :
  (forall name fn, In (name, fn) ms -> fn tt = None) -> first_accepted ms = None.
Proof.
  induction ms as [|[name fn] rest IH]; simpl; [reflexivity|].
  intros H. rewrite (H name fn (or_introl eq_refl)). simpl.
  apply IH. intros n' f' Hin. apply (H n' f'). now right.
Qed.

Lemma called_prefix pre name fn post :
  Forall (fun m => has_content (m.2 tt) = false) pre ->
  has_content (fn tt) = true ->
  first_accepted (pre ++ (name, fn) :: post) = fn tt
  /\ called (pre ++ (name, fn) :: post) = map fst pre ++ [name].
Proof.
  intros Hpre Hfn. induction Hpre as [|[n0 f0] pre H0 _ IH]; simpl.
  - now rewrite Hfn.
  - simpl in H0. rewrite H0. destruct IH as [-> ->]. auto.
Qed.

(** Every method applies the floor itself. *)
Lemma long_enough_spec s :
  long_enough s = true <-> nonempty s = true /\ 100 < len s.
Proof. unfold long_enough. rewrite andb_true_iff, Z.ltb_lt. tauto. Qed.

Lemma run_trafilatura_floor url html b c :
  _run_trafilatura env url html b = Some c ->
  long_enough (content c) = true /\ keywords c = [].
Proof.
  unfold _run_trafilatura.
  destruct (trafilatura_extract env b html url) as [[data|]|]; try discriminate.
  destruct (long_enough _) eqn:H; [|discriminate].
  intros [= <-]. simpl. auto.
Qed.

Lemma trafilatura_floor url html c :
  extract_with_trafilatura env url html = Some c ->
  long_enough (content c) = true /\ keywords c = [].
Proof.
  unfold extract_with_trafilatura. destruct (negb (trafilatura_installed env)); [discriminate|].
  destruct (_run_trafilatura env url html true) as [r|] eqn:H1.
  - intros [= <-]. now apply run_trafilatura_floor in H1.
  - apply run_trafilatura_floor.
Qed.

Lemma slice_to_length {A} k (l : list A) : 0 <= k -> Z.of_nat (length (slice_to k l)) <= k.
Proof.
  intros Hk. unfold slice_to.
  assert (E : (0 <=? k) = true) by (apply Z.leb_le; lia). rewrite E.
  rewrite length_firstn. lia.
Qed.

Lemma newspaper_floor url html c :
  extract_with_newspaper env url html = Some c ->
  long_enough (content c) = true /\ (length (keywords c) <= 10)%nat.
Proof.
  unfold extract_with_newspaper. destruct (negb (newspaper_installed env)); [discriminate|].
  destruct (newspaper_parse env url html) as [a|]; [|discriminate].
  destruct (long_enough _) eqn:H; [|discriminate].
  intros [= <-]. cbn [content keywords]. split; [exact H|].
  destruct (a_keywords a) as [[|k more]|]; [cbn; lia | | cbn; lia].
  pose proof (slice_to_length 10 (k :: more) ltac:(lia)). lia.
Qed.

Lemma readability_floor html c :
  extract_with_readability env html = Some c ->
  long_enough (content c) = true /\ keywords c = [].
Proof.
  unfold extract_with_readability. destruct (_ || _); [discriminate|].
  destruct (readability_parse env html) as [d|]; [|discriminate].
  destruct (long_enough _) eqn:H; [|discriminate].
  intros [= <-]. simpl. auto.
Qed.

Lemma beautifulsoup_floor html c :
  extract_with_beautifulsoup env html = Some c ->
  long_enough (content c) = true /\ keywords c = [].
Proof.
  unfold extract_with_beautifulsoup. destruct (negb (bs4_installed env)); [discriminate|].
  destruct (soup_parse env html) as [d|]; [|discriminate].
  destruct (long_enough _) eqn:H; [|discriminate].
  intros [= <-]. simpl. auto.
Qed.

Lemma methods_floor url html name fn c :
  In (name, fn) (methods env url html) -> fn tt = Some c ->
  long_enough (content c) = true /\ (length (keywords c) <= 10)%nat.
Proof.
  unfold methods. simpl.
  intros Hin Hf.
  destruct Hin as [E|[E|[E|[E|[]]]]]; injection E as <- <-.
  - apply trafilatura_floor in Hf as [H1 ->]. simpl. split; [exact H1 | lia].
  - now apply newspaper_floor in Hf.
  - apply readability_floor in Hf as [H1 ->]. simpl. split; [exact H1 | lia].
  - apply beautifulsoup_floor in Hf as [H1 ->]. simpl. split; [exact H1 | lia].
Qed.

(** [extract] is [fetch_html] followed by the loop over the methods. *)
Lemma extract_run url w :
  extract env url w =
  match fetch_html env url w with
  | (Ok html, w') =>
      if truthy_text html
      then run_methods (methods env url (default "" html)) w'
      else (Ok None, w')
  | (Raise e, w') => (Raise e, w')
  end.
Proof.
  unfold extract, bind. destruct (fetch_html env url w) as [[html|e] w']; [|reflexivity].
  destruct (truthy_text html); reflexivity.
Qed.

Lemma extract_some url w c :
  (extract env url w).1 = Ok (Some c) ->
  exists html name fn,
    In (name, fn) (methods env url html) /\ fn tt = Some c.
Proof.
  rewrite extract_run. destruct (fetch_html env url w) as [[html|e] w']; [|discriminate].
  destruct (truthy_text html); [|discriminate].
  set (ms := methods env url (default "" html)).
  rewrite run_methods_run. cbn [fst]. intros H.
  assert (H' : first_accepted ms = Some c) by congruence.
  apply first_accepted_in in H' as (name & fn & Hin & Hf & _). eauto.
Qed.

End Chain.

(** ** Keywords *)

Section Keywords.
Import MetadataExtractor.

Lemma extract_keywords_length txt k :
  0 <= k -> Z.of_nat (length (extract_keywords txt k)) <= k.
Proof.
  intros Hk. unfold extract_keywords. rewrite length_map. now apply slice_to_length.
Qed.
End Keywords.

(** ** The feed fetcher *)

Section Feed.
Import RSSFetcher.
Variable env : RSSFetcher.Env.

Lemma request_headers_ims lm :
  if_modified_since (request_headers lm) = if nonempty lm then Some lm else None.
Proof.
  unfold if_modified_since, request_headers. destruct (nonempty lm).
  - apply lookup_insert_eq.
  - reflexivity.
Qed.

(** What [fetch_feed] sends: one GET whose headers follow the stored
    state. *)
Lemma fetch_feed_request url w :
  exists evs,
    trace (fetch_feed env url w).2
    = trace w ++ EvGet url (request_headers (get_last_modified (state w) url)) :: evs.
Proof.
  unfold fetch_feed, try_except, bind, get, tick, emit, log, modify, lift, ret.
  cbn [fst snd clock trace state].
  set (hdrs := request_headers (get_last_modified (state w) url)).
  destruct (http_get env (clock w) url hdrs) as [resp|e]; cbn.
  2:{ eexists. rewrite <- app_assoc. reflexivity. }
  destruct (status resp =? 304); cbn.
  { eexists. rewrite <- app_assoc. reflexivity. }
  destruct (negb (status resp =? 200)); cbn.
  { eexists. rewrite <- app_assoc. reflexivity. }
  destruct (negb (contains "xml" _) && _); cbn.
  { eexists. rewrite <- app_assoc. reflexivity. }
  destruct (nonempty (default "" (response_headers resp !! "last-modified"))); cbn.
  - unfold set_last_modified, bind, tick, modify, lift. cbn.
    destruct (save env _) as [[]|e]; cbn.
    + destruct (body resp) as [content|e]; cbn.
      * destruct (entries (feedparser_parse env content)); cbn;
          eexists; rewrite <- app_assoc; reflexivity.
      * eexists. rewrite <- app_assoc. reflexivity.
    + eexists. rewrite <- app_assoc. reflexivity.
  - destruct (body resp) as [content|e]; cbn.
    + destruct (entries (feedparser_parse env content)); cbn;
        eexists; rewrite <- app_assoc; reflexivity.
    + eexists. rewrite <- app_assoc. reflexivity.
Qed.

Lemma get_last_modified_set st url lm now :
  get_last_modified
    (<[url := <["last_fetch" := now]> (<["last_modified" := lm]> (default ∅ (st !! url)))]> st)
    url = lm.
Proof.
  unfold get_last_modified. rewrite lookup_insert_eq. simpl.
  rewrite lookup_insert_ne by discriminate. now rewrite lookup_insert_eq.
Qed.

(** A 200 answer of an XML/RSS type with a [Last-Modified] value is
    remembered, whatever happens afterwards. *)
Lemma fetch_feed_remembers url w resp lm :
  http_get env (clock w) url (request_headers (get_last_modified (state w) url)) = Ok resp ->
  status resp = 200 ->
  contains "xml" (lower (default "" (response_headers resp !! "content-type")))
  || contains "rss" (lower (default "" (response_headers resp !! "content-type"))) = true ->
  response_headers resp !! "last-modified" = Some lm ->
  nonempty lm = true ->
  get_last_modified (state (fetch_feed env url w).2) url = lm.
Proof.
  intros Hget Hst Hct Hlm Hne.
  unfold fetch_feed, try_except, bind, get, tick, emit, log, modify, lift, ret.
  cbn [fst snd clock trace state]. rewrite Hget. cbn. rewrite Hst. cbn.
  apply orb_true_iff in Hct.
  assert (E : negb (contains "xml" (lower (default "" (response_headers resp !! "content-type"))))
              && negb (contains "rss" (lower (default "" (response_headers resp !! "content-type"))))
              = false).
  { destruct Hct as [-> | ->]; [reflexivity | apply andb_false_r]. }
  rewrite E. rewrite Hlm. cbn [from_option id]. rewrite Hne.
  unfold set_last_modified, bind, tick, modify, lift. cbn.
  destruct (save env _) as [[]|e]; cbn.
  - destruct (body resp) as [content|e]; cbn.
    + destruct (entries (feedparser_parse env content)); cbn; apply get_last_modified_set.
    + apply get_last_modified_set.
  - apply get_last_modified_set.
Qed.

(** A 304 answer: the empty result, an informational log entry, and
    the state as it was. *)
Lemma fetch_feed_not_modified url w resp :
  http_get env (clock w) url (request_headers (get_last_modified (state w) url)) = Ok resp ->
  status resp = 304 ->
  (fetch_feed env url w).1 = Ok ("", [])
  /\ state (fetch_feed env url w).2 = state w
  /\ trace (fetch_feed env url w).2
     = trace w ++ [EvGet url (request_headers (get_last_modified (state w) url));
                   EvLog (NotModified url)].
Proof.
  intros Hget Hst.
  unfold fetch_feed, try_except, bind, get, tick, emit, log, modify, lift, ret.
  cbn [fst snd clock trace state]. rewrite Hget. cbn. rewrite Hst. cbn.
  rewrite <- app_assoc. auto.
Qed.

End Feed.

(** * The constructor *)

Lemma initial_headers_no_ims ua : no_ims (initial_headers ua).
Proof.
  unfold no_ims, initial_headers. apply not_elem_of_list_to_map_1.
  cbn [fmap list_fmap fst]. intros H.
  repeat (apply elem_of_cons in H as [H|H]; [discriminate|]).
  inversion H.
Qed.

(** [__init__] leaves a non-empty pool, base headers without
    [If-Modified-Since], and an empty trace. *)
Lemma init_invariant env ua mr bf pool c w :
  __init__ env ua mr bf pool c = Ok w ->
  user_agents_pool (self w) <> [] /\ no_ims (base_headers (self w)) /\ trace w = []
  /\ max_retries (self w) = mr /\ backoff_factor (self w) = bf.
Proof.
  unfold __init__.
  set (p := match pool with Some (u :: us) => u :: us | _ => DEFAULT_UAS end).
  assert (Hp : p <> []). { subst p. destruct pool as [[|u us]|]; discriminate. }
  destruct ua as [[|a ua]|].
  - destruct (pick (choice_index env c) p) as [u|e]; [|discriminate].
    intros [= <-]. simpl. auto using initial_headers_no_ims.
  - intros [= <-]. simpl. auto using initial_headers_no_ims.
  - destruct (pick (choice_index env c) p) as [u|e]; [|discriminate].
    intros [= <-]. simpl. auto using initial_headers_no_ims.
Qed.

Example service_world_init :
  __init__ env_page (Some service_user_agent) 3 1%Q None 0 = Ok service_world.
Proof. reflexivity. Qed.

(** * The extraction chain *)

Lemma short_not_long s : len s <= 100 -> long_enough s = false.
Proof.
  intros H. unfold long_enough.
  assert (E : (100 <? len s) = false) by (apply Z.ltb_ge; lia).
  rewrite E. apply andb_false_r.
Qed.

Lemma short_methods_reject env url html name fn :
  short_everywhere env url html ->
  In (name, fn) (methods env url html) -> fn tt = None.
Proof.
  intros (H1 & H2 & H3 & H4) Hin. unfold methods in Hin. simpl in Hin.
  destruct Hin as [E|[E|[E|[E|[]]]]]; injection E as <- <-.
  - assert (Hrun : forall b, _run_trafilatura env url html b = None).
    { intros b. unfold _run_trafilatura.
      destruct (trafilatura_extract env b html url) as [[d|]|] eqn:E; try reflexivity.
      now rewrite (short_not_long _ (H1 b d E)). }
    unfold extract_with_trafilatura. destruct (negb _); [reflexivity|].
    now rewrite !Hrun.
  - unfold extract_with_newspaper. destruct (negb _); [reflexivity|].
    destruct (newspaper_parse env url html) as [a|] eqn:E; [|reflexivity].
    now rewrite (short_not_long _ (H2 a eq_refl)).
  - unfold extract_with_readability. destruct (_ || _); [reflexivity|].
    destruct (readability_parse env html) as [d|] eqn:E; [|reflexivity].
    now rewrite (short_not_long _ (H3 d eq_refl)).
  - unfold extract_with_beautifulsoup. destruct (negb _); [reflexivity|].
    destruct (soup_parse env html) as [s|] eqn:E; [|reflexivity].
    now rewrite (short_not_long _ (H4 s eq_refl)).
Qed.

Lemma called_all_rejected ms :
  (forall name fn, In (name, fn) ms -> fn tt = None) -> called ms = map fst ms.
Proof.
  induction ms as [|[name fn] rest IH]; simpl; [reflexivity|].
  intros H. rewrite (H name fn (or_introl eq_refl)). simpl. f_equal.
  apply IH. intros n' f' Hin. apply (H n' f'). now right.
Qed.

(** C1. The acceptance floor: [extract] returns a candidate only if its
    content is non-empty and longer than 100 characters; each of the
    four methods applies the floor; and when whatever the four libraries
    extract is 100 characters or fewer, all four methods are tried and
    the result is absent. *)
Theorem extraction_floor :
  (forall env url w c, (extract env url w).1 = Ok (Some c) -> acceptable c)
  /\ (forall env url html c,
        extract_with_trafilatura env url html = Some c
        \/ extract_with_newspaper env url html = Some c
        \/ extract_with_readability env html = Some c
        \/ extract_with_beautifulsoup env html = Some c ->
        acceptable c)
  /\ (forall env url html w,
        short_everywhere env url html ->
        run_methods (methods env url html) w
        = (Ok None,
           log_events w (map EvCall [Trafilatura; Newspaper3k; Readability; Beautifulsoup])))
  /\ (forall env url w,
        (forall html, short_everywhere env url html) ->
        (extract env url w).1 = Ok None \/ exists e, (fetch_html env url w).1 = Raise e).
Proof.
  split; [|split; [|split]].
  - intros env url w c H. apply extract_some in H as (html & name & fn & Hin & Hf).
    apply (methods_floor env url html name fn c Hin) in Hf as [Hf _].
    now apply long_enough_spec.
  - intros env url html c H. apply long_enough_spec.
    destruct H as [H|[H|[H|H]]].
    + now apply trafilatura_floor in H.
    + now apply newspaper_floor in H.
    + now apply readability_floor in H.
    + now apply beautifulsoup_floor in H.
  - intros env url html w Hs. rewrite run_methods_run.
    pose proof (short_methods_reject env url html) as Hrej.
    rewrite first_accepted_none, called_all_rejected; [reflexivity | |]; intros name fn Hin; eauto.
  - intros env url w Hs. rewrite extract_run.
    destruct (fetch_html env url w) as [[html|e] w']; [|right; eauto].
    left. destruct (truthy_text html); [|reflexivity].
    rewrite run_methods_run. cbn [fst].
    rewrite first_accepted_none; [reflexivity|].
    intros name fn Hin. eapply short_methods_reject; eauto.
Qed.

Lemma env_short_is_short url html : short_everywhere env_short url html.
Proof.
  repeat split.
  - intros b d [= <-]. vm_compute. discriminate.
  - intros a [=].
  - intros d [=].
  - intros s [= <-]. vm_compute. discriminate.
Defined.

Lemma extraction_floor_witness :
  (exists c, (extract env_news article_url service_world).1 = Ok (Some c) /\ acceptable c)
  /\ (extract env_short article_url service_world).1 = Ok None.
Proof.
  destruct extraction_floor as (Ha & _ & _ & Hd). split.
  - eexists. split; [vm_compute; reflexivity|].
    apply (Ha env_news article_url service_world). vm_compute. reflexivity.
  - destruct (Hd env_short article_url service_world (env_short_is_short article_url))
      as [H|[e H]]; [exact H|].
    vm_compute in H. discriminate H.
Defined.

(** C2. The order of the methods: when trafilatura yields a candidate
    it is returned and no other method is called; in general the loop
    calls the methods up to the first acceptable result and none after
    it. *)
Theorem first_acceptable_wins :
  (forall env url html w c,
     extract_with_trafilatura env url html = Some c ->
     run_methods (methods env url html) w
     = (Ok (Some c), log_events w [EvCall Trafilatura]))
  /\ (forall pre name fn post w,
        Forall (fun m => has_content (m.2 tt) = false) pre ->
        has_content (fn tt) = true ->
        run_methods (pre ++ (name, fn) :: post) w
        = (Ok (fn tt), log_events w (map EvCall (map fst pre ++ [name]))))
  /\ (forall env url w html w1 c,
        fetch_html env url w = (Ok (Some html), w1) ->
        nonempty html = true ->
        extract_with_trafilatura env url html = Some c ->
        extract env url w = (Ok (Some c), log_events w1 [EvCall Trafilatura])).
Proof.
  assert (Hfirst : forall env url html w c,
            extract_with_trafilatura env url html = Some c ->
            run_methods (methods env url html) w
            = (Ok (Some c), log_events w [EvCall Trafilatura])).
  { intros env url html w c H. rewrite run_methods_run.
    pose proof (trafilatura_floor env url html c H) as [Hl _].
    apply long_enough_spec in Hl as [Hne _].
    unfold methods. cbn [first_accepted called]. rewrite H. cbn [has_content].
    rewrite Hne. reflexivity. }
  split; [exact Hfirst|]. split.
  - intros pre name fn post w Hpre Hfn. rewrite run_methods_run.
    destruct (called_prefix pre name fn post Hpre Hfn) as [-> ->]. reflexivity.
  - intros env url w html w1 c Hf Hne Ht. rewrite extract_run, Hf.
    cbn [truthy_text]. rewrite Hne. cbn [from_option id]. now apply Hfirst.
Qed.

Lemma first_acceptable_wins_witness :
  calls (trace (extract env_page article_url service_world).2) = [Trafilatura]
  /\ calls (trace (run_methods (methods env_news article_url sample_html) service_world).2)
     = [Trafilatura; Newspaper3k].
Proof.
  destruct first_acceptable_wins as (_ & Hb & Hc). split.
  - erewrite (Hc env_page article_url service_world sample_html);
      [| vm_compute; reflexivity | reflexivity | vm_compute; reflexivity].
    vm_compute. reflexivity.
  - pose proof
      (Hb [(Trafilatura, fun _ => extract_with_trafilatura env_news article_url sample_html)]
          Newspaper3k (fun _ => extract_with_newspaper env_news article_url sample_html)
          [(Readability, fun _ => extract_with_readability env_news sample_html);
           (Beautifulsoup, fun _ => extract_with_beautifulsoup env_news sample_html)]
          service_world) as H.
    cbn [app] in H. unfold methods. rewrite H.
    + vm_compute. reflexivity.
    + constructor; [vm_compute; reflexivity | constructor].
    + vm_compute. reflexivity.
Defined.

(** C9. At most ten keywords: every candidate [extract] returns carries
    at most ten (newspaper's list is cut to ten, the other methods give
    none), and [extract_keywords] returns at most [max_keywords] of them
    (ten by default). *)
Theorem keywords_bounded :
  (forall env url w c,
     (extract env url w).1 = Ok (Some c) -> (length (keywords c) <= 10)%nat)
  /\ (forall env url html c,
        (extract_with_trafilatura env url html = Some c
         \/ extract_with_readability env html = Some c
         \/ extract_with_beautifulsoup env html = Some c -> keywords c = [])
        /\ (extract_with_newspaper env url html = Some c ->
            exists found, keywords c = firstn 10 found))
  /\ (forall txt max_keywords,
        0 <= max_keywords ->
        Z.of_nat (length (MetadataExtractor.extract_keywords txt max_keywords)) <= max_keywords)
  /\ (forall txt,
        (length (MetadataExtractor.extract_keywords txt MetadataExtractor.default_max_keywords)
         <= 10)%nat).
Proof.
  split; [|split; [|split]].
  - intros env url w c H. apply extract_some in H as (html & name & fn & Hin & Hf).
    now apply (methods_floor env url html name fn c Hin) in Hf as [_ Hf].
  - intros env url html c. split.
    + intros [H|[H|H]].
      * now apply trafilatura_floor in H.
      * now apply readability_floor in H.
      * now apply beautifulsoup_floor in H.
    + unfold extract_with_newspaper. destruct (negb _); [discriminate|].
      destruct (newspaper_parse env url html) as [a|]; [|discriminate].
      destruct (long_enough _); [|discriminate]. intros [= <-]. cbn [keywords].
      destruct (a_keywords a) as [[|k more]|].
      * now exists [].
      * now exists (k :: more).
      * now exists [].
  - intros txt k Hk. now apply extract_keywords_length.
  - intros txt.
    pose proof (extract_keywords_length txt MetadataExtractor.default_max_keywords) as H.
    unfold MetadataExtractor.default_max_keywords in *. lia.
Qed.

Lemma keywords_bounded_witness :
  (exists c, (extract env_news article_url service_world).1 = Ok (Some c)
             /\ (length (keywords c) <= 10)%nat)
  /\ Z.of_nat (length (MetadataExtractor.extract_keywords
                         "Rates, rates and RATES: the bank held rates; markets cheered." 2)) <= 2.
Proof.
  destruct keywords_bounded as (Ha & _ & Hc & _). split.
  - eexists. split; [vm_compute; reflexivity|].
    apply (Ha env_news article_url service_world). vm_compute. reflexivity.
  - apply Hc. lia.
Defined.

(** * The fetch engine *)

(** C3. A response whose content type is not HTML-like and whose first
    2000 characters hold no [<html] gives no text, whatever its status:
    in each of the three transports, and so in [fetch_html]. *)
Theorem non_html_yields_no_text env :
  (forall k rq r, net env k rq = Ok r -> html_like r = false /\ has_html_marker r = false) ->
  (forall url attempt w, textless (fun a => a.1.1) (_requests_fetch env url attempt w).1)
  /\ (forall url attempt w, textless (fun a => a.1) (_httpx_fetch env url attempt w).1)
  /\ (forall url attempt w, textless (fun a => a.1) (_cloudscraper_fetch env url attempt w).1)
  /\ (forall url w, textless (fun a => a) (fetch_html env url w).1).
Proof.
  intros Hnet.
  assert (Hnet' : forall k rq r, net env k rq = Ok r -> no_page r = true).
  { intros k rq r H. apply orb_true_iff. left. apply not_html_iff. eauto. }
  assert (HJ : forall w, J (backoff_factor (self w)) (user_agents_pool (self w)) False (self w)).
  { intros w. split; [reflexivity|]. split; [reflexivity | intros []]. }
  repeat split.
  - intros url attempt w.
    destruct (requests_fetch_textless env url _ _ Hnet' attempt w (HJ w)) as (evs & _ & H & _).
    exact H.
  - intros url attempt w.
    destruct (httpx_fetch_textless env url _ _ Hnet' attempt w (HJ w)) as (evs & _ & H & _).
    exact H.
  - intros url attempt w.
    destruct (cloudscraper_fetch_textless env url _ _ Hnet' attempt w (HJ w)) as (evs & _ & H & _).
    exact H.
  - intros url w. now apply fetch_html_textless.
Qed.

Lemma non_html_yields_no_text_witness :
  status_code pdf = 200
  /\ (fetch_html env_pdf article_url service_world).1 = Ok None.
Proof.
  split; [reflexivity|].
  assert (H : forall k rq r, net env_pdf k rq = Ok r ->
                             html_like r = false /\ has_html_marker r = false).
  { intros k rq r [= <-]. split; vm_compute; reflexivity. }
  destruct (non_html_yields_no_text env_pdf H) as (_ & _ & _ & Hf).
  specialize (Hf article_url service_world).
  destruct (fetch_html env_pdf article_url service_world).1 as [[t|]|e] eqn:E.
  - discriminate Hf.
  - reflexivity.
  - vm_compute in E. discriminate E.
Defined.

(** C4. On ordinary network failure [fetch_html] does not raise: when
    every request ends in a timeout, a transport error or an HTTP error
    status, it returns [None] after [max_retries] attempts, each closed
    by its backoff and each trying every installed transport. *)
Theorem fetch_exhausts_without_raising env url w n parts :
  (0 <= backoff_factor (self w))%Q ->
  user_agents_pool (self w) <> [] ->
  _normalized_url env url = Ok n ->
  urlsplit (url_validators env) n = Ok parts ->
  (forall k rq, ordinary_failure (rq_transport rq) (net env k rq)) ->
  let N := Z.to_nat (max_retries (self w)) in
  exists evs,
    fetch_html env url w = (Ok None, (fetch_html env url w).2) /\
    trace (fetch_html env url w).2 = trace w ++ evs /\
    backoffs evs = map (fun i => 1 + Z.of_nat i) (seq 0 N) /\
    (N <= sent Requests GET evs)%nat /\
    sent Httpx GET evs = (if httpx_installed env then N else 0%nat) /\
    sent Cloudscraper GET evs = (if cloudscraper_installed env then N else 0%nat).
Proof. apply fetch_html_exhausts. Qed.

Lemma fetch_exhausts_without_raising_witness :
  (fetch_html env_down article_url service_world).1 = Ok None
  /\ exists evs,
       trace (fetch_html env_down article_url service_world).2 = evs
       /\ backoffs evs = [1; 2; 3]
       /\ sent Httpx GET evs = 3%nat /\ sent Cloudscraper GET evs = 3%nat.
Proof.
  assert (Hbf : (0 <= backoff_factor (self service_world))%Q) by (vm_compute; discriminate).
  assert (Hpool : user_agents_pool (self service_world) <> []) by discriminate.
  assert (Hnet : forall k rq, ordinary_failure (rq_transport rq) (net env_down k rq)).
  { intros k [[] v u h]; vm_compute; auto; discriminate. }
  destruct (fetch_exhausts_without_raising env_down article_url service_world
              "http://news.example.com/markets/rally?id=7"
              {| scheme := "http"; netloc := "news.example.com"; path := "/markets/rally";
                 query := "id=7"; fragment := "" |}
              Hbf Hpool eq_refl eq_refl Hnet)
    as (evs & Hr & Ht & Hb & _ & Hx & Hc).
  split; [now rewrite Hr|].
  exists evs. split; [exact Ht|]. split; [exact Hb|]. split; [exact Hx | exact Hc].
Defined.

(** C5. The backoff: with a non-negative backoff factor, every backoff
    [fetch_html] sleeps belongs to an attempt [k] of [1..max_retries]
    and lasts between [backoff_factor * k - spread] and
    [backoff_factor * k + spread], where [spread] is 0.6, whatever the
    random generator draws. *)
Theorem backoff_within_spread env url w :
  (0 <= backoff_factor (self w))%Q ->
  (spread == 6 # 10)%Q
  /\ (forall (k : Z) (d : draw),
        0 <= k ->
        (backoff_factor (self w) * inject_Z k - spread
         <= jitter_with (backoff_factor (self w) * inject_Z k) spread (draw_value d)
         <= backoff_factor (self w) * inject_Z k + spread)%Q)
  /\ exists evs,
       trace (fetch_html env url w).2 = trace w ++ evs
       /\ forall k d, In (EvSleep (Backoff k) d) evs ->
            1 <= k <= max_retries (self w)
            /\ (backoff_factor (self w) * inject_Z k - spread <= d
                <= backoff_factor (self w) * inject_Z k + spread)%Q.
Proof.
  intros Hbf. split; [reflexivity|]. split.
  - intros k d Hk. destruct (draw_value_range d) as [H0 H1].
    apply jitter_with_bounds; [| exact H0 | now apply Qlt_le_weak].
    apply Qmult_le_0_compat; [exact Hbf|].
    change 0%Q with (inject_Z 0). now rewrite <- Zle_Qle.
  - pose proof (fetch_html_events env url w) as H. cbv zeta in H.
    destruct (_normalized_url env url) as [n|e].
    + destruct H as (evs & Ht & Hall & _). exists evs. split; [exact Ht|].
      intros k d Hin. rewrite Forall_forall in Hall.
      apply list_elem_of_In in Hin. specialize (Hall _ Hin). simpl in Hall.
      destruct Hall as [Hk Hd]. split; [lia | now apply Hd].
    + exists []. rewrite H. simpl. rewrite app_nil_r. split; [reflexivity|].
      intros k d [].
Qed.

Lemma backoff_within_spread_witness :
  exists evs,
    trace (fetch_html env_down article_url service_world).2 = evs
    /\ backoffs evs = [1; 2; 3]
    /\ forall k d, In (EvSleep (Backoff k) d) evs ->
         1 <= k <= 3 /\ (1 * inject_Z k - spread <= d <= 1 * inject_Z k + spread)%Q.
Proof.
  assert (Hbf : (0 <= backoff_factor (self service_world))%Q) by (vm_compute; discriminate).
  destruct (backoff_within_spread env_down article_url service_world Hbf)
    as (_ & _ & evs & Ht & Hall).
  exists evs. split; [exact Ht|]. split; [|exact Hall].
  simpl in Ht. rewrite <- Ht. vm_compute. reflexivity.
Defined.

(** What [_requests_fetch] returns: the status and the response of one
    and the same answer. *)
Lemma requests_fetch_result env url attempt w text status resp w' :
  _requests_fetch env url attempt w = (Ok (text, status, resp), w') ->
  exists r, resp = Some r /\ status = Some (status_code r).
Proof.
  unfold _requests_fetch, bind.
  destruct (_build_headers env url w) as [[hdrs|e] w1]; [|discriminate].
  destruct (_warm_up env url hdrs w1) as [[[]|e] w2]; [|discriminate].
  destruct (jitter env (7 # 10) w2) as [[d|e] w3]; [|discriminate].
  destruct (time_sleep (HumanDelay Requests) d w3) as [[[]|e] w4]; [|discriminate].
  destruct (send env Requests GET url hdrs w4) as [[r|e] w5]; [|discriminate].
  destruct (not_html r); unfold ret; intros [= <- <- <- <-]; eauto.
Qed.

(** C6. The early escalation to cloudscraper never happens: a response
    with status 403 is falsy, so [looks_like_cloudflare] answers [False]
    for it whatever its [Server] header and body, the guard
    [status == 403 and looks_like_cloudflare(resp)] is false after every
    primary GET, and the first [try] block of the loop behaves as if the
    escalation were not written. *)
Theorem cloudflare_escalation_unreachable :
  (forall r, (status_code r =? 403) && looks_like_cloudflare (Some r) = false)
  /\ (forall env url attempt w,
        try_requests env url attempt w
        = try_except
            (let* (ts, _) := _requests_fetch env url attempt in
             let (text, status) := ts in
             if usable text status then ret text else ret None)
            is_requests_exception (fun _ => ret None) w).
Proof.
  assert (Hguard : forall r, (status_code r =? 403) && looks_like_cloudflare (Some r) = false).
  { intros r. destruct (status_code r =? 403) eqn:E; [|reflexivity].
    apply Z.eqb_eq in E. cbn [andb]. apply looks_like_cloudflare_blocked. lia. }
  split; [exact Hguard|].
  intros env url attempt w. unfold try_requests, try_except, bind.
  destruct (_requests_fetch env url attempt w) as [[[[text status] resp]|e] w'] eqn:E;
    [|reflexivity].
  destruct (requests_fetch_result _ _ _ _ _ _ _ _ E) as (r & -> & ->).
  destruct (usable text (Some (status_code r))); [reflexivity|].
  case_bool_decide as Hs; cbn [andb]; [|reflexivity].
  injection Hs as Hs. rewrite looks_like_cloudflare_blocked by lia. reflexivity.
Qed.

(** Scenario C run: the primary GET is answered 403 by Cloudflare with
    the interstitial; the next request is the one of httpx, and
    cloudscraper comes third. *)
Lemma cloudflare_403_falls_through_to_httpx :
  status_code challenge = 403
  /\ contains "cloudflare" (lower (default "" (header "Server" challenge))) = true
  /\ contains "just a moment" (lower (take 2000 (text challenge))) = true
  /\ looks_like_cloudflare (Some challenge) = false
  /\ map (fun rq => (rq_transport rq, rq_verb rq))
         (requests (trace (fetch_html env_blocked article_url service_world).2))
     = [(Requests, HEAD); (Requests, GET); (Httpx, GET); (Cloudscraper, GET)].
Proof. repeat split; vm_compute; reflexivity. Qed.

(** C7. [fetch_html] normalises the URL before anything else: if that
    raises, nothing is sent; otherwise the normalised URL [n] is
    [scheme:] (https for a URL without scheme) followed by the
    hierarchical part and the query of the input, it holds no fragment,
    and every request goes to [n], except the GET of the warm-up, which
    goes to the root [scheme://netloc/] of [n]. *)
Theorem requests_go_to_normalized_url env url w :
  (forall e, _normalized_url env url = Raise e -> fetch_html env url w = (Raise e, w))
  /\ (forall p n,
        urlsplit (url_validators env) url = Ok p ->
        _normalized_url env url = Ok n ->
        n = scheme_or_https p +:+
            String ":" (hier_part (scheme_or_https p) (netloc p) (path p)
                        +:+ query_suffix (query p))
        /\ (split_once "?" n).2 = query p
        /\ has_char "#" n = false
        /\ exists evs,
             trace (fetch_html env url w).2 = trace w ++ evs
             /\ forall rq, In (EvRequest rq) evs -> goes_to env n rq).
Proof.
  pose proof (fetch_html_events env url w) as H. cbv zeta in H. split.
  - intros e E. now rewrite E in H.
  - intros p n Hp Hn. rewrite Hn in H.
    destruct (normalized_form env url p n Hp Hn) as (_ & Hq & Hf).
    split; [|split; [exact Hq | split; [exact Hf|]]].
    + rewrite (normalized_shape env url p Hp) in Hn. now injection Hn.
    + destruct H as (evs & Ht & Hall & _). exists evs. split; [exact Ht|].
      intros rq Hin. rewrite Forall_forall in Hall.
      apply list_elem_of_In in Hin. apply Hall in Hin. exact (proj1 Hin).
Qed.

Lemma requests_go_to_normalized_url_witness :
  has_char "#" "http://news.example.com/markets/rally?id=7" = false
  /\ exists evs,
       trace (fetch_html env_page article_url service_world).2 = evs
       /\ forall rq, In (EvRequest rq) evs ->
            goes_to env_page "http://news.example.com/markets/rally?id=7" rq.
Proof.
  destruct (requests_go_to_normalized_url env_page article_url service_world) as [_ H].
  destruct (H {| scheme := "http"; netloc := "news.example.com"; path := "/markets/rally";
                 query := "id=7"; fragment := "comments" |}
              "http://news.example.com/markets/rally?id=7" eq_refl eq_refl)
    as (_ & _ & Hf & evs & Ht & Hall).
  split; [exact Hf|]. exists evs. split; [exact Ht | exact Hall].
Defined.

(** A server that answers HEAD with 405: the second request of the
    fetch goes to [http://news.example.com/], which is not the
    normalised URL. *)
Lemma warm_up_leaves_normalized_url :
  _normalized_url env_no_head article_url = Ok "http://news.example.com/markets/rally?id=7"
  /\ map (fun rq => (rq_verb rq, rq_url rq))
         (requests (trace (fetch_html env_no_head article_url service_world).2))
     = [(HEAD, "http://news.example.com/markets/rally?id=7");
        (GET, "http://news.example.com/");
        (GET, "http://news.example.com/markets/rally?id=7")].
Proof. split; vm_compute; reflexivity. Qed.

(** C8. The conditional-request mechanism is the feed fetcher's, not
    the fetch engine's.  An extractor as [__init__] builds it has no
    [If-Modified-Since] among its base headers; [fetch_html] keeps it
    so and sends no request with that header; and when every answer is
    a 304 with a body under 100 characters it returns no text.
    [RSSFetcher.fetch_feed] sends [If-Modified-Since] with the stored
    value when there is one, stores the [Last-Modified] value of a 200
    answer of an XML or RSS type, and on a 304 returns the empty result
    with an informational log entry and leaves the state as it is. *)
Theorem conditional_requests_in_feed_fetcher_only :
  (forall env ua mr bf pool c w,
      __init__ env ua mr bf pool c = Ok w -> no_ims (base_headers (self w)))
  /\ (forall env url w,
        no_ims (base_headers (self w)) ->
        no_ims (base_headers (self (fetch_html env url w).2))
        /\ exists evs,
             trace (fetch_html env url w).2 = trace w ++ evs
             /\ forall rq, In (EvRequest rq) evs ->
                  rq_headers rq !! "If-Modified-Since" = None)
  /\ (forall env url w,
        (forall k rq r, net env k rq = Ok r -> status_code r = 304 /\ len (text r) < 100) ->
        textless (fun a => a) (fetch_html env url w).1)
  /\ (forall (fenv : RSSFetcher.Env) url (w : RSSFetcher.World),
        let stored := RSSFetcher.get_last_modified (RSSFetcher.state w) url in
        let hdrs := RSSFetcher.request_headers stored in
        let out := RSSFetcher.fetch_feed fenv url w in
        if_modified_since hdrs = (if nonempty stored then Some stored else None)
        /\ (exists evs, RSSFetcher.trace out.2
                        = RSSFetcher.trace w ++ RSSFetcher.EvGet url hdrs :: evs)
        /\ (forall resp lm,
              RSSFetcher.http_get fenv (RSSFetcher.clock w) url hdrs = Ok resp ->
              RSSFetcher.status resp = 200 ->
              contains "xml" (lower (default "" (RSSFetcher.response_headers resp !! "content-type")))
              || contains "rss" (lower (default "" (RSSFetcher.response_headers resp !! "content-type")))
              = true ->
              RSSFetcher.response_headers resp !! "last-modified" = Some lm ->
              nonempty lm = true ->
              RSSFetcher.get_last_modified (RSSFetcher.state out.2) url = lm)
        /\ (forall resp,
              RSSFetcher.http_get fenv (RSSFetcher.clock w) url hdrs = Ok resp ->
              RSSFetcher.status resp = 304 ->
              out.1 = Ok ("", [])
              /\ RSSFetcher.state out.2 = RSSFetcher.state w
              /\ RSSFetcher.trace out.2
                 = RSSFetcher.trace w ++ [RSSFetcher.EvGet url hdrs;
                                          RSSFetcher.EvLog (RSSFetcher.NotModified url)])).
Proof.
  split; [|split; [|split]].
  - intros env ua mr bf pool c w H. now apply init_invariant in H.
  - intros env url w Hc.
    pose proof (fetch_html_events env url w) as H. cbv zeta in H.
    destruct (_normalized_url env url) as [n|e].
    + destruct H as (evs & Ht & Hall & HJ). split; [now apply HJ|].
      exists evs. split; [exact Ht|]. intros rq Hin. rewrite Forall_forall in Hall.
      apply list_elem_of_In in Hin. apply Hall in Hin. exact (proj2 Hin Hc).
    + rewrite H. simpl. split; [exact Hc|]. exists []. rewrite app_nil_r.
      split; [reflexivity | intros rq []].
  - intros env url w Hnet. apply fetch_html_textless.
    intros k rq r H. apply Hnet in H as [_ H]. apply orb_true_iff. right.
    now apply Z.ltb_lt.
  - intros fenv url w stored hdrs out. split; [apply request_headers_ims|].
    split; [apply fetch_feed_request|]. split.
    + intros resp lm. apply fetch_feed_remembers.
    + intros resp. apply fetch_feed_not_modified.
Qed.

Lemma conditional_requests_in_feed_fetcher_only_witness :
  (forall rq, In (EvRequest rq) (trace (fetch_html env_conditional article_url service_world).2) ->
              rq_headers rq !! "If-Modified-Since" = None)
  /\ RSSFetcher.get_last_modified
       (RSSFetcher.state (RSSFetcher.fetch_feed feed_env feed_url feed_world).2) feed_url
     = "Tue, 01 Jan 2024 00:00:00 GMT"
  /\ (RSSFetcher.fetch_feed feed_env feed_url
        (RSSFetcher.fetch_feed feed_env feed_url feed_world).2).1 = Ok ("", []).
Proof.
  destruct conditional_requests_in_feed_fetcher_only as (_ & Hf & _ & Hfeed).
  split; [|split].
  - destruct (Hf env_conditional article_url service_world) as (_ & evs & Ht & Hall).
    + apply initial_headers_no_ims.
    + simpl in Ht. rewrite Ht. exact Hall.
  - destruct (Hfeed feed_env feed_url feed_world) as (_ & _ & Hrem & _).
    apply (Hrem feed_200); reflexivity.
  - destruct (Hfeed feed_env feed_url (RSSFetcher.fetch_feed feed_env feed_url feed_world).2)
      as (_ & _ & _ & H304).
    destruct (H304 feed_304) as (Hr & _); [reflexivity | reflexivity | exact Hr].
Defined.

(** Scenario D against the fetch engine.  The page comes with a
    [Last-Modified] header, yet the second fetch of the same URL sends
    no [If-Modified-Since], so a server that honours conditional
    requests never answers 304; and when every answer is a 304, the
    engine goes through all three attempts and their backoffs and
    returns [None], as it does when the site is down. *)
Lemma fetch_engine_sends_no_conditional_request :
  header "Last-Modified" page = Some "Tue, 01 Jan 2024 00:00:00 GMT"
  /\ (fetch_html env_conditional article_url service_world).1 = Ok (Some sample_html)
  /\ map (fun rq => (rq_verb rq, rq_headers rq !! "If-Modified-Since"))
         (requests (trace (fetch_html env_conditional article_url
                             (fetch_html env_conditional article_url service_world).2).2))
     = [(HEAD, None); (GET, None); (HEAD, None); (GET, None)]
  /\ (fetch_html env_304 article_url service_world).1 = Ok None
  /\ backoffs (trace (fetch_html env_304 article_url service_world).2) = [1; 2; 3]
  /\ length (requests (trace (fetch_html env_304 article_url service_world).2)) = 12%nat
  /\ (fetch_html env_down article_url service_world).1 = Ok None.
Proof. repeat split; vm_compute; reflexivity. Qed.

(** C10. Normalising twice is normalising once for every URL that
    [urlsplit] gives an authority or a path not beginning with two
    slashes; a URL [urlsplit] rejects is rejected both times. *)
Theorem normalization_idempotent_on_proper_urls env url :
  (forall p, urlsplit (url_validators env) url = Ok p -> proper p) ->
  normalized_twice env url = _normalized_url env url.
Proof.
  intros Hproper. unfold normalized_twice.
  destruct (_normalized_url env url) as [n|e] eqn:Hn; [|reflexivity].
  destruct (urlsplit (url_validators env) url) as [p|e] eqn:Hp.
  - exact (normalized_idempotent env url p n Hp (Hproper p eq_refl) Hn).
  - unfold _normalized_url in Hn. rewrite Hp in Hn. discriminate Hn.
Qed.

Lemma normalization_idempotent_on_proper_urls_witness :
  normalized_twice env_page article_url = Ok "http://news.example.com/markets/rally?id=7".
Proof.
  rewrite (normalization_idempotent_on_proper_urls env_page article_url); [reflexivity|].
  intros p [= <-]. left. reflexivity.
Defined.

(** An empty authority followed by a path of several slashes: each
    pass drops two of them. *)
Lemma normalization_drops_slashes :
  urlsplit permissive "http://////x"
  = Ok {| scheme := "http"; netloc := ""; path := "////x"; query := ""; fragment := "" |}
  /\ _normalized_url env_page "http://////x" = Ok "http:////x"
  /\ normalized_twice env_page "http://////x" = Ok "http://x".
Proof. repeat split; vm_compute; reflexivity. Qed.

(** * Keyword extraction *)

Section KeywordRanking.
Import MetadataExtractor.

Lemma count_word_keys w l :
  map fst (count_word w l) = if decide (w ∈ map fst l) then map fst l else map fst l ++ [w].
Proof.
  induction l as [|[v n] l IH]; simpl.
  - destruct (decide (w ∈ [])) as [H|_]; [inversion H | reflexivity].
  - destruct (decide (v = w)) as [->|Hne]; simpl.
    + destruct (decide (w ∈ w :: map fst l)) as [_|H]; [reflexivity|].
      exfalso. apply H. left.
    + rewrite IH. destruct (decide (w ∈ map fst l)) as [Hin|Hnin].
      * destruct (decide (w ∈ v :: map fst l)) as [_|H]; [reflexivity|].
        exfalso. apply H. now right.
      * destruct (decide (w ∈ v :: map fst l)) as [H|_]; [|reflexivity].
        apply elem_of_cons in H as [->|H]; [congruence | contradiction].
Qed.

Lemma count_word_count w l v :
  count_of v (count_word w l) = count_of v l + (if decide (w = v) then 1 else 0).
Proof.
  induction l as [|[u n] l IH]; simpl.
  - destruct (decide (w = v)); lia.
  - destruct (decide (u = w)) as [->|Hne]; simpl.
    + destruct (decide (w = v)); lia.
    + destruct (decide (u = v)) as [->|Hne'].
      * destruct (decide (w = v)); [congruence | lia].
      * exact IH.
Qed.

Lemma count_of_absent w l : w ∉ map fst l -> count_of w l = 0.
Proof.
  induction l as [|[v n] l IH]; simpl; [reflexivity|].
  intros H. apply not_elem_of_cons in H as [Hne Hnin].
  destruct (decide (v = w)); [congruence | auto].
Qed.

Lemma count_of_member w n l :
  NoDup (map fst l) -> (w, n) ∈ l -> count_of w l = n.
Proof.
  induction l as [|[v m] l IH]; simpl; intros Hnd Hin; [inversion Hin|].
  apply NoDup_cons in Hnd as [Hv Hnd].
  apply elem_of_cons in Hin as [[= <- <-]|Hin].
  - destruct (decide (w = w)); [reflexivity | congruence].
  - destruct (decide (v = w)) as [->|_]; [|auto].
    exfalso. apply Hv. apply list_elem_of_fmap. now exists (w, n).
Qed.

Lemma occurrences_snoc v ws w :
  occurrences v (ws ++ [w]) = occurrences v ws + (if decide (w = v) then 1 else 0).
Proof.
  unfold occurrences. rewrite filter_app, length_app.
  rewrite filter_cons, filter_nil.
  destruct (decide (w = v)); simpl; lia.
Qed.

(** The dictionary after counting the words [ws] one by one. *)
Lemma counting ws :
  let word_freq := fold_left (fun acc w => count_word w acc) ws [] in
  NoDup (map fst word_freq)
  /\ (forall w, w ∈ map fst word_freq <-> w ∈ ws)
  /\ (forall w, count_of w word_freq = occurrences w ws).
Proof.
  induction ws as [|w ws IH] using rev_ind; simpl.
  - split; [constructor|]. split; [|reflexivity]. intros w. split; intros H; inversion H.
  - rewrite fold_left_app. simpl.
    destruct IH as (Hnd & Hkeys & Hcount).
    set (l := fold_left (fun acc w => count_word w acc) ws []) in *.
    split; [|split].
    + rewrite count_word_keys. destruct (decide (w ∈ map fst l)) as [_|Hnin]; [exact Hnd|].
      apply NoDup_app. split; [exact Hnd|]. split; [|apply NoDup_singleton].
      intros x Hx Hx'. apply list_elem_of_singleton in Hx'. now subst.
    + intros v. rewrite count_word_keys, elem_of_app, list_elem_of_singleton, <- Hkeys.
      destruct (decide (w ∈ map fst l)) as [Hin|_].
      * split; [tauto|]. intros [H| ->]; assumption.
      * rewrite elem_of_app, list_elem_of_singleton. tauto.
    + intros v. now rewrite count_word_count, occurrences_snoc, Hcount.
Qed.

Lemma word_freq_counted txt :
  fold_left
    (fun word_freq word =>
       let word := keep_alnum word in
       if (3 <? len word) && negb (bool_decide (word ∈ stop_words))
       then count_word word word_freq
       else word_freq)
    (split_ws (lower txt) EmptyString) []
  = fold_left (fun acc w => count_word w acc) (counted_words txt) [].
Proof.
  unfold counted_words. generalize (@nil (string * Z)).
  induction (split_ws (lower txt) "") as [|w ws IH]; intros acc; simpl; [reflexivity|].
  rewrite filter_cons.
  destruct ((3 <? len (keep_alnum w)) && negb (bool_decide (keep_alnum w ∈ stop_words))) eqn:E.
  - destruct (decide (true = true)) as [_|H]; [|congruence]. simpl. apply IH.
  - destruct (decide (false = true)) as [H|_]; [discriminate|]. apply IH.
Qed.

Lemma insert_by_freq_perm x l : Permutation (insert_by_freq x l) (x :: l).
Proof.
  induction l as [|y l IH]; simpl; [reflexivity|].
  destruct (y.2 <? x.2); [reflexivity|].
  rewrite IH. apply perm_swap.
Qed.

Lemma insert_by_freq_sorted x l :
  StronglySorted by_count l -> StronglySorted by_count (insert_by_freq x l).
Proof.
  induction l as [|y l IH]; simpl; intros Hs.
  - repeat constructor.
  - apply StronglySorted_inv in Hs as [Hl Hy].
    destruct (y.2 <? x.2) eqn:E.
    + apply Z.ltb_lt in E. constructor; [constructor; assumption|].
      constructor; [unfold by_count; lia|].
      eapply Forall_impl; [exact Hy|]. unfold by_count. intros z Hz. lia.
    + apply Z.ltb_ge in E. constructor; [now apply IH|].
      rewrite insert_by_freq_perm. constructor; [exact E | exact Hy].
Qed.

Lemma sorted_by_freq_spec l :
  Permutation (sorted_by_freq l) l /\ StronglySorted by_count (sorted_by_freq l).
Proof.
  unfold sorted_by_freq.
  induction l as [|x l IH] using rev_ind; simpl; [split; [reflexivity | constructor]|].
  rewrite fold_left_app. simpl. destruct IH as [Hp Hs]. split.
  - rewrite insert_by_freq_perm, Hp. apply Permutation_cons_append.
  - now apply insert_by_freq_sorted.
Qed.

Lemma slice_to_firstn {A} k (l : list A) : exists n, slice_to k l = firstn n l.
Proof. unfold slice_to. destruct (0 <=? k); eauto. Qed.

(** What [extract_keywords] returns, in one statement: a prefix of the
    counted dictionary sorted by decreasing count. *)
Lemma extract_keywords_prefix txt k :
  exists sorted n,
    extract_keywords txt k = map fst (firstn n sorted)
    /\ slice_to k sorted = firstn n sorted
    /\ NoDup (map fst sorted)
    /\ StronglySorted by_count sorted
    /\ (forall w, w ∈ map fst sorted <-> w ∈ counted_words txt)
    /\ (forall w c, (w, c) ∈ sorted -> c = occurrences w (counted_words txt)).
Proof.
  unfold extract_keywords. rewrite word_freq_counted.
  destruct (counting (counted_words txt)) as (Hnd & Hkeys & Hcount). cbv zeta in *.
  set (wf := fold_left (fun acc w => count_word w acc) (counted_words txt) []) in *.
  destruct (sorted_by_freq_spec wf) as [Hp Hs].
  destruct (slice_to_firstn k (sorted_by_freq wf)) as [n Hn].
  exists (sorted_by_freq wf), n. rewrite Hn.
  split; [reflexivity|]. split; [reflexivity|].
  split; [now rewrite Hp|]. split; [exact Hs|]. split.
  - intros w. now rewrite Hp.
  - intros w c Hin. rewrite Hp in Hin. rewrite <- Hcount. symmetry.
    now apply count_of_member.
Qed.

End KeywordRanking.

Section KeywordTheorems.
Import MetadataExtractor.

Lemma split_ws_chars (p : ascii -> bool) s cur :
  forall_chars p s = true -> forall_chars p cur = true ->
  Forall (fun w => forall_chars p w = true) (split_ws s cur).
Proof.
  revert cur. induction s as [|a s IH]; intros cur Hs Hc; simpl.
  - destruct (nonempty cur); [constructor; [exact Hc | constructor] | constructor].
  - simpl in Hs. apply andb_true_iff in Hs as [Ha Hs].
    destruct (isspace a).
    + apply Forall_app. split; [|now apply IH].
      destruct (nonempty cur); [constructor; [exact Hc | constructor] | constructor].
    + apply IH; [exact Hs|]. rewrite forall_chars_app, Hc. simpl. now rewrite Ha.
Qed.

Lemma delete_chars_keeps (p q : ascii -> bool) s :
  forall_chars p s = true -> forall_chars p (delete_chars q s) = true.
Proof.
  induction s as [|a s IH]; simpl; [reflexivity|].
  intros H. apply andb_true_iff in H as [Ha Hs].
  destruct (q a); simpl; [auto | rewrite Ha; auto].
Qed.

Lemma lower_fixed s :
  forall_chars (fun c => bool_decide (lower_char c = c)) s = true -> lower s = s.
Proof.
  induction s as [|a s IH]; simpl; [reflexivity|].
  intros H. apply andb_true_iff in H as [Ha Hs]. apply bool_decide_eq_true in Ha.
  now rewrite Ha, IH.
Qed.

Lemma lower_is_lower s :
  forall_chars (fun c => bool_decide (lower_char c = c)) (lower s) = true.
Proof.
  induction s as [|a s IH]; simpl; [reflexivity|].
  rewrite IH, andb_true_r. apply bool_decide_eq_true. apply lower_char_idem.
Qed.

Lemma counted_word_shape txt w :
  w ∈ counted_words txt ->
  3 < len w /\ forall_chars isalnum w = true /\ (w ∉ stop_words) /\ lower w = w.
Proof.
  unfold counted_words. rewrite list_elem_of_filter. intros [Hc Hin].
  apply andb_true_iff in Hc as [Hlen Hstop].
  apply Z.ltb_lt in Hlen. apply negb_true_iff, bool_decide_eq_false in Hstop.
  apply list_elem_of_fmap in Hin as (w0 & -> & Hin).
  split; [exact Hlen|]. split; [|split; [exact Hstop|]].
  - unfold keep_alnum.
    eapply forall_chars_impl; [|apply delete_chars_clean].
    intros c. cbv beta. now rewrite negb_involutive.
  - apply lower_fixed. unfold keep_alnum. apply delete_chars_keeps.
    pose proof (split_ws_chars (fun c => bool_decide (lower_char c = c)) (lower txt) ""
                  (lower_is_lower txt) eq_refl) as H.
    rewrite Forall_forall in H. now apply H.
Qed.

Lemma occurrences_member w ws : w ∈ ws -> 1 <= occurrences w ws.
Proof.
  intros H. unfold occurrences.
  assert (Hin : w ∈ filter (fun x => x = w) ws) by (apply list_elem_of_filter; auto).
  destruct (filter (fun x => x = w) ws); [inversion Hin | simpl; lia].
Qed.

(** X1. Every keyword [extract_keywords] returns is a word the text
    contains: longer than 3 characters, made of alphanumeric characters
    only, in lower case, and no stop word. *)
Theorem keywords_are_content_words txt max_keywords w :
  w ∈ extract_keywords txt max_keywords ->
  3 < len w /\ forall_chars isalnum w = true /\ (w ∉ stop_words) /\ lower w = w
  /\ 1 <= occurrences w (counted_words txt).
Proof.
  intros Hin.
  destruct (extract_keywords_prefix txt max_keywords)
    as (sorted & n & He & _ & _ & _ & Hkeys & _).
  assert (Hw : w ∈ counted_words txt).
  { apply Hkeys. rewrite He, fmap_take in Hin.
    eapply subseteq_take; exact Hin. }
  destruct (counted_word_shape txt w Hw) as (H1 & H2 & H3 & H4).
  repeat split; try assumption. now apply occurrences_member.
Qed.

Lemma keywords_are_content_words_witness :
  extract_keywords sample_sentence 10 = ["rates"; "bank"; "held"; "markets"; "cheered"]
  /\ 3 < len "rates" /\ ("rates" ∉ stop_words).
Proof.
  assert (Hin : "rates" ∈ extract_keywords sample_sentence 10).
  { apply list_elem_of_In. vm_compute. tauto. }
  destruct (keywords_are_content_words sample_sentence 10 "rates" Hin) as (H1 & _ & H3 & _).
  split; [vm_compute; reflexivity|]. split; [exact H1 | exact H3].
Defined.

Lemma ranked_prefix (f : string -> Z) (l : list (string * Z)) n :
  (forall (w : string) (c : Z), (w, c) ∈ l -> c = f w) ->
  StronglySorted by_count l ->
  StronglySorted (fun a b => f b <= f a) (map fst (firstn n l)).
Proof.
  revert n. induction l as [|[w c] l IH]; intros n Hf Hs.
  - rewrite take_nil. constructor.
  - destruct n as [|n]; [constructor|]. simpl.
    apply StronglySorted_inv in Hs as [Hl Hw]. constructor.
    + apply IH; [|exact Hl]. intros v d Hin. apply Hf. now right.
    + rewrite List.Forall_forall. intros v Hv. apply list_elem_of_In in Hv.
      apply list_elem_of_fmap in Hv as ([v' d] & -> & Hin). simpl.
      apply subseteq_take in Hin.
      rewrite List.Forall_forall in Hw.
      pose proof (Hw (v', d) (proj1 (list_elem_of_In _ _) Hin)) as Hle.
      unfold by_count in Hle. simpl in Hle.
      rewrite <- (Hf v' d) by now right.
      rewrite <- (Hf w c) by left. exact Hle.
Qed.

Lemma sorted_app_order {A} (R : A -> A -> Prop) (l1 l2 : list A) a b :
  StronglySorted R (l1 ++ l2) -> a ∈ l1 -> b ∈ l2 -> R a b.
Proof.
  induction l1 as [|x l1 IH]; simpl; intros Hs Ha Hb; [inversion Ha|].
  apply StronglySorted_inv in Hs as [Hs Hx].
  apply elem_of_cons in Ha as [->|Ha]; [|now apply IH].
  rewrite List.Forall_forall in Hx. apply Hx. apply list_elem_of_In.
  apply elem_of_app. now right.
Qed.

(** X2. The keywords are pairwise distinct and come most frequent
    first; a counted word that is left out occurs no more often than
    any keyword returned; and for a non-negative [max_keywords] the
    result holds exactly [max_keywords] keywords, or all the distinct
    counted words when there are fewer. *)
Theorem keywords_ranked_by_frequency txt max_keywords :
  let out := extract_keywords txt max_keywords in
  let occ w := occurrences w (counted_words txt) in
  NoDup out
  /\ StronglySorted (fun a b => occ b <= occ a) out
  /\ (forall w v, w ∈ counted_words txt -> w ∉ out -> v ∈ out -> occ w <= occ v)
  /\ (0 <= max_keywords ->
      Z.of_nat (length out)
      = Z.min max_keywords (Z.of_nat (length (remove_dups (counted_words txt))))).
Proof.
  intros out occ. subst out.
  destruct (extract_keywords_prefix txt max_keywords)
    as (sorted & n & -> & Hslice & Hnd & Hs & Hkeys & Hcount).
  split; [|split; [|split]].
  - rewrite fmap_take. eapply sublist_NoDup; [exact Hnd | apply sublist_take].
  - now apply ranked_prefix.
  - intros w v Hw Hout Hv.
    apply Hkeys in Hw. apply list_elem_of_fmap in Hw as ([w' c] & -> & Hin).
    apply list_elem_of_fmap in Hv as ([v' d] & -> & Hv). simpl.
    rewrite <- (take_drop n sorted) in Hin, Hs.
    apply elem_of_app in Hin as [Hin|Hin].
    + exfalso. apply Hout. apply list_elem_of_fmap. now exists (w', c).
    + pose proof (sorted_app_order _ _ _ _ _ Hs Hv Hin) as Hle.
      unfold by_count in Hle. simpl in Hle.
      assert (Hc : c = occ w').
      { apply Hcount. rewrite <- (take_drop n sorted). apply elem_of_app. now right. }
      assert (Hd : d = occ v').
      { apply Hcount. eapply subseteq_take; exact Hv. }
      now rewrite <- Hc, <- Hd.
  - intros Hk. rewrite length_map, <- Hslice. unfold slice_to.
    assert (E : (0 <=? max_keywords) = true) by (apply Z.leb_le; lia). rewrite E.
    rewrite length_take.
    assert (Hlen : length sorted = length (remove_dups (counted_words txt))).
    { rewrite <- (length_map fst sorted). apply Permutation_length.
      apply NoDup_Permutation; [exact Hnd | apply NoDup_remove_dups |].
      intros x. now rewrite Hkeys, elem_of_remove_dups. }
    rewrite Hlen. lia.
Qed.

Lemma keywords_ranked_by_frequency_witness :
  extract_keywords sample_sentence 2 = ["rates"; "bank"]
  /\ occurrences "rates" (counted_words sample_sentence) = 4
  /\ occurrences "bank" (counted_words sample_sentence) = 2
  /\ occurrences "held" (counted_words sample_sentence)
     <= occurrences "bank" (counted_words sample_sentence)
  /\ Z.of_nat (length (extract_keywords sample_sentence 2)) = 2.
Proof.
  destruct (keywords_ranked_by_frequency sample_sentence 2) as (_ & _ & Htop & Hlen).
  split; [vm_compute; reflexivity|]. split; [vm_compute; reflexivity|].
  split; [vm_compute; reflexivity|]. split.
  - apply Htop.
    + apply list_elem_of_In. vm_compute. tauto.
    + intros H. apply list_elem_of_In in H. vm_compute in H. intuition discriminate.
    + apply list_elem_of_In. vm_compute. tauto.
  - rewrite Hlen by lia. vm_compute. reflexivity.
Defined.

End KeywordTheorems.

(** * The trace of the fetch engine *)

Section EngineTrace.
Variable env : Env.
Variable n : string.
Variable mr : Z.
Variable bf : Q.
Variable pool : list string.
Variable base0 : gmap string string.

#[local] Abbreviation K := (kept mr bf pool base0).
#[local] Abbreviation P := (engine_event env n pool base0).
#[local] Abbreviation C := (calm env n bf pool).
#[local] Abbreviation spec := (triple K).

Lemma kept_rotate s ua :
  K s ->
  K {| max_retries := max_retries s; backoff_factor := backoff_factor s;
       user_agents_pool := user_agents_pool s; user_agent := ua;
       base_headers := <["User-Agent" := ua]> (base_headers s) |}.
Proof.
  intros (H1 & H2 & H3 & H4). repeat split; try assumption.
  intros k Hk. simpl. rewrite lookup_insert_ne by congruence. now apply H4.
Qed.

Lemma requests_app (a b : list event) : requests (a ++ b) = requests a ++ requests b.
Proof. apply omap_app. Qed.

Lemma post_conseq {A} (m : M World A) (R R' : result A -> Prop) c c' :
  spec m (post R P c) -> (forall r, R r -> R' r) -> (c <= c')%nat ->
  spec m (post R' P c').
Proof.
  intros Hm HR Hc. eapply spec_conseq; [exact Hm|].
  intros r evs (H1 & H2 & H3). repeat split; [auto | exact H2 | lia].
Qed.

Lemma post_ret {A} (a : A) (R : result A -> Prop) :
  R (Ok a) -> spec (ret a) (post R P 0).
Proof.
  intros H. eapply spec_conseq; [apply spec_ret|].
  intros r evs [-> ->]. repeat split; [exact H | constructor | simpl; lia].
Qed.

Lemma post_ret_any {A} (a : A) c : spec (ret a) (post (fun _ => True) P c).
Proof. eapply post_conseq; [apply (post_ret a (fun _ => True) I) | auto | lia]. Qed.

Lemma post_bind {A B} (m : M World A) (f : A -> M World B) R1 R2 c1 c2 :
  spec m (post R1 P c1) ->
  (forall a, R1 (Ok a) -> spec (f a) (post R2 P c2)) ->
  (forall e, R1 (Raise e) -> R2 (Raise e)) ->
  spec (bind m f) (post R2 P (c1 + c2)).
Proof.
  intros Hm Hf He. eapply spec_bind; [exact Hm | |].
  - intros a evs1 (H1 & H2 & H3). eapply spec_conseq; [apply (Hf a H1)|].
    intros r evs2 (G1 & G2 & G3). repeat split; [exact G1 | |].
    + apply Forall_app. auto.
    + rewrite requests_app, length_app. lia.
  - intros e evs1 (H1 & H2 & H3). repeat split; [auto | exact H2 | lia].
Qed.

Lemma post_try {A} (m : M World A) catches (h : exn -> M World A) R1 R2 c1 c2 :
  spec m (post R1 P c1) ->
  (forall a, R1 (Ok a) -> R2 (Ok a)) ->
  (forall e, R1 (Raise e) -> catches e = true -> spec (h e) (post R2 P c2)) ->
  (forall e, R1 (Raise e) -> catches e = false -> R2 (Raise e)) ->
  spec (try_except m catches h) (post R2 P (c1 + c2)).
Proof.
  intros Hm Hok Hh Hno. eapply spec_try; [exact Hm | | |].
  - intros a evs (H1 & H2 & H3). repeat split; [auto | exact H2 | lia].
  - intros e evs1 (H1 & H2 & H3) Hc. eapply spec_conseq; [apply (Hh e H1 Hc)|].
    intros r evs2 (G1 & G2 & G3). repeat split; [exact G1 | |].
    + apply Forall_app. auto.
    + rewrite requests_app, length_app. lia.
  - intros e evs (H1 & H2 & H3) Hc. repeat split; [auto | exact H2 | lia].
Qed.

Lemma post_bind_any {A B} (m : M World A) (f : A -> M World B) R1 c1 c2 c :
  spec m (post R1 P c1) ->
  (forall a, R1 (Ok a) -> spec (f a) (post (fun _ => True) P c2)) ->
  (c1 + c2 <= c)%nat ->
  spec (bind m f) (post (fun _ => True) P c).
Proof.
  intros Hm Hf Hc.
  eapply post_conseq with (R := fun _ => True) (c := (c1 + c2)%nat); [|auto | exact Hc].
  eapply post_bind; [exact Hm | exact Hf | trivial].
Qed.

Lemma post_try_any {A} (m : M World A) catches (h : exn -> M World A) c :
  spec m (post (fun _ => True) P c) ->
  (forall e, spec (h e) (post (fun _ => True) P 0)) ->
  spec (try_except m catches h) (post (fun _ => True) P c).
Proof.
  intros Hm Hh.
  eapply post_conseq with (R := fun _ => True) (c := (c + 0)%nat); [|auto | lia].
  eapply post_try; [exact Hm | trivial | intros e _ _; apply Hh | trivial].
Qed.

Lemma post_silent_any {A} (m : M World A) (Q : result A -> list event -> Prop) :
  spec m Q -> (forall r evs, Q r evs -> evs = []) -> spec m (post (fun _ => True) P 0).
Proof.
  intros Hm HQ. eapply spec_conseq; [exact Hm|].
  intros r evs H. rewrite (HQ r evs H). repeat split; [constructor | simpl; lia].
Qed.

(** A step that leaves no event. *)
Lemma post_silent {A} (m : M World A) (Q : result A -> list event -> Prop)
    (R : result A -> Prop) :
  spec m Q -> (forall r evs, Q r evs -> evs = [] /\ R r) -> spec m (post R P 0).
Proof.
  intros Hm HQ. eapply spec_conseq; [exact Hm|].
  intros r evs H. destruct (HQ r evs H) as [-> HR].
  repeat split; [exact HR | constructor | simpl; lia].
Qed.

Lemma pick_member k seq ua : pick k seq = Ok ua -> ua ∈ seq.
Proof.
  destruct seq as [|d seq]; [discriminate|]. unfold pick.
  set (l := d :: seq). intros H. assert (E : ua = nth (k mod length l)%nat l d) by congruence.
  rewrite E. apply list_elem_of_In. apply nth_In.
  apply Nat.mod_upper_bound. discriminate.
Qed.

Lemma random_choice_member seq :
  spec (random_choice env seq) (post (fun r => forall ua, r = Ok ua -> ua ∈ seq) P 0).
Proof.
  intros w Hw. exists []. unfold random_choice, bind, tick, lift. simpl.
  rewrite app_nil_r. split; [reflexivity|]. split; [|exact Hw].
  repeat split; [|constructor | simpl; lia].
  intros ua H. now apply pick_member in H.
Qed.

Lemma merge_three (base : gmap string string) ua ref org k :
  merge_headers base [("User-Agent", Some ua); ("Referer", ref); ("Origin", org)] !! k
  = if decide (k = "Origin") then (match org with Some v => Some v | None => base !! k end)
    else if decide (k = "Referer") then (match ref with Some v => Some v | None => base !! k end)
    else if decide (k = "User-Agent") then Some ua
    else base !! k.
Proof.
  unfold merge_headers. simpl.
  destruct (decide (k = "Origin")) as [->|H1].
  { destruct org; [now rewrite lookup_insert_eq|].
    destruct ref; rewrite ?lookup_insert_ne by discriminate; reflexivity. }
  destruct (decide (k = "Referer")) as [->|H2].
  { destruct org, ref; rewrite ?lookup_insert_ne by discriminate;
      rewrite ?lookup_insert_eq; try reflexivity.
    all: now rewrite lookup_insert_ne by discriminate. }
  destruct (decide (k = "User-Agent")) as [->|H3].
  { destruct org, ref; rewrite ?lookup_insert_ne by discriminate;
      now rewrite lookup_insert_eq. }
  destruct org, ref; rewrite ?lookup_insert_ne by congruence; reflexivity.
Qed.

Lemma raise_fails {A} (e : exn) : ~ succeeds (@Raise A e).
Proof. intros [a H]. discriminate. Qed.

Lemma ok_succeeds {A} (a : A) : succeeds (Ok a).
Proof. now exists a. Qed.

Lemma build_headers_built :
  spec (_build_headers env n)
       (post (fun r => (forall h, r = Ok h -> built_headers env n pool base0 h)
                       /\ safely C r) P 0).
Proof.
  intros w Hw. exists []. rewrite app_nil_r.
  unfold _build_headers, bind, lift, get_self, random_choice, tick, ret.
  destruct (urlsplit (url_validators env) n) as [parts|e] eqn:Hp; cbn -[merge_headers].
  2:{ split; [reflexivity|]. split; [|exact Hw].
      repeat split; [discriminate | | constructor | simpl; lia].
      intros (_ & _ & (parts & Hp') & _). congruence. }
  destruct (pick (choice_index env (clock w)) (user_agents_pool (self w))) as [ua|e] eqn:Hua;
    cbn -[merge_headers].
  2:{ split; [reflexivity|]. split; [|exact Hw].
      repeat split; [discriminate | | constructor | simpl; lia].
      intros (_ & Hne & _). destruct Hw as (_ & _ & Hpool & _). rewrite Hpool in Hua.
      destruct pool; [congruence | discriminate]. }
  split; [reflexivity|]. split; [|exact Hw].
  repeat split; [| intros _; apply ok_succeeds | constructor | simpl; lia].
  match goal with |- context [Ok ?x] => set (m := x) end.
  intros h Hh. assert (E : h = m) by congruence. subst h m. clear Hh.
  destruct Hw as (_ & _ & Hpool & Hbase).
  exists ua, parts. split; [rewrite <- Hpool; now apply pick_member in Hua|].
  split; [exact Hp|]. split; [now rewrite merge_three|].
  split; [|split].
  - rewrite merge_three. cbn [decide].
    destruct (nonempty (netloc parts)); [reflexivity|]. now apply Hbase.
  - rewrite merge_three.
    destruct (nonempty (netloc parts)); [reflexivity|]. now apply Hbase.
  - intros k H1 H2 H3. rewrite merge_three.
    destruct (decide (k = "Origin")); [contradiction|].
    destruct (decide (k = "Referer")); [contradiction|].
    destruct (decide (k = "User-Agent")); [contradiction|]. now apply Hbase.
Qed.

Lemma send_post t vb url hdrs :
  goes_to env n {| rq_transport := t; rq_verb := vb; rq_url := url; rq_headers := hdrs |} ->
  built_headers env n pool base0 hdrs ->
  spec (send env t vb url hdrs)
       (post (fun r => exists k, r = net env k {| rq_transport := t; rq_verb := vb;
                                                  rq_url := url; rq_headers := hdrs |}) P 1).
Proof.
  intros Hgo Hb. eapply spec_conseq; [apply spec_send|].
  intros r evs [-> Hr]. repeat split; [exact Hr | | simpl; lia].
  constructor; [split; assumption | constructor].
Qed.

Lemma warm_up_post hdrs :
  built_headers env n pool base0 hdrs ->
  spec (_warm_up env n hdrs) (post (fun r => r = Ok tt) P 2).
Proof.
  intros Hb. unfold _warm_up.
  eapply post_conseq with (c := (2 + 0)%nat); [|intros r H; exact H | lia].
  eapply post_try with (R1 := fun r => forall a, r = Ok a -> a = tt).
  - change 2%nat with (1 + 1)%nat. eapply post_bind.
    + apply send_post; [left; reflexivity | exact Hb].
    + intros head _. destruct (status_code head =? 405).
      * change 1%nat with (0 + (1 + 0))%nat.
        eapply post_bind with (R1 := fun r => r = urlsplit (url_validators env) n).
        -- eapply post_silent; [apply spec_lift|]. intros r evs [-> ->]. auto.
        -- intros parts Hp. eapply post_bind.
           ++ apply send_post; [|exact Hb]. right. simpl. eauto.
           ++ intros _ _. apply post_ret. now intros [].
           ++ intros e _ a [=].
        -- intros e _ a [=].
      * eapply post_conseq; [apply post_ret | |]; [| intros r H; exact H | lia].
        now intros [].
    + intros e _ a [=].
  - intros [] _. reflexivity.
  - intros e _ _. now apply post_ret.
  - intros e _ [=].
Qed.

Lemma human_delay_range t dr :
  (human_delay t - spread <= jitter_with (human_delay t) spread (draw_value dr)
   /\ jitter_with (human_delay t) spread (draw_value dr) <= human_delay t + spread)%Q.
Proof.
  destruct (draw_value_range dr) as [H0 H1].
  apply jitter_with_bounds; [| exact H0 | now apply Qlt_le_weak].
  destruct t; discriminate.
Qed.

Lemma human_delay_sleeps t dr :
  Qle_bool 0 (jitter_with (human_delay t) spread (draw_value dr)) = true.
Proof. apply Qle_bool_iff. apply nonneg_delay. destruct t; discriminate. Qed.

(** The body of a transport after the headers are built: the delay,
    then the GET, whose exception is the only one that can come out. *)
Lemma transport_tail_post {A} t hdrs (k : Response -> M World A) (Rok : A -> Prop) c :
  built_headers env n pool base0 hdrs ->
  (forall resp, spec (k resp) (post (fun r => exists a, r = Ok a /\ Rok a) P c)) ->
  spec (let* d := jitter env (human_delay t) in
        let* _ := time_sleep (HumanDelay t) d in
        let* resp := send env t GET n hdrs in k resp)
       (post (fun r => match r with
                       | Ok a => Rok a
                       | Raise e => exists j rq, rq_transport rq = t /\ net env j rq = Raise e
                       end) P (1 + c)).
Proof.
  intros Hb Hk.
  change (1 + c)%nat with (0 + (0 + (1 + c)))%nat.
  eapply post_bind with
    (R1 := fun r => exists dr, r = Ok (jitter_with (human_delay t) spread (draw_value dr))).
  - eapply post_silent; [apply spec_jitter|]. intros r evs [-> H]. auto.
  - intros d (dr & [= ->]).
    eapply post_bind with (R1 := fun r => r = Ok tt).
    + eapply spec_conseq; [apply spec_time_sleep|].
      intros r evs [(_ & -> & ->)|(Hneg & _ & _)].
      * repeat split; [|simpl; lia]. constructor; [|constructor].
        apply human_delay_range.
      * rewrite human_delay_sleeps in Hneg. discriminate.
    + intros _ _. eapply post_bind.
      * apply send_post; [left; reflexivity | exact Hb].
      * intros resp _. eapply post_conseq; [apply Hk | | lia].
        intros r (a & -> & Ha). exact Ha.
      * intros e (j & Hj). simpl. eexists j, _. split; [|symmetry; exact Hj]. reflexivity.
    + intros e [=].
  - intros e (dr & [=]).
Qed.

Lemma requests_fetch_post attempt :
  spec (_requests_fetch env n attempt)
       (post (fun r => coherent r /\ raises_only C is_requests_exception r) P 3).
Proof.
  unfold _requests_fetch.
  change 3%nat with (0 + (2 + (1 + 0)))%nat.
  eapply post_bind; [apply build_headers_built | |].
  2:{ intros e [_ Hs]. split; [intros ? ? ? [=]|].
      intros HC. destruct (raise_fails e (Hs HC)). }
  intros hdrs [Hb _]. specialize (Hb hdrs eq_refl).
  eapply post_bind; [now apply warm_up_post | | intros e [=]].
  intros _ _.
  eapply post_conseq with (c := (1 + 0)%nat);
    [apply (transport_tail_post Requests hdrs _ (fun a => coherent (Ok a))); [exact Hb|]
    | | lia].
  - intros resp. destruct (not_html resp); apply post_ret; eexists; (split; [reflexivity|]);
      intros ? ? ? [= <- <- <-]; eauto.
  - intros [a|e]; [intros Ha; split; [exact Ha | exact I]|].
    intros (j & rq & Ht & Hn). split; [intros ? ? ? [=]|].
    intros (_ & _ & _ & Hreq). eauto.
Qed.

Lemma httpx_fetch_post attempt :
  spec (_httpx_fetch env n attempt) (post (fun _ => True) P 1).
Proof.
  unfold _httpx_fetch. destruct (negb (httpx_installed env)); [apply post_ret_any|].
  eapply post_bind_any with (c1 := 0%nat) (c2 := (1 + 0)%nat);
    [apply build_headers_built | | lia].
  intros hdrs [Hb _]. specialize (Hb hdrs eq_refl).
  eapply post_conseq with (c := (1 + 0)%nat);
    [apply (transport_tail_post Httpx hdrs _ (fun _ => True)); [exact Hb|] | auto | lia].
  intros resp. destruct (not_html resp); apply post_ret; eauto.
Qed.

Lemma cloudscraper_fetch_post attempt :
  spec (_cloudscraper_fetch env n attempt) (post (fun _ => True) P 1).
Proof.
  unfold _cloudscraper_fetch. destruct (negb (cloudscraper_installed env));
    [apply post_ret_any|].
  eapply post_bind_any with (c1 := 0%nat) (c2 := (1 + 0)%nat);
    [apply build_headers_built | | lia].
  intros hdrs [Hb _]. specialize (Hb hdrs eq_refl).
  eapply post_conseq with (c := (1 + 0)%nat);
    [apply (transport_tail_post Cloudscraper hdrs _ (fun _ => True)); [exact Hb|] | auto | lia].
  intros resp. destruct (not_html resp); apply post_ret; eauto.
Qed.

Lemma post_ret_ok {A} (a : A) (H : Prop) c : spec (ret a) (post (safely H) P c).
Proof.
  eapply post_conseq; [apply (post_ret a (safely H)) | auto | lia].
  intros _. apply ok_succeeds.
Qed.

Lemma try_requests_post attempt :
  spec (try_requests env n attempt) (post (safely C) P 3).
Proof.
  unfold try_requests.
  eapply post_conseq with (c := (3 + 0)%nat); [|intros r H; exact H | lia].
  eapply post_try with (R1 := raises_only C is_requests_exception).
  - eapply post_conseq with (c := (3 + 0)%nat); [|intros r H; exact H | lia].
    eapply post_bind; [apply requests_fetch_post | |].
    2:{ intros e [_ H]. exact H. }
    intros [[text status] resp] [Hc _].
    destruct (Hc text status resp eq_refl) as (r' & -> & ->).
    assert (Hret : forall t : option string,
               spec (ret t) (post (raises_only C is_requests_exception) P 0)).
    { intros t. now apply post_ret. }
    destruct (usable text (Some (status_code r'))); [apply Hret|].
    case_bool_decide as Hs; cbn [andb]; [|apply Hret].
    injection Hs as Hs. rewrite looks_like_cloudflare_blocked by lia. apply Hret.
  - intros a _ _. apply ok_succeeds.
  - intros e _ _. apply post_ret_ok.
  - intros e H Hcatch HC. simpl in H. rewrite (H HC) in Hcatch. discriminate.
Qed.

Lemma try_httpx_post attempt :
  spec (try_httpx env n attempt) (post succeeds P 1).
Proof.
  unfold try_httpx.
  eapply post_conseq with (c := (1 + 0)%nat); [|intros r H; exact H | lia].
  eapply post_try with (R1 := fun _ => True).
  - eapply post_bind_any with (c2 := 0%nat); [apply httpx_fetch_post | | lia].
    intros [t s] _. destruct (usable t s); apply post_ret_any.
  - intros a _. apply ok_succeeds.
  - intros e _ _. apply post_ret. apply ok_succeeds.
  - intros e _ [=].
Qed.

Lemma try_cloudscraper_post attempt :
  spec (try_cloudscraper env n attempt) (post succeeds P 1).
Proof.
  unfold try_cloudscraper.
  eapply post_conseq with (c := (1 + 0)%nat); [|intros r H; exact H | lia].
  eapply post_try with (R1 := fun _ => True).
  - eapply post_bind_any with (c2 := 0%nat); [apply cloudscraper_fetch_post | | lia].
    intros [t s] _. destruct (usable t s); apply post_ret_any.
  - intros a _. apply ok_succeeds.
  - intros e _ _. apply post_ret. apply ok_succeeds.
  - intros e _ [=].
Qed.

Lemma backoff_post attempt :
  0 <= attempt ->
  spec (backoff env attempt) (post (safely C) P 0).
Proof.
  intros Ha. unfold backoff. change 0%nat with (0 + (0 + 0))%nat.
  eapply post_bind with (R1 := fun r => exists s, r = Ok s /\ K s).
  { eapply post_silent; [apply spec_get_self|]. intros r evs [H ->]. auto. }
  2:{ intros e (s & [=] & _). }
  intros s (s' & [= <-] & _ & Hbf & _).
  eapply post_bind with
    (R1 := fun r => exists dr, r = Ok (jitter_with (backoff_factor s * inject_Z attempt)
                                         spread (draw_value dr))).
  { eapply post_silent; [apply spec_jitter|]. intros r evs [-> H]. auto. }
  2:{ intros e (dr & [=]). }
  intros d (dr & [= ->]). eapply spec_conseq; [apply spec_time_sleep|].
  intros r evs [(_ & -> & ->)|(Hneg & -> & ->)].
  - repeat split; [intros _; apply ok_succeeds | | simpl; lia].
    constructor; [exact I | constructor].
  - repeat split; [|constructor | simpl; lia].
    intros (Hpos & _). exfalso.
    assert (Hd : Qle_bool 0 (jitter_with (backoff_factor s * inject_Z attempt) spread
                               (draw_value dr)) = true).
    { apply Qle_bool_iff. apply nonneg_delay. rewrite Hbf.
      apply Qmult_le_0_compat; [exact Hpos|].
      change 0%Q with (inject_Z 0). now rewrite <- Zle_Qle. }
    rewrite Hd in Hneg. discriminate.
Qed.

Lemma post_bind_ok {A B} (m : M World A) (f : A -> M World B) (H : Prop) R1 c1 c2 c :
  spec m (post R1 P c1) ->
  (forall a, R1 (Ok a) -> spec (f a) (post (safely H) P c2)) ->
  (forall e, R1 (Raise e) -> ~ H) ->
  (c1 + c2 <= c)%nat ->
  spec (bind m f) (post (safely H) P c).
Proof.
  intros Hm Hf He Hc.
  eapply post_conseq with (c := (c1 + c2)%nat); [|intros r H'; exact H' | exact Hc].
  eapply post_bind; [exact Hm | exact Hf |].
  intros e H1 HH. destruct (He e H1 HH).
Qed.

Lemma safely_raise {A} (H : Prop) (e : exn) : safely H (@Raise A e) -> ~ H.
Proof. intros Hs HH. exact (raise_fails e (Hs HH)). Qed.

Lemma attempt_once_post attempt :
  0 <= attempt ->
  spec (attempt_once env n attempt) (post (safely C) P 5).
Proof.
  intros Ha. unfold attempt_once.
  eapply post_bind_ok with (c1 := 0%nat) (c2 := 5%nat)
                           (R1 := fun r => exists s, r = Ok s /\ K s); [| | | lia].
  { eapply post_silent; [apply spec_get_self|]. intros r evs [H ->]. auto. }
  2:{ intros e (s & [=] & _). }
  intros s (s' & [= <-] & _ & _ & Hpool & _).
  eapply post_bind_ok with (c1 := 0%nat) (c2 := 5%nat)
                           (R1 := fun r => pool <> [] -> exists ua, r = Ok ua); [| | | lia].
  { eapply post_silent; [apply spec_random_choice|]. intros r evs [-> H].
    rewrite Hpool in H. auto. }
  2:{ intros e H (_ & Hne & _). destruct (H Hne) as (ua & [=]). }
  intros ua _.
  eapply post_bind_ok with (c1 := 0%nat) (c2 := 5%nat) (R1 := fun r => r = Ok tt);
    [| | | lia].
  { eapply post_silent; [apply spec_rotate; apply kept_rotate|]. intros r evs [-> ->]. auto. }
  2:{ intros e [=]. }
  intros _ _.
  eapply post_bind_ok with (c2 := 2%nat); [apply try_requests_post | | apply safely_raise | lia].
  intros [t|] _; [apply post_ret_ok|].
  eapply post_bind_ok with (c2 := 1%nat);
    [apply try_httpx_post | | intros e H; destruct (raise_fails e H) | lia].
  intros [t|] _; [apply post_ret_ok|].
  eapply post_bind_ok with (c2 := 0%nat);
    [apply try_cloudscraper_post | | intros e H; destruct (raise_fails e H) | lia].
  intros [t|] _; [apply post_ret_ok|].
  eapply post_bind_ok with (c2 := 0%nat);
    [now apply backoff_post | | apply safely_raise | lia].
  intros _ _. apply post_ret_ok.
Qed.

Lemma attempts_post k attempt :
  0 <= attempt ->
  spec (attempts env k attempt n) (post (safely C) P (5 * k)).
Proof.
  revert attempt. induction k as [|k IH]; intros attempt Ha; simpl attempts.
  - apply post_ret_ok.
  - eapply post_bind_ok with (c2 := (5 * k)%nat);
      [now apply attempt_once_post | | apply safely_raise | lia].
    intros [t|] _; [apply post_ret_ok | apply IH; lia].
Qed.

End EngineTrace.

Section EngineFetch.
Variable env : Env.

(** What [fetch_html] leaves behind, in one statement. *)
Lemma fetch_html_engine url w :
  let R := fetch_html env url w in
  exists evs,
    trace R.2 = trace w ++ evs
    /\ (length (requests evs) <= 5 * Z.to_nat (max_retries (self w)))%nat
    /\ kept (max_retries (self w)) (backoff_factor (self w)) (user_agents_pool (self w))
            (base_headers (self w)) (self R.2)
    /\ match _normalized_url env url with
       | Ok n => Forall (engine_event env n (user_agents_pool (self w))
                           (base_headers (self w))) evs
                 /\ safely (calm env n (backoff_factor (self w)) (user_agents_pool (self w)))
                           R.1
       | Raise e => evs = [] /\ R.1 = Raise e
       end.
Proof.
  assert (HK : kept (max_retries (self w)) (backoff_factor (self w))
                 (user_agents_pool (self w)) (base_headers (self w)) (self w)).
  { repeat split. }
  unfold fetch_html, bind, lift. destruct (_normalized_url env url) as [n|e]; simpl.
  - destruct (attempts_post env n (max_retries (self w)) (backoff_factor (self w))
                (user_agents_pool (self w)) (base_headers (self w))
                (Z.to_nat (max_retries (self w))) 1 ltac:(lia) w HK)
      as (evs & Ht & (Hs & Hall & Hc) & Hk).
    exists evs. auto.
  - exists []. rewrite app_nil_r. repeat split. simpl. lia.
Qed.

End EngineFetch.

(** ** The first strategy succeeds *)

Section EngineSuccess.
Variable env : Env.
Variable n : string.
Variable bf : Q.
Variable pool : list string.
Hypothesis Hpool : pool <> [].
Hypothesis Hparse : exists parts, urlsplit (url_validators env) n = Ok parts.
Hypothesis Hpage : forall k rq,
  rq_transport rq = Requests -> rq_verb rq = GET -> rq_url rq = n ->
  exists r, net env k rq = Ok r /\ page_response r.

#[local] Abbreviation spec := (triple (J bf pool False)).

Ltac count_up := unfold weaker, tplus, tzero; cbn; repeat split; lia.

Lemma send_counted t vb url hdrs :
  spec (send env t vb url hdrs)
       (T (fun r => exists k, r = net env k {| rq_transport := t; rq_verb := vb;
                                               rq_url := url; rq_headers := hdrs |})
          {| bk := [];
             rg := if same_transport t Requests && same_verb vb GET then 1 else 0;
             hx := if same_transport t Httpx && same_verb vb GET then 1 else 0;
             cs := if same_transport t Cloudscraper && same_verb vb GET then 1 else 0 |}).
Proof.
  eapply spec_conseq; [apply spec_send|].
  intros r evs [-> Hk]. split; [exact Hk|].
  destruct t, vb; unfold tallies, sent; cbn; repeat split; lia.
Qed.

Lemma warm_up_counted hdrs :
  spec (_warm_up env n hdrs) (T (fun r => r = Ok tt) tzero).
Proof.
  destruct Hparse as [parts Hp]. unfold _warm_up.
  eapply T_try with (R1 := fun _ => True).
  - eapply T_weaken; [| intros r H; exact H |].
    + eapply T_bind; [apply (send_counted Requests HEAD) | |].
      * intros head _.
        destruct (status_code head =? 405).
        -- rewrite Hp.
           eapply T_weaken with (R := fun _ => True)
                                (t := {| bk := []; rg := 1; hx := 0; cs := 0 |});
             [| auto | instantiate (1 := tzero); count_up].
           eapply T_weaken; [| intros r H; exact H |].
           ++ eapply T_bind; [apply (T_pure bf pool parts (fun r => r = Ok parts)); reflexivity | |].
              ** intros a _.
                 eapply T_bind; [apply (send_counted Requests GET) | |].
                 --- intros r _. apply (T_pure bf pool tt (fun _ => True)). exact I.
                 --- intros e _. split; [exact I | reflexivity].
              ** intros e [=].
           ++ count_up.
        -- apply (T_pure bf pool tt (fun _ => True)). exact I.
      * intros e _. split; [exact I | reflexivity].
    + count_up.
  - intros [] _. reflexivity.
  - intros e _. split; [reflexivity|]. now apply T_pure.
Qed.

Lemma page_usable r :
  page_response r ->
  ok r = true /\ (100 <=? len (text r)) = true
  /\ usable (Some (text r)) (Some (status_code r)) = true.
Proof.
  intros (H0 & H4 & _ & Hl).
  assert (Hok : ok r = true).
  { unfold ok. apply negb_true_iff, andb_false_iff. left. apply Z.leb_gt. lia. }
  assert (Hlen : (100 <=? len (text r)) = true) by now apply Z.leb_le.
  split; [exact Hok|]. split; [exact Hlen|].
  unfold usable, truthy_text, truthy_status.
  assert (Hne : nonempty (text r) = true).
  { destruct (text r); [unfold len in Hl; simpl in Hl; lia | reflexivity]. }
  rewrite Hne. simpl.
  apply andb_true_iff. split; [|now apply Z.ltb_lt].
  apply negb_true_iff. now apply Z.eqb_neq.
Qed.

Lemma requests_fetch_page attempt :
  spec (_requests_fetch env n attempt)
       (T (fun r => exists resp, page_response resp
                                 /\ r = Ok (Some (text resp), Some (status_code resp), Some resp))
          {| bk := []; rg := 1; hx := 0; cs := 0 |}).
Proof.
  unfold _requests_fetch.
  eapply T_weaken; [| intros r H; exact H |].
  - eapply T_bind; [now apply build_headers_ok | |]; [|intros e [a [=]]].
    intros hdrs _.
    eapply T_bind; [apply warm_up_counted | |]; [|intros e [=]].
    intros _ _.
    eapply T_bind; [apply jitter_T | |]; [|intros e [dr [=]]].
    intros d (dr & [= ->]).
    eapply T_bind; [apply sleep_ok; apply nonneg_delay; discriminate | |]; [|intros e [=]].
    intros _ _.
    eapply T_bind; [apply (send_counted Requests GET) | |].
    + intros resp (k & Hk).
      destruct (Hpage k {| rq_transport := Requests; rq_verb := GET; rq_url := n;
                           rq_headers := hdrs |} eq_refl eq_refl eq_refl)
        as (r & Hr & Hp).
      assert (E : resp = r) by congruence. subst r.
      destruct (page_usable resp Hp) as (Hok & Hlen & _).
      destruct Hp as (H0 & H4 & Hh & Hl). rewrite Hh, Hok, Hlen. cbn [andb].
      apply T_pure. exists resp. repeat split; assumption.
    + intros e (k & Hk).
      destruct (Hpage k {| rq_transport := Requests; rq_verb := GET; rq_url := n;
                           rq_headers := hdrs |} eq_refl eq_refl eq_refl)
        as (r & Hr & _). congruence.
  - count_up.
Qed.

Lemma try_requests_page attempt :
  spec (try_requests env n attempt)
       (T (fun r => exists resp, page_response resp /\ r = Ok (Some (text resp)))
          {| bk := []; rg := 1; hx := 0; cs := 0 |}).
Proof.
  unfold try_requests.
  eapply T_try with
    (R1 := fun r => exists resp, page_response resp /\ r = Ok (Some (text resp))).
  - eapply T_weaken; [| intros r H; exact H |].
    + eapply T_bind; [apply requests_fetch_page | |].
      * intros [[text st] resp] (r' & Hp & [= -> -> ->]).
        destruct (page_usable r' Hp) as (_ & _ & Hu). rewrite Hu.
        apply T_pure. eauto.
      * intros e (r' & _ & [=]).
    + count_up.
  - intros a H. exact H.
  - intros e (r' & _ & [=]).
Qed.

Lemma attempt_once_page attempt :
  spec (attempt_once env n attempt)
       (T (fun r => exists resp, page_response resp /\ r = Ok (Some (text resp)))
          {| bk := []; rg := 1; hx := 0; cs := 0 |}).
Proof.
  unfold attempt_once.
  eapply spec_bind; [apply spec_get_self | |].
  2:{ intros e evs [(s & [=] & _) _]. }
  intros s evs1 [(s' & [= <-] & Hj) ->]. simpl.
  eapply spec_bind; [apply spec_random_choice | |].
  2:{ intros e evs [_ H]. destruct Hj as (_ & Hp' & _). rewrite Hp' in H.
      destruct (H Hpool) as [ua [=]]. }
  intros ua evs1 [-> _]. simpl.
  eapply spec_bind; [apply spec_rotate; apply J_rotate | |].
  2:{ intros e evs [[=] _]. }
  intros _ evs1 [_ ->]. simpl.
  eapply T_weaken; [| intros r H; exact H |].
  - eapply T_bind; [apply try_requests_page | |]; [|intros e (r' & _ & [=])].
    intros r1 (resp & Hp & [= ->]). apply T_pure. eauto.
  - count_up.
Qed.

Lemma attempts_page k attempt :
  spec (attempts env (S k) attempt n)
       (T (fun r => exists resp, page_response resp /\ r = Ok (Some (text resp)))
          {| bk := []; rg := 1; hx := 0; cs := 0 |}).
Proof.
  simpl attempts.
  eapply T_weaken; [| intros r H; exact H |].
  - eapply T_bind; [apply attempt_once_page | |]; [|intros e (r' & _ & [=])].
    intros r1 (resp & Hp & [= ->]). apply T_pure. eauto.
  - count_up.
Qed.

End EngineSuccess.

(** ** Statements about [fetch_html] *)

Lemma events_requests (evs : list event) rq : In (EvRequest rq) evs -> In rq (requests evs).
Proof.
  induction evs as [|ev evs IH]; simpl; [tauto|].
  intros [->|H]; [now left|]. destruct ev; simpl; auto.
Qed.

Lemma engine_calls_nothing env n pool base0 evs :
  Forall (engine_event env n pool base0) evs -> calls evs = [].
Proof.
  induction 1 as [|ev evs Hev _ IH]; [reflexivity|].
  destruct ev as [rq|site d|m]; simpl; [exact IH | exact IH | destruct Hev].
Qed.

Lemma fetch_request_budget_calls env url w :
  exists evs, trace (fetch_html env url w).2 = trace w ++ evs /\ calls evs = [].
Proof.
  destruct (fetch_html_engine env url w) as (evs & Ht & _ & _ & Hev).
  exists evs. split; [exact Ht|].
  destruct (_normalized_url env url) as [n|e].
  - destruct Hev as [Hall _]. eapply engine_calls_nothing; exact Hall.
  - destruct Hev as [-> _]. reflexivity.
Qed.

(** X3. The headers of the requests of [fetch_html]: every request
    carries a [User-Agent] drawn from the pool; its [Referer] and
    [Origin] are the root [scheme://netloc/] and the origin
    [scheme://netloc] of the normalised URL when that has an authority;
    every other header is the extractor's base header of that name. *)
Theorem fetch_requests_carry_built_headers env url w n :
  _normalized_url env url = Ok n ->
  exists evs,
    trace (fetch_html env url w).2 = trace w ++ evs
    /\ forall rq, In (EvRequest rq) evs ->
         built_headers env n (user_agents_pool (self w)) (base_headers (self w))
                       (rq_headers rq).
Proof.
  intros Hn. destruct (fetch_html_engine env url w) as (evs & Ht & _ & _ & Hev).
  rewrite Hn in Hev. destruct Hev as [Hall _].
  exists evs. split; [exact Ht|].
  intros rq Hin. rewrite Forall_forall in Hall.
  apply list_elem_of_In in Hin. exact (proj2 (Hall _ Hin)).
Qed.

Lemma requests_events (evs : list event) rq : In rq (requests evs) -> In (EvRequest rq) evs.
Proof.
  induction evs as [|ev evs IH]; simpl; [tauto|].
  destruct ev as [rq'|site d|m]; simpl; [|auto | auto].
  intros [->|H]; [now left | right; auto].
Qed.

Lemma fetch_requests_carry_built_headers_witness :
  Forall (fun rq => exists ua, ua ∈ DEFAULT_UAS
                               /\ rq_headers rq !! "User-Agent" = Some ua
                               /\ rq_headers rq !! "Referer" = Some "http://news.example.com/"
                               /\ rq_headers rq !! "Origin" = Some "http://news.example.com"
                               /\ rq_headers rq !! "DNT" = Some "1")
         (requests (trace (fetch_html env_no_head article_url service_world).2)).
Proof.
  destruct (fetch_requests_carry_built_headers env_no_head article_url service_world
              "http://news.example.com/markets/rally?id=7" eq_refl) as (evs & Ht & H).
  simpl in Ht. rewrite Ht. apply Forall_forall. intros rq Hin.
  apply list_elem_of_In, requests_events in Hin.
  destruct (H rq Hin) as (ua & parts & Hua & Hp & H1 & H2 & H3 & H4).
  injection Hp as <-. exists ua.
  split; [exact Hua|]. split; [exact H1|]. split; [exact H2|]. split; [exact H3|].
  rewrite H4 by discriminate. reflexivity.
Defined.

(** X4. The budget of a fetch: [fetch_html] sends at most five requests
    per attempt (HEAD, the warm-up fallback GET, and one GET per
    transport), so at most [5 * max_retries] in all; it calls no
    extraction method; and it leaves the extractor's configuration
    ([max_retries], [backoff_factor], the pool) and every base header
    other than [User-Agent] as they were. *)
Theorem fetch_request_budget env url w :
  exists evs,
    trace (fetch_html env url w).2 = trace w ++ evs
    /\ (length (requests evs) <= 5 * Z.to_nat (max_retries (self w)))%nat
    /\ calls evs = []
    /\ max_retries (self (fetch_html env url w).2) = max_retries (self w)
    /\ backoff_factor (self (fetch_html env url w).2) = backoff_factor (self w)
    /\ user_agents_pool (self (fetch_html env url w).2) = user_agents_pool (self w)
    /\ forall k, k <> "User-Agent" ->
         base_headers (self (fetch_html env url w).2) !! k = base_headers (self w) !! k.
Proof.
  destruct (fetch_html_engine env url w) as (evs & Ht & Hc & (K1 & K2 & K3 & K4) & Hev).
  exists evs. split; [exact Ht|]. split; [exact Hc|]. split.
  - destruct (_normalized_url env url) as [n|e].
    + destruct Hev as [Hall _]. eapply engine_calls_nothing; exact Hall.
    + destruct Hev as [-> _]. reflexivity.
  - auto.
Qed.

(** X5. The human-like delay before each GET lasts within 0.6 s of
    its base (0.7 s for requests, 0.9 s for httpx, 1.2 s for
    cloudscraper) whatever the random generator draws: it is strictly
    positive, so this [time.sleep] never raises. *)
Theorem human_delays_in_range env url w :
  exists evs,
    trace (fetch_html env url w).2 = trace w ++ evs
    /\ forall t d, In (EvSleep (HumanDelay t) d) evs ->
         (human_delay t - spread <= d /\ d <= human_delay t + spread /\ 1 # 10 <= d)%Q.
Proof.
  destruct (fetch_html_engine env url w) as (evs & Ht & _ & _ & Hev).
  exists evs. split; [exact Ht|]. intros t d Hin.
  destruct (_normalized_url env url) as [n|e].
  - destruct Hev as [Hall _]. rewrite Forall_forall in Hall.
    apply list_elem_of_In in Hin. destruct (Hall _ Hin) as [H1 H2].
    split; [exact H1|]. split; [exact H2|].
    eapply Qle_trans; [|exact H1]. destruct t; discriminate.
  - destruct Hev as [-> _]. destruct Hin.
Qed.

(** X6. [fetch_html] never raises once the URL normalises: with a
    non-negative backoff factor, a non-empty pool, a normalised URL
    that parses and a [requests] session that raises only [requests]
    exceptions, it returns a value (the text or [None]) whatever the
    servers answer and whatever httpx and cloudscraper raise. *)
Theorem fetch_html_never_raises env url w n :
  _normalized_url env url = Ok n ->
  calm env n (backoff_factor (self w)) (user_agents_pool (self w)) ->
  exists r, (fetch_html env url w).1 = Ok r.
Proof.
  intros Hn Hcalm. destruct (fetch_html_engine env url w) as (evs & _ & _ & _ & Hev).
  rewrite Hn in Hev. destruct Hev as [_ Hs]. exact (Hs Hcalm).
Qed.

Lemma env_blocked_calm n :
  (exists parts, urlsplit permissive n = Ok parts) ->
  calm env_blocked n 1 DEFAULT_UAS.
Proof.
  intros Hp. split; [discriminate|]. split; [discriminate|]. split; [exact Hp|].
  intros k [[] [] u h] e; simpl; intros Ht; try discriminate Ht; intros [=].
Defined.

Lemma fetch_html_never_raises_witness :
  exists r, (fetch_html env_blocked article_url service_world).1 = Ok r.
Proof.
  apply (fetch_html_never_raises env_blocked article_url service_world
           "http://news.example.com/markets/rally?id=7" eq_refl).
  apply env_blocked_calm. eexists. reflexivity.
Defined.


Lemma page_is_page : page_response page.
Proof. repeat split; try discriminate; vm_compute; congruence. Defined.


(** X8. A retry count of zero or less means no fetch at all: once the
    URL normalises, [fetch_html] returns [None] and leaves the world
    untouched: no request, no sleep, no user-agent rotation. *)
Theorem no_retries_no_fetch env url w n :
  max_retries (self w) <= 0 ->
  _normalized_url env url = Ok n ->
  fetch_html env url w = (Ok None, w).
Proof.
  intros Hmr Hn. unfold fetch_html, bind, lift, get_self. rewrite Hn.
  assert (E : Z.to_nat (max_retries (self w)) = 0%nat) by lia.
  rewrite E. reflexivity.
Qed.

Lemma no_retries_no_fetch_witness :
  fetch_html env_page article_url
    {| clock := 0; trace := [];
       self := {| max_retries := 0; backoff_factor := 1; user_agents_pool := DEFAULT_UAS;
                  user_agent := service_user_agent;
                  base_headers := initial_headers service_user_agent |} |}
  = (Ok None,
     {| clock := 0; trace := [];
        self := {| max_retries := 0; backoff_factor := 1; user_agents_pool := DEFAULT_UAS;
                   user_agent := service_user_agent;
                   base_headers := initial_headers service_user_agent |} |}).
Proof.
  apply (no_retries_no_fetch env_page article_url _
           "http://news.example.com/markets/rally?id=7"); [simpl; lia | reflexivity].
Defined.

(** * The extraction chain, continued *)

Section ExtractLabels.
Variable env : Env.

Lemma run_trafilatura_label url html b c :
  _run_trafilatura env url html b = Some c -> method_used c = "trafilatura".
Proof.
  unfold _run_trafilatura.
  destruct (trafilatura_extract env b html url) as [[d|]|]; try discriminate.
  destruct (long_enough _); [|discriminate]. now intros [= <-].
Qed.

Lemma methods_label url html name fn c :
  In (name, fn) (methods env url html) -> fn tt = Some c ->
  method_used c = method_name name.
Proof.
  unfold methods. simpl.
  intros [E|[E|[E|[E|[]]]]]; injection E as <- <-; simpl.
  - unfold extract_with_trafilatura. destruct (negb _); [discriminate|].
    destruct (_run_trafilatura env url html true) eqn:E1.
    + intros [= <-]. eapply run_trafilatura_label; eauto.
    + apply run_trafilatura_label.
  - unfold extract_with_newspaper. destruct (negb _); [discriminate|].
    destruct (newspaper_parse env url html); [|discriminate].
    destruct (long_enough _); [|discriminate]. now intros [= <-].
  - unfold extract_with_readability. destruct (_ || _); [discriminate|].
    destruct (readability_parse env html); [|discriminate].
    destruct (long_enough _); [|discriminate]. now intros [= <-].
  - unfold extract_with_beautifulsoup. destruct (negb _); [discriminate|].
    destruct (soup_parse env html); [|discriminate].
    destruct (long_enough _); [|discriminate]. now intros [= <-].
Qed.

(** The accepted result comes from the method called last. *)
Lemma first_accepted_last ms c :
  first_accepted ms = Some c ->
  exists name fn, In (name, fn) ms /\ fn tt = Some c /\ last (called ms) = Some name.
Proof.
  induction ms as [|[name fn] ms IH]; simpl; [discriminate|].
  destruct (has_content (fn tt)) eqn:E.
  - intros H. exists name, fn. auto.
  - intros H. destruct (IH H) as (name' & fn' & Hin & Hf & Hl).
    exists name', fn'. split; [now right|]. split; [exact Hf|].
    destruct (called ms) as [|m l]; [discriminate | exact Hl].
Qed.

Lemma calls_app (a b : list event) : calls (a ++ b) = calls a ++ calls b.
Proof. apply omap_app. Qed.

Lemma calls_of_calls (ms : list method) : calls (map EvCall ms) = ms.
Proof. induction ms as [|m ms IH]; simpl; [reflexivity | now rewrite IH]. Qed.

(** X9. What [extract] leaves in the trace: the events of
    [fetch_html], then the calls of the extraction methods and nothing
    else, so no request follows a method call.  Without HTML no method
    is called and the result is [None]; a candidate that is returned
    comes from the method called last and carries that method's label
    in its ["method"] entry. *)
Theorem extract_calls_follow_fetch url w :
  exists fetched tried,
    trace (fetch_html env url w).2 = trace w ++ fetched
    /\ calls fetched = []
    /\ trace (extract env url w).2 = trace w ++ fetched ++ map EvCall tried
    /\ (forall html, (fetch_html env url w).1 = Ok html -> truthy_text html = false ->
          tried = [] /\ (extract env url w).1 = Ok None)
    /\ (forall c, (extract env url w).1 = Ok (Some c) ->
          exists m, last tried = Some m /\ method_used c = method_name m).
Proof.
  destruct (fetch_request_budget_calls env url w) as (fetched & Ht & Hc).
  rewrite extract_run.
  destruct (fetch_html env url w) as [[html|e] w1] eqn:E; cbn [fst snd] in *.
  - destruct (truthy_text html) eqn:Htext.
    + rewrite run_methods_run. cbn [fst snd log_events trace].
      set (ms := methods env url (default "" html)).
      exists fetched, (called ms).
      split; [exact Ht|]. split; [exact Hc|].
      split; [now rewrite Ht, app_assoc|]. split.
      * intros html' [= <-]. congruence.
      * intros c Hfa. assert (Hfa' : first_accepted ms = Some c) by congruence.
        apply first_accepted_last in Hfa' as (name & fn & Hin & Hf & Hl).
        exists name. split; [exact Hl|]. eapply methods_label; eauto.
    + exists fetched, []. cbn [fst snd map]. rewrite app_nil_r.
      split; [exact Ht|]. split; [exact Hc|]. split; [exact Ht|]. split.
      * intros; auto.
      * intros c [=].
  - exists fetched, []. cbn [fst snd map]. rewrite app_nil_r.
    split; [exact Ht|]. split; [exact Hc|]. split; [exact Ht|]. split.
    + intros html [=].
    + intros c [=].
Qed.

End ExtractLabels.

Lemma extract_calls_follow_fetch_witness :
  exists c, (extract env_news article_url service_world).1 = Ok (Some c)
            /\ method_used c = "newspaper3k"
            /\ calls (trace (extract env_news article_url service_world).2)
               = [Trafilatura; Newspaper3k].
Proof.
  destruct (extract_calls_follow_fetch env_news article_url service_world)
    as (fetched & tried & Hf & Hc & Ht & _ & Hlabel).
  eexists. split; [vm_compute; reflexivity|]. split.
  - destruct (Hlabel _ ltac:(vm_compute; reflexivity)) as (m & _ & Hm).
    vm_compute. reflexivity.
  - vm_compute. reflexivity.
Defined.

(** * The content-processing service *)

Section Service.
Import ContentProcessingService.
Variable env : ContentProcessingService.Env.

Lemma update_db_run id clean raw w :
  exists w', update_db env id clean raw w = (Ok tt, w')
             /\ seen_urls w' = seen_urls w
             /\ trace (text_extractor w') = trace (text_extractor w).
Proof.
  unfold update_db, try_except, bind, on_extractor, tick, modify, lift, ret. simpl.
  destruct (db_update env _ clean raw id) as [[]|e]; simpl; eauto.
Qed.

(** The three ways a call ends. *)
Lemma process_article_cases raw w :
  let url := default "" (raw !! "url") in
  let out := process_article env raw w in
  (nonempty url = false /\ out = (Ok None, w))
  \/ (nonempty url = true /\ (md5_hexdigest env url ∈ seen_urls w) /\ out = (Ok None, w))
  \/ (nonempty url = true /\ (md5_hexdigest env url ∉ seen_urls w)
      /\ seen_urls out.2 = {[ md5_hexdigest env url ]} ∪ seen_urls w
      /\ match extract (fx env) url (text_extractor w) with
         | (Ok (Some ex), x) =>
             if nonempty (content ex)
             then exists c, out.1 = Ok (Some c)
                            /\ article_id c = default "" (raw !! "article_id")
                            /\ ContentProcessingService.url c = url
                            /\ c_title c = (if nonempty (title ex) then title ex
                                            else if nonempty (default "" (raw !! "title"))
                                                 then default "" (raw !! "title")
                                                 else "No Title")
                            /\ c_content c = content ex
                            /\ source c = default "Unknown" (raw !! "source")
                            /\ word_count c
                               = Z.of_nat (length (MetadataExtractor.split_ws (content ex) ""))
                            /\ extraction_method c = method_used ex
             else out.1 = Ok None
         | (_, x) => out.1 = Ok None
         end).
Proof.
  intros url out.
  destruct (process_article env raw w) as [r w'] eqn:E. subst out.
  unfold process_article in E. fold url in E.
  unfold try_except at 1 in E.
  destruct (nonempty url) eqn:Hu; cbn [negb] in E; [|left; split; [reflexivity|]; now rewrite <- E].
  right. unfold bind at 1, get at 1 in E.
  destruct (bool_decide (md5_hexdigest env url ∈ seen_urls w)) eqn:Hseen.
  { apply bool_decide_eq_true in Hseen. left. split; [reflexivity|]. split; [exact Hseen|].
    now rewrite <- E. }
  apply bool_decide_eq_false in Hseen. right.
  split; [reflexivity|]. split; [exact Hseen|].
  unfold bind at 1, modify at 1 in E. unfold bind at 1, on_extractor at 1 in E.
  cbn [text_extractor seen_urls db_log] in E.
  destruct (extract (fx env) url (text_extractor w)) as [[[ex|]|e] x] eqn:Ex;
    cbn [fst snd] in *; try (injection E as <- <-; split; reflexivity).
  destruct (nonempty (content ex)) eqn:Hc; cbn [negb] in E;
    [|injection E as <- <-; split; reflexivity].
  unfold bind at 1, on_extractor at 1, tick at 1 in E.
  cbn [text_extractor seen_urls db_log] in E.
  unfold bind at 1 in E.
  match type of E with context [update_db env ?a ?b ?c ?w2] =>
    destruct (update_db_run a b c w2) as (w3 & Hrun & Hs & _); rewrite Hrun in E end.
  cbn [fst snd ret] in E. injection E as <- <-. split; [exact Hs|].
  eexists. split; [reflexivity|]. cbn. repeat split.
Qed.


Lemma extract_candidate url x ex x' :
  extract (fx env) url x = (Ok (Some ex), x') ->
  acceptable ex /\ exists m, method_used ex = method_name m.
Proof.
  intros E.
  assert (E1 : (extract (fx env) url x).1 = Ok (Some ex)) by now rewrite E.
  apply extract_some in E1 as (html & name & fn & Hin & Hf).
  split.
  - apply long_enough_spec. eapply methods_floor; eauto.
  - exists name. eapply methods_label; eauto.
Qed.

(** X11. What a cleaned article holds: the id and the non-empty URL
    of the raw article, a URL whose hash was not seen before, a title
    that is never empty (the extracted title, else the feed's, else
    ["No Title"]), a content longer than 100 characters with its count
    of whitespace-separated words, and the label of one of the four
    extraction methods. *)
Theorem cleaned_article_is_complete raw w c :
  (process_article env raw w).1 = Ok (Some c) ->
  article_id c = default "" (raw !! "article_id")
  /\ ContentProcessingService.url c = default "" (raw !! "url")
  /\ nonempty (ContentProcessingService.url c) = true
  /\ (md5_hexdigest env (ContentProcessingService.url c) ∉ seen_urls w)
  /\ nonempty (c_title c) = true
  /\ 100 < len (c_content c)
  /\ word_count c = Z.of_nat (length (MetadataExtractor.split_ws (c_content c) ""))
  /\ exists m, extraction_method c = method_name m.
Proof.
  intros Hc.
  pose proof (process_article_cases raw w) as H. cbv zeta in H.
  destruct H as [[Hu Ho]|[(Hu & Hs & Ho)|(Hu & Hs & Hadd & Hex)]].
  - rewrite Ho in Hc. discriminate.
  - rewrite Ho in Hc. discriminate.
  - destruct (extract (fx env) (default "" (raw !! "url")) (text_extractor w))
      as [[[ex|]|e] x] eqn:E; try congruence.
    destruct (nonempty (content ex)) eqn:Hne; [|congruence].
    destruct Hex as (c' & Hc' & H1 & H2 & H3 & H4 & H5 & H6 & H7).
    assert (c' = c) by congruence. subst c'.
    destruct (extract_candidate _ _ _ _ E) as [[_ Hlen] Hm].
    rewrite H1, H2, H4, H6, H7. repeat split; try assumption.
    rewrite H3. destruct (nonempty (title ex)) eqn:Ht; [exact Ht|].
    destruct (nonempty (default "" (raw !! "title"))) eqn:Hr; [exact Hr | reflexivity].
Qed.

Lemma update_db_value id clean raw w :
  update_db env id clean raw w
  = (Ok tt,
     {| text_extractor := (tick (text_extractor w)).2; seen_urls := seen_urls w;
        db_log := db_log w ++ [EvDbUpdate clean raw id] |}).
Proof.
  unfold update_db, try_except, bind, on_extractor, tick, modify, lift, ret. simpl.
  destruct (db_update env _ clean raw id) as [[]|e]; reflexivity.
Qed.

End Service.

Section Database.
Import ContentProcessingService.

(** X12. The database cannot lose an article: whatever the update
    does, raise or succeed, [process_article] returns the same article
    and leaves the same state. *)
Theorem database_outcome_is_ignored env db raw w :
  process_article (with_db env db) raw w = process_article env raw w.
Proof.
  remember (process_article env raw w) as rhs eqn:Er.
  unfold process_article in *. cbn [md5_hexdigest fx utcnow_isoformat with_db].
  unfold try_except at 1. unfold try_except at 1 in Er.
  destruct (nonempty (default "" (raw !! "url"))); cbn [negb] in *; [|now subst].
  unfold bind at 1, get at 1. unfold bind at 1, get at 1 in Er.
  destruct (bool_decide _); [now subst|].
  unfold bind at 1, modify at 1. unfold bind at 1, modify at 1 in Er.
  unfold bind at 1, on_extractor at 1. unfold bind at 1, on_extractor at 1 in Er.
  cbn [text_extractor seen_urls db_log] in *.
  destruct (extract (fx env) _ (text_extractor w)) as [[[ex|]|e] x]; try (now subst).
  destruct (nonempty (content ex)); cbn [negb] in *; [|now subst].
  unfold bind at 1, on_extractor at 1, tick at 1.
  unfold bind at 1, on_extractor at 1, tick at 1 in Er.
  cbn [text_extractor seen_urls db_log] in *.
  unfold bind at 1. unfold bind at 1 in Er.
  rewrite update_db_value in *. now subst.
Qed.

End Database.

Lemma cleaned_article_is_complete_witness :
  exists c,
    (ContentProcessingService.process_article sample_service sample_raw_article
       sample_service_world).1 = Ok (Some c)
    /\ ContentProcessingService.c_title c = "Markets rally"
    /\ 100 < len (ContentProcessingService.c_content c)
    /\ ContentProcessingService.extraction_method c = "trafilatura".
Proof.
  eexists. split; [vm_compute; reflexivity|].
  split; [vm_compute; reflexivity|]. split; [|vm_compute; reflexivity].
  eapply (cleaned_article_is_complete sample_service sample_raw_article sample_service_world).
  vm_compute. reflexivity.
Defined.


(** * The feed fetcher, continued *)

Section FeedState.
Import RSSFetcher.
Variable env : RSSFetcher.Env.

Lemma set_last_modified_run url lm w :
  exists now,
    state (set_last_modified env url lm w).2
    = <[url := <["last_fetch" := now]> (<["last_modified" := lm]> (default ∅ (state w !! url)))]>
        (state w)
    /\ trace (set_last_modified env url lm w).2 = trace w
    /\ (set_last_modified env url lm w).1 = save env (S (clock w)).
Proof.
  unfold set_last_modified, bind, tick, modify, lift. cbn.
  exists (now_isoformat env (clock w)).
  destruct (save env (S (clock w))) as [[]|e]; cbn; auto.
Qed.

(** X13. The conditional-request state is a per-URL store:
    [get_last_modified] answers [""] for a URL never stored; after
    [set_last_modified(url, v)] it answers [v] for [url] and what it
    answered before for every other URL; and the value is in the
    in-memory state even when writing the state file raises. *)
Theorem last_modified_round_trip url lm w :
  let w' := (set_last_modified env url lm w).2 in
  get_last_modified ∅ url = ""
  /\ get_last_modified (state w') url = lm
  /\ (forall other, other <> url ->
        get_last_modified (state w') other = get_last_modified (state w) other)
  /\ (set_last_modified env url lm w).1 = save env (S (clock w)).
Proof.
  intros w'. subst w'.
  destruct (set_last_modified_run url lm w) as (now & Hs & _ & Hr).
  split; [reflexivity|]. rewrite Hs. split; [apply get_last_modified_set|].
  split; [|exact Hr].
  intros other Hne. unfold get_last_modified. now rewrite lookup_insert_ne by congruence.
Qed.

(** The outcomes of [fetch_feed], one by one. *)
Lemma fetch_feed_outcome url w :
  let hdrs := request_headers (get_last_modified (state w) url) in
  let out := fetch_feed env url w in
  exists logs,
    trace out.2 = trace w ++ EvGet url hdrs :: map EvLog logs
    /\ (forall other, other <> url ->
          get_last_modified (state out.2) other = get_last_modified (state w) other)
    /\ ((out.1 = Ok ("", []) /\ forall n t, Processing n t ∉ logs)
        \/ exists t e es, out.1 = Ok (t, e :: es) /\ logs = [Processing (S (length es)) t]).
Proof.
  intros hdrs out. subst out.
  unfold fetch_feed, try_except, bind, get, tick, emit, log, modify, lift, ret.
  cbn [fst snd clock trace state]. fold hdrs.
  assert (Hnone : forall m, (forall n t, m <> Processing n t) ->
                            forall n t, Processing n t ∉ [m]).
  { intros m Hm n t Hin. apply list_elem_of_singleton in Hin. symmetry in Hin.
    exact (Hm n t Hin). }
  destruct (http_get env (clock w) url hdrs) as [resp|e]; cbn.
  2:{ eexists [_]. rewrite <- app_assoc. split; [reflexivity|]. split; [reflexivity|].
      left. split; [reflexivity|]. apply Hnone. destruct e; discriminate. }
  destruct (status resp =? 304); cbn.
  { eexists [_]. rewrite <- app_assoc. split; [reflexivity|]. split; [reflexivity|].
    left. split; [reflexivity|]. apply Hnone. discriminate. }
  destruct (negb (status resp =? 200)); cbn.
  { eexists [_]. rewrite <- app_assoc. split; [reflexivity|]. split; [reflexivity|].
    left. split; [reflexivity|]. apply Hnone. discriminate. }
  destruct (negb (contains "xml" _) && _); cbn.
  { eexists [_]. rewrite <- app_assoc. split; [reflexivity|]. split; [reflexivity|].
    left. split; [reflexivity|]. apply Hnone. discriminate. }
  assert (Hframe : forall now lm other, other <> url ->
            get_last_modified
              (<[url := <["last_fetch" := now]>
                          (<["last_modified" := lm]> (default ∅ (state w !! url)))]> (state w))
              other
            = get_last_modified (state w) other).
  { intros now lm other Hne. unfold get_last_modified.
    now rewrite lookup_insert_ne by congruence. }
  destruct (nonempty (default "" (response_headers resp !! "last-modified"))); cbn.
  - unfold set_last_modified, bind, tick, modify, lift. cbn.
    destruct (save env _) as [[]|e]; cbn.
    + destruct (body resp) as [content|e]; cbn.
      * destruct (entries (feedparser_parse env content)) as [|e0 es] eqn:Ee; cbn.
        -- eexists [_]. rewrite <- app_assoc. split; [reflexivity|].
           split; [apply Hframe|]. left. split; [reflexivity|]. apply Hnone. discriminate.
        -- eexists [_]. rewrite <- app_assoc. split; [reflexivity|].
           split; [apply Hframe|]. right. eauto.
      * eexists [_]. rewrite <- app_assoc. split; [reflexivity|].
        split; [apply Hframe|]. left. split; [reflexivity|]. apply Hnone.
        destruct e; discriminate.
    + eexists [_]. rewrite <- app_assoc. split; [reflexivity|].
      split; [apply Hframe|]. left. split; [reflexivity|]. apply Hnone.
      destruct e; discriminate.
  - destruct (body resp) as [content|e]; cbn.
    + destruct (entries (feedparser_parse env content)) as [|e0 es] eqn:Ee; cbn.
      * eexists [_]. rewrite <- app_assoc. split; [reflexivity|].
        split; [reflexivity|]. left. split; [reflexivity|]. apply Hnone. discriminate.
      * eexists [_]. rewrite <- app_assoc. split; [reflexivity|].
        split; [reflexivity|]. right. eauto.
    + eexists [_]. rewrite <- app_assoc. split; [reflexivity|].
      split; [reflexivity|]. left. split; [reflexivity|]. apply Hnone.
      destruct e; discriminate.
Qed.

Lemma gets_logs logs : gets (map EvLog logs) = [].
Proof. induction logs as [|m logs IH]; [reflexivity | exact IH]. Qed.

(** X14. [fetch_feed] never raises and asks the server exactly once.
    It returns either the empty result [("", [])] or a title with a
    non-empty list of entries, in which case its one log entry reports
    their number; and it changes the stored state of no other URL. *)
Theorem fetch_feed_is_total url w :
  let out := fetch_feed env url w in
  (exists t es, out.1 = Ok (t, es) /\ (es = [] -> t = ""))
  /\ (exists evs, trace out.2 = trace w ++ evs /\ gets evs = [url])
  /\ (forall other, other <> url ->
        get_last_modified (state out.2) other = get_last_modified (state w) other).
Proof.
  intros out. subst out.
  destruct (fetch_feed_outcome url w) as (logs & Ht & Hf & Hr). cbv zeta in *.
  split; [|split; [|exact Hf]].
  - destruct Hr as [[Hr _]|(t & e & es & Hr & _)]; rewrite Hr; eauto.
    eexists _, _. split; [reflexivity | discriminate].
  - eexists. split; [exact Ht|]. unfold gets. cbn. f_equal. apply gets_logs.
Qed.

(** X15. A state file that cannot be written costs the feed: when the
    server answers 200 with an XML or RSS content type and a
    [Last-Modified] header, and writing the state raises, [fetch_feed]
    returns the empty result although the feed has entries, while the
    new [Last-Modified] value stays in memory for the next request. *)
Theorem unwritable_state_drops_entries url w resp lm :
  http_get env (clock w) url (request_headers (get_last_modified (state w) url)) = Ok resp ->
  status resp = 200 ->
  contains "xml" (lower (default "" (response_headers resp !! "content-type")))
  || contains "rss" (lower (default "" (response_headers resp !! "content-type"))) = true ->
  response_headers resp !! "last-modified" = Some lm ->
  nonempty lm = true ->
  (forall k, exists e, save env k = Raise e) ->
  (fetch_feed env url w).1 = Ok ("", [])
  /\ get_last_modified (state (fetch_feed env url w).2) url = lm.
Proof.
  intros Hget Hst Hct Hlm Hne Hsave.
  split; [|now apply (fetch_feed_remembers env url w resp lm)].
  unfold fetch_feed, try_except, bind, get, tick, emit, log, modify, lift, ret.
  cbn [fst snd clock trace state]. rewrite Hget. cbn. rewrite Hst. cbn.
  apply orb_true_iff in Hct.
  assert (E : negb (contains "xml" (lower (default "" (response_headers resp !! "content-type"))))
              && negb (contains "rss" (lower (default "" (response_headers resp !! "content-type"))))
              = false).
  { destruct Hct as [-> | ->]; [reflexivity | apply andb_false_r]. }
  rewrite E. rewrite Hlm. cbn [from_option id]. rewrite Hne.
  unfold set_last_modified, bind, tick, modify, lift. cbn.
  destruct (Hsave (S (S (clock w)))) as [e ->]. reflexivity.
Qed.

End FeedState.

Lemma last_modified_round_trip_witness :
  RSSFetcher.get_last_modified
    (RSSFetcher.state (RSSFetcher.set_last_modified readonly_feed_env feed_url
                         "Tue, 01 Jan 2024 00:00:00 GMT" feed_world).2) feed_url
  = "Tue, 01 Jan 2024 00:00:00 GMT"
  /\ (RSSFetcher.set_last_modified readonly_feed_env feed_url
        "Tue, 01 Jan 2024 00:00:00 GMT" feed_world).1 = Raise OtherError.
Proof.
  destruct (last_modified_round_trip readonly_feed_env feed_url
              "Tue, 01 Jan 2024 00:00:00 GMT" feed_world) as (_ & H & _ & Hr).
  split; [exact H | exact Hr].
Defined.

Lemma unwritable_state_drops_entries_witness :
  (RSSFetcher.fetch_feed readonly_feed_env feed_url feed_world).1 = Ok ("", [])
  /\ (RSSFetcher.fetch_feed feed_env feed_url feed_world).1
     = Ok ("Example feed", [{["title" := "Markets rally"]}]).
Proof.
  split; [|vm_compute; reflexivity].
  apply (unwritable_state_drops_entries readonly_feed_env feed_url feed_world feed_200
           "Tue, 01 Jan 2024 00:00:00 GMT"); try reflexivity.
  intros k. exists OtherError. reflexivity.
Defined.

(** * The dedupe stores *)

Section Stores.
Import StateStore.

Lemma file_store_contract write_file :
  dedupe_contract file_known (DedupeStore_seen write_file).
Proof.
  intros x k d. unfold DedupeStore_seen, DedupeStore_save, file_known.
  case_bool_decide as Hin.
  - split; [tauto|]. intros y. split; [tauto|]. intros [H| ->]; assumption.
  - cbn [seen_ids written]. destruct (write_file k) as [[]|e]; cbn [seen_ids].
    + split; [split; [discriminate | contradiction]|].
      intros y. rewrite elem_of_union, elem_of_singleton. tauto.
    + split; intros y; rewrite elem_of_union, elem_of_singleton; tauto.
Qed.

Lemma seen_key_inj (x y : string) : "seen:" +:+ x = "seen:" +:+ y -> x = y.
Proof. intros H. now injection H. Qed.

Lemma redis_store_contract reachable now :
  dedupe_contract redis_known (RedisDedupeStore_seen reachable now).
Proof.
  intros x k db. unfold RedisDedupeStore_seen, setnx, redis_known.
  destruct (reachable k) as [[]|e].
  2:{ split; intros y; tauto. }
  destruct (db !! ("seen:" +:+ x)) as [v|] eqn:E; cbn [negb].
  - split; [split; [eauto | reflexivity]|].
    intros y. split; [tauto|]. intros [H| ->]; [exact H | eauto].
  - split.
    + split; [discriminate|]. intros [v Hv]. congruence.
    + intros y. destruct (decide (y = x)) as [->|Hne].
      * rewrite lookup_insert_eq. split; eauto.
      * rewrite lookup_insert_ne.
        -- split; [tauto|]. intros [H|H]; [exact H | contradiction].
        -- intros H. apply seen_key_inj in H. congruence.
Qed.

Lemma seen_all_repeats {D} (known : D -> string -> Prop) seen (K0 : string -> Prop) :
  dedupe_contract known seen ->
  forall xs earlier k d bs d',
    (forall y, known d y <-> K0 y \/ y ∈ earlier) ->
    (forall x, x ∈ xs -> ~ K0 x) ->
    seen_all seen xs k d = (Ok bs, d') ->
    bs = repeats earlier xs
    /\ forall y, known d' y <-> K0 y \/ y ∈ earlier \/ y ∈ xs.
Proof.
  intros Hc. induction xs as [|x xs IH]; intros earlier k d bs d' Hk Hnew; simpl.
  - intros [= <- <-]. split; [reflexivity|]. intros y. rewrite Hk.
    split; [tauto|]. intros [H|[H|H]]; [tauto | tauto | inversion H].
  - pose proof (Hc x k d) as Hx.
    destruct (seen x k d) as [[b|e] d1]; [|discriminate].
    destruct Hx as [Hb Hk1].
    destruct (seen_all seen xs (S k) d1) as [[bs'|e] d2] eqn:E; [|discriminate].
    intros [= <- <-].
    destruct (IH (x :: earlier) (S k) d1 bs' d2) as [-> Hk2]; [| |exact E|].
    + intros y. rewrite Hk1, Hk, elem_of_cons. tauto.
    + intros z Hz. apply Hnew. now right.
    + split.
      * f_equal. case_bool_decide as Hin.
        -- apply Hb, Hk. now right.
        -- destruct b; [|reflexivity]. exfalso.
           destruct (proj1 (Hk x) (proj1 Hb eq_refl)) as [H|H]; [|contradiction].
           apply (Hnew x); [left | exact H].
      * intros y. rewrite Hk2, !elem_of_cons. tauto.
Qed.

(** X16. The two dedupe stores keep one contract: [seen(x)] answers
    whether [x] was known and leaves known exactly the ids known
    before and [x]; if it raises (the file cannot be written, the
    server cannot be reached) at most [x] has become known.  So for
    ids asked one after the other, none known at the start, the answer
    is [True] exactly for those that occurred earlier in the list. *)
Theorem dedupe_stores_flag_repeats :
  (forall write_file, dedupe_contract file_known (DedupeStore_seen write_file))
  /\ (forall reachable now, dedupe_contract redis_known (RedisDedupeStore_seen reachable now))
  /\ (forall D (known : D -> string -> Prop) seen,
        dedupe_contract known seen ->
        forall xs k d bs d',
          (forall x, x ∈ xs -> ~ known d x) ->
          seen_all seen xs k d = (Ok bs, d') ->
          bs = repeats [] xs /\ forall y, known d' y <-> known d y \/ y ∈ xs).
Proof.
  split; [exact file_store_contract|]. split; [exact redis_store_contract|].
  intros D known seen Hc xs k d bs d' Hnew Hrun.
  destruct (seen_all_repeats known seen (known d) Hc xs [] k d bs d') as [Hb Hk];
    [| exact Hnew | exact Hrun |].
  - intros y. split; [tauto|]. intros [H|H]; [exact H | inversion H].
  - split; [exact Hb|]. intros y. rewrite Hk. split; [|tauto].
    intros [H|[H|H]]; [tauto | inversion H | tauto].
Qed.

End Stores.

Lemma dedupe_stores_flag_repeats_witness :
  (StateStore.seen_all (StateStore.RedisDedupeStore_seen (fun _ => Ok tt) (fun _ => "now"))
     ["a"; "b"; "a"; "c"; "b"] 0 ∅).1
  = Ok [false; false; true; false; true].
Proof.
  destruct dedupe_stores_flag_repeats as (_ & Hredis & Hall).
  destruct (StateStore.seen_all
              (StateStore.RedisDedupeStore_seen (fun _ => Ok tt) (fun _ => "now"))
              ["a"; "b"; "a"; "c"; "b"] 0 ∅) as [[bs|e] d'] eqn:E.
  - destruct (Hall _ _ _ (Hredis (fun _ => Ok tt) (fun _ => "now")) _ _ _ _ _
                ltac:(intros x _ [v Hv]; rewrite lookup_empty in Hv; discriminate) E)
      as [-> _].
    reflexivity.
  - vm_compute in E. discriminate E.
Defined.

(** * The news fetcher *)

Section EntryIds.
Import NewsFetcher.

Lemma replace_char_length a b s : String.length (replace_char a b s) = String.length s.
Proof. induction s as [|c s IH]; simpl; [reflexivity | now rewrite IH]. Qed.

Lemma replace_char_gone (a b : ascii) s : a <> b -> has_char a (replace_char a b s) = false.
Proof.
  intros Hne. induction s as [|c s IH]; simpl; [reflexivity|].
  destruct (decide (c = a)) as [->|Hc].
  - destruct (decide (b = a)); [congruence | exact IH].
  - destruct (decide (c = a)); [contradiction | exact IH].
Qed.

Lemma take_length n s : (String.length (take n s) <= n)%nat.
Proof.
  revert s. induction n as [|n IH]; intros [|c s]; simpl; try lia.
  specialize (IH s). lia.
Qed.

Lemma take_keeps_absent c n s : has_char c s = false -> has_char c (take n s) = false.
Proof.
  revert s. induction n as [|n IH]; intros [|a s]; simpl; try reflexivity.
  destruct (decide (a = c)); [discriminate | apply IH].
Qed.

Lemma take_nonempty n s : nonempty s = true -> nonempty (take (S n) s) = true.
Proof. destruct s; [discriminate | reflexivity]. Qed.

Lemma truthy_nonempty v s : truthy v = Some s -> v = Some s /\ nonempty s = true.
Proof.
  destruct v as [t|]; simpl; [|discriminate].
  destruct (nonempty t) eqn:E; [|discriminate]. intros [= <-]. auto.
Qed.

(** X17. The id under which an entry is deduplicated is never empty.
    It is the entry's [id] when that is non-empty, else its [guid],
    else its [link]; when all three are missing or empty it is made of
    the title, an underscore and the link, with spaces turned into
    underscores, cut to 100 characters. *)
Theorem entry_id_is_never_empty entry :
  let entry_id := entry_id_of entry in
  let derived :=
    take 100 (replace_char " " "_"
                (default "" (entry !! "title") +:+ "_" +:+ default "" (entry !! "link"))) in
  nonempty entry_id = true
  /\ match truthy (entry !! "id"), truthy (entry !! "guid"), truthy (entry !! "link") with
     | Some s, _, _ => entry_id = s
     | None, Some s, _ => entry_id = s
     | None, None, Some s => entry_id = s
     | None, None, None => entry_id = derived
     end
  /\ len derived <= 100 /\ has_char " " derived = false.
Proof.
  intros entry_id derived.
  assert (Hd : nonempty derived = true).
  { subst derived. apply take_nonempty.
    destruct (default "" (entry !! "title")); reflexivity. }
  split; [|split; [|split]].
  - subst entry_id. unfold entry_id_of.
    destruct (truthy (entry !! "id")) as [s|] eqn:E1.
    { apply truthy_nonempty in E1 as [_ E1]. now rewrite E1. }
    destruct (truthy (entry !! "guid")) as [s|] eqn:E2.
    { apply truthy_nonempty in E2 as [_ E2]. now rewrite E2. }
    destruct (nonempty (default "" (entry !! "link"))) eqn:E3; [exact E3 | exact Hd].
  - subst entry_id. unfold entry_id_of.
    destruct (truthy (entry !! "id")) as [s|] eqn:E1.
    { apply truthy_nonempty in E1 as [_ E1]. now rewrite E1. }
    destruct (truthy (entry !! "guid")) as [s|] eqn:E2.
    { apply truthy_nonempty in E2 as [_ E2]. now rewrite E2. }
    destruct (truthy (entry !! "link")) as [s|] eqn:E3.
    + apply truthy_nonempty in E3 as [-> E3]. simpl. now rewrite E3.
    + destruct (entry !! "link") as [l|] eqn:El; simpl in *; [|reflexivity].
      destruct (nonempty l); [discriminate | reflexivity].
  - subst derived. unfold len. pose proof (take_length 100 (replace_char " " "_"
      (default "" (entry !! "title") +:+ "_" +:+ default "" (entry !! "link")))). lia.
  - subst derived. apply take_keeps_absent. apply replace_char_gone. discriminate.
Qed.

End EntryIds.

Section WaitForKafka.
Import NewsFetcher.

Lemma wait_loop_step probe mr d n a :
  wait_loop probe mr d (S n) a
  = match probe a with
    | Ok _ => (true, [EvProbe a])
    | Raise _ =>
        if Z.of_nat a <? mr - 1 then
          let '(r, evs) := wait_loop probe mr d n (S a) in
          (r, EvProbe a :: EvWait d :: evs)
        else (false, [EvProbe a])
    end.
Proof. reflexivity. Qed.

Lemma wait_loop_success probe mr d k :
  forall n a,
    (k < n)%nat ->
    Z.of_nat (a + n) <= mr ->
    (forall j, (j < k)%nat -> fails (probe (a + j)%nat)) ->
    (exists u, probe (a + k)%nat = Ok u) ->
    wait_loop probe mr d n a = (true, probe_run d a k).
Proof.
  induction k as [|k IH]; intros n a Hn Hmr Hfail [u Hu].
  - destruct n as [|n]; [lia|]. simpl. rewrite Nat.add_0_r in Hu. now rewrite Hu.
  - destruct n as [|n]; [lia|]. rewrite wait_loop_step.
    destruct (Hfail 0%nat ltac:(lia)) as [e He]. rewrite Nat.add_0_r in He. rewrite He.
    assert (E : (Z.of_nat a <? mr - 1) = true) by (apply Z.ltb_lt; lia). rewrite E.
    rewrite (IH n (S a)); [reflexivity | lia | lia | |].
    + intros j Hj. replace (S a + j)%nat with (a + S j)%nat by lia. apply Hfail. lia.
    + exists u. replace (S a + k)%nat with (a + S k)%nat by lia. exact Hu.
Qed.

Lemma wait_loop_failure probe mr d :
  forall n a,
    Z.of_nat (a + S n) = mr ->
    (forall j, (j <= n)%nat -> fails (probe (a + j)%nat)) ->
    wait_loop probe mr d (S n) a = (false, probe_run d a n).
Proof.
  induction n as [|n IH]; intros a Hmr Hfail.
  - simpl. destruct (Hfail 0%nat ltac:(lia)) as [e He]. rewrite Nat.add_0_r in He. rewrite He.
    assert (E : (Z.of_nat a <? mr - 1) = false) by (apply Z.ltb_ge; lia). now rewrite E.
  - rewrite wait_loop_step.
    destruct (Hfail 0%nat ltac:(lia)) as [e He]. rewrite Nat.add_0_r in He. rewrite He.
    assert (E : (Z.of_nat a <? mr - 1) = true) by (apply Z.ltb_lt; lia). rewrite E.
    rewrite (IH (S a)); [reflexivity | lia |].
    intros j Hj. replace (S a + j)%nat with (a + S j)%nat by lia. apply Hfail. lia.
Qed.

(** X18. [wait_for_kafka] probes until the first success: if attempt
    [k] (counted from 0, below [max_retries]) is the first that
    succeeds it returns [True] after [k + 1] probes and [k] waits; if
    all [max_retries] attempts fail it returns [False] after
    [max_retries] probes and [max_retries - 1] waits, with no wait
    after the last; and with [max_retries <= 0] it returns [False]
    without probing. *)
Theorem wait_for_kafka_stops_at_first_success probe max_retries retry_delay :
  (forall k, Z.of_nat k < max_retries ->
             (forall j, (j < k)%nat -> fails (probe j)) ->
             (exists u, probe k = Ok u) ->
             wait_for_kafka probe max_retries retry_delay = (true, probe_run retry_delay 0 k))
  /\ (0 < max_retries ->
      (forall j, Z.of_nat j < max_retries -> fails (probe j)) ->
      wait_for_kafka probe max_retries retry_delay
      = (false, probe_run retry_delay 0 (Z.to_nat max_retries - 1)))
  /\ (max_retries <= 0 -> wait_for_kafka probe max_retries retry_delay = (false, [])).
Proof.
  unfold wait_for_kafka. split; [|split].
  - intros k Hk Hfail Hok. apply wait_loop_success; [lia | lia | exact Hfail | exact Hok].
  - intros Hmr Hfail.
    replace (Z.to_nat max_retries) with (S (Z.to_nat max_retries - 1)) at 1 by lia.
    apply wait_loop_failure; [lia|]. intros j Hj. apply Hfail. lia.
  - intros Hmr. replace (Z.to_nat max_retries) with 0%nat by lia. reflexivity.
Qed.

End WaitForKafka.

Lemma entry_id_is_never_empty_witness :
  NewsFetcher.entry_id_of {[ "title" := "Markets rally"; "id" := "" ]} = "Markets_rally_".
Proof.
  destruct (entry_id_is_never_empty {[ "title" := "Markets rally"; "id" := "" ]})
    as (_ & H & _).
  exact H.
Defined.

Lemma wait_for_kafka_stops_at_first_success_witness :
  NewsFetcher.wait_for_kafka
    (fun k => match k with 2%nat => Ok tt | _ => Raise OtherError end) 30 2
  = (true, [NewsFetcher.EvProbe 0; NewsFetcher.EvWait 2; NewsFetcher.EvProbe 1;
            NewsFetcher.EvWait 2; NewsFetcher.EvProbe 2]).
Proof.
  destruct (wait_for_kafka_stops_at_first_success
              (fun k => match k with 2%nat => Ok tt | _ => Raise OtherError end) 30 2)
    as (H & _ & _).
  apply (H 2%nat); [lia | | eexists; reflexivity].
  intros [|[|j]] Hj; [eexists; reflexivity | eexists; reflexivity | lia].
Defined.

(** * The stream of entries and one cycle of the news fetcher *)

Section Stream.
Import StateStore NewsFetcher.
Context {D : Type} `{DedupeStoreLike D}.
Variable known : D -> string -> Prop.
Hypothesis Hcontract : dedupe_contract known seen.
Variable env : Env.
Variable rate_limit_delay : Q.

Lemma marked_app a b : marked (a ++ b) = marked a ++ marked b.
Proof. apply omap_app. Qed.

Lemma fresh_refl (w : World D) : fresh_run known w w.
Proof.
  exists []. rewrite app_nil_r. split; [reflexivity|]. split; [constructor|].
  split; [intros x Hx; inversion Hx | auto].
Qed.

Lemma fresh_trans (w1 w2 w3 : World D) :
  fresh_run known w1 w2 -> fresh_run known w2 w3 -> fresh_run known w1 w3.
Proof.
  intros (e1 & Ht1 & Hn1 & Hf1 & Hm1) (e2 & Ht2 & Hn2 & Hf2 & Hm2).
  exists (e1 ++ e2). rewrite Ht2, Ht1, app_assoc. split; [reflexivity|].
  rewrite marked_app. split.
  - apply NoDup_app. split; [exact Hn1|]. split; [|exact Hn2].
    intros x Hx1 Hx2. apply (Hf2 x Hx2). apply (Hf1 x Hx1).
  - split; [|auto]. intros x Hx. apply elem_of_app in Hx as [Hx|Hx].
    + split; [apply (Hf1 x Hx) | apply Hm2, (Hf1 x Hx)].
    + split; [|apply (Hf2 x Hx)]. intros Hk. apply (Hf2 x Hx). now apply Hm1.
Qed.

Lemma fresh_silent (w w' : World D) evs :
  trace w' = trace w ++ evs -> marked evs = [] ->
  (forall x, known (store w) x -> known (store w') x) ->
  fresh_run known w w'.
Proof.
  intros Ht Hm Hk. exists evs. split; [exact Ht|]. rewrite Hm.
  split; [constructor|]. split; [intros x Hx; inversion Hx | exact Hk].
Qed.

(** A call of [seen] touches the store and the clock only. *)
Lemma dedupe_seen_frame x (w : World D) :
  let out := dedupe_seen x w in
  trace out.2 = trace w
  /\ failed_feeds out.2 = failed_feeds w
  /\ cnt_in out.2 = cnt_in w /\ cnt_out out.2 = cnt_out w
  /\ RSSFetcher.trace (rss out.2) = RSSFetcher.trace (rss w)
  /\ RSSFetcher.state (rss out.2) = RSSFetcher.state (rss w).
Proof.
  unfold dedupe_seen, bind, tick, on_rss, RSSFetcher.tick. cbn.
  destruct (seen x (RSSFetcher.clock (rss w)) (store w)) as [[b|e] d]; cbn; auto 10.
Qed.

(** What a call of [seen] does to the service. *)
Lemma dedupe_seen_run x (w : World D) :
  let out := dedupe_seen x w in
  trace out.2 = trace w
  /\ failed_feeds out.2 = failed_feeds w
  /\ cnt_in out.2 = cnt_in w /\ cnt_out out.2 = cnt_out w
  /\ RSSFetcher.trace (rss out.2) = RSSFetcher.trace (rss w)
  /\ RSSFetcher.state (rss out.2) = RSSFetcher.state (rss w)
  /\ (forall y, known (store w) y -> known (store out.2) y)
  /\ (forall b, out.1 = Ok b ->
        (b = true <-> known (store w) x) /\ known (store out.2) x).
Proof.
  unfold dedupe_seen, bind, tick, on_rss, RSSFetcher.tick. cbn.
  pose proof (Hcontract x (RSSFetcher.clock (rss w)) (store w)) as Hc.
  destruct (seen x (RSSFetcher.clock (rss w)) (store w)) as [[b|e] d]; cbn.
  - destruct Hc as [Hb Hk]. repeat (split; [reflexivity|]). split.
    + intros y Hy. apply Hk. now left.
    + intros b' [= <-]. split; [exact Hb|]. apply Hk. now right.
  - destruct Hc as [Hk _]. repeat (split; [reflexivity|]). split; [exact Hk|].
    intros b [=].
Qed.

Section Body.
Variable body : string -> EntryData -> M (World D) unit.
Hypothesis Hbody : forall t e w, fresh_run known w (body t e w).2.

Lemma yield_entry_fresh t url entry (w0 w1 : World D) :
  trace w1 = trace w0 ->
  ~ known (store w0) (entry_id_of entry) ->
  known (store w1) (entry_id_of entry) ->
  (forall y, known (store w0) y -> known (store w1) y) ->
  fresh_run known w0 (yield_entry env t url entry body w1).2.
Proof.
  intros Ht Hnew Hnow Hmono.
  unfold yield_entry, bind, lift, tick, on_rss, RSSFetcher.tick, emit, modify.
  destruct (tags_of entry) as [tags|e]; cbn [fst snd].
  2:{ apply (fresh_silent _ _ []); [now rewrite app_nil_r | reflexivity | exact Hmono]. }
  match goal with |- fresh_run _ _ (body _ ?e ?w).2 => set (ed := e); set (w2 := w) end.
  apply (fresh_trans _ w2); [|apply Hbody].
  exists [EvYield t ed]. subst w2. cbn. rewrite Ht. split; [reflexivity|].
  split; [apply NoDup_singleton|]. split; [|exact Hmono].
  intros x Hx. apply list_elem_of_singleton in Hx as ->. split; assumption.
Qed.

Lemma entries_loop_fresh t url entries (w : World D) :
  fresh_run known w (entries_loop env t url entries body w).2.
Proof.
  revert w. induction entries as [|entry rest IH]; intros w; simpl.
  - apply fresh_refl.
  - unfold bind at 1.
    destruct (dedupe_seen_run (entry_id_of entry) w)
      as (Ht & _ & _ & _ & _ & _ & Hmono & Hb). cbv zeta in *.
    destruct (dedupe_seen (entry_id_of entry) w) as [[b|e] w1]; cbn [fst snd] in *.
    2:{ apply (fresh_silent _ _ []); [now rewrite Ht, app_nil_r | reflexivity | exact Hmono]. }
    destruct (Hb b eq_refl) as [Hiff Hnow]. destruct b.
    + apply (fresh_trans _ w1); [|apply IH].
      apply (fresh_silent _ _ []); [now rewrite Ht, app_nil_r | reflexivity | exact Hmono].
    + unfold bind at 1.
      pose proof (yield_entry_fresh t url entry w w1 Ht) as Hy.
      destruct (yield_entry env t url entry body w1) as [[[]|e] w2]; cbn [fst snd] in *.
      * apply (fresh_trans _ w2); [|apply IH]. apply Hy; [|exact Hnow|exact Hmono].
        intros Hk. apply Hiff in Hk. discriminate.
      * apply Hy; [|exact Hnow|exact Hmono]. intros Hk. apply Hiff in Hk. discriminate.
Qed.

End Body.

(** Invariants of the loops, from what the steps keep. *)
Section Guarantee.
Variable G : World D -> World D -> Prop.
Hypothesis G_refl : forall w, G w w.
Hypothesis G_trans : forall w1 w2 w3, G w1 w2 -> G w2 w3 -> G w1 w3.
Variable body : string -> EntryData -> M (World D) unit.

Lemma keeps_bind {A B} (m : M (World D) A) (k : A -> M (World D) B) :
  keeps G m -> (forall a, keeps G (k a)) -> keeps G (bind m k).
Proof.
  intros Hm Hk w. unfold bind. specialize (Hm w).
  destruct (m w) as [[a|e] w1]; cbn [snd] in *; [|exact Hm].
  exact (G_trans _ _ _ Hm (Hk a w1)).
Qed.

Lemma keeps_ret {A} (a : A) : keeps G (ret a).
Proof. intros w. apply G_refl. Qed.

Lemma keeps_lift {A} (r : result A) : keeps G (lift r).
Proof. intros w. apply G_refl. Qed.

Lemma keeps_get : keeps G get.
Proof. intros w. apply G_refl. Qed.

Lemma keeps_try {A} (m : M (World D) A) c h :
  keeps G m -> (forall e, keeps G (h e)) -> keeps G (try_except m c h).
Proof.
  intros Hm Hh w. unfold try_except. specialize (Hm w).
  destruct (m w) as [[a|e] w1]; cbn [snd] in *; [exact Hm|].
  destruct (c e); [|exact Hm]. exact (G_trans _ _ _ Hm (Hh e w1)).
Qed.

Hypothesis G_seen : forall x, keeps G (dedupe_seen x).
Hypothesis G_tick : keeps G tick.
Hypothesis G_hand : forall t e, keeps G (let* _ := emit (EvYield t e) in body t e).

Lemma entries_loop_keeps t url entries : keeps G (entries_loop env t url entries body).
Proof.
  induction entries as [|entry rest IH]; simpl; [apply keeps_ret|].
  apply keeps_bind; [apply G_seen|]. intros [|]; [exact IH|].
  apply keeps_bind; [|intros _; exact IH].
  unfold yield_entry. apply keeps_bind; [apply keeps_lift|]. intros tags.
  apply keeps_bind; [apply G_tick|]. intros k. apply G_hand.
Qed.

Hypothesis G_entries : forall t url es, keeps G (entries_loop env t url es body).
Hypothesis G_log : forall m, keeps G (log m).
Hypothesis G_fetch : forall url, keeps G (on_rss (RSSFetcher.fetch_feed (feed env) url)).
Hypothesis G_fail : forall url,
  keeps G (modify (fun w => set_failed (failed_feeds w ++ [(url, "No entries found in feed")]) w)).
Hypothesis G_sleep : keeps G (emit (EvSleep rate_limit_delay)).
Hypothesis G_reset : keeps G (modify (set_failed [])).

Lemma feeds_loop_keeps urls : forall i n,
  keeps G (feeds_loop env rate_limit_delay i n urls body).
Proof.
  induction urls as [|url rest IH]; intros i n; simpl; [apply keeps_ret|].
  apply keeps_bind; [apply G_log|]. intros _.
  apply keeps_bind; [apply G_fetch|]. intros [t [|e es]].
  - apply keeps_bind; [apply G_fail | intros _; apply IH].
  - apply keeps_bind; [apply G_entries|]. intros _.
    apply keeps_bind; [|intros _; apply IH].
    destruct (i <? n)%nat; [apply G_sleep | apply keeps_ret].
Qed.

Lemma log_all_keeps ms : keeps G (log_all ms).
Proof.
  induction ms as [|m ms IH]; simpl; [apply keeps_ret|].
  apply keeps_bind; [apply G_log | intros _; exact IH].
Qed.

Lemma stream_entries_keeps urls : keeps G (stream_entries env rate_limit_delay urls body).
Proof.
  unfold stream_entries. apply keeps_bind; [apply G_reset|]. intros _.
  apply keeps_bind; [apply feeds_loop_keeps|]. intros _.
  apply keeps_bind; [apply keeps_get|]. intros w.
  destruct (failed_feeds w); [apply keeps_ret | apply log_all_keeps].
Qed.

End Guarantee.

(** Steps that mark nothing. *)
Lemma fresh_log m : keeps (fresh_run known) (log m).
Proof. intros w. apply (fresh_silent _ _ [EvLog m]); [reflexivity | reflexivity | auto]. Qed.

Lemma fresh_on_rss {A} (m : M RSSFetcher.World A) : keeps (fresh_run known) (on_rss m).
Proof.
  intros w. unfold on_rss. destruct (m (rss w)) as [r x]. cbn.
  apply (fresh_silent _ _ []); [now rewrite app_nil_r | reflexivity | auto].
Qed.

Lemma stream_entries_fresh body urls :
  (forall t e w, fresh_run known w (body t e w).2) ->
  keeps (fresh_run known) (stream_entries env rate_limit_delay urls body).
Proof.
  intros Hbody. apply stream_entries_keeps.
  - apply fresh_refl.
  - apply fresh_trans.
  - intros t url es w. now apply entries_loop_fresh.
  - apply fresh_log.
  - intros url. apply fresh_on_rss.
  - intros url w. apply (fresh_silent _ _ []); [now rewrite app_nil_r | reflexivity | auto].
  - intros w. apply (fresh_silent _ _ [EvSleep rate_limit_delay]);
      [reflexivity | reflexivity | auto].
  - intros w. apply (fresh_silent _ _ []); [now rewrite app_nil_r | reflexivity | auto].
Qed.

Lemma run_once_body_fresh t e (w : World D) :
  fresh_run known w (run_once_body env t e w).2.
Proof.
  unfold run_once_body. unfold bind at 1, modify at 1.
  set (w0 := set_counts _ _ w).
  destruct (dedupe_seen_run (md5_hexdigest env (ed_link e)) w0)
    as (Ht & _ & _ & _ & _ & _ & Hmono & Hb). cbv zeta in *.
  unfold bind at 1.
  destruct (dedupe_seen (md5_hexdigest env (ed_link e)) w0) as [[b|x] w1];
    cbn [fst snd] in *.
  2:{ apply (fresh_silent _ _ []); [rewrite app_nil_r; exact Ht | reflexivity | exact Hmono]. }
  destruct (Hb b eq_refl) as [Hiff Hnow]. destruct b.
  { apply (fresh_silent _ _ []); [rewrite app_nil_r; exact Ht | reflexivity | exact Hmono]. }
  assert (Hnew : ~ known (store w) (md5_hexdigest env (ed_link e))).
  { intros Hk. apply Hiff in Hk. discriminate. }
  unfold try_except, bind, tick, on_rss, RSSFetcher.tick, lift, emit, log, modify, ret.
  cbn [fst snd rss store trace set_rss RSSFetcher.clock].
  match goal with |- context [db_insert env ?k ?o] =>
    set (output := o); destruct (db_insert env k output) as [[]|x] end; cbn.
  - match goal with |- context [kafka_send env ?k ?a ?o] =>
      destruct (kafka_send env k a o) as [[]|x] end; cbn;
      (exists [EvInserted output; EvSend (md5_hexdigest env (ed_link e)) output]; cbn;
       split; [rewrite Ht; cbn; rewrite <- app_assoc; reflexivity|];
       split; [apply NoDup_singleton|]; split; [|exact Hmono];
       intros y Hy; apply list_elem_of_singleton in Hy as ->; split; assumption).
  - apply (fresh_silent _ _ [EvLog (InsertFailed (md5_hexdigest env (ed_link e)))]);
      [cbn; rewrite Ht; reflexivity | reflexivity | exact Hmono].
Qed.

Lemma run_once_fresh feeds :
  keeps (fresh_run known) (run_once env rate_limit_delay feeds).
Proof.
  unfold run_once. apply keeps_bind; [apply fresh_trans| |].
  { intros w. apply (fresh_silent _ _ []); [now rewrite app_nil_r | reflexivity | auto]. }
  intros _. apply keeps_bind; [apply fresh_trans| |].
  { apply stream_entries_fresh. apply run_once_body_fresh. }
  intros _. apply keeps_bind; [apply fresh_trans|apply keeps_get, fresh_refl|].
  intros w. apply fresh_log.
Qed.

(** ** The ledger of one cycle *)

Lemma ledger_refl (w : World D) : ledger (D:=D) (md5_hexdigest env) w w.
Proof.
  exists []. rewrite app_nil_r. cbn. repeat split; try constructor; lia.
Qed.

Lemma ledger_trans (w1 w2 w3 : World D) :
  ledger (D:=D) (md5_hexdigest env) w1 w2 -> ledger (D:=D) (md5_hexdigest env) w2 w3 ->
  ledger (D:=D) (md5_hexdigest env) w1 w3.
Proof.
  intros (e1 & Ht1 & Hi1 & Hk1 & Hin1 & Hout1) (e2 & Ht2 & Hi2 & Hk2 & Hin2 & Hout2).
  exists (e1 ++ e2). rewrite Ht2, Ht1, app_assoc. split; [reflexivity|].
  unfold inserted, sends, yields in *. rewrite !omap_app, map_app, !length_app.
  split; [congruence|]. split; [now apply Forall_app|]. lia.
Qed.

Lemma ledger_silent (w w' : World D) evs :
  trace w' = trace w ++ evs ->
  inserted evs = [] -> sends evs = [] -> yields evs id = [] ->
  cnt_in w' = cnt_in w -> cnt_out w' = cnt_out w ->
  ledger (D:=D) (md5_hexdigest env) w w'.
Proof.
  intros Ht Hi Hs Hy Hin Hout. exists evs. rewrite Hi, Hs, Hy. cbn.
  repeat split; try constructor; try assumption; lia.
Qed.

Lemma ledger_seen x : keeps (ledger (D:=D) (md5_hexdigest env)) (dedupe_seen x).
Proof.
  intros w. destruct (dedupe_seen_frame x w) as (Ht & _ & Hin & Hout & _). cbv zeta in *.
  apply (ledger_silent _ _ []); [now rewrite app_nil_r | | | | |]; auto.
Qed.

Lemma ledger_on_rss {A} (m : M RSSFetcher.World A) :
  keeps (ledger (D:=D) (md5_hexdigest env)) (on_rss m).
Proof.
  intros w. unfold on_rss. destruct (m (rss w)) as [r x]. cbn.
  apply (ledger_silent _ _ []); [now rewrite app_nil_r | | | | |]; reflexivity.
Qed.

Lemma ledger_log m : keeps (ledger (D:=D) (md5_hexdigest env)) (log m).
Proof. intros w. apply (ledger_silent _ _ [EvLog m]); reflexivity. Qed.

Lemma ledger_hand t e :
  keeps (ledger (D:=D) (md5_hexdigest env))
        (let* _ := emit (EvYield t e) in run_once_body env t e).
Proof.
  intros w. unfold run_once_body. unfold bind at 1 2, emit at 1, modify at 1 2.
  cbn [fst snd].
  set (w0 := set_counts _ _ _).
  destruct (dedupe_seen_frame (md5_hexdigest env (ed_link e)) w0)
    as (Ht & _ & Hin & Hout & _). cbv zeta in *.
  unfold bind at 1.
  destruct (dedupe_seen (md5_hexdigest env (ed_link e)) w0) as [[b|x] w1];
    cbn [fst snd] in *.
  2:{ exists [EvYield t e]. cbn [snd]. rewrite Ht, Hin, Hout. subst w0. cbn.
      repeat split; try constructor; lia. }
  destruct b.
  { exists [EvYield t e]. unfold ret. cbn [snd]. rewrite Ht, Hin, Hout. subst w0. cbn.
    repeat split; try constructor; lia. }
  unfold try_except, bind, tick, on_rss, RSSFetcher.tick, lift, emit, log, modify, ret.
  cbn [fst snd rss store trace set_rss RSSFetcher.clock].
  match goal with |- context [db_insert env ?k ?o] =>
    set (output := o); destruct (db_insert env k output) as [[]|x] end; cbn.
  - match goal with |- context [kafka_send env ?k ?a ?o] =>
      destruct (kafka_send env k a o) as [[]|x] end; cbn;
      (exists [EvYield t e; EvInserted output;
               EvSend (md5_hexdigest env (ed_link e)) output]; cbn;
       rewrite Ht, Hin, Hout; subst w0; cbn; rewrite <- !app_assoc; cbn;
       repeat split; try (repeat constructor); lia).
  - exists [EvYield t e; EvLog (InsertFailed (md5_hexdigest env (ed_link e)))]; cbn.
    rewrite Ht, Hin, Hout; subst w0; cbn; rewrite <- !app_assoc; cbn.
    repeat split; try constructor; lia.
Qed.

Lemma stream_entries_ledger feeds :
  keeps (ledger (D:=D) (md5_hexdigest env)) (stream_entries env rate_limit_delay feeds (run_once_body env)).
Proof.
  apply stream_entries_keeps.
  - apply ledger_refl.
  - apply ledger_trans.
  - intros t url es. apply entries_loop_keeps.
    + apply ledger_refl.
    + apply ledger_trans.
    + apply ledger_seen.
    + apply ledger_on_rss.
    + apply ledger_hand.
  - apply ledger_log.
  - intros url. apply ledger_on_rss.
  - intros url w. apply (ledger_silent _ _ []); [now rewrite app_nil_r | | | | |]; reflexivity.
  - intros w. apply (ledger_silent _ _ [EvSleep rate_limit_delay]); reflexivity.
  - intros w. apply (ledger_silent _ _ []); [now rewrite app_nil_r | | | | |]; reflexivity.
Qed.

(** ** Accounting for the feeds *)

Lemma alone_refl (w : World D) : leaves_feeds_alone w w.
Proof.
  split; [reflexivity|]. split; [reflexivity|]. exists []. now rewrite app_nil_r.
Qed.

Lemma alone_trans (w1 w2 w3 : World D) :
  leaves_feeds_alone w1 w2 -> leaves_feeds_alone w2 w3 -> leaves_feeds_alone w1 w3.
Proof.
  intros (Hr1 & Hf1 & e1 & Ht1 & Hs1) (Hr2 & Hf2 & e2 & Ht2 & Hs2).
  split; [congruence|]. split; [congruence|]. exists (e1 ++ e2).
  rewrite Ht2, Ht1, app_assoc. split; [reflexivity|].
  unfold sleeps in *. now rewrite omap_app, Hs1, Hs2.
Qed.

Lemma gets_get url hdrs logs fetched :
  gets ((RSSFetcher.EvGet url hdrs :: map RSSFetcher.EvLog logs) ++ fetched)
  = url :: gets fetched.
Proof.
  unfold gets. rewrite omap_app. cbn. f_equal.
  change (gets (map RSSFetcher.EvLog logs) ++ gets fetched = gets fetched).
  now rewrite gets_logs.
Qed.

Lemma sleeps_logs ms : sleeps (map EvLog ms) = [].
Proof. induction ms as [|m ms IH]; [reflexivity | exact IH]. Qed.

Lemma sleeps_app a b : sleeps (a ++ b) = sleeps a ++ sleeps b.
Proof. apply omap_app. Qed.

Section Account.
Variable body : string -> EntryData -> M (World D) unit.
Hypothesis Hquiet : forall t e w, leaves_feeds_alone w (body t e w).2.

Lemma entries_loop_alone t url es :
  keeps leaves_feeds_alone (entries_loop env t url es body).
Proof.
  apply entries_loop_keeps.
  - apply alone_refl.
  - apply alone_trans.
  - intros x w. destruct (dedupe_seen_frame x w) as (Ht & Hf & _ & _ & Hr & _).
    cbv zeta in *. split; [exact Hr|]. split; [exact Hf|].
    exists []. now rewrite app_nil_r.
  - intros w. cbn. split; [reflexivity|]. split; [reflexivity|].
    exists []. now rewrite app_nil_r.
  - intros t' e. apply keeps_bind; [apply alone_trans| |intros _ w; apply Hquiet].
    intros w. cbn. split; [reflexivity|]. split; [reflexivity|].
    exists [EvYield t' e]. split; reflexivity.
Qed.

Lemma feeds_loop_account n urls : forall i (w : World D),
  (i + length urls = S n)%nat ->
  let out := feeds_loop env rate_limit_delay i n urls body w in
  exists evs fetched fs,
    trace out.2 = trace w ++ evs
    /\ RSSFetcher.trace (rss out.2) = RSSFetcher.trace (rss w) ++ fetched
    /\ failed_feeds out.2 = failed_feeds w ++ fs
    /\ gets fetched `prefix_of` urls
    /\ sublist (map fst fs) (gets fetched)
    /\ Forall (fun f => f.2 = "No entries found in feed") fs
    /\ Forall (fun d => d = rate_limit_delay) (sleeps evs)
    /\ (length (sleeps evs) + length fs <= length (gets fetched))%nat
    /\ (length (sleeps evs) <= length urls - 1)%nat
    /\ (out.1 = Ok tt ->
        gets fetched = urls
        /\ (length urls - 1 <= length (sleeps evs) + length fs)%nat)
    /\ (forall u, (forall x, (RSSFetcher.fetch_feed (feed env) u x).1 = Ok ("", [])) ->
                  u ∈ gets fetched -> u ∈ map fst fs).
Proof.
  induction urls as [|url rest IH]; intros i w Hlen; cbv zeta.
  { exists [], [], []. cbn. rewrite !app_nil_r.
    do 9 (split; [auto; try constructor; reflexivity|]).
    split; [auto|]. intros u _ Hu. inversion Hu. }
  destruct (feeds_loop env rate_limit_delay i n (url :: rest) body w) as [r w'] eqn:E.
  cbn [fst snd]. cbn [feeds_loop] in E.
  unfold bind at 1, log at 1, emit at 1, modify at 1 in E. cbn [fst snd] in E.
  match type of E with context [bind _ _ ?x] => set (w1 := x) in E end.
  unfold bind at 1, on_rss at 1 in E.
  destruct (fetch_feed_outcome (feed env) url (rss w1)) as (logs & Htr & _ & Hr).
  cbv zeta in *.
  destruct (RSSFetcher.fetch_feed (feed env) url (rss w1)) as [r0 x] eqn:Efetch.
  cbn [fst snd] in *.
  destruct Hr as [[-> _]|(t & e & es & -> & _)].
  - unfold bind at 1, modify at 1 in E. cbn [fst snd] in E.
    match type of E with feeds_loop _ _ _ _ _ _ ?x = _ => set (w2 := x) in E end.
    destruct (IH (S i) w2 ltac:(cbn in Hlen; lia))
      as (evs & fetched & fs & Ht & Hrt & Hff & Hpre & Hsub & Hfa & Hsl & Hle & Hle2 & Hok & Hemp).
    rewrite E in Ht, Hrt, Hff, Hok. cbn [fst snd] in *.
    eexists (EvLog (Fetching i n url) :: evs),
            ((RSSFetcher.EvGet url _ :: map RSSFetcher.EvLog logs) ++ fetched),
            ((url, "No entries found in feed") :: fs).
    rewrite gets_get.
    split. { rewrite Ht. subst w2 w1. cbn. now rewrite <- app_assoc. }
    split. { rewrite Hrt. subst w2. cbn. rewrite Htr. subst w1. cbn.
             now rewrite <- app_assoc. }
    split. { rewrite Hff. subst w2 w1. cbn. now rewrite <- app_assoc. }
    split. { now apply prefix_cons. }
    split. { cbn. now apply sublist_skip. }
    split. { constructor; [reflexivity | exact Hfa]. }
    split. { exact Hsl. }
    cbn [length] in *. change (sleeps (EvLog (Fetching i n url) :: evs)) with (sleeps evs).
    split; [lia|]. split; [lia|].
    split. { intros Hr. destruct (Hok Hr) as [-> Hlow]. split; [reflexivity | lia]. }
    intros u Hu Hin. cbn [map fst]. apply elem_of_cons in Hin as [->|Hin]; [left|].
    right. now apply Hemp.
  - unfold bind at 1 in E.
    destruct (entries_loop_alone t url (e :: es) (set_rss x w1))
      as (Hr1 & Hf1 & ev1 & Ht1 & Hs1).
    destruct (entries_loop env t url (e :: es) body (set_rss x w1)) as [[[]|ex] w2];
      cbn [fst snd] in *.
    2:{ injection E as <- <-.
        eexists (EvLog (Fetching i n url) :: ev1),
                ((RSSFetcher.EvGet url _ :: map RSSFetcher.EvLog logs) ++ []), [].
        rewrite gets_get.
        split. { rewrite Ht1. subst w1. cbn. now rewrite <- app_assoc. }
        split. { rewrite Hr1. cbn. rewrite Htr. subst w1. cbn. now rewrite app_nil_r. }
        split. { rewrite Hf1. subst w1. cbn. now rewrite app_nil_r. }
        split. { apply prefix_cons, prefix_nil. }
        split. { apply sublist_nil_l. }
        split. { constructor. }
        change (sleeps (EvLog (Fetching i n url) :: ev1)) with (sleeps ev1). rewrite Hs1.
        split. { constructor. }
        cbn. split; [lia|]. split; [lia|]. split; [discriminate|].
        intros u Hu Hin. apply list_elem_of_singleton in Hin as ->.
        specialize (Hu (rss w1)). rewrite Efetch in Hu. discriminate Hu. }
    unfold bind at 1 in E.
    destruct (i <? n)%nat eqn:Ei.
    + unfold emit at 1, modify at 1 in E. cbn [fst snd] in E.
      apply Nat.ltb_lt in Ei.
      match type of E with feeds_loop _ _ _ _ _ _ ?x = _ => set (w3 := x) in E end.
      destruct (IH (S i) w3 ltac:(cbn in Hlen; lia))
        as (evs & fetched & fs & Ht & Hrt & Hff & Hpre & Hsub & Hfa & Hsl & Hle & Hle2 & Hok & Hemp).
      rewrite E in Ht, Hrt, Hff, Hok. cbn [fst snd] in *.
      eexists (EvLog (Fetching i n url) :: ev1 ++ EvSleep rate_limit_delay :: evs),
              ((RSSFetcher.EvGet url _ :: map RSSFetcher.EvLog logs) ++ fetched), fs.
      rewrite gets_get.
      split. { rewrite Ht. subst w3. cbn. rewrite Ht1. subst w1. cbn.
               rewrite <- !app_assoc. reflexivity. }
      split. { rewrite Hrt. subst w3. cbn. rewrite Hr1. cbn. rewrite Htr. subst w1. cbn.
               now rewrite <- app_assoc. }
      split. { rewrite Hff. subst w3. cbn. rewrite Hf1. reflexivity. }
      split. { now apply prefix_cons. }
      split. { now apply sublist_cons. }
      split. { exact Hfa. }
      change (sleeps (EvLog (Fetching i n url) :: ev1 ++ EvSleep rate_limit_delay :: evs))
        with (sleeps (ev1 ++ EvSleep rate_limit_delay :: evs)).
      rewrite sleeps_app, Hs1.
      change (sleeps (EvSleep rate_limit_delay :: evs)) with (rate_limit_delay :: sleeps evs).
      split. { constructor; [reflexivity | exact Hsl]. }
      cbn [length app] in *. split; [lia|]. split; [lia|].
      split. { intros Hr. destruct (Hok Hr) as [-> Hlow]. split; [reflexivity | lia]. }
      intros u Hu Hin. apply elem_of_cons in Hin as [->|Hin]; [|now apply Hemp].
      specialize (Hu (rss w1)). rewrite Efetch in Hu. discriminate Hu.
    + unfold ret at 1 in E. cbn [fst snd] in E.
      apply Nat.ltb_ge in Ei.
      destruct (IH (S i) w2 ltac:(cbn in Hlen; lia))
        as (evs & fetched & fs & Ht & Hrt & Hff & Hpre & Hsub & Hfa & Hsl & Hle & Hle2 & Hok & Hemp).
      rewrite E in Ht, Hrt, Hff, Hok. cbn [fst snd] in *.
      eexists (EvLog (Fetching i n url) :: ev1 ++ evs),
              ((RSSFetcher.EvGet url _ :: map RSSFetcher.EvLog logs) ++ fetched), fs.
      rewrite gets_get.
      split. { rewrite Ht, Ht1. subst w1. cbn. rewrite <- !app_assoc. reflexivity. }
      split. { rewrite Hrt, Hr1. cbn. rewrite Htr. subst w1. cbn.
               now rewrite <- app_assoc. }
      split. { rewrite Hff, Hf1. reflexivity. }
      split. { now apply prefix_cons. }
      split. { now apply sublist_cons. }
      split. { exact Hfa. }
      change (sleeps (EvLog (Fetching i n url) :: ev1 ++ evs)) with (sleeps (ev1 ++ evs)).
      rewrite sleeps_app, Hs1. cbn [app].
      split. { exact Hsl. }
      cbn [length] in *. split; [lia|]. split; [lia|].
      split. { intros Hr. destruct (Hok Hr) as [-> Hlow]. split; [reflexivity | lia]. }
      intros u Hu Hin. apply elem_of_cons in Hin as [->|Hin]; [|now apply Hemp].
      specialize (Hu (rss w1)). rewrite Efetch in Hu. discriminate Hu.
Qed.

Lemma log_all_run ms (w : World D) :
  log_all ms w
  = (Ok tt, {| rss := rss w; failed_feeds := failed_feeds w; store := store w;
               trace := trace w ++ map EvLog ms;
               cnt_in := cnt_in w; cnt_out := cnt_out w |}).
Proof.
  revert w. induction ms as [|m ms IH]; intros w; cbn [log_all map].
  - unfold ret. rewrite app_nil_r. now destruct w.
  - unfold bind, log, emit, modify. cbn [fst snd]. rewrite IH. cbn.
    now rewrite <- app_assoc.
Qed.

Lemma stream_entries_account urls (w : World D) :
  let out := stream_entries env rate_limit_delay urls body w in
  exists evs fetched,
    trace out.2 = trace w ++ evs
    /\ RSSFetcher.trace (rss out.2) = RSSFetcher.trace (rss w) ++ fetched
    /\ gets fetched `prefix_of` urls
    /\ sublist (map fst (failed_feeds out.2)) (gets fetched)
    /\ Forall (fun f => f.2 = "No entries found in feed") (failed_feeds out.2)
    /\ Forall (fun d => d = rate_limit_delay) (sleeps evs)
    /\ (length (sleeps evs) + length (failed_feeds out.2) <= length (gets fetched))%nat
    /\ (length (sleeps evs) <= length urls - 1)%nat
    /\ (forall u, (forall x, (RSSFetcher.fetch_feed (feed env) u x).1 = Ok ("", [])) ->
                  u ∈ gets fetched -> u ∈ map fst (failed_feeds out.2))
    /\ (out.1 = Ok tt ->
        gets fetched = urls
        /\ (length urls - 1 <= length (sleeps evs) + length (failed_feeds out.2))%nat
        /\ (failed_feeds out.2 <> [] ->
            exists before,
              evs = before ++ map EvLog
                      ([Rule60; SummaryHeader; Rule60]
                       ++ summary_lines 1 (failed_feeds out.2)
                       ++ [TotalFailed (length (failed_feeds out.2)); Rule60]))).
Proof.
  cbv zeta.
  destruct (stream_entries env rate_limit_delay urls body w) as [r w'] eqn:E.
  cbn [fst snd]. unfold stream_entries in E.
  unfold bind at 1, modify at 1 in E. cbn [fst snd] in E.
  unfold bind at 1 in E.
  destruct (feeds_loop_account (length urls) urls 1 (set_failed [] w) eq_refl)
    as (evs & fetched & fs & Ht & Hrt & Hff & Hpre & Hsub & Hfa & Hsl & Hle & Hle2 & Hok & Hemp).
  cbv zeta in *.
  destruct (feeds_loop env rate_limit_delay 1 (length urls) urls body (set_failed [] w))
    as [[[]|ex] w1]; cbn [fst snd app failed_feeds set_failed trace rss] in *;
    subst fs.
  2:{ injection E as <- <-. exists evs, fetched.
      do 9 (split; [assumption|]). discriminate. }
  destruct (Hok eq_refl) as [Hall Hlow].
  unfold bind at 1, get at 1 in E. cbn [fst snd] in E.
  destruct (failed_feeds w1) as [|f0 fs0] eqn:Ef.
  - injection E as <- <-. exists evs, fetched. rewrite Ef.
    do 9 (split; [assumption|]). intros _. split; [exact Hall|].
    split; [exact Hlow|]. intros Hne. now contradiction Hne.
  - match type of E with log_all ?l _ = _ => set (ms := l) in E end.
    rewrite log_all_run in E. injection E as <- <-. cbn [trace rss failed_feeds].
    rewrite Ef.
    exists (evs ++ map EvLog ms), fetched. rewrite Ht, <- app_assoc.
    split; [reflexivity|]. split; [assumption|]. split; [assumption|].
    split; [assumption|]. split; [assumption|].
    rewrite sleeps_app, sleeps_logs, app_nil_r.
    split; [assumption|]. split; [assumption|]. split; [assumption|].
    split; [assumption|].
    intros _. split; [exact Hall|]. split; [exact Hlow|].
    intros _. exists evs. reflexivity.
Qed.

End Account.

Lemma run_once_ledger feeds (w : World D) :
  let out := run_once env rate_limit_delay feeds w in
  exists evs,
    trace out.2 = trace w ++ evs
    /\ inserted evs = map snd (sends evs)
    /\ Forall (keyed_by_link (md5_hexdigest env)) (sends evs)
    /\ cnt_in out.2 = length (yields evs id)
    /\ (cnt_out out.2 <= length (sends evs))%nat
    /\ (out.1 = Ok tt ->
        exists before,
          evs = before ++ [EvLog (Completed (length feeds) (cnt_in out.2) (cnt_out out.2))]).
Proof.
  cbv zeta. destruct (run_once env rate_limit_delay feeds w) as [r w'] eqn:E.
  cbn [fst snd]. unfold run_once in E.
  unfold bind at 1, modify at 1 in E. cbn [fst snd] in E.
  unfold bind at 1 in E.
  destruct (stream_entries_ledger feeds (set_counts 0 0 w))
    as (evs & Ht & Hi & Hk & Hin & Hout).
  destruct (stream_entries env rate_limit_delay feeds (run_once_body env) (set_counts 0 0 w))
    as [[[]|ex] w1]; cbn [fst snd trace set_counts cnt_in cnt_out] in *;
    rewrite Nat.add_0_l in Hin, Hout.
  2:{ injection E as <- <-. exists evs. do 5 (split; [assumption|]). discriminate. }
  unfold bind, get, log, emit, modify in E. cbn [fst snd] in E.
  injection E as <- <-. cbn [trace cnt_in cnt_out].
  exists (evs ++ [EvLog (Completed (length feeds) (cnt_in w1) (cnt_out w1))]).
  rewrite Ht, <- app_assoc. split; [reflexivity|].
  unfold inserted, sends, yields in *. rewrite !omap_app, !length_app. cbn.
  rewrite !app_nil_r, !Nat.add_0_r. do 4 (split; [assumption|]).
  intros _. exists evs. reflexivity.
Qed.

End Stream.

Lemma yields_sublist_marked evs : yields evs NewsFetcher.ed_id `sublist_of` marked evs.
Proof.
  induction evs as [|ev evs IH]; [constructor|].
  destruct ev; cbn; try exact IH; [now apply sublist_skip | now apply sublist_cons].
Qed.

Lemma send_keys_sublist_marked evs : map fst (sends evs) `sublist_of` marked evs.
Proof.
  induction evs as [|ev evs IH]; [constructor|].
  destruct ev; cbn; try exact IH; [now apply sublist_cons | now apply sublist_skip].
Qed.

Lemma never_ok_empty env u :
  never_ok env u -> forall x, (RSSFetcher.fetch_feed env u x).1 = Ok ("", []).
Proof.
  intros Hn x.
  unfold RSSFetcher.fetch_feed, try_except, bind, get, RSSFetcher.tick, RSSFetcher.emit,
    RSSFetcher.log, modify, lift, ret.
  cbn [fst snd RSSFetcher.clock RSSFetcher.trace RSSFetcher.state].
  match goal with |- context [RSSFetcher.http_get env ?k u ?h] =>
    specialize (Hn k h); destruct (RSSFetcher.http_get env k u h) as [resp|e] end; cbn.
  2:{ reflexivity. }
  destruct (RSSFetcher.status resp =? 304); cbn; [reflexivity|].
  apply Z.eqb_neq in Hn. rewrite Hn. reflexivity.
Qed.

(** X19. [stream_entries] hands on only entries whose id the dedupe
    store did not know, each id once, and the store knows every one
    of them afterwards; nothing the store knew is forgotten.  This
    holds for every store that keeps the contract of [seen] and every
    consumer that marks only new ids itself. *)
Theorem stream_yields_only_new_ids {D} `{StateStore.DedupeStoreLike D}
    (known : D -> string -> Prop) env rate_limit_delay body urls
    (w : NewsFetcher.World D) :
  StateStore.dedupe_contract known StateStore.seen ->
  (forall t e w0, fresh_run known w0 (body t e w0).2) ->
  let out := NewsFetcher.stream_entries env rate_limit_delay urls body w in
  exists evs,
    NewsFetcher.trace out.2 = NewsFetcher.trace w ++ evs
    /\ NoDup (yields evs NewsFetcher.ed_id)
    /\ (forall x, x ∈ yields evs NewsFetcher.ed_id ->
          ~ known (NewsFetcher.store w) x /\ known (NewsFetcher.store out.2) x)
    /\ (forall x, known (NewsFetcher.store w) x -> known (NewsFetcher.store out.2) x).
Proof.
  intros Hc Hbody out.
  destruct (stream_entries_fresh known Hc env rate_limit_delay body urls Hbody w)
    as (evs & Ht & Hn & Hf & Hm).
  exists evs. split; [exact Ht|]. split.
  - exact (sublist_NoDup _ _ Hn (yields_sublist_marked evs)).
  - split; [|exact Hm]. intros x Hx. apply Hf.
    exact (sublist_subseteq _ _ (yields_sublist_marked evs) x Hx).
Qed.

(** X20. [stream_entries] asks for each feed once and in the order of
    [urls] (for a prefix of them if the consumer or the store raises).
    It sleeps only for [rate_limit_delay], never after the last feed
    and never after a feed without entries: the sleeps and the failed
    feeds together are at most the feeds asked for, and on a complete
    run at least all feeds but one. *)
Theorem stream_asks_each_feed_once {D} `{StateStore.DedupeStoreLike D}
    env rate_limit_delay body urls (w : NewsFetcher.World D) :
  (forall t e w0, leaves_feeds_alone w0 (body t e w0).2) ->
  let out := NewsFetcher.stream_entries env rate_limit_delay urls body w in
  exists evs fetched,
    NewsFetcher.trace out.2 = NewsFetcher.trace w ++ evs
    /\ RSSFetcher.trace (NewsFetcher.rss out.2)
       = RSSFetcher.trace (NewsFetcher.rss w) ++ fetched
    /\ gets fetched `prefix_of` urls
    /\ (out.1 = Ok tt -> gets fetched = urls)
    /\ Forall (fun d => d = rate_limit_delay) (sleeps evs)
    /\ (length (sleeps evs) <= length urls - 1)%nat
    /\ (length (sleeps evs) + length (NewsFetcher.failed_feeds out.2)
        <= length (gets fetched))%nat
    /\ (out.1 = Ok tt ->
        (length urls - 1
         <= length (sleeps evs) + length (NewsFetcher.failed_feeds out.2))%nat).
Proof.
  intros Hq out.
  destruct (stream_entries_account env rate_limit_delay body Hq urls w)
    as (evs & fetched & Ht & Hrt & Hpre & _ & _ & Hsl & Hle & Hle2 & _ & Hok).
  exists evs, fetched. do 3 (split; [assumption|]).
  split; [intros Hr; apply (Hok Hr)|]. do 3 (split; [assumption|]).
  intros Hr. apply (Hok Hr).
Qed.

(** X21. The failed feeds of a run of [stream_entries] are feeds of
    [urls], in order, whatever the list held before; the error
    recorded is always [No entries found in feed].  A feed that never
    answers 200 (unchanged with 304, an error status, a failed
    request) is among them on a complete run, and when there is a
    failed feed the run ends with the summary that lists them all. *)
Theorem failed_feeds_are_reported {D} `{StateStore.DedupeStoreLike D}
    env rate_limit_delay body urls (w : NewsFetcher.World D) :
  (forall t e w0, leaves_feeds_alone w0 (body t e w0).2) ->
  let out := NewsFetcher.stream_entries env rate_limit_delay urls body w in
  map fst (NewsFetcher.failed_feeds out.2) `sublist_of` urls
  /\ Forall (fun f => f.2 = "No entries found in feed") (NewsFetcher.failed_feeds out.2)
  /\ (out.1 = Ok tt ->
      (forall u, never_ok (NewsFetcher.feed env) u -> u ∈ urls ->
                 u ∈ map fst (NewsFetcher.failed_feeds out.2))
      /\ (NewsFetcher.failed_feeds out.2 <> [] ->
          exists before,
            NewsFetcher.trace out.2
            = NewsFetcher.trace w ++ before
              ++ map NewsFetcher.EvLog
                   ([NewsFetcher.Rule60; NewsFetcher.SummaryHeader; NewsFetcher.Rule60]
                    ++ NewsFetcher.summary_lines 1 (NewsFetcher.failed_feeds out.2)
                    ++ [NewsFetcher.TotalFailed (length (NewsFetcher.failed_feeds out.2));
                        NewsFetcher.Rule60]))).
Proof.
  intros Hq out.
  destruct (stream_entries_account env rate_limit_delay body Hq urls w)
    as (evs & fetched & Ht & _ & Hpre & Hsub & Hfa & _ & _ & _ & Hemp & Hok).
  split.
  { destruct Hpre as [k ->]. now apply sublist_inserts_r. }
  split; [exact Hfa|]. intros Hr. destruct (Hok Hr) as (Hall & _ & Hsum). split.
  - intros u Hu Hin. apply Hemp; [now apply never_ok_empty | now rewrite Hall].
  - intros Hne. destruct (Hsum Hne) as [before Hev]. exists before.
    fold out in Ht. rewrite Ht, Hev. reflexivity.
Qed.

(** X22. In one cycle of [run_once] no key is sent to Kafka twice and
    none that the dedupe store knew at the start; the store knows
    every key sent afterwards.  This holds for every store that keeps
    the contract of [seen]. *)
Theorem run_once_sends_each_key_once {D} `{StateStore.DedupeStoreLike D}
    (known : D -> string -> Prop) env rate_limit_delay feeds
    (w : NewsFetcher.World D) :
  StateStore.dedupe_contract known StateStore.seen ->
  let out := NewsFetcher.run_once env rate_limit_delay feeds w in
  exists evs,
    NewsFetcher.trace out.2 = NewsFetcher.trace w ++ evs
    /\ NoDup (map fst (sends evs))
    /\ (forall k, k ∈ map fst (sends evs) ->
          ~ known (NewsFetcher.store w) k /\ known (NewsFetcher.store out.2) k).
Proof.
  intros Hc out.
  destruct (run_once_fresh known Hc env rate_limit_delay feeds w)
    as (evs & Ht & Hn & Hf & _).
  exists evs. split; [exact Ht|]. split.
  - exact (sublist_NoDup _ _ Hn (send_keys_sublist_marked evs)).
  - intros k Hk. apply Hf.
    exact (sublist_subseteq _ _ (send_keys_sublist_marked evs) k Hk).
Qed.

(** X23. In one cycle of [run_once] the values handed to the Kafka
    producer are exactly the outputs whose insert into the database
    went through, in the same order; each is sent under its article
    id, the MD5 of its URL.  [cnt_in] is the number of entries the
    stream yielded, [cnt_out] at most the number of messages handed
    over, and a complete cycle ends with the log line that reports the
    number of feeds and the two counters. *)
Theorem run_once_publishes_what_it_stored {D} `{StateStore.DedupeStoreLike D}
    env rate_limit_delay feeds (w : NewsFetcher.World D) :
  let out := NewsFetcher.run_once env rate_limit_delay feeds w in
  exists evs,
    NewsFetcher.trace out.2 = NewsFetcher.trace w ++ evs
    /\ inserted evs = map snd (sends evs)
    /\ Forall (keyed_by_link (NewsFetcher.md5_hexdigest env)) (sends evs)
    /\ NewsFetcher.cnt_in out.2 = length (yields evs id)
    /\ (NewsFetcher.cnt_out out.2 <= length (sends evs))%nat
    /\ (out.1 = Ok tt ->
        exists before,
          evs = before ++ [NewsFetcher.EvLog
                             (NewsFetcher.Completed (length feeds)
                                (NewsFetcher.cnt_in out.2) (NewsFetcher.cnt_out out.2))]).
Proof. exact (run_once_ledger env rate_limit_delay feeds w). Qed.

Lemma stream_yields_only_new_ids_witness :
  NoDup (yields (NewsFetcher.trace sample_stream.2) NewsFetcher.ed_id).
Proof.
  destruct (stream_yields_only_new_ids (H := redis_up) StateStore.redis_known
              sample_fetcher 1 (fun _ _ => ret tt) sample_urls sample_fetcher_world
              (redis_store_contract _ _)
              (fun _ _ w0 => fresh_refl StateStore.redis_known w0))
    as (evs & Ht & Hn & _).
  change (NewsFetcher.trace sample_stream.2 = evs) in Ht. rewrite Ht. exact Hn.
Defined.

Lemma stream_asks_each_feed_once_witness :
  gets (RSSFetcher.trace (NewsFetcher.rss sample_stream.2)) = sample_urls
  /\ (length (sleeps (NewsFetcher.trace sample_stream.2)) <= 1)%nat.
Proof.
  destruct (stream_asks_each_feed_once (H := redis_up)
              sample_fetcher 1 (fun _ _ => ret tt) sample_urls sample_fetcher_world
              (fun _ _ w0 => alone_refl w0))
    as (evs & fetched & Ht & Hrt & _ & Hall & _ & Hle & _).
  change (NewsFetcher.trace sample_stream.2 = evs) in Ht.
  change (RSSFetcher.trace (NewsFetcher.rss sample_stream.2) = fetched) in Hrt.
  rewrite Ht, Hrt. split; [|exact Hle].
  apply Hall. vm_compute. reflexivity.
Defined.

Lemma failed_feeds_are_reported_witness :
  unchanged_url ∈ map fst (NewsFetcher.failed_feeds sample_stream.2).
Proof.
  destruct (failed_feeds_are_reported (H := redis_up)
              sample_fetcher 1 (fun _ _ => ret tt) sample_urls sample_fetcher_world
              (fun _ _ w0 => alone_refl w0))
    as (_ & _ & Hok).
  destruct (Hok ltac:(vm_compute; reflexivity)) as [Hnever _].
  apply Hnever.
  - intros k hdrs. cbn. discriminate.
  - right. left.
Defined.

Lemma run_once_sends_each_key_once_witness :
  NoDup (map fst (sends (NewsFetcher.trace sample_cycle.2))).
Proof.
  destruct (run_once_sends_each_key_once (H := redis_up) StateStore.redis_known
              sample_fetcher 1 sample_urls sample_fetcher_world
              (redis_store_contract _ _))
    as (evs & Ht & Hn & _).
  change (NewsFetcher.trace sample_cycle.2 = evs) in Ht. rewrite Ht. exact Hn.
Defined.

(** * The loop of the content-processing service *)

Section Run.
Import ContentProcessingService.
Variable env : ContentProcessingService.Env.
Variable publish_message : nat -> CleanedArticle -> result unit.

(** What a call of [process_article] leaves for [run]. *)
Lemma process_article_outcome raw s :
  let out := process_article env raw s in
  seen_urls s ⊆ seen_urls out.2
  /\ (out.1 = Ok None
      \/ exists c, out.1 = Ok (Some c)
                   /\ (md5_hexdigest env (url c) ∉ seen_urls s)
                   /\ (md5_hexdigest env (url c) ∈ seen_urls out.2)).
Proof.
  pose proof (process_article_cases env raw s) as Hc. cbv zeta in *.
  destruct Hc as [[_ ->]|[(_ & _ & ->)|(_ & Hnew & Hadd & Hex)]].
  - split; [reflexivity | now left].
  - split; [reflexivity | now left].
  - split; [rewrite Hadd; apply union_subseteq_r|].
    destruct (extract (fx env) (default "" (raw !! "url")) (text_extractor s))
      as [[[ex|]|e] x]; [|now left|now left].
    destruct (nonempty (content ex)); [|now left].
    destruct Hex as (c & Hc & _ & Hu & _). right. exists c. split; [exact Hc|].
    rewrite Hu, Hadd. split; [exact Hnew|].
    apply elem_of_union_l. now apply elem_of_singleton.
Qed.

Lemma accounted_refl w : accounted_run (md5_hexdigest env) 0 w w.
Proof.
  exists []. rewrite app_nil_r. split; [reflexivity|]. split; [constructor|].
  split; [intros c Hc; inversion Hc|]. split; [reflexivity|].
  split; [lia|]. split; [cbn; lia | constructor].
Qed.

Lemma accounted_trans n m w1 w2 w3 :
  accounted_run (md5_hexdigest env) n w1 w2 ->
  accounted_run (md5_hexdigest env) m w2 w3 ->
  accounted_run (md5_hexdigest env) (n + m) w1 w3.
Proof.
  intros (e1 & Ht1 & Hn1 & Hf1 & Hs1 & Hc1 & Hp1 & Hst1)
         (e2 & Ht2 & Hn2 & Hf2 & Hs2 & Hc2 & Hp2 & Hst2).
  exists (e1 ++ e2). rewrite Ht2, Ht1, app_assoc. split; [reflexivity|].
  unfold published, stats_totals in *. rewrite !omap_app, map_app, length_app.
  split.
  { apply NoDup_app. split; [exact Hn1|]. split; [|exact Hn2].
    intros h Hh1 Hh2.
    apply list_elem_of_fmap in Hh1 as (c1 & -> & Hc1').
    apply list_elem_of_fmap in Hh2 as (c2 & Heq & Hc2').
    apply (Hf2 c2 Hc2'). rewrite <- Heq. apply (Hf1 c1 Hc1'). }
  split.
  { intros c Hc. apply elem_of_app in Hc as [Hc|Hc].
    - split; [apply (Hf1 c Hc) | apply Hs2, (Hf1 c Hc)].
    - split; [|apply (Hf2 c Hc)]. intros Hk. apply (Hf2 c Hc). now apply Hs1. }
  split; [etransitivity; eassumption|].
  split; [lia|]. split; [lia|]. now apply Forall_app.
Qed.

Lemma handle_message_run raw w :
  let out := handle_message env publish_message raw w in
  out.1 = Ok tt /\ accounted_run (md5_hexdigest env) 1 w out.2.
Proof.
  cbv zeta. destruct (handle_message env publish_message raw w) as [r w'] eqn:E.
  cbn [fst snd]. unfold handle_message, try_except in E.
  unfold bind at 1, on_service at 1 in E.
  destruct (process_article_outcome raw (service w)) as [Hsub Hres]. cbv zeta in *.
  destruct (process_article env raw (service w)) as [r0 s]. cbn [fst snd] in *.
  destruct Hres as [->|(c & -> & Hnew & Hin)].
  - unfold bind, count_failed, modify, get, run_emit, ret in E.
    cbn -[Nat.modulo Nat.eqb] in E.
    match type of E with context [(?t mod 10 =? 0)%nat] =>
      destruct (t mod 10 =? 0)%nat eqn:Et end;
      cbn -[Nat.modulo Nat.eqb] in E;
      injection E as <- <-; (split; [reflexivity|]).
    + apply Nat.eqb_eq in Et.
      exists [EvStats (processed_count w) (S (failed_count w))]. cbn.
      split; [reflexivity|]. split; [constructor|].
      split; [intros c Hc; inversion Hc|]. split; [exact Hsub|].
      split; [lia|]. split; [lia|]. constructor; [split; [lia | exact Et] | constructor].
    + exists []. cbn. rewrite app_nil_r.
      split; [reflexivity|]. split; [constructor|].
      split; [intros c Hc; inversion Hc|]. split; [exact Hsub|].
      split; [lia|]. split; [lia|]. constructor.
  - assert (Hone : forall c', c' ∈ [c] ->
              (md5_hexdigest env (url c') ∉ seen_urls (service w))
              /\ (md5_hexdigest env (url c') ∈ seen_urls s)).
    { intros c' Hc'. apply list_elem_of_singleton in Hc' as ->. now split. }
    unfold bind, on_service, on_extractor, tick, count_processed, count_failed, modify,
      get, run_emit, lift, ret in E. cbn -[Nat.modulo Nat.eqb] in E.
    match type of E with context [publish_message ?k c] =>
      destruct (publish_message k c) as [[]|e] end; cbn -[Nat.modulo Nat.eqb] in E.
    + match type of E with context [(?t mod 10 =? 0)%nat] =>
        destruct (t mod 10 =? 0)%nat eqn:Et end;
        cbn -[Nat.modulo Nat.eqb] in E;
        injection E as <- <-; (split; [reflexivity|]).
      * apply Nat.eqb_eq in Et.
        exists [EvPublish c; EvStats (S (processed_count w)) (failed_count w)]. cbn.
        split; [now rewrite <- app_assoc|]. split; [apply NoDup_singleton|].
        split; [exact Hone|]. split; [exact Hsub|].
        split; [lia|]. split; [lia|]. constructor; [split; [lia | exact Et] | constructor].
      * exists [EvPublish c]. cbn.
        split; [reflexivity|]. split; [apply NoDup_singleton|].
        split; [exact Hone|]. split; [exact Hsub|].
        split; [lia|]. split; [lia|]. constructor.
    + injection E as <- <-. split; [reflexivity|].
      exists [EvPublish c; EvError]. cbn.
      split; [now rewrite <- app_assoc|]. split; [apply NoDup_singleton|].
      split; [exact Hone|]. split; [exact Hsub|].
      split; [lia|]. split; [lia|]. constructor.
Qed.

Lemma run_loop_run messages : forall w,
  let out := run_loop env publish_message messages w in
  out.1 = Ok tt /\ accounted_run (md5_hexdigest env) (length messages) w out.2.
Proof.
  induction messages as [|raw rest IH]; intros w; cbv zeta; cbn [run_loop length].
  - split; [reflexivity | apply accounted_refl].
  - unfold bind.
    destruct (handle_message_run raw w) as [Hr Ha]. cbv zeta in *.
    destruct (handle_message env publish_message raw w) as [r w1]. cbn [fst snd] in *.
    subst r. destruct (IH w1) as [Hr' Ha']. split; [exact Hr'|].
    exact (accounted_trans 1 (length rest) w w1 _ Ha Ha').
Qed.

End Run.

(** X24. [run] handles every message it is handed and never raises:
    the two counters add up to the number of messages, whatever
    extraction and publishing do.  No URL is published twice: the
    articles handed to [publish_message] have pairwise distinct URL
    hashes, none of them seen before the run.  [processed_count] is at
    most the number of articles handed over, the statistics are logged
    at positive multiples of 10 only, and the handler is stopped at the
    end. *)
Theorem run_publishes_each_url_once env publish_message messages w :
  let out := ContentProcessingService.run env publish_message messages w in
  let md5 c := ContentProcessingService.md5_hexdigest env (ContentProcessingService.url c) in
  out.1 = Ok tt
  /\ (ContentProcessingService.processed_count out.2
      + ContentProcessingService.failed_count out.2 = length messages)%nat
  /\ exists evs,
       ContentProcessingService.run_log out.2
       = ContentProcessingService.run_log w ++ evs ++ [ContentProcessingService.EvStop]
       /\ NoDup (map md5 (published evs))
       /\ (forall c, c ∈ published evs ->
             md5 c ∉ ContentProcessingService.seen_urls (ContentProcessingService.service w))
       /\ (ContentProcessingService.processed_count out.2 <= length (published evs))%nat
       /\ Forall (fun t => (0 < t)%nat /\ (t mod 10 = 0)%nat) (stats_totals evs).
Proof.
  cbv zeta.
  destruct (ContentProcessingService.run env publish_message messages w) as [r w'] eqn:E.
  cbn [fst snd]. unfold ContentProcessingService.run in E.
  unfold bind at 1, modify at 1 in E. cbn [fst snd] in E.
  match type of E with context [bind _ _ ?x] => set (w0 := x) in E end.
  unfold bind at 1 in E.
  destruct (run_loop_run env publish_message messages w0) as [Hr Ha]. cbv zeta in *.
  destruct (ContentProcessingService.run_loop env publish_message messages w0) as [r1 w1].
  cbn [fst snd] in *. subst r1.
  destruct Ha as (evs & Ht & Hn & Hf & _ & Hc & Hp & Hst).
  unfold ContentProcessingService.run_emit, modify in E. injection E as <- <-. cbn.
  split; [reflexivity|]. split; [exact Hc|].
  exists evs. rewrite Ht. split; [now rewrite <- app_assoc|].
  split; [exact Hn|]. split; [intros c Hcin; apply (Hf c Hcin)|].
  split; [exact Hp | exact Hst].
Qed.

(** * The skip list *)

Section Skip.
Import SkipDomains.

Lemma lower_app (a b : string) : lower (a +:+ b) = lower a +:+ lower b.
Proof. induction a as [|x a IH]; simpl; [reflexivity | now rewrite IH]. Qed.

Lemma nonempty_lower s : nonempty (lower s) = nonempty s.
Proof. destruct s; reflexivity. Qed.

Lemma any_prefix_spec u skip :
  any_prefix u skip = true <-> exists d, d ∈ skip /\ startswith (lower d) u = true.
Proof.
  induction skip as [|d skip IH]; simpl.
  - split; [discriminate|]. intros (d & Hd & _). inversion Hd.
  - destruct (startswith (lower d) u) eqn:E.
    + split; [|reflexivity]. intros _. exists d. split; [left | exact E].
    + rewrite IH. split; intros (d' & Hd' & Hs).
      * exists d'. split; [now right | exact Hs].
      * apply elem_of_cons in Hd' as [->|Hd']; [congruence|]. now exists d'.
Qed.

Lemma should_skip_spec skip url :
  nonempty url = true ->
  (should_skip_url skip url = true
   <-> exists d, d ∈ skip /\ startswith (lower d) (lower url) = true).
Proof.
  intros Hn. unfold should_skip_url. rewrite Hn. cbn [negb]. apply any_prefix_spec.
Qed.

Lemma list_remove_last d l : d ∉ l -> list_remove d (l ++ [d]) = l.
Proof.
  induction l as [|x l IH]; intros Hd; simpl.
  - destruct (decide (d = d)); [reflexivity | contradiction].
  - apply not_elem_of_cons in Hd as [Hne Hd].
    destruct (decide (x = d)); [congruence|]. now rewrite IH.
Qed.

Lemma list_remove_absent d l : d ∉ l -> list_remove d l = l.
Proof.
  induction l as [|x l IH]; intros Hd; simpl; [reflexivity|].
  apply not_elem_of_cons in Hd as [Hne Hd].
  destruct (decide (x = d)); [congruence|]. now rewrite IH.
Qed.

Lemma list_remove_sublist d l : list_remove d l `sublist_of` l.
Proof.
  induction l as [|x l IH]; simpl; [constructor|].
  destruct (decide (x = d)); [now apply sublist_cons | now apply sublist_skip].
Qed.

Lemma list_remove_gone d l : NoDup l -> d ∉ list_remove d l.
Proof.
  induction 1 as [|x l Hx Hl IH]; simpl; [intros Hd; inversion Hd|].
  destruct (decide (x = d)) as [->|Hne]; [exact Hx|].
  intros Hd. apply elem_of_cons in Hd as [->|Hd]; [congruence | now apply IH].
Qed.

Lemma remove_sublist d skip : remove_skip_domain d skip `sublist_of` skip.
Proof.
  unfold remove_skip_domain. case_bool_decide; [apply list_remove_sublist | reflexivity].
Qed.

Lemma add_superlist d skip : skip `sublist_of` add_skip_domain d skip.
Proof.
  unfold add_skip_domain.
  destruct (nonempty d && negb (bool_decide (d ∈ skip))); [|reflexivity].
  now apply sublist_inserts_r.
Qed.

Lemma should_skip_mono skip skip' url :
  skip `sublist_of` skip' ->
  should_skip_url skip url = true -> should_skip_url skip' url = true.
Proof.
  intros Hsub. unfold should_skip_url. destruct (negb (nonempty url)); [auto|].
  rewrite !any_prefix_spec. intros (d & Hd & Hs). exists d. split; [|exact Hs].
  exact (sublist_subseteq _ _ Hsub d Hd).
Qed.

Lemma add_known d skip :
  nonempty d = false \/ d ∈ skip -> add_skip_domain d skip = skip.
Proof.
  unfold add_skip_domain. intros [->|Hd]; [reflexivity|].
  rewrite (bool_decide_eq_true_2 _ Hd). now rewrite andb_false_r.
Qed.

Lemma add_idem d skip :
  add_skip_domain d (add_skip_domain d skip) = add_skip_domain d skip.
Proof.
  apply add_known. unfold add_skip_domain.
  destruct (nonempty d); [|now left]. right. cbn [andb].
  case_bool_decide as Hd; cbn [negb]; [exact Hd|]. apply elem_of_app. right. left.
Qed.

End Skip.

(** X25. [should_skip_url] is a case-insensitive prefix match: the
    empty URL is always skipped; a non-empty URL is skipped exactly
    when its lower-cased form starts with the lower-cased form of an
    entry of the list; so the answer for a URL and for its lower-cased
    form is the same. *)
Theorem skip_is_case_insensitive_prefix_match skip url :
  SkipDomains.should_skip_url skip "" = true
  /\ SkipDomains.should_skip_url skip (lower url) = SkipDomains.should_skip_url skip url
  /\ (nonempty url = true ->
      (SkipDomains.should_skip_url skip url = true
       <-> exists d rest, d ∈ skip /\ lower url = lower d +:+ rest)).
Proof.
  split; [reflexivity|]. split.
  - unfold SkipDomains.should_skip_url. now rewrite nonempty_lower, lower_idem.
  - intros Hn. rewrite (should_skip_spec skip url Hn). split.
    + intros (d & Hd & Hs). apply startswith_spec in Hs as [rest Hr]. now exists d, rest.
    + intros (d & rest & Hd & Hr). exists d. split; [exact Hd|].
      rewrite Hr. apply startswith_app.
Qed.


Lemma skip_is_case_insensitive_prefix_match_witness :
  SkipDomains.should_skip_url SkipDomains.SKIP_DOMAINS "HTTPS://Phys.ORG/news/2024" = true.
Proof.
  destruct (skip_is_case_insensitive_prefix_match
              SkipDomains.SKIP_DOMAINS "HTTPS://Phys.ORG/news/2024") as (_ & _ & H).
  apply (H eq_refl). exists "https://phys.org", "/news/2024".
  split; [|reflexivity]. right. right. left.
Defined.


(** * The publish date *)

Section Dates.
Import PublishDate.
Variable env : PublishDate.Env.

Lemma first_date_app a b :
  first_date env (a ++ b)
  = match first_date env a with Some d => Some d | None => first_date env b end.
Proof.
  induction a as [|s a IH]; simpl; [reflexivity|].
  destruct (nonempty s); [|exact IH]. destruct (date_parse env s); [reflexivity | exact IH].
Qed.

Lemma meta_date_first soup tags :
  meta_date env soup tags
  = first_date env (omap (fun tag => mjoin (find_meta soup tag)) tags).
Proof.
  induction tags as [|tag tags IH]; simpl; [reflexivity|].
  destruct (find_meta soup tag) as [[content|]|]; simpl; try exact IH.
  destruct (nonempty content); [|exact IH].
  destruct (date_parse env content); [reflexivity | exact IH].
Qed.

Lemma html_date_first html : html_date env html = first_date env (page_sources env html).
Proof.
  unfold html_date, page_sources. destruct (BeautifulSoup env html) as [soup|e]; [|reflexivity].
  rewrite first_date_app, meta_date_first.
  destruct (first_date env _); [reflexivity|].
  destruct (find_time soup) as [[d|]|]; reflexivity.
Qed.

Lemma first_date_source sources parsed :
  first_date env sources = Some parsed ->
  exists s, s ∈ sources /\ nonempty s = true /\ date_parse env s = Ok parsed.
Proof.
  induction sources as [|s sources IH]; simpl; [discriminate|].
  destruct (nonempty s) eqn:Hn.
  - destruct (date_parse env s) as [p|e] eqn:Hp.
    + intros [= <-]. exists s. split; [left | now split].
    + intros H. destruct (IH H) as (s' & Hs' & Hr). exists s'. split; [now right | exact Hr].
  - intros H. destruct (IH H) as (s' & Hs' & Hr). exists s'. split; [now right | exact Hr].
Qed.

Lemma extract_publish_date_first html extracted :
  extract_publish_date env html extracted
  = first_date env (date_sources env html extracted).
Proof.
  unfold extract_publish_date, date_sources. rewrite first_date_app.
  destruct extracted as [d|]; simpl; [|apply html_date_first].
  destruct (nonempty d); [|apply html_date_first].
  destruct (date_parse env d); [reflexivity | apply html_date_first].
Qed.

End Dates.

(** X27. [extract_publish_date] returns the ISO form of the first
    source that is not empty and can be parsed, in this order: the
    date of the extraction method, the [content] of the six [meta]
    patterns, the [datetime] of the first [time] element.  So a date
    of the extraction method that parses wins whatever the page holds;
    every date returned was parsed from one of these sources; and when
    no source parses, or the page cannot be read, the result is [None]
    rather than an exception. *)
Theorem publish_date_is_first_parseable env html extracted :
  PublishDate.extract_publish_date env html extracted
  = PublishDate.first_date env (PublishDate.date_sources env html extracted)
  /\ (forall d parsed,
        extracted = Some d -> nonempty d = true ->
        PublishDate.date_parse env d = Ok parsed ->
        forall html', PublishDate.extract_publish_date env html' extracted = Some parsed)
  /\ (forall parsed,
        PublishDate.extract_publish_date env html extracted = Some parsed ->
        exists s, s ∈ PublishDate.date_sources env html extracted
                  /\ nonempty s = true /\ PublishDate.date_parse env s = Ok parsed)
  /\ ((forall s, s ∈ PublishDate.date_sources env html extracted ->
                 nonempty s = true -> exists e, PublishDate.date_parse env s = Raise e) ->
      PublishDate.extract_publish_date env html extracted = None).
Proof.
  split; [apply extract_publish_date_first|]. split; [|split].
  - intros d parsed -> Hn Hp html'. unfold PublishDate.extract_publish_date.
    now rewrite Hn, Hp.
  - intros parsed. rewrite extract_publish_date_first. apply first_date_source.
  - intros Hnone. rewrite extract_publish_date_first.
    destruct (PublishDate.first_date env _) as [parsed|] eqn:E; [|reflexivity].
    apply first_date_source in E as (s & Hs & Hn & Hp).
    destruct (Hnone s Hs Hn) as [e He]. congruence.
Qed.

Lemma publish_date_is_first_parseable_witness :
  PublishDate.extract_publish_date sample_dates "<html/>" (Some "2024-03-04")
  = Some "2024-03-04T00:00:00"
  /\ PublishDate.extract_publish_date sample_dates "<html/>" (Some "last week")
     = Some "2024-03-05T00:00:00".
Proof.
  destruct (publish_date_is_first_parseable sample_dates "<html/>" (Some "2024-03-04"))
    as (_ & Hwins & _).
  destruct (publish_date_is_first_parseable sample_dates "<html/>" (Some "last week"))
    as (Hfirst & _).
  split.
  - exact (Hwins "2024-03-04" "2024-03-04T00:00:00" eq_refl eq_refl eq_refl "<html/>").
  - rewrite Hfirst. reflexivity.
Defined.

(** * The translator *)

Section Chunks.
Import Translator.

Lemma join_empty_cons w ws : join "" (w :: ws) = w +:+ join "" ws.
Proof. destruct ws; simpl; [now rewrite str_app_empty_r | reflexivity]. Qed.

Lemma join_empty_app a b : join "" (a ++ b) = join "" a +:+ join "" b.
Proof.
  induction a as [|w a IH]; [reflexivity|].
  rewrite <- app_comm_cons, !join_empty_cons, IH. now rewrite str_app_assoc.
Qed.

Lemma take_all n s : (String.length s <= n)%nat -> take n s = s.
Proof.
  revert s. induction n as [|n IH]; intros [|c s]; simpl; intros Hl; try reflexivity; [lia|].
  rewrite IH; [reflexivity | lia].
Qed.

Lemma take_add a b s : take (a + b) s = take a s +:+ take b (drop a s).
Proof.
  revert s. induction a as [|a IH]; intros s; simpl.
  - now destruct s.
  - destruct s as [|c s]; simpl; [now destruct b | now rewrite IH].
Qed.

Lemma drop_length n s : String.length (drop n s) = (String.length s - n)%nat.
Proof.
  revert s. induction n as [|n IH]; intros [|c s]; simpl; try reflexivity. apply IH.
Qed.

Lemma take_length_min n s : String.length (take n s) = Nat.min n (String.length s).
Proof.
  revert s. induction n as [|n IH]; intros [|c s]; simpl; try reflexivity. now rewrite IH.
Qed.

Lemma chunk_join step s m :
  join "" (map (fun i => take step (drop i s)) (map (fun k => (k * step)%nat) (seq 0 m)))
  = take (m * step) s.
Proof.
  induction m as [|m IH]; [reflexivity|].
  rewrite seq_S, !map_app, join_empty_app, IH. cbn [map join plus].
  change (S m * step)%nat with (step + m * step)%nat.
  now rewrite (Nat.add_comm step), take_add.
Qed.

Lemma range_covers n : (n <= (n + max_length - 1) / max_length * max_length)%nat.
Proof.
  unfold max_length.
  pose proof (Nat.div_mod_eq (n + 4500 - 1) 4500) as Hd.
  pose proof (Nat.mod_upper_bound (n + 4500 - 1) 4500 ltac:(lia)) as Hm. lia.
Qed.

Lemma range_below n i : i ∈ range_step n max_length -> (i < n)%nat.
Proof.
  unfold range_step, max_length. intros Hi.
  apply list_elem_of_fmap in Hi as (k & -> & Hk).
  apply list_elem_of_In, in_seq in Hk.
  pose proof (Nat.div_mod_eq (n + 4500 - 1) 4500) as Hd.
  pose proof (Nat.mod_upper_bound (n + 4500 - 1) 4500 ltac:(lia)) as Hm. nia.
Qed.

Lemma chunks_join text : join "" (chunks text) = text.
Proof.
  unfold chunks, range_step. rewrite chunk_join. apply take_all, range_covers.
Qed.

Lemma chunks_sizes text :
  Forall (fun c => (1 <= String.length c <= max_length)%nat) (chunks text).
Proof.
  unfold chunks. apply Forall_forall. intros c Hc.
  apply list_elem_of_fmap in Hc as (i & -> & Hi). apply range_below in Hi.
  rewrite take_length_min, drop_length. unfold max_length. lia.
Qed.

Lemma pieces_join text : join "" (pieces text) = text.
Proof.
  unfold pieces. destruct (String.length text <=? max_length)%nat; [reflexivity|].
  apply chunks_join.
Qed.

Lemma pieces_sizes text :
  Forall (fun c => (String.length c <= max_length)%nat) (pieces text)
  /\ (text <> "" -> Forall (fun c => (1 <= String.length c)%nat) (pieces text)).
Proof.
  unfold pieces. destruct (String.length text <=? max_length)%nat eqn:E.
  - apply Nat.leb_le in E. split; [constructor; [exact E | constructor]|].
    intros Hne. constructor; [|constructor]. destruct text; [contradiction | simpl; lia].
  - pose proof (chunks_sizes text) as Hs. split; [|intros _].
    + eapply Forall_impl; [exact Hs|]. intros c Hc. simpl in Hc. lia.
    + eapply Forall_impl; [exact Hs|]. intros c Hc. simpl in Hc. lia.
Qed.

Variable env : Translator.Env.

(** The translations of a list of texts, in order. *)
Lemma translate_chunks_run lang cs : forall w,
  let out := translate_chunks env lang cs w in
  exists n,
    calls out.2 = calls w ++ map (EvTranslate lang) (firstn n cs)
    /\ forall ts, out.1 = Ok ts ->
         firstn n cs = cs
         /\ Forall2 (fun c t => exists k, translate env k lang c = Ok t) cs ts.
Proof.
  induction cs as [|c cs IH]; intros w; cbv zeta.
  - exists 0%nat. cbn. rewrite app_nil_r. split; [reflexivity|].
    intros ts [= <-]. split; [reflexivity | constructor].
  - destruct (translate_chunks env lang (c :: cs) w) as [r w'] eqn:E.
    cbn [fst snd]. cbn [translate_chunks] in E.
    unfold bind at 1, call_translate at 1 in E.
    destruct (translate env (clock w) lang c) as [t|e] eqn:Et.
    + match type of E with context [bind _ _ ?x] => set (w1 := x) in E end.
      destruct (IH w1) as (n & Hc & Hok). cbv zeta in *. unfold bind in E.
      destruct (translate_chunks env lang cs w1) as [[ts|e] w2];
        cbn [fst snd ret] in *; injection E as <- <-.
      * exists (S n). rewrite Hc. subst w1. cbn. rewrite <- app_assoc.
        split; [reflexivity|]. intros ts' [= <-].
        destruct (Hok ts eq_refl) as [Hn Hf]. split; [now rewrite Hn|].
        constructor; [now exists (clock w) | exact Hf].
      * exists (S n). rewrite Hc. subst w1. cbn. rewrite <- app_assoc.
        split; [reflexivity|]. intros ts' [=].
    + injection E as <- <-. exists 1%nat. cbn. rewrite firstn_O.
      split; [reflexivity|]. intros ts [=].
Qed.

End Chunks.

(** X28. A text is never sent to the translator when [source_lang] is
    ['en'], or when no [source_lang] is given and the text has at most
    50 characters (its language is then taken to be English without
    detection): [translate_to_english] returns [None] and makes no
    call. *)
Theorem english_or_short_text_is_not_translated env text source_lang w :
  source_lang = Some "en"
  \/ ((source_lang = None \/ source_lang = Some "") /\ len text <= 50) ->
  Translator.translate_to_english env text source_lang w = (Ok None, w).
Proof.
  intros Hcase. unfold Translator.translate_to_english, try_except, bind.
  destruct Hcase as [->|[Hnone Hlen]].
  - reflexivity.
  - assert (Hd : Translator.detect_language env text = Ok "en").
    { unfold Translator.detect_language.
      destruct (50 <? len text) eqn:E; [apply Z.ltb_lt in E; lia | reflexivity]. }
    destruct Hnone as [->| ->]; cbn; unfold lift; rewrite Hd; reflexivity.
Qed.

(** X29. [translate_to_english] never raises.  What it sends to the
    translator is the text itself, or for a text of more than 4500
    characters its chunks: pieces of at most 4500 characters (none
    empty unless the text is) that put together give the text again.
    The pieces are sent in order under one source language; a
    translation is returned only when every piece was sent and
    translated, and it is the translations joined by single spaces. *)
Theorem translation_goes_out_in_pieces env text source_lang w :
  let out := Translator.translate_to_english env text source_lang w in
  (exists r, out.1 = Ok r)
  /\ join "" (Translator.pieces text) = text
  /\ Forall (fun p => (String.length p <= Translator.max_length)%nat) (Translator.pieces text)
  /\ (text <> "" -> Forall (fun p => (1 <= String.length p)%nat) (Translator.pieces text))
  /\ exists lang n,
       Translator.calls out.2
       = Translator.calls w
         ++ map (Translator.EvTranslate lang) (firstn n (Translator.pieces text))
       /\ forall t, out.1 = Ok (Some t) ->
            firstn n (Translator.pieces text) = Translator.pieces text
            /\ exists ts,
                 Forall2 (fun p t' => exists k, Translator.translate env k lang p = Ok t')
                         (Translator.pieces text) ts
                 /\ t = join " " ts.
Proof.
  cbv zeta.
  split; [|split; [apply pieces_join|split; [apply pieces_sizes|split; [apply pieces_sizes|]]]].
  { unfold Translator.translate_to_english, try_except.
    match goal with |- context [bind ?m ?k w] => destruct (bind m k w) as [[r|e] w'] end;
      cbn; eauto. }
  destruct (Translator.translate_to_english env text source_lang w) as [r w'] eqn:E.
  cbn [fst snd]. unfold Translator.translate_to_english, try_except in E.
  unfold bind at 1 in E.
  assert (Hquiet : forall r0, (r0, w) = (r, w') ->
            (forall t, r0 <> Ok (Some t)) ->
            exists lang n,
              Translator.calls w'
              = Translator.calls w
                ++ map (Translator.EvTranslate lang) (firstn n (Translator.pieces text))
              /\ forall t, r = Ok (Some t) ->
                   firstn n (Translator.pieces text) = Translator.pieces text
                   /\ exists ts,
                        Forall2 (fun p t' => exists k, Translator.translate env k lang p = Ok t')
                                (Translator.pieces text) ts
                        /\ t = join " " ts).
  { intros r0 [= <- <-] Hr. exists "", 0%nat. rewrite firstn_O, app_nil_r.
    split; [reflexivity|]. intros t Ht. now destruct (Hr t). }
  match type of E with context [match ?m w with _ => _ end] =>
    destruct (m w) as [[lang|e] w0] eqn:El end.
  2:{ assert (w0 = w) as ->.
      { destruct source_lang as [s|]; [destruct (nonempty s)|];
          unfold ret, lift in El; congruence. }
      cbn in E. apply (Hquiet _ E). discriminate. }
  assert (w0 = w) as ->.
  { destruct source_lang as [s|]; [destruct (nonempty s)|];
      unfold ret, lift in El; congruence. }
  destruct (String.eqb lang "en").
  { cbn in E. apply (Hquiet _ E). discriminate. }
  unfold bind at 1, lift at 1 in E.
  destruct (Translator.new_translator env lang) as [[]|e].
  2:{ cbn in E. apply (Hquiet _ E). discriminate. }
  unfold Translator.pieces.
  destruct (String.length text <=? Translator.max_length)%nat.
  - unfold bind, Translator.call_translate, ret in E.
    destruct (Translator.translate env (Translator.clock w) lang text) as [t|e] eqn:Et;
      cbn in E; injection E as <- <-; exists lang, 1%nat; cbn;
      (split; [reflexivity|]).
    + intros t' [= <-]. split; [reflexivity|]. exists [t].
      split; [|reflexivity]. constructor; [now exists (Translator.clock w) | constructor].
    + discriminate.
  - unfold bind in E.
    destruct (translate_chunks_run env lang (Translator.chunks text) w) as (n & Hc & Hok).
    cbv zeta in *.
    destruct (Translator.translate_chunks env lang (Translator.chunks text) w)
      as [[ts|e] w1]; cbn [fst snd ret] in *; cbn in E; injection E as <- <-;
      exists lang, n; (split; [exact Hc|]).
    + intros t [= <-]. destruct (Hok ts eq_refl) as [Hn Hf]. split; [exact Hn|].
      now exists ts.
    + discriminate.
Qed.

Lemma english_or_short_text_is_not_translated_witness :
  Translator.translate_to_english sample_translator "Hola, buenos dias." None
    sample_translator_world
  = (Ok None, sample_translator_world).
Proof.
  apply english_or_short_text_is_not_translated.
  right. split; [now left | vm_compute; discriminate].
Defined.
